(** * proxy-agents: tunnel establishment, pool accounting and bounded caches

    A shallow embedding of the connection layer of the proxy-agents
    packages (agent-base, http-proxy-agent, https-proxy-agent,
    socks-proxy-agent, proxy-agent) and the properties their design
    document states about them.

    Conventions.
    - A JavaScript [Map] keeps its entries in insertion order; it is an
      association list without duplicate keys ([JsMap]).
    - A JavaScript object used as a dictionary whose order is never
      observed ([agent.sockets]) is a [gmap].
    - Objects with identity (sockets, agents) are natural numbers handed out
      by an allocator counter.
    - [Date.now()] and counters are integers ([Z]).
    - Asynchronous code is cut at its suspension points: the part that runs
      before the [await] is one function, the continuation another, and the
      value the awaited promise settles with is an argument. *)

From stdpp Require Import base option list strings pretty gmap.
From Stdlib Require Import ZArith Lia Ascii.

Open Scope Z_scope.

(** ** JavaScript values that reach the code under study *)

Inductive jsval :=
| JUndefined
| JBool (b : bool)
| JString (s : string).

#[global] Instance jsval_eq_dec : EqDecision jsval.
Proof. solve_decision. Defined.

(** [ToBoolean]. *)
Definition truthy (v : jsval) : bool :=
  match v with
  | JUndefined => false
  | JBool b => b
  | JString s => negb (String.eqb s "")
  end.

Arguments truthy : simpl never.

(** [ToString], as a template literal applies it. *)
Definition to_string (v : jsval) : string :=
  match v with
  | JUndefined => "undefined"
  | JBool true => "true"
  | JBool false => "false"
  | JString s => s
  end.

(** [v || ''] inside a template literal. *)
Definition or_empty (v : jsval) : string :=
  if truthy v then to_string v else "".

(** The one-character string holding a double quote. *)
Definition dquote : string := String (ascii_of_nat 34) EmptyString.

(** [hay.indexOf(needle) !== -1]. *)
Fixpoint includes (needle hay : string) : bool :=
  if String.prefix needle hay then true
  else match hay with
       | EmptyString => false
       | String _ rest => includes needle rest
       end.

(** [s.replace(':', '')]: only the first occurrence is removed. *)
Fixpoint remove_first_colon (s : string) : string :=
  match s with
  | EmptyString => EmptyString
  | String c rest =>
      if Ascii.eqb c ":"%char then rest else String c (remove_first_colon rest)
  end.

(** ** JavaScript [Map]: an insertion-ordered dictionary *)

Module JsMap.
Section defs.
Context {V : Type}.

Definition t := list (string * V).

Fixpoint get (k : string) (m : t) : option V :=
  match m with
  | [] => None
  | (k', v) :: rest => if decide (k = k') then Some v else get k rest
  end.

Definition has (k : string) (m : t) : bool :=
  match get k m with Some _ => true | None => false end.

(** [m.set(k, v)]: an existing key keeps its position, a new key goes
    to the end. *)
Fixpoint set (k : string) (v : V) (m : t) : t :=
  match m with
  | [] => [(k, v)]
  | (k', v') :: rest =>
      if decide (k = k') then (k, v) :: rest else (k', v') :: set k v rest
  end.

Fixpoint delete (k : string) (m : t) : t :=
  match m with
  | [] => []
  | (k', v') :: rest =>
      if decide (k = k') then rest else (k', v') :: delete k rest
  end.

Definition size (m : t) : Z := Z.of_nat (length m).

(** [m.keys().next().value]. *)
Definition first_key (m : t) : option string :=
  match m with
  | [] => None
  | (k, _) :: _ => Some k
  end.

(** [m.delete(m.keys().next().value)]; deleting [undefined] from a map
    with string keys removes nothing. *)
Definition delete_first (m : t) : t :=
  match first_key m with
  | Some k => delete k m
  | None => m
  end.

Definition keys (m : t) : list string := m.*1.

Definition values (m : t) : list V := m.*2.

(** Keys are unique: every map built by [set] from the empty map is so. *)
Definition wf (m : t) : Prop := NoDup (keys m).
End defs.
Arguments t : clear implicits.
End JsMap.

(** ** agent-base: the abstract [Agent] and its pool accounting *)

Module AgentBase.

(** [maxSockets] and [maxTotalSockets] are numbers; the code only asks
    whether they are [Infinity]. *)
Inductive limit :=
| Finite (n : Z)
| Infinity.

(** A socket object, by identity. *)
Definition socket := nat.

(** The fields of [AgentConnectOpts] that the base class reads. *)
Record connect_opts := ConnectOpts {
  secureEndpoint : jsval;
  protocol : jsval;
}.

(** What [connect()] may hand back: a stream, another agent (whose
    [addRequest] may throw), or a falsy value. *)
Inductive conn_value :=
| VSocket (s : socket)
| VAgent (ag : nat) (addRequest_throws : option string)
| VFalsy.

(** How the call to [connect()] itself ends. *)
Inductive connect_return :=
| Returns (v : conn_value)
| ReturnsPromise
| Throws (err : string).

(** How a promise settles. *)
Inductive settlement :=
| Fulfilled (v : conn_value)
| Rejected (err : string).

(** Calls made by [createSocket], in program order. *)
Inductive event :=
| EvIncrement (name : string) (fake : option socket)
| EvConnect
| EvDecrement (name : string) (fake : option socket)
| EvAddRequest (ag : nat)
| EvCallback (err : string)
| EvSuperCreateSocket
| EvCallbackSocket (s : socket)
| EvThrown (err : string).

Record agent := Agent {
  maxSockets : limit;
  maxTotalSockets : limit;
  sockets : gmap string (list socket);
  totalSocketCount : Z;
  cachedSecureEndpoint : option bool;
  cachedEndpointKey : option string;
  currentSocket : option socket;
  next_socket : socket;
  trace : list event;
}.

Definition with_endpoint_cache (k : string) (b : bool) (a : agent) : agent :=
  Agent (maxSockets a) (maxTotalSockets a) (sockets a) (totalSocketCount a)
        (Some b) (Some k) (currentSocket a) (next_socket a) (trace a).

Definition with_pool (m : gmap string (list socket)) (n : Z) (a : agent)
  : agent :=
  Agent (maxSockets a) (maxTotalSockets a) m n
        (cachedSecureEndpoint a) (cachedEndpointKey a) (currentSocket a)
        (next_socket a) (trace a).

Definition with_currentSocket (s : option socket) (a : agent) : agent :=
  Agent (maxSockets a) (maxTotalSockets a) (sockets a) (totalSocketCount a)
        (cachedSecureEndpoint a) (cachedEndpointKey a) s
        (next_socket a) (trace a).

(** [new net.Socket(...)]: a socket nobody has seen yet. *)
Definition alloc_socket (a : agent) : socket * agent :=
  (next_socket a,
   Agent (maxSockets a) (maxTotalSockets a) (sockets a) (totalSocketCount a)
         (cachedSecureEndpoint a) (cachedEndpointKey a) (currentSocket a)
         (S (next_socket a)) (trace a)).

Definition log (e : event) (a : agent) : agent :=
  Agent (maxSockets a) (maxTotalSockets a) (sockets a) (totalSocketCount a)
        (cachedSecureEndpoint a) (cachedEndpointKey a) (currentSocket a)
        (next_socket a) (trace a ++ [e]).

(** *** [isSecureEndpoint] *)

(** The two explicit answers: a boolean [secureEndpoint], else a string
    [protocol]. *)
Definition explicit_answer (options : option connect_opts) : option bool :=
  match options with
  | Some o =>
      match secureEndpoint o with
      | JBool b => Some b
      | _ =>
          match protocol o with
          | JString p => Some (String.eqb p "https:")
          | _ => None
          end
      end
  | None => None
  end.

Definition cache_key (options : option connect_opts) : string :=
  match options with
  | Some o => or_empty (protocol o) +:+ ":" +:+ or_empty (secureEndpoint o)
  | None => "no-options"
  end.

(** The inspection of [new Error().stack]; [None] is a stack that is not a
    string. *)
Definition stack_result (stack : option string) : bool :=
  match stack with
  | Some s => includes "(https.js:" s || includes "node:https:" s
  | None => false
  end.

Definition isSecureEndpoint (options : option connect_opts)
    (stack : option string) (a : agent) : bool * agent :=
  match explicit_answer options with
  | Some b => (b, a)
  | None =>
      let cacheKey := cache_key options in
      let compute :=
        let result := stack_result stack in
        (result, with_endpoint_cache cacheKey result a) in
      match cachedEndpointKey a, cachedSecureEndpoint a with
      | Some k, Some b => if decide (k = cacheKey) then (b, a) else compute
      | _, _ => compute
      end
  end.

(** *** [incrementSockets] and [decrementSockets] *)

Definition incrementSockets (name : string) (a : agent)
  : option socket * agent :=
  match maxSockets a, maxTotalSockets a with
  | Infinity, Infinity => (None, a)
  | _, _ =>
      let arr := default [] (sockets a !! name) in
      let '(fakeSocket, a) := alloc_socket a in
      (Some fakeSocket,
       with_pool (<[name := arr ++ [fakeSocket]]> (sockets a))
                 (totalSocketCount a + 1) a)
  end.

(** [arr.indexOf(s)] followed by [arr.splice(index, 1)]; [None] when
    [indexOf] answers -1. *)
Fixpoint splice_first (s : socket) (arr : list socket)
  : option (list socket) :=
  match arr with
  | [] => None
  | x :: rest =>
      if decide (x = s) then Some rest
      else (fun r => x :: r) <$> splice_first s rest
  end.

Definition decrementSockets (name : string) (sock : option socket)
    (a : agent) : agent :=
  match sockets a !! name, sock with
  | Some arr, Some s =>
      match splice_first s arr with
      | Some arr' =>
          let m := match arr' with
                   | [] => delete name (sockets a)
                   | _ => <[name := arr']> (sockets a)
                   end in
          with_pool m (totalSocketCount a - 1) a
      | None => a
      end
  | _, _ => a
  end.

(** *** [createConnection], [getName] and [createSocket] *)

(** [createConnection]: gives the stored stream away and forgets it;
    [None] stands for the error thrown when no stream is stored. *)
Definition createConnection (a : agent) : option socket * agent :=
  (currentSocket a, with_currentSocket None a).

(** What Node's own [createSocket] brings along when the source calls it
    through [super]: the options it works on, which are
    [{ ...options, ...this.options }], and the call stack at its
    [this.getName(options)]. *)
Record super_call := SuperCall {
  super_options : connect_opts;
  super_stack : option string;
}.

Section create.
(** Node's own [http.Agent.prototype.getName] and
    [https.Agent.prototype.getName]. *)
Variables (httpGetName httpsGetName : connect_opts → string).

Definition getName (options : connect_opts) (stack : option string)
    (a : agent) : string * agent :=
  let '(secure, a) := isSecureEndpoint (Some options) stack a in
  (if secure then httpsGetName options else httpGetName options, a).

(** What is left to do when the promise returned by [connect()]
    settles. *)
Record pending := Pending {
  p_name : string;
  p_fakeSocket : option socket;
}.

Inductive create_result :=
| Completed
| Awaiting (p : pending)
| Threw (err : string).

(** [super.createSocket(req, options, cb)]: Node's
    [http.Agent.prototype.createSocket], after [lib/_http_agent.js]. It
    asks [this.getName] for the pool name and [this.createConnection] for
    the stream, both of which are the methods of this class; given a
    stream it pushes it under that name, raises [totalSocketCount] and
    calls back with it. When [createConnection] throws, the exception
    leaves [createSocket] with nothing pushed and no callback made. *)
Definition super_createSocket (sc : super_call) (a : agent) : agent :=
  let a := log EvSuperCreateSocket a in
  let '(name, a) := getName (super_options sc) (super_stack sc) a in
  match createConnection a with
  | (Some s, a) =>
      let arr := default [] (sockets a !! name) in
      log (EvCallbackSocket s)
          (with_pool (<[name := arr ++ [s]]> (sockets a))
                     (totalSocketCount a + 1) a)
  | (None, a) =>
      log (EvThrown "No socket was returned in the `connect()` function") a
  end.

(** The part shared by the synchronous fast path and the fulfilment
    handler, after [decrementSockets]. *)
Definition hand_over (v : conn_value) (sc : super_call) (a : agent)
  : agent :=
  match v with
  | VAgent ag throws =>
      let a := log (EvAddRequest ag) a in
      match throws with
      | Some err => log (EvCallback err) a
      | None => a
      end
  | VSocket s => super_createSocket sc (with_currentSocket (Some s) a)
  | VFalsy => super_createSocket sc (with_currentSocket None a)
  end.

(** [createSocket] down to the call of [incrementSockets]. *)
Definition reserve (options : connect_opts) (stack : option string)
    (a : agent) : connect_opts * string * option socket * agent :=
  let '(secure, a) := isSecureEndpoint (Some options) stack a in
  let connectOpts :=
    if decide (secureEndpoint options = JBool secure) then options
    else ConnectOpts (JBool secure) (protocol options) in
  let '(name, a) := getName connectOpts stack a in
  let '(fakeSocket, a) := incrementSockets name a in
  (connectOpts, name, fakeSocket, log (EvIncrement name fakeSocket) a).

(** [r] is how the call [this.connect(req, connectOpts)] ends; [sc] is
    used by the call of [super.createSocket], if it comes to that. *)
Definition createSocket (options : connect_opts) (stack : option string)
    (r : connect_return) (sc : super_call) (a : agent)
  : create_result * agent :=
  let '(connectOpts, name, fakeSocket, a) := reserve options stack a in
  let a := log EvConnect a in
  match r with
  | Throws err => (Threw err, a)
  | Returns (VSocket _ as v) | Returns (VAgent _ _ as v) =>
      let a := decrementSockets name fakeSocket a in
      let a := log (EvDecrement name fakeSocket) a in
      (Completed, hand_over v sc a)
  | Returns VFalsy | ReturnsPromise =>
      (Awaiting (Pending name fakeSocket), a)
  end.

(** The two handlers passed to [then]. *)
Definition settle (p : pending) (s : settlement) (sc : super_call)
    (a : agent) : agent :=
  let a := decrementSockets (p_name p) (p_fakeSocket p) a in
  let a := log (EvDecrement (p_name p) (p_fakeSocket p)) a in
  match s with
  | Fulfilled v => hand_over v sc a
  | Rejected err => log (EvCallback err) a
  end.
End create.

End AgentBase.

(** ** socks-proxy-agent *)

Module Socks.

Definition socket := nat.

Definition MAX_POOL_SIZE : Z := 100.
Definition DNS_CACHE_TTL : Z := 5 * 60 * 1000.
Definition MAX_SOCKETS_PER_HOST : Z := 10.
Definition SOCKET_IDLE_TIMEOUT : Z := 30000.

Record DNSCacheEntry := DnsEntry {
  address : string;
  timestamp : Z;
}.

Record SocketCacheEntry := SocketEntry {
  entry_socket : socket;
  lastUsed : Z;
  inUse : bool;
}.

(** The fields of a WHATWG [URL] that the parser reads. [url_port] is
    [parseInt(url.port, 10)], with [None] for [NaN]. *)
Record URL := Url {
  url_protocol : string;
  url_hostname : string;
  url_port : option Z;
  url_username : string;
  url_password : string;
}.

Record SocksProxy := Proxy {
  proxy_host : string;
  proxy_port : Z;
  proxy_type : Z;
  userId : option string;
  password : option string;
}.

Section parse.
(** [decodeURIComponent]; [None] is the [URIError] it throws for a
    malformed percent escape. *)
Variable decodeURIComponent : string → option string.

Definition URIError : string := "URI malformed".

(** [parseInt(url.port, 10) || 1080]. *)
Definition port_or_default (p : option Z) : Z :=
  match p with
  | Some n => if decide (n = 0) then 1080 else n
  | None => 1080
  end.

(** The [switch] over the scheme: [(lookup, type)], or nothing for the
    [default] branch. *)
Definition scheme_switch (scheme : string) : option (bool * Z) :=
  if decide (scheme = "socks4") then Some (true, 4)
  else if decide (scheme = "socks4a") then Some (false, 4)
  else if decide (scheme = "socks5") then Some (true, 5)
  else if decide (scheme = "socks") then Some (false, 5)
  else if decide (scheme = "socks5h") then Some (false, 5)
  else None.

(** [inl msg] is the error thrown: the [TypeError] of the [default]
    branch, or the [URIError] of a [decodeURIComponent] call. The user
    name is decoded before the password, and only when it is not
    empty. *)
Definition parseSocksURL (url : URL) : string + (bool * SocksProxy) :=
  let host := url_hostname url in
  let port := port_or_default (url_port url) in
  match scheme_switch (remove_first_colon (url_protocol url)) with
  | None =>
      inl ("A " +:+ dquote +:+ "socks" +:+ dquote
           +:+ " protocol must be specified! Got: " +:+ url_protocol url)
  | Some (lookup, type) =>
      let userId :=
        if truthy (JString (url_username url))
        then match decodeURIComponent (url_username url) with
             | Some u => inr (Some u)
             | None => inl URIError
             end
        else inr None in
      match userId with
      | inl err => inl err
      | inr userId =>
          match decodeURIComponent (url_password url) with
          | Some pw => inr (lookup, Proxy host port type userId (Some pw))
          | None => inl URIError
          end
      end
  end.

(** The options of the constructor that [connect] reads; [None] is an
    option left out. *)
Record SocksProxyAgentOptions := AgentOptions {
  opt_timeout : option Z;
  opt_enablePooling : option bool;
  opt_enableDNSCache : option bool;
  opt_enableSocketCache : option bool;
  opt_enableAuthCache : option bool;
}.

Record SocksProxyAgent := SocksAgent {
  shouldLookup : bool;
  proxy : SocksProxy;
  timeout : option Z;
  enablePooling : bool;
  enableDNSCache : bool;
  enableSocketCache : bool;
  enableAuthCache : bool;
  poolKey : string;
}.

(** [x !== false]. *)
Definition not_false (x : option bool) : bool :=
  match x with Some false => false | _ => true end.

(** [x === true]. *)
Definition is_true (x : option bool) : bool :=
  match x with Some true => true | _ => false end.

Definition pool_key (p : SocksProxy) : string :=
  proxy_host p +:+ ":" +:+ pretty (proxy_port p) +:+ ":"
    +:+ pretty (proxy_type p).

(** The constructor; the error of [parseSocksURL] leaves it
    synchronously. *)
Definition new_agent (url : URL) (opts : option SocksProxyAgentOptions)
  : string + SocksProxyAgent :=
  match parseSocksURL url with
  | inl err => inl err
  | inr (lookup, proxy) =>
      inr (SocksAgent lookup proxy
             (opts ≫= opt_timeout)
             (not_false (opts ≫= opt_enablePooling))
             (not_false (opts ≫= opt_enableDNSCache))
             (is_true (opts ≫= opt_enableSocketCache))
             (not_false (opts ≫= opt_enableAuthCache))
             (pool_key proxy))
  end.

(** [SocksProxyAgent.getAgent] over the module-level [agentPool]. *)
Definition getAgent (url : URL) (opts : option SocksProxyAgentOptions)
    (agentPool : JsMap.t SocksProxyAgent)
  : (string + SocksProxyAgent) * JsMap.t SocksProxyAgent :=
  match parseSocksURL url with
  | inl err => (inl err, agentPool)
  | inr (_, proxy) =>
      let poolKey := pool_key proxy in
      if not_false (opts ≫= opt_enablePooling) then
        match JsMap.get poolKey agentPool with
        | Some agent => (inr agent, agentPool)
        | None =>
            match new_agent url opts with
            | inl err => (inl err, agentPool)
            | inr agent =>
                let agentPool :=
                  if decide (MAX_POOL_SIZE ≤ JsMap.size agentPool)
                  then JsMap.delete_first agentPool else agentPool in
                (inr agent, JsMap.set poolKey agent agentPool)
            end
        end
      else (new_agent url opts, agentPool)
  end.
End parse.

(** The module-level caches, the sockets known to be destroyed, and the
    hosts handed to the resolver so far. *)
Record world := World {
  dnsCache : JsMap.t DNSCacheEntry;
  socketCache : JsMap.t (list SocketCacheEntry);
  destroyed : gset socket;
  lookups : list string;
}.

Definition with_dnsCache (c : JsMap.t DNSCacheEntry) (w : world) : world :=
  World c (socketCache w) (destroyed w) (lookups w).

Definition with_socketCache (c : JsMap.t (list SocketCacheEntry))
    (w : world) : world :=
  World (dnsCache w) c (destroyed w) (lookups w).

Definition destroy_socket (s : socket) (w : world) : world :=
  World (dnsCache w) (socketCache w) ({[ s ]} ∪ destroyed w) (lookups w).

Definition call_resolver (h : string) (w : world) : world :=
  World (dnsCache w) (socketCache w) (destroyed w) (lookups w ++ [h]).

(** [cleanDNSCache], run by the one-minute timer. *)
Definition cleanDNSCache (now : Z) (w : world) : world :=
  with_dnsCache
    (filter (λ kv, ¬ (now - timestamp kv.2 > DNS_CACHE_TTL)) (dnsCache w)) w.

(** The request options that [connect] reads. *)
Record connect_opts := ConnectOpts {
  host : string;
  port : Z;
  secureEndpoint : bool;
}.

(** The resolver in use ([opts.lookup] or [dns.lookup]): an error or an
    address. *)
Definition resolver := string → string + string.

(** The DNS stage of [connect]: from the [shouldLookup] test to the value
    of [host] when the [await] is over. [now] is the clock at the cache
    test, [now_cb] the clock when the resolver calls back. *)
Definition resolve_host (agent : SocksProxyAgent) (opts : connect_opts)
    (lookupFn : resolver) (now now_cb : Z) (w : world)
  : (string + string) * world :=
  let host := host opts in
  if shouldLookup agent then
    if enableDNSCache agent then
      match JsMap.get host (dnsCache w) with
      | Some cached =>
          if decide (now - timestamp cached < DNS_CACHE_TTL)
          then (inr (address cached), w)
          else
            let w := call_resolver host w in
            match lookupFn host with
            | inl err => (inl err, w)
            | inr res =>
                (inr res,
                 with_dnsCache
                   (JsMap.set host (DnsEntry res now_cb) (dnsCache w)) w)
            end
      | None =>
          let w := call_resolver host w in
          match lookupFn host with
          | inl err => (inl err, w)
          | inr res =>
              (inr res,
               with_dnsCache
                 (JsMap.set host (DnsEntry res now_cb) (dnsCache w)) w)
          end
      end
    else
      let w := call_resolver host w in
      (lookupFn host, w)
  else (inr host, w).

(** [entries.find(e => !e.inUse && !e.socket.destroyed)], marking the
    entry found as in use. *)
Fixpoint take_available (now : Z) (dead : gset socket)
    (entries : list SocketCacheEntry)
  : option (socket * list SocketCacheEntry) :=
  match entries with
  | [] => None
  | e :: rest =>
      if negb (inUse e) && bool_decide (entry_socket e ∉ dead)
      then Some (entry_socket e, SocketEntry (entry_socket e) now true :: rest)
      else
        match take_available now dead rest with
        | Some (s, rest') => Some (s, e :: rest')
        | None => None
        end
  end.

Definition getCachedSocket (cacheKey : string) (now : Z) (w : world)
  : option socket * world :=
  match JsMap.get cacheKey (socketCache w) with
  | None => (None, w)
  | Some entries =>
      match take_available now (destroyed w) entries with
      | Some (s, entries') =>
          (Some s,
           with_socketCache (JsMap.set cacheKey entries' (socketCache w)) w)
      | None => (None, w)
      end
  end.

(** [cacheSocket]. *)
Definition cacheSocket (cacheKey : string) (s : socket) (now : Z)
    (w : world) : world :=
  let entries := default [] (JsMap.get cacheKey (socketCache w)) in
  let '(entries, w) :=
    if decide (MAX_SOCKETS_PER_HOST ≤ Z.of_nat (length entries)) then
      match entries with
      | oldest :: rest =>
          (rest,
           if inUse oldest then w else destroy_socket (entry_socket oldest) w)
      | [] => (entries, w)
      end
    else (entries, w) in
  with_socketCache
    (JsMap.set cacheKey (entries ++ [SocketEntry s now false])
       (socketCache w)) w.

(** [releaseSocket]. *)
Fixpoint release_entry (now : Z) (s : socket)
    (entries : list SocketCacheEntry) : list SocketCacheEntry :=
  match entries with
  | [] => []
  | e :: rest =>
      if decide (entry_socket e = s)
      then SocketEntry (entry_socket e) now false :: rest
      else e :: release_entry now s rest
  end.

Definition releaseSocket (cacheKey : string) (s : socket) (now : Z)
    (w : world) : world :=
  match JsMap.get cacheKey (socketCache w) with
  | Some entries =>
      with_socketCache
        (JsMap.set cacheKey (release_entry now s entries) (socketCache w)) w
  | None => w
  end.

(** What [SocksClient.createConnection] is asked for. *)
Record SocksClientOptions := SocksOpts {
  so_proxy : SocksProxy;
  so_destination_host : string;
  so_destination_port : Z;
  so_timeout : option Z;
}.

(** Where [connect] stands once the DNS stage and the socket cache have
    been passed: rejected, serving a cached socket (wrapped in TLS or not),
    or about to start the SOCKS handshake. *)
Inductive connect_step :=
| Reject (err : string)
| Reuse (s : socket) (tls : bool)
| Handshake (socksOpts : SocksClientOptions).

Definition connect (agent : SocksProxyAgent) (opts : connect_opts)
    (lookupFn : resolver) (now now_cb : Z) (w : world)
  : connect_step * world :=
  if negb (truthy (JString (host opts))) then
    (Reject "No `host` defined!", w)
  else
    match resolve_host agent opts lookupFn now now_cb w with
    | (inl err, w) => (Reject err, w)
    | (inr host, w) =>
        let proxy := proxy agent in
        let cacheKey :=
          proxy_host proxy +:+ ":" +:+ pretty (proxy_port proxy) +:+ ":"
            +:+ host +:+ ":" +:+ pretty (port opts) in
        let handshake :=
          Handshake (SocksOpts proxy host (port opts) (timeout agent)) in
        if enableSocketCache agent then
          match getCachedSocket cacheKey now_cb w with
          | (Some cachedSocket, w') =>
              if bool_decide (cachedSocket ∉ destroyed w')
              then (Reuse cachedSocket (secureEndpoint opts), w')
              else (handshake, w')
          | (None, w') => (handshake, w')
          end
        else (handshake, w)
    end.

End Socks.

(** ** lru-cache, the dependency behind [ProxyAgent.cache]

    The package is not part of the repository. The model follows its
    documented contract for the options the repository passes ([max] and
    [dispose]): [get] refreshes an entry, [set] on a full cache evicts the
    least recently used entry, and [dispose] is called on every value that
    leaves the cache, whether evicted, overwritten by [set], or removed by
    [delete] or [clear]. Each operation returns the values it disposed
    of, in order. *)

Module LRU.
Section defs.
Context {V : Type} `{EqDecision V}.

(** [items] runs from the least to the most recently used entry. *)
Record t := Cache {
  max : Z;
  items : JsMap.t V;
}.

Definition empty (max : Z) : t := Cache max [].

Definition size (c : t) : Z := JsMap.size (items c).

Definition get (k : string) (c : t) : option V * t :=
  match JsMap.get k (items c) with
  | Some v => (Some v, Cache (max c) (JsMap.delete k (items c) ++ [(k, v)]))
  | None => (None, c)
  end.

Definition set (k : string) (v : V) (c : t) : t * list V :=
  match JsMap.get k (items c) with
  | Some old =>
      (Cache (max c) (JsMap.delete k (items c) ++ [(k, v)]),
       if decide (old = v) then [] else [old])
  | None =>
      if decide (max c ≤ size c) then
        match items c with
        | (_, lru) :: rest => (Cache (max c) (rest ++ [(k, v)]), [lru])
        | [] => (Cache (max c) [(k, v)], [])
        end
      else (Cache (max c) (items c ++ [(k, v)]), [])
  end.

(** [forEach] visits the most recently used entry first. *)
Definition forEach_order (c : t) : list V := reverse (JsMap.values (items c)).

Definition clear (c : t) : t * list V :=
  (Cache (max c) [], JsMap.values (items c)).
End defs.
Arguments t : clear implicits.
End LRU.

(** ** proxy-agent: the dispatcher *)

Module Dispatcher.

(** An agent object, by identity. *)
Definition agent_id := nat.

Definition VALID_PROTOCOLS : list string :=
  ["http"; "https"; "socks"; "socks4"; "socks4a"; "socks5"; "socks5h";
   "pac+data"; "pac+file"; "pac+ftp"; "pac+http"; "pac+https"].

Definition isValidProtocol (v : string) : bool :=
  bool_decide (v ∈ VALID_PROTOCOLS).

Inductive agent_ctor :=
| HttpProxyAgent
| HttpsProxyAgent
| SocksProxyAgent
| PacProxyAgent.

#[global] Instance agent_ctor_eq_dec : EqDecision agent_ctor.
Proof. solve_decision. Defined.

(** The table [proxies]: the constructors for a plain and for a secure
    (or WebSocket) request. *)
Definition proxies (proto : string) : agent_ctor * agent_ctor :=
  if bool_decide (proto ∈ ["http"; "https"])
  then (HttpProxyAgent, HttpsProxyAgent)
  else if bool_decide
            (proto ∈ ["socks"; "socks4"; "socks4a"; "socks5"; "socks5h"])
  then (SocksProxyAgent, SocksProxyAgent)
  else (PacProxyAgent, PacProxyAgent).

Definition maxProxyCacheSize : Z := 100.

(** [destroyed] lists every call of [destroy()] on an agent object, in
    order; [constructed] lists the agents built by [connect]. *)
Record ProxyAgent := Dispatcher {
  cache : LRU.t agent_id;
  proxyResolutionCache : JsMap.t string;
  agentConstructorCache : JsMap.t agent_ctor;
  httpAgent : agent_id;
  httpsAgent : agent_id;
  next_agent : agent_id;
  constructed : list (agent_id * agent_ctor * string);
  destroyed : list agent_id;
}.

(** The constructor: two default agents (taken from the options or made
    anew) and empty caches. *)
Definition new_ProxyAgent (httpAgent httpsAgent next : agent_id)
  : ProxyAgent :=
  Dispatcher (LRU.empty 50) [] [] httpAgent httpsAgent next [] [].

Definition with_proxyResolutionCache (m : JsMap.t string) (d : ProxyAgent)
  : ProxyAgent :=
  Dispatcher (cache d) m (agentConstructorCache d) (httpAgent d)
             (httpsAgent d) (next_agent d) (constructed d) (destroyed d).

Definition with_cache (c : LRU.t agent_id) (d : ProxyAgent) : ProxyAgent :=
  Dispatcher c (proxyResolutionCache d) (agentConstructorCache d)
             (httpAgent d) (httpsAgent d) (next_agent d) (constructed d)
             (destroyed d).

Definition with_agentConstructorCache (m : JsMap.t agent_ctor)
    (d : ProxyAgent) : ProxyAgent :=
  Dispatcher (cache d) (proxyResolutionCache d) m (httpAgent d)
             (httpsAgent d) (next_agent d) (constructed d) (destroyed d).

(** [agent.destroy()] on each agent of [l], in order. *)
Definition destroy_all (l : list agent_id) (d : ProxyAgent) : ProxyAgent :=
  Dispatcher (cache d) (proxyResolutionCache d) (agentConstructorCache d)
             (httpAgent d) (httpsAgent d) (next_agent d) (constructed d)
             (destroyed d ++ l).

(** [new ctor(proxy, this.connectOpts)]. *)
Definition construct (ctor : agent_ctor) (proxy : string) (d : ProxyAgent)
  : agent_id * ProxyAgent :=
  (next_agent d,
   Dispatcher (cache d) (proxyResolutionCache d) (agentConstructorCache d)
              (httpAgent d) (httpsAgent d) (S (next_agent d))
              (constructed d ++ [(next_agent d, ctor, proxy)])
              (destroyed d)).

(** The request fields that [connect] reads. *)
Record request := Request {
  upgrade_is_websocket : bool;
  header_host : string;
  path : string;
}.

Inductive connect_result :=
| Direct (a : agent_id)
| Proxied (a : agent_id)
| Failed (msg : string).

(** The falsy answers of a resolver are [None] ([undefined] or [null]) and
    the empty string. *)
Definition is_proxy (proxy : option string) : bool :=
  match proxy with
  | Some p => truthy (JString p)
  | None => false
  end.

Section connect.
(** [new URL(path, base).href], and [new URL(proxy).protocol] ([None]
    when the constructor throws). *)
Variable href : string → string → string.
Variable protocol_of : string → option string.

Definition request_protocol (secureEndpoint isWebSocket : bool) : string :=
  if secureEndpoint
  then (if isWebSocket then "wss:" else "https:")
  else (if isWebSocket then "ws:" else "http:").

Definition request_url (req : request) (secureEndpoint : bool) : string :=
  href (path req)
    (request_protocol secureEndpoint (upgrade_is_websocket req)
       +:+ "//" +:+ header_host req).

(** Up to the test [if (!proxy)]: the proxy for [url] and the
    resolution cache afterwards. [resolved] is what
    [await this.getProxyForUrl(url, req)] yields if it is called. *)
Definition resolve_proxy (url : string) (resolved : option string)
    (d : ProxyAgent) : option string * ProxyAgent :=
  if JsMap.has url (proxyResolutionCache d) then
    (JsMap.get url (proxyResolutionCache d), d)
  else
    let proxy := resolved in
    match proxy with
    | Some p =>
        if truthy (JString p) then
          let m := proxyResolutionCache d in
          let m :=
            if decide (maxProxyCacheSize ≤ JsMap.size m) then
              match JsMap.first_key m with
              | Some firstKey =>
                  if truthy (JString firstKey)
                  then JsMap.delete firstKey m else m
              | None => m
              end
            else m in
          (proxy, with_proxyResolutionCache (JsMap.set url p m) d)
        else (proxy, d)
    | None => (proxy, d)
    end.

(** From [const cacheKey] to the end: fetch or build the agent for
    [proxy]. Values disposed of by the cache are destroyed. *)
Definition agent_for (secureEndpoint isWebSocket : bool) (proxy : string)
    (d : ProxyAgent) : connect_result * ProxyAgent :=
  let cacheKey :=
    request_protocol secureEndpoint isWebSocket +:+ "+" +:+ proxy in
  match LRU.get cacheKey (cache d) with
  | (Some agent, c) => (Proxied agent, with_cache c d)
  | (None, c) =>
      let d := with_cache c d in
      match protocol_of proxy with
      | None => (Failed "Invalid URL", d)
      | Some proto =>
          let proxyProto := remove_first_colon proto in
          if negb (isValidProtocol proxyProto) then
            (Failed ("Unsupported protocol for proxy URL: " +:+ proxy), d)
          else
            let ctorIndex := secureEndpoint || isWebSocket in
            let constructorKey :=
              proxyProto +:+ ":" +:+ (if ctorIndex then "1" else "0") in
            let '(ctor, d) :=
              match JsMap.get constructorKey (agentConstructorCache d) with
              | Some ctor => (ctor, d)
              | None =>
                  let ctor :=
                    if ctorIndex then (proxies proxyProto).2
                    else (proxies proxyProto).1 in
                  (ctor,
                   with_agentConstructorCache
                     (JsMap.set constructorKey ctor
                        (agentConstructorCache d)) d)
              end in
            let '(agent, d) := construct ctor proxy d in
            let '(c, disposed) := LRU.set cacheKey agent (cache d) in
            (Proxied agent, destroy_all disposed (with_cache c d))
      end
  end.

Definition connect (req : request) (secureEndpoint : bool)
    (resolved : option string) (d : ProxyAgent)
  : connect_result * ProxyAgent :=
  let isWebSocket := upgrade_is_websocket req in
  let url := request_url req secureEndpoint in
  let '(proxy, d) := resolve_proxy url resolved d in
  match proxy with
  | Some p =>
      if truthy (JString p)
      then agent_for secureEndpoint isWebSocket p d
      else (Direct (if secureEndpoint then httpsAgent d else httpAgent d), d)
  | None =>
      (Direct (if secureEndpoint then httpsAgent d else httpAgent d), d)
  end.
End connect.

(** [destroy()]; the call of [super.destroy()] concerns the sockets of the
    dispatcher itself. *)
Definition destroy (d : ProxyAgent) : ProxyAgent :=
  let d := destroy_all (LRU.forEach_order (cache d)) d in
  let '(c, disposed) := LRU.clear (cache d) in
  let d := destroy_all disposed (with_cache c d) in
  let d := with_proxyResolutionCache [] d in
  let d := with_agentConstructorCache [] d in
  let d := destroy_all [httpAgent d] d in
  destroy_all [httpsAgent d] d.

End Dispatcher.

(** ** Header objects and the header store of a request *)

(** An [OutgoingHttpHeaders] object: property order is insertion order. *)
Definition headers := JsMap.t jsval.

Definition lower_ascii (c : ascii) : ascii :=
  let n := nat_of_ascii c in
  if ((65 <=? n) && (n <=? 90))%nat then ascii_of_nat (n + 32) else c.

Fixpoint toLowerCase (s : string) : string :=
  match s with
  | EmptyString => EmptyString
  | String c rest => String (lower_ascii c) (toLowerCase rest)
  end.

(** Node keeps the headers of a [ClientRequest] under their lower-cased
    names: [req.getHeader] and [req.setHeader]. *)
Definition getHeader (name : string) (store : headers) : jsval :=
  default JUndefined (JsMap.get (toLowerCase name) store).

Definition setHeader (name : string) (value : jsval) (store : headers)
  : headers :=
  JsMap.set (toLowerCase name) value store.

Definition crlf : string :=
  String (ascii_of_nat 13) (String (ascii_of_nat 10) EmptyString).

(** [proxyHeaders]: an object, or a function called at each use. *)
Inductive header_source :=
| StaticHeaders (h : headers)
| HeaderFunction (produces : headers).

Definition is_function (p : header_source) : bool :=
  match p with
  | StaticHeaders _ => false
  | HeaderFunction _ => true
  end.

(** [typeof p === 'function' ? p() : { ...p }]. *)
Definition fresh_headers (p : header_source) : headers :=
  match p with
  | StaticHeaders h => h
  | HeaderFunction h => h
  end.

(** ** http-proxy-agent: forward proxying *)

Module HttpProxy.

Definition URL_CACHE_SIZE : Z := 100.
Definition KEEP_ALIVE_HEADER : string := "Keep-Alive".
Definition CLOSE_HEADER : string := "close".

Record HttpProxyAgent := Agent {
  proxyHeaders : header_source;
  cachedAuthHeader : option string;
  cachedProxyConnection : string;
}.

Section agent.
(** [decodeURIComponent], [Buffer.from(s).toString('base64')], and
    [String(url)] for [url = new URL(path, base)] with its port set to
    [port] when one is given. *)
Variable decodeURIComponent : string → string.
Variable base64 : string → string.
Variable absolute_url : string → string → option Z → string.

(** The header values computed once by the constructor. *)
Definition new_agent (username password : string) (keepAlive : bool)
    (hdrs : option header_source) : HttpProxyAgent :=
  Agent (default (StaticHeaders []) hdrs)
        (if truthy (JString username) || truthy (JString password)
         then Some ("Basic " +:+ base64 (decodeURIComponent username +:+ ":"
                                         +:+ decodeURIComponent password))
         else None)
        (if keepAlive then KEEP_ALIVE_HEADER else CLOSE_HEADER).

Record request := Request {
  path : string;
  store : headers;
}.

Record connect_opts := ConnectOpts {
  secureEndpoint : bool;
  port : Z;
}.

(** The absolute URL for the request, through the module-level
    [urlCache]. *)
Definition cached_url (req : request) (opts : connect_opts)
    (urlCache : JsMap.t string) : string * JsMap.t string :=
  let protocol := if secureEndpoint opts then "https:" else "http:" in
  let hostname :=
    if truthy (getHeader "host" (store req))
    then to_string (getHeader "host" (store req)) else "localhost" in
  let base := protocol +:+ "//" +:+ hostname in
  let cacheKey := base +:+ path req +:+ pretty (port opts) in
  match JsMap.get cacheKey urlCache with
  | Some url => (url, JsMap.set cacheKey url (JsMap.delete cacheKey urlCache))
  | None =>
      let url :=
        absolute_url (path req) base
          (if decide (port opts = 80) then None else Some (port opts)) in
      let urlCache :=
        if decide (URL_CACHE_SIZE ≤ JsMap.size urlCache)
        then JsMap.delete_first urlCache else urlCache in
      (url, JsMap.set cacheKey url urlCache)
  end.

(** The header object after the two defaults have been put in. *)
Definition merged_headers (agent : HttpProxyAgent) : headers :=
  let headers := fresh_headers (proxyHeaders agent) in
  let headers :=
    match cachedAuthHeader agent with
    | Some auth =>
        if truthy (JString auth)
        then JsMap.set "Proxy-Authorization" (JString auth) headers
        else headers
    | None => headers
    end in
  if negb (truthy (default JUndefined (JsMap.get "Proxy-Connection" headers)))
  then JsMap.set "Proxy-Connection" (JString (cachedProxyConnection agent))
         headers
  else headers.

(** [for (const name in headers) if (value) req.setHeader(name, value)]. *)
Definition set_all (hs : headers) (st : headers) : headers :=
  fold_left
    (λ st nv, if truthy nv.2 then setHeader nv.1 nv.2 st else st) hs st.

Definition setRequestProps (agent : HttpProxyAgent) (req : request)
    (opts : connect_opts) (urlCache : JsMap.t string)
  : request * JsMap.t string :=
  let '(url, urlCache) := cached_url req opts urlCache in
  (Request url (set_all (merged_headers agent) (store req)), urlCache).
End agent.

End HttpProxy.

(** ** https-proxy-agent: CONNECT tunnelling *)

Module HttpsProxy.

Definition socket := nat.

Definition CACHE_MAX_SIZE : Z := 100.
Definition CACHE_TTL : Z := 300000.

(** How a socket came to be: [net.connect], [tls.connect] (with the
    session offered for resumption, and the socket it runs over when it
    upgrades one), or [new net.Socket({ writable: false })]. *)
Inductive sock_kind :=
| Tcp
| Tls (session : option string) (over : option socket)
| Placeholder.

(** What has been done to a socket: whether it accepts writes, whether it
    was destroyed, the chunks written to it, and the chunks pushed to its
    reader ([None] is [push(null)], the end of the stream). *)
Record sock_state := SockState {
  kind : sock_kind;
  writable : bool;
  is_destroyed : bool;
  written : list string;
  pushed : list (option string);
  data_listeners : nat;
}.

Definition fresh_socket (k : sock_kind) : sock_state :=
  SockState k (match k with Placeholder => false | _ => true end)
            false [] [] 0.

Record world := World {
  socks : gmap socket sock_state;
  next_socket : socket;
  sessionCache : JsMap.t string;
  commonHeadersCache : JsMap.t headers;
}.

(** [new net.Socket], [net.connect] or [tls.connect]: a new object. *)
Definition open_socket (k : sock_kind) (w : world) : socket * world :=
  (next_socket w,
   World (<[next_socket w := fresh_socket k]> (socks w))
         (S (next_socket w)) (sessionCache w) (commonHeadersCache w)).

Definition update_socket (s : socket) (f : sock_state → sock_state)
    (w : world) : world :=
  World (alter f s (socks w)) (next_socket w) (sessionCache w)
        (commonHeadersCache w).

(** [s.write(data)]: bytes go out only on a live, writable socket. A
    write to a destroyed socket fails and changes nothing; a write to a
    live socket that is not writable raises
    [ERR_STREAM_WRITE_AFTER_END], which destroys the socket. *)
Definition sock_write (s : socket) (data : string) (w : world) : world :=
  update_socket s
    (λ st, if is_destroyed st then st
           else if writable st
           then SockState (kind st) (writable st) (is_destroyed st)
                          (written st ++ [data]) (pushed st)
                          (data_listeners st)
           else SockState (kind st) (writable st) true (written st)
                          (pushed st) (data_listeners st)) w.

Definition sock_destroy (s : socket) (w : world) : world :=
  update_socket s
    (λ st, SockState (kind st) (writable st) true (written st) (pushed st)
                     (data_listeners st)) w.

(** [s.push(chunk)]: a destroyed stream drops what is pushed. *)
Definition sock_push (s : socket) (chunk : option string) (w : world)
  : world :=
  update_socket s
    (λ st, if is_destroyed st then st
           else SockState (kind st) (writable st) (is_destroyed st)
                          (written st) (pushed st ++ [chunk])
                          (data_listeners st)) w.

(** The HTTP client attaching its ['data'] listener to a socket. *)
Definition attach_data_listener (s : socket) (w : world) : world :=
  update_socket s
    (λ st, SockState (kind st) (writable st) (is_destroyed st) (written st)
                     (pushed st) (S (data_listeners st))) w.

Definition with_sessionCache (c : JsMap.t string) (w : world) : world :=
  World (socks w) (next_socket w) c (commonHeadersCache w).

Definition with_commonHeadersCache (c : JsMap.t headers) (w : world)
  : world :=
  World (socks w) (next_socket w) (sessionCache w) c.

(** The ['session'] handlers: both store under a bounded [sessionCache]. *)
Definition store_session (key session : string) (w : world) : world :=
  let c := sessionCache w in
  let c :=
    if decide (CACHE_MAX_SIZE ≤ JsMap.size c)
    then JsMap.delete_first c else c in
  with_sessionCache (JsMap.set key session c) w.

(** [connectOpts_session] is [this.connectOpts.session], which the
    constructor leaves [undefined]. *)
Record HttpsProxyAgent := Agent {
  proxy_protocol : string;
  proxy_username : string;
  proxy_password : string;
  proxyHeaders : header_source;
  sessionCacheKey : string;
  keepAlive : bool;
  connectOpts_session : option string;
}.

Definition with_session (session : option string) (agent : HttpsProxyAgent)
  : HttpsProxyAgent :=
  Agent (proxy_protocol agent) (proxy_username agent) (proxy_password agent)
        (proxyHeaders agent) (sessionCacheKey agent) (keepAlive agent)
        session.

Record connect_opts := ConnectOpts {
  host : string;
  port : Z;
  secureEndpoint : bool;
}.

(** What [parseProxyResponse] resolves with. *)
Record proxy_response := Response {
  statusCode : Z;
  buffered : string;
}.

(** The handler left on the request for its ['socket'] event. *)
Inductive socket_handler :=
| Resume
| Replay (buffered : string).

Section connect.
(** [decodeURIComponent] on the credentials of the proxy URL, which are
    taken to be well-formed percent encodings, base64 encoding and
    [net.isIPv6]. *)
Variable decodeURIComponent : string → string.
Variable base64 : string → string.
Variable isIPv6 : string → bool.

Definition bracketed (h : string) : string :=
  if isIPv6 h then "[" +:+ h +:+ "]" else h.

(** The header set of the CONNECT request, through
    [commonHeadersCache]. *)
Definition connect_headers (agent : HttpsProxyAgent) (opts : connect_opts)
    (w : world) : headers * world :=
  let headerCacheKey :=
    sessionCacheKey agent +:+ ":" +:+ host opts +:+ ":"
      +:+ pretty (port opts) in
  let hasHeaderFunction := is_function (proxyHeaders agent) in
  match hasHeaderFunction, JsMap.get headerCacheKey (commonHeadersCache w)
  with
  | false, Some cached => (cached, w)
  | _, _ =>
      let headers := fresh_headers (proxyHeaders agent) in
      let headers :=
        if truthy (JString (proxy_username agent))
           || truthy (JString (proxy_password agent))
        then
          JsMap.set "Proxy-Authorization"
            (JString ("Basic " +:+
               base64 (decodeURIComponent (proxy_username agent) +:+ ":"
                       +:+ decodeURIComponent (proxy_password agent))))
            headers
        else headers in
      let headers :=
        JsMap.set "Host"
          (JString (bracketed (host opts) +:+ ":" +:+ pretty (port opts)))
          headers in
      let headers :=
        if negb (truthy (default JUndefined
                           (JsMap.get "Proxy-Connection" headers)))
        then JsMap.set "Proxy-Connection"
               (JString (if keepAlive agent then "Keep-Alive" else "close"))
               headers
        else headers in
      (headers,
       if hasHeaderFunction then w
       else with_commonHeadersCache
              (JsMap.set headerCacheKey headers (commonHeadersCache w)) w)
  end.

Definition connect_payload (opts : connect_opts) (hs : headers) : string :=
  fold_left
    (λ payload nv,
       payload +:+ nv.1 +:+ ": " +:+ to_string nv.2 +:+ crlf)
    hs
    ("CONNECT " +:+ bracketed (host opts) +:+ ":" +:+ pretty (port opts)
       +:+ " HTTP/1.1" +:+ crlf).

(** [connect] up to [await proxyResponsePromise]: the socket to the proxy
    (or the [TypeError] for a missing host), the agent, and the world in
    which the CONNECT request has been written. A session found in
    [sessionCache] is stored on [this.connectOpts], where it stays: it is
    what [tls.connect(this.connectOpts)] offers, on this call and on
    later ones. *)
Definition connect_send (agent : HttpsProxyAgent) (opts : connect_opts)
    (w : world) : (string + socket) * HttpsProxyAgent * world :=
  if negb (truthy (JString (host opts))) then
    (inl ("No " +:+ dquote +:+ "host" +:+ dquote +:+ " provided"), agent, w)
  else
    let agent :=
      match JsMap.get (sessionCacheKey agent) (sessionCache w) with
      | Some cachedSession => with_session (Some cachedSession) agent
      | None => agent
      end in
    let '(sock, w) :=
      if decide (proxy_protocol agent = "https:")
      then open_socket (Tls (connectOpts_session agent) None) w
      else open_socket Tcp w in
    let '(headers, w) := connect_headers agent opts w in
    let payload := connect_payload opts headers in
    (inr sock, agent, sock_write sock (payload +:+ crlf) w).

(** [connect] from the proxy's answer on: the stream handed to the
    caller and the handler waiting for the request's ['socket'] event. *)
Definition connect_finish (opts : connect_opts) (sock : socket)
    (resp : proxy_response) (w : world)
  : socket * socket_handler * world :=
  if decide (statusCode resp = 200) then
    if secureEndpoint opts then
      let targetSessionKey :=
        "target:" +:+ host opts +:+ ":" +:+ pretty (port opts) in
      let cachedTargetSession :=
        JsMap.get targetSessionKey (sessionCache w) in
      let '(tlsSocket, w) :=
        open_socket (Tls cachedTargetSession (Some sock)) w in
      (tlsSocket, Resume, w)
    else (sock, Resume, w)
  else
    let w := sock_destroy sock w in
    let '(fakeSocket, w) := open_socket Placeholder w in
    (fakeSocket, Replay (buffered resp), w).

(** The ['socket'] event of the request, fired with the stream [s] the
    HTTP client settled on. [None] is the failed assertion. *)
Definition on_socket (h : socket_handler) (s : socket) (w : world)
  : option world :=
  match h with
  | Resume => Some w
  | Replay buffered =>
      match socks w !! s with
      | Some st =>
          if decide (0 < data_listeners st)%nat
          then Some (sock_push s None (sock_push s (Some buffered) w))
          else None
      | None => None
      end
  end.
End connect.

End HttpsProxy.

(** ** More string operations *)

(** [s.substring(n)] for a non-negative [n]. *)
Fixpoint drop_chars (n : nat) (s : string) : string :=
  match n, s with
  | O, _ => s
  | S n', String _ rest => drop_chars n' rest
  | S _, EmptyString => EmptyString
  end.

(** [hay.indexOf(needle)], counting from [i]: -1 when there is none. *)
Fixpoint index_from (needle hay : string) (i : Z) : Z :=
  if String.prefix needle hay then i
  else match hay with
       | EmptyString => -1
       | String _ rest => index_from needle rest (i + 1)
       end.

Definition indexOf (needle hay : string) : Z := index_from needle hay 0.

(** [s.substring(n)]: a negative [n] counts as 0. *)
Definition substring (n : Z) (s : string) : string :=
  drop_chars (Z.to_nat n) s.

(** [s.replace(/^\[|\]$/g, '')]: one leading [[] and one trailing []]
    are removed. *)
Fixpoint strip_trailing_bracket (s : string) : string :=
  match s with
  | EmptyString => EmptyString
  | String c EmptyString =>
      if Ascii.eqb c "]"%char then EmptyString else s
  | String c rest => String c (strip_trailing_bracket rest)
  end.

Definition strip_brackets (s : string) : string :=
  match s with
  | String c rest =>
      if Ascii.eqb c "["%char then strip_trailing_bracket rest
      else strip_trailing_bracket s
  | EmptyString => EmptyString
  end.

(** ** agent-base: the [defaultPort] and [protocol] accessors *)

Module AgentBaseAccessors.
Import AgentBase.

(** The two fields of the internal state that the accessors use; [None]
    is a field never assigned. *)
Record overrides := Overrides {
  defaultPort_field : option Z;
  protocol_field : option string;
}.

(** The setters. [this[INTERNAL]] does not exist yet while the constructor
    of [http.Agent] runs ([None]); a value set then is dropped. *)
Definition set_defaultPort (v : Z) (st : option overrides)
  : option overrides :=
  match st with
  | Some o => Some (Overrides (Some v) (protocol_field o))
  | None => None
  end.

Definition set_protocol (v : string) (st : option overrides)
  : option overrides :=
  match st with
  | Some o => Some (Overrides (defaultPort_field o) (Some v))
  | None => None
  end.

(** [get protocol()]: the field, else [isSecureEndpoint()] without
    options, made from the call stack [stack]. *)
Definition get_protocol (o : overrides) (stack : option string) (a : agent)
  : string * agent :=
  match protocol_field o with
  | Some p => (p, a)
  | None =>
      let '(secure, a) := isSecureEndpoint None stack a in
      (if secure then "https:" else "http:", a)
  end.

(** [get defaultPort()]. *)
Definition get_defaultPort (o : overrides) (stack : option string)
    (a : agent) : Z * agent :=
  match defaultPort_field o with
  | Some n => (n, a)
  | None =>
      let '(p, a) := get_protocol o stack a in
      (if decide (p = "https:") then 443 else 80, a)
  end.

End AgentBaseAccessors.

(** ** socks-proxy-agent: the timer-driven sweep of the socket cache *)

Module SocksSweep.
Import Socks.

(** The [filter] callback over one list: an idle entry older than the
    idle timeout has its socket destroyed and is dropped. *)
Fixpoint sweep_entries (now : Z) (entries : list SocketCacheEntry)
    (w : world) : list SocketCacheEntry * world :=
  match entries with
  | [] => ([], w)
  | entry :: rest =>
      if negb (inUse entry)
         && bool_decide (now - lastUsed entry > SOCKET_IDLE_TIMEOUT)
      then sweep_entries now rest (destroy_socket (entry_socket entry) w)
      else
        let '(kept, w) := sweep_entries now rest w in
        (entry :: kept, w)
  end.

(** [cleanSocketCache]: the loop over the entries of the map, each key
    getting its filtered list back, or being deleted when nothing is
    left. *)
Definition cleanSocketCache (now : Z) (w : world) : world :=
  fold_left
    (λ w kv,
       let '(filtered, w) := sweep_entries now kv.2 w in
       match filtered with
       | [] => with_socketCache (JsMap.delete kv.1 (socketCache w)) w
       | _ => with_socketCache (JsMap.set kv.1 filtered (socketCache w)) w
       end)
    (socketCache w) w.

End SocksSweep.

(** ** https-proxy-agent: the constructor and the TLS options *)

Module HttpsProxyCtor.
Import HttpsProxy.

(** The fields of the proxy [URL] that the constructor reads; [port] is
    [None] for the empty string and the parsed number otherwise. *)
Record proxy_url := ProxyUrl {
  protocol : string;
  hostname : string;
  url_host : string;
  port : option Z;
  username : string;
  password : string;
}.

(** The options of the constructor: [headers] and [keepAlive]. *)
Record agent_options := AgentOptions {
  headers_option : option header_source;
  keepAlive_option : bool;
}.

(** [this.proxy.hostname || this.proxy.host], without brackets. *)
Definition connect_host (proxy : proxy_url) : string :=
  strip_brackets
    (if truthy (JString (hostname proxy)) then hostname proxy
     else url_host proxy).

Definition connect_port (proxy : proxy_url) : Z :=
  match port proxy with
  | Some n => n
  | None => if decide (protocol proxy = "https:") then 443 else 80
  end.

(** The constructor: the agent, and the [host] and [port] it will
    connect to. *)
Definition new_agent (proxy : proxy_url) (opts : option agent_options)
  : HttpsProxyAgent * (string * Z) :=
  let host := connect_host proxy in
  let port := connect_port proxy in
  (Agent (protocol proxy) (username proxy) (password proxy)
         (default (StaticHeaders []) (opts ≫= headers_option))
         (protocol proxy +:+ "//" +:+ host +:+ ":" +:+ pretty port)
         (default false (keepAlive_option <$> opts))
         None,
   (host, port)).

(** An options object: property order is insertion order. *)
Definition object := JsMap.t jsval.

(** [obj.key], [undefined] when the property is missing. *)
Definition prop (key : string) (obj : object) : jsval :=
  default JUndefined (JsMap.get key obj).

Section tls.
(** [net.isIP(h) !== 0]. *)
Variable isIP : string → bool.

Definition is_ip_host (v : jsval) : bool :=
  match v with
  | JString h => isIP h
  | _ => false
  end.

Definition setServernameFromNonIpHost (options : object) : object :=
  if bool_decide (prop "servername" options = JUndefined)
     && truthy (prop "host" options)
     && negb (is_ip_host (prop "host" options))
  then JsMap.set "servername" (prop "host" options) options
  else options.

(** [omit(obj, ...keys)]. *)
Definition omit (obj : object) (keys : list string) : object :=
  filter (λ kv, kv.1 ∉ keys) obj.

(** The options of the TLS upgrade, before [socket] (and a cached
    [session]) are added. *)
Definition upgrade_options (opts : object) : object :=
  omit (setServernameFromNonIpHost opts) ["host"; "path"; "port"].
End tls.

End HttpsProxyCtor.

(** ** http-proxy-agent: [addRequest] and the first half of [connect] *)

Module HttpProxyConnect.
Import HttpProxy.

(** A request with the two internals that [connect] touches: the stored
    header string and the output buffer. *)
Record client_request := ClientRequest {
  req : request;
  _header : option string;
  outputData : list string;
}.

Section connect.
Variable absolute_url : string → string → option Z → string.
(** Node's [_implicitHeader]: the header string for the request as it
    stands. *)
Variable render_header : request → string.

Definition addRequest (agent : HttpProxyAgent) (r : client_request)
    (opts : connect_opts) (urlCache : JsMap.t string)
  : client_request * JsMap.t string :=
  let '(rq, urlCache) :=
    setRequestProps absolute_url agent (req r) opts urlCache in
  (ClientRequest rq None (outputData r), urlCache).

(** [connect] down to the creation of the socket. *)
Definition connect_prepare (agent : HttpProxyAgent) (r : client_request)
    (opts : connect_opts) (urlCache : JsMap.t string)
  : client_request * JsMap.t string :=
  let '(rq, urlCache) :=
    if negb (includes "://" (path (req r)))
    then setRequestProps absolute_url agent (req r) opts urlCache
    else (req r, urlCache) in
  let header := render_header rq in
  let outputData :=
    match outputData r with
    | first :: rest =>
        let endOfHeaders := indexOf (crlf +:+ crlf) first + 4 in
        (header +:+ substring endOfHeaders first) :: rest
    | [] => []
    end in
  (ClientRequest rq (Some header) outputData, urlCache).
End connect.

End HttpProxyConnect.

(** ** data-uri-to-buffer: the cache of parsed data URIs *)

Module DataUriCache.
Section defs.
Context {V : Type}.

Record LRUCache := Cache {
  maxSize : Z;
  cache : JsMap.t V;
}.

Definition get (key : string) (c : LRUCache) : option V * LRUCache :=
  if JsMap.has key (cache c) then
    match JsMap.get key (cache c) with
    | Some value =>
        (Some value,
         Cache (maxSize c) (JsMap.set key value (JsMap.delete key (cache c))))
    | None => (None, c)
    end
  else (None, c).

Definition set (key : string) (value : V) (c : LRUCache) : LRUCache :=
  let m := if JsMap.has key (cache c) then JsMap.delete key (cache c)
           else cache c in
  let m := JsMap.set key value m in
  Cache (maxSize c)
        (if decide (JsMap.size m > maxSize c) then JsMap.delete_first m
         else m).
End defs.
Arguments LRUCache : clear implicits.
End DataUriCache.

(** ** socks-proxy-agent: the supported schemes *)

Module SocksStatics.
(** [SocksProxyAgent.protocols]. *)
Definition protocols : list string :=
  ["socks"; "socks4"; "socks4a"; "socks5"; "socks5h"].
End SocksStatics.

(** ** data-uri-to-buffer: base64 *)

Module DataUriBase64.

Definition base64Chars : string :=
  "ABCDEFGHIJKLMNOPQRSTUVWXYZabcdefghijklmnopqrstuvwxyz0123456789+/".

(** [str.charCodeAt(i)] on the code units of a string; [None] is [NaN]. *)
Definition charCodeAt (s : list nat) (i : nat) : option nat := s !! i.

Definition codes (s : string) : list nat :=
  nat_of_ascii <$> String.list_ascii_of_string s.

(** The loop that fills the table: [base64Lookup[charCodeAt(i)] = i]. *)
Fixpoint fill_lookup (i : nat) (chars : list nat) (table : list Z)
  : list Z :=
  match chars with
  | [] => table
  | c :: rest => fill_lookup (S i) rest (<[c := Z.of_nat i]> table)
  end.

(** [new Array(256).fill(-1)], filled. *)
Definition base64Lookup : list Z :=
  Eval vm_compute in fill_lookup 0 (codes base64Chars) (replicate 256 (-1)).

(** [base64Lookup[code]] as the bit operations see it: outside the table,
    and for [NaN], the element is [undefined], which they take for 0. *)
Definition lookup (code : option nat) : Z :=
  match code with
  | Some c => default 0 (base64Lookup !! c)
  | None => 0
  end.

(** A store into a [Uint8Array]. *)
Definition to_uint8 (v : Z) : Z := v mod 256.

(** [i + k < len && base64.charCodeAt(i + k) !== 61]. *)
Definition is_data (code : option nat) : bool :=
  match code with
  | Some c => negb (c =? 61)%nat
  | None => false
  end.

(** One turn of the loop, on the code units at [i], [i + 1], [i + 2] and
    [i + 3]: the bytes stored at [bufferIndex] and after. *)
Definition decode_group (c0 c1 c2 c3 : option nat) : list Z :=
  let idx0 := lookup c0 in
  let idx1 := lookup c1 in
  let idx2 := if is_data c2 then lookup c2 else 0 in
  let idx3 := if is_data c3 then lookup c3 else 0 in
  [to_uint8 (Z.lor (Z.shiftl idx0 2) (Z.shiftr idx1 4))]
  ++ (if is_data c2
      then [to_uint8 (Z.lor (Z.shiftl (Z.land idx1 15) 4) (Z.shiftr idx2 2))]
      else [])
  ++ (if is_data c3
      then [to_uint8 (Z.lor (Z.shiftl (Z.land idx2 3) 6) idx3)]
      else []).

(** The loop [for (i = 0; i < len; i += 4)], on what is left of the
    string from [i] on: all the stores, in the order of [bufferIndex]. *)
Fixpoint decode_loop (rest : list nat) : list Z :=
  match rest with
  | [] => []
  | c0 :: r1 =>
      decode_group (Some c0) (r1 !! 0%nat) (r1 !! 1%nat) (r1 !! 2%nat)
      ++ match r1 with
         | _ :: _ :: _ :: r4 => decode_loop r4
         | _ => []
         end
  end.

Definition padding (base64 : list nat) : Z :=
  let len := length base64 in
  (if bool_decide (0 < len)%nat
      && bool_decide (charCodeAt base64 (len - 1) = Some 61%nat)
   then 1 else 0)
  + (if bool_decide (1 < len)%nat
        && bool_decide (charCodeAt base64 (len - 2) = Some 61%nat)
     then 1 else 0).

(** [(len * 3) / 4 - padding], as [new ArrayBuffer] takes it: the
    fraction is dropped, towards zero. *)
Definition outputLen (base64 : list nat) : nat :=
  Z.to_nat (Z.quot (Z.of_nat (length base64) * 3 - 4 * padding base64) 4).

(** The buffer: [outputLen] bytes, zero where nothing was stored; a
    store past the end of the view is dropped. *)
Definition base64ToArrayBuffer (base64 : list nat) : list Z :=
  resize (outputLen base64) 0 (decode_loop base64).

(** [stringToBuffer]. *)
Definition stringToBuffer (str : list nat) : list Z :=
  (λ c, to_uint8 (Z.of_nat c)) <$> str.

End DataUriBase64.

(** ** pac-resolver: the memo of [FindProxyForURL] results *)

Module PacResolver.

Definition RESULT_CACHE_TTL : Z := 300000.
Definition MAX_CACHE_SIZE : Z := 10000.

Record ProxyResultCacheEntry := ResultEntry {
  result : string;
  timestamp : Z;
}.

Definition result_cache := JsMap.t ProxyResultCacheEntry.

(** [Math.floor(MAX_CACHE_SIZE * 0.2)]. *)
Definition maxToDelete : nat := 2000.

(** [Array.prototype.sort] with the comparator
    [(a, b) => a[1].timestamp - b[1].timestamp]: a stable sort, oldest
    first. *)
Fixpoint insert_by_timestamp (x : string * ProxyResultCacheEntry)
    (l : list (string * ProxyResultCacheEntry))
  : list (string * ProxyResultCacheEntry) :=
  match l with
  | [] => [x]
  | y :: rest =>
      if decide (timestamp x.2 ≤ timestamp y.2) then x :: y :: rest
      else y :: insert_by_timestamp x rest
  end.

Definition sort_by_timestamp (l : list (string * ProxyResultCacheEntry))
  : list (string * ProxyResultCacheEntry) :=
  foldr insert_by_timestamp [] l.

(** The keys that the cleanup collects in [entriesToDelete]: expired
    entries in the order of the map, up to [maxToDelete] of them, and,
    if these are fewer, the oldest entries up to the number missing. *)
Definition entriesToDelete (now : Z) (c : result_cache) : list string :=
  let old :=
    take maxToDelete
      (JsMap.keys
         (filter (λ kv, RESULT_CACHE_TTL ≤ now - timestamp kv.2) c)) in
  let deletedCount := length old in
  if decide (deletedCount < maxToDelete)%nat
  then old ++ take (maxToDelete - deletedCount)
                   (JsMap.keys (sort_by_timestamp c))
  else old.

(** The [then] callback: the result is stored under the time at which
    the call was made, and the cache is cleaned when it has grown past
    its limit. *)
Definition store_result (resultCacheKey : string) (now : Z)
    (res : string) (c : result_cache) : result_cache :=
  let c := JsMap.set resultCacheKey (ResultEntry res now) c in
  if decide (JsMap.size c > MAX_CACHE_SIZE)
  then fold_left (λ m key, JsMap.delete key m) (entriesToDelete now c) c
  else c.

(** What [new URL(url)] gives: the two properties that are read. *)
Record parsed_url := ParsedUrl {
  href : string;
  hostname : string;
}.

Inductive outcome :=
| Threw (message : string)
| Rejected (error : string)
| Answer (proxy : string).

(** [FindProxyForURL(url, _host)] for the resolver compiled from a PAC
    script. [parsed] is [None] when [new URL(url)] throws; the resolver
    fulfils with a result or rejects with an error. *)
Definition FindProxyForURL (resolver : string → string → string + string)
    (parsed : option parsed_url) (_host : option string) (now : Z)
    (c : result_cache) : outcome * result_cache :=
  match parsed with
  | None => (Threw "Invalid URL", c)
  | Some urlObj =>
      let host :=
        match _host with
        | Some h => if truthy (JString h) then h else hostname urlObj
        | None => hostname urlObj
        end in
      if negb (truthy (JString host)) then
        (Threw "Could not determine `host`", c)
      else
        let urlHref := href urlObj in
        let resultCacheKey := urlHref +:+ ":" +:+ host in
        let call_resolver :=
          match resolver urlHref host with
          | inr res => (Answer res, store_result resultCacheKey now res c)
          | inl err => (Rejected err, c)
          end in
        match JsMap.get resultCacheKey c with
        | Some cachedResult =>
            if decide (now - timestamp cachedResult < RESULT_CACHE_TTL)
            then (Answer (result cachedResult), c)
            else call_resolver
        | None => call_resolver
        end
  end.

End PacResolver.

(** ** get-uri: the dispatch on the protocol *)

Module GetUri.

(** The built-in protocol handlers. *)
Inductive getter := data | file | ftp | http | https.

(** The object [protocols], in the order of its properties. *)
Definition protocols : JsMap.t getter :=
  [("data", data); ("file", file); ("ftp", ftp); ("http", http);
   ("https", https)].

(** [new Set(Object.keys(protocols))]. *)
Definition VALID_PROTOCOLS : list string := JsMap.keys protocols.

Definition protocolHandlerCache : JsMap.t getter :=
  [("data", data); ("file", file); ("ftp", ftp); ("http", http);
   ("https", https)].

Definition URL_CACHE_MAX_SIZE : Z := 1000.

Definition isValidProtocol (p : string) : bool :=
  bool_decide (p ∈ VALID_PROTOCOLS).

(** A [URL] object: its identity and the two properties read here. *)
Record URL := Url {
  url_id : nat;
  protocol : string;
  href : string;
}.

Inductive uri_arg :=
| UriString (s : string)
| UriObject (u : URL).

(** [String(uri)]. *)
Definition uri_text (uri : uri_arg) : string :=
  match uri with
  | UriString s => s
  | UriObject u => href u
  end.

(** [s.endsWith(':')] and [s.slice(0, -1)]. *)
Fixpoint endsWith_colon (s : string) : bool :=
  match s with
  | EmptyString => false
  | String c EmptyString => Ascii.eqb c ":"%char
  | String _ rest => endsWith_colon rest
  end.

Fixpoint slice_off_last (s : string) : string :=
  match s with
  | EmptyString => EmptyString
  | String _ EmptyString => EmptyString
  | String c rest => String c (slice_off_last rest)
  end.

(** Where [getUri] ends: an error thrown, or the call of a handler
    with the parsed URL, found in the handler cache or, failing that,
    in [protocols]. *)
Inductive dispatch :=
| Threw (message : string)
| Call (handler : getter) (url : URL)
| CallFallback (handler : option getter) (url : URL).

Section getUri.
(** [new URL(uri)]; [None] when it throws. *)
Variable parse : string → option URL.

Definition getUri (uri : uri_arg) (urlParseCache : JsMap.t URL)
  : dispatch * JsMap.t URL :=
  let falsy := match uri with
               | UriString s => negb (truthy (JString s))
               | UriObject _ => false
               end in
  if falsy then
    (Threw ("Must pass in a URI to " +:+ dquote +:+ "getUri()" +:+ dquote),
     urlParseCache)
  else
    let parsed :=
      match uri with
      | UriString s =>
          match JsMap.get s urlParseCache with
          | Some cached => Some (cached, urlParseCache)
          | None =>
              match parse s with
              | Some url =>
                  let c := urlParseCache in
                  let c :=
                    if decide (URL_CACHE_MAX_SIZE ≤ JsMap.size c) then
                      match JsMap.first_key c with
                      | Some firstKey =>
                          if truthy (JString firstKey)
                          then JsMap.delete firstKey c else c
                      | None => c
                      end
                    else c in
                  Some (url, JsMap.set s url c)
              | None => None
              end
          end
      | UriObject u => Some (u, urlParseCache)
      end in
    match parsed with
    | None => (Threw "Invalid URL", urlParseCache)
    | Some (url, urlParseCache) =>
        let protocol :=
          if endsWith_colon (protocol url)
          then slice_off_last (protocol url) else protocol url in
        if negb (isValidProtocol protocol) then
          (Threw ("Unsupported protocol " +:+ dquote +:+ protocol +:+ dquote
                  +:+ " specified in URI: " +:+ dquote +:+ uri_text uri
                  +:+ dquote),
           urlParseCache)
        else
          match JsMap.get protocol protocolHandlerCache with
          | Some getter => (Call getter url, urlParseCache)
          | None =>
              (CallFallback (JsMap.get protocol protocols) url,
               urlParseCache)
          end
    end.
End getUri.

End GetUri.

(** ** data-uri-to-buffer: the parser *)

Module DataUri.
Import DataUriBase64.

Record ParsedDataURI := Parsed {
  type : string;
  typeFull : string;
  charset : string;
  buffer : list Z;
}.

Definition commonMediaTypes : list string :=
  ["text/plain"; "text/html"; "text/css"; "application/json"; "image/png";
   "image/jpeg"; "image/gif"; "image/svg+xml"].

Definition LF : ascii := ascii_of_nat 10.
Definition CR : ascii := ascii_of_nat 13.

(** [uri.replace(/\r?\n/g, '')]. *)
Fixpoint strip_newlines (s : string) : string :=
  match s with
  | EmptyString => EmptyString
  | String c rest =>
      if Ascii.eqb c LF then strip_newlines rest
      else
        match rest with
        | String c' rest' =>
            if Ascii.eqb c CR && Ascii.eqb c' LF then strip_newlines rest'
            else String c (strip_newlines rest)
        | EmptyString => String c EmptyString
        end
  end.

(** [s.split(';')]: the pieces between the semicolons, at least one. *)
Fixpoint split_semicolon (s : string) : list string :=
  match s with
  | EmptyString => [EmptyString]
  | String c rest =>
      if Ascii.eqb c ";"%char then EmptyString :: split_semicolon rest
      else
        match split_semicolon rest with
        | piece :: pieces => String c piece :: pieces
        | [] => [String c EmptyString]
        end
  end.

Fixpoint take_chars (n : nat) (s : string) : string :=
  match n, s with
  | S n', String c rest => String c (take_chars n' rest)
  | _, _ => EmptyString
  end.

(** [s.substring(from, to)] for [0 ≤ from ≤ to]. *)
Definition substring_between (from to : Z) (s : string) : string :=
  take_chars (Z.to_nat (to - from)) (drop_chars (Z.to_nat from) s).

(** The loop over [meta[1]], [meta[2]], ...: the flag [base64], and
    [typeFull] and [charset] as they grow. *)
Definition meta_step (st : bool * string * string) (m : string)
  : bool * string * string :=
  let '(base64, typeFull, charset) := st in
  if decide (m = "base64") then (true, typeFull, charset)
  else if truthy (JString m) then
    let typeFull := typeFull +:+ ";" +:+ m in
    if decide (indexOf "charset=" m = 0)
    then (base64, typeFull, substring 8 m)
    else (base64, typeFull, charset)
  else (base64, typeFull, charset).

Section parser.
(** [unescape(s)], as the code units of its result. *)
Variable unescape : string → list nat.

(** [makeDataUriToBuffer({ stringToBuffer, base64ToArrayBuffer })(uri)]
    over the module-level [dataUriCache]; [inl] is the [TypeError]
    thrown. *)
Definition dataUriToBuffer (uri : string)
    (dataUriCache : DataUriCache.LRUCache ParsedDataURI)
  : (string + ParsedDataURI) * DataUriCache.LRUCache ParsedDataURI :=
  match DataUriCache.get uri dataUriCache with
  | (Some cached, dataUriCache) => (inr cached, dataUriCache)
  | (None, dataUriCache) =>
      if negb (String.prefix "data:" uri) then
        (inl ("`uri` does not appear to be a Data URI (must begin with "
              +:+ dquote +:+ "data:" +:+ dquote +:+ ")"), dataUriCache)
      else
        let uri := strip_newlines uri in
        let firstComma := indexOf "," uri in
        if bool_decide (firstComma = -1) || bool_decide (firstComma ≤ 4)
        then (inl "malformed data: URI", dataUriCache)
        else
          let meta := split_semicolon (substring_between 5 firstComma uri) in
          let meta0 := default EmptyString (head meta) in
          let type := if truthy (JString meta0) then meta0
                      else "text/plain" in
          let '(base64, typeFull, charset) :=
            fold_left meta_step (tail meta) (false, type, EmptyString) in
          let '(typeFull, charset) :=
            if negb (truthy (JString meta0))
               && negb (truthy (JString charset))
            then (typeFull +:+ ";charset=US-ASCII", "US-ASCII")
            else (typeFull, charset) in
          let data := unescape (substring (firstComma + 1) uri) in
          let buffer := if base64 then base64ToArrayBuffer data
                        else stringToBuffer data in
          let result := Parsed type typeFull charset buffer in
          (inr result,
           if bool_decide (type ∈ commonMediaTypes)
              || bool_decide (Z.of_nat (String.length uri) < 10000)
           then DataUriCache.set uri result dataUriCache
           else dataUriCache)
  end.
End parser.

End DataUri.

(** ** Vocabulary of the properties *)

Module Runs.
Import AgentBase.

(** One call of [isSecureEndpoint]: its argument and the call stack it is
    made from. *)
Definition call : Type := option connect_opts * option string.

Definition reaches_fallback (c : call) : Prop := explicit_answer c.1 = None.

(** A sequence of calls on one agent. *)
Definition run_calls (cs : list call) (a : agent) : agent :=
  fold_left (λ a c, (isSecureEndpoint c.1 c.2 a).2) cs a.

(** After [first], then the calls [between], the call [later] answers
    what [first] answered. *)
Definition agrees_after (a : agent) (first : call) (between : list call)
    (later : call) : Prop :=
  let r := isSecureEndpoint first.1 first.2 a in
  (isSecureEndpoint later.1 later.2 (run_calls between r.2)).1 = r.1.

(** The three ways a tunnel attempt ends: [connect()] returns its result
    at once, or returns a promise that is fulfilled, or one that is
    rejected. *)
Inductive attempt_path :=
| SyncResult (v : conn_value)
| AsyncSuccess (v : conn_value)
| AsyncFailure (err : string).

Definition connect_return_of (p : attempt_path) : connect_return :=
  match p with
  | SyncResult v => Returns v
  | AsyncSuccess _ | AsyncFailure _ => ReturnsPromise
  end.

Definition settlement_of (p : attempt_path) : settlement :=
  match p with
  | SyncResult v | AsyncSuccess v => Fulfilled v
  | AsyncFailure err => Rejected err
  end.

(** The array under [name], with a missing property read as empty. *)
Definition pool_view (a : agent) (name : string) : list socket :=
  default [] (sockets a !! name).

(** Every socket in the pool was handed out by the allocator. *)
Definition pool_wf (a : agent) : Prop :=
  ∀ name s, s ∈ pool_view a name → (s < next_socket a)%nat.

Definition bounded (a : agent) : Prop :=
  ¬ (maxSockets a = Infinity ∧ maxTotalSockets a = Infinity).

Definition is_accounting (e : event) : bool :=
  match e with
  | EvIncrement _ _ | EvDecrement _ _ => true
  | _ => false
  end.

(** The stream a settled attempt produced, if it produced one. *)
Definition stream_of (s : settlement) : list socket :=
  match s with
  | Fulfilled (VSocket x) => [x]
  | _ => []
  end.

Section attempts.
Variables (httpGetName httpsGetName : connect_opts → string).

(** What remains of an attempt once the placeholder is released. *)
Definition finish (p : attempt_path) (sc : super_call) (a : agent)
  : agent :=
  match settlement_of p with
  | Fulfilled v => hand_over httpGetName httpsGetName v sc a
  | Rejected err => log (EvCallback err) a
  end.

(** The pool name that Node's [createSocket] asks [getName] for, on an
    agent whose memo is that of [a]. *)
Definition super_name (sc : super_call) (a : agent) : string :=
  (getName httpGetName httpsGetName (super_options sc) (super_stack sc) a).1.

(** A whole attempt with nothing else touching the agent in between. *)
Definition run_attempt (options : connect_opts) (stack : option string)
    (p : attempt_path) (sc : super_call) (a : agent) : agent :=
  match createSocket httpGetName httpsGetName options stack
          (connect_return_of p) sc a with
  | (Awaiting pd, a) => settle httpGetName httpsGetName pd (settlement_of p) sc a
  | (_, a) => a
  end.

(** The accounting of one attempt. When [connect] is called a
    placeholder socket sits in the pool under the attempt's name and
    [totalSocketCount] is one higher; the attempt logs one increment,
    then the call of [connect], then one decrement for the same name and
    placeholder, and no other accounting call; afterwards the placeholder
    is gone: the pool and the count are what they were, but for the
    stream the attempt produced, which Node's [createSocket] has pushed
    under the name it asked for and counted. *)
Definition one_increment_one_decrement (options : connect_opts)
    (stack : option string) (p : attempt_path) (sc : super_call)
    (a : agent) : Prop :=
  let '(_, name, fakeSocket, a0) :=
    reserve httpGetName httpsGetName options stack a in
  let a1 := run_attempt options stack p sc a in
  ∃ fake,
    fakeSocket = Some fake ∧
    (fake ∉ pool_view a name) ∧
    pool_view a0 name = pool_view a name ++ [fake] ∧
    totalSocketCount a0 = totalSocketCount a + 1 ∧
    (∃ rest,
       trace a1 = trace a ++ (EvIncrement name (Some fake) :: EvConnect
                    :: EvDecrement name (Some fake) :: rest) ∧
       Forall (λ e, is_accounting e = false) rest) ∧
    (∀ n, pool_view a1 n =
          pool_view a n ++ (if decide (n = super_name sc a0)
                            then stream_of (settlement_of p) else [])) ∧
    totalSocketCount a1 =
      totalSocketCount a + Z.of_nat (length (stream_of (settlement_of p))).
End attempts.

End Runs.

Module SocksRuns.
Import Socks.



(** [addr] is what client-side resolution of [h] gave on the way from
    [w] to [w']: a fresh entry of the DNS cache, or the answer of a
    resolver call made on the way. *)
Definition resolved_by_client (agent : SocksProxyAgent) (lookupFn : resolver)
    (now : Z) (h addr : string) (w w' : world) : Prop :=
  (enableDNSCache agent = true ∧
   ∃ entry, JsMap.get h (dnsCache w) = Some entry ∧
            now - timestamp entry < DNS_CACHE_TTL ∧
            addr = address entry ∧ lookups w' = lookups w) ∨
  (lookupFn h = inr addr ∧ lookups w' = lookups w ++ [h]).


(** The credentials of the URL are well-formed: the user name, if there
    is one, and the password decode. *)
Definition credentials_decode (decodeURIComponent : string → option string)
    (url : URL) : Prop :=
  (url_username url ≠ "" → is_Some (decodeURIComponent (url_username url))) ∧
  is_Some (decodeURIComponent (url_password url)).





End SocksRuns.

Module CacheBounds.

(** A map within its bound. *)
Definition within {V : Type} (max : Z) (m : JsMap.t V) : Prop :=
  JsMap.size m ≤ max.

(** From [m] to [m']: the oldest entry (the first in iteration order) was
    removed, and nothing else, before [k] was set to [v]. *)
Definition evicts_oldest_then_sets {V : Type} (k : string) (v : V)
    (m m' : JsMap.t V) : Prop :=
  m' = JsMap.set k v (tail m).

(** A store of [k] into a map bounded by [max]: the map is within its
    bound afterwards; while there is room nothing is removed; at
    capacity the oldest entry, and nothing else, is removed first. *)
Definition stores_within {V : Type} (max : Z) (k : string) (v : V)
    (m m' : JsMap.t V) : Prop :=
  within max m' ∧
  (JsMap.size m < max → m' = JsMap.set k v m) ∧
  (JsMap.size m = max → evicts_oldest_then_sets k v m m').

(** The same for a recency list, whose newest entry is the last: the
    new entry is appended, after the least recently used one has been
    dropped at capacity. *)
Definition appends_within {V : Type} (max : Z) (kv : V) (l l' : list V)
  : Prop :=
  Z.of_nat (length l') ≤ max ∧
  (Z.of_nat (length l) < max → l' = l ++ [kv]) ∧
  (Z.of_nat (length l) = max → l' = tail l ++ [kv]).

(** The keys of the URL memo of the forward-HTTP tunnel, of the header
    cache of the CONNECT tunnel and of the agent cache of the
    dispatcher. *)
Definition url_key (req : HttpProxy.request) (opts : HttpProxy.connect_opts)
  : string :=
  ((if HttpProxy.secureEndpoint opts then "https:" else "http:") +:+ "//"
   +:+ (if truthy (getHeader "host" (HttpProxy.store req))
        then to_string (getHeader "host" (HttpProxy.store req))
        else "localhost"))
  +:+ HttpProxy.path req +:+ pretty (HttpProxy.port opts).

Definition header_key (agent : HttpsProxy.HttpsProxyAgent)
    (opts : HttpsProxy.connect_opts) : string :=
  HttpsProxy.sessionCacheKey agent +:+ ":" +:+ HttpsProxy.host opts +:+ ":"
    +:+ pretty (HttpsProxy.port opts).

Definition agent_key (secureEndpoint isWebSocket : bool) (proxy : string)
  : string :=
  Dispatcher.request_protocol secureEndpoint isWebSocket +:+ "+" +:+ proxy.

(** The idle sockets kept under one key. *)
Definition sockets_under (k : string) (w : Socks.world)
  : list Socks.SocketCacheEntry :=
  default [] (JsMap.get k (Socks.socketCache w)).

(** No key is the empty string, as for keys that are URLs. *)
Definition keys_nonempty {V : Type} (m : JsMap.t V) : Prop :=
  Forall (λ kv, truthy (JString kv.1) = true) m.

(** A map with [n] entries, keyed [k1], [k2], ... with the oldest
    first. *)
Fixpoint numbered {V : Type} (v : V) (from n : nat) : JsMap.t V :=
  match n with
  | O => []
  | S n' => ("k" +:+ pretty (Z.of_nat from), v) :: numbered v (S from) n'
  end.

End CacheBounds.

Module HeaderRuns.
Import HttpProxy.

(** The claim about caller-set headers, read on the request: a header the
    caller has set keeps its value through [setRequestProps], whatever the
    case the name is written in. *)
Definition keeps_request_header
    (absolute_url : string → string → option Z → string)
    (agent : HttpProxyAgent) (req : request) (opts : connect_opts)
    (urlCache : JsMap.t string) (name : string) : Prop :=
  truthy (getHeader name (store req)) = true →
  getHeader name
    (store (setRequestProps absolute_url agent req opts urlCache).1)
  = getHeader name (store req).

(** The same claim read on the headers configured on the agent: a
    configured header is what the request carries under that name,
    compared without regard to case. *)
Definition keeps_configured_header
    (absolute_url : string → string → option Z → string)
    (agent : HttpProxyAgent) (req : request) (opts : connect_opts)
    (urlCache : JsMap.t string) (name : string) : Prop :=
  ∀ n v, JsMap.get n (fresh_headers (proxyHeaders agent)) = Some v →
         truthy v = true →
         toLowerCase n = toLowerCase name →
         getHeader name
           (store (setRequestProps absolute_url agent req opts urlCache).1)
         = v.

(** No two names of a header object are equal up to case. *)
Definition names_distinct_up_to_case (hs : headers) : Prop :=
  NoDup (toLowerCase <$> JsMap.keys hs).

(** The truthy values that a header object holds under names equal to
    [name] up to case, in the order of the object. *)
Definition truthy_values_for (name : string) (hs : list (string * jsval))
  : list jsval :=
  (filter (λ nv, toLowerCase nv.1 = toLowerCase name ∧ truthy nv.2 = true)
     hs).*2.

End HeaderRuns.

Module TunnelRuns.
Import HttpsProxy.

(** The chunks written to a socket so far, and the chunks pushed to its
    reader. *)
Definition written_to (s : socket) (w : world) : list string :=
  default [] (written <$> socks w !! s).

Definition pushed_to (s : socket) (w : world) : list (option string) :=
  default [] (pushed <$> socks w !! s).

Definition destroyed_in (s : socket) (w : world) : Prop :=
  is_destroyed <$> socks w !! s = Some true.

Definition read_only (s : socket) (w : world) : Prop :=
  writable <$> socks w !! s = Some false.

(** Any later writes, by anybody, to any sockets. *)
Definition later_writes (ws : list (socket * string)) (w : world) : world :=
  fold_left (λ w sd, sock_write sd.1 sd.2 w) ws w.

(** The destination as the request line and the [Host] header name it:
    host and port, an IPv6 address in brackets. *)
Definition destination (isIPv6 : string → bool) (opts : connect_opts)
  : string :=
  (if isIPv6 (host opts) then "[" +:+ host opts +:+ "]" else host opts)
  +:+ ":" +:+ pretty (port opts).

(** The CONNECT request of the design document: the request line
    [CONNECT host:port HTTP/1.1], one line per header, and a blank
    line. *)
Definition connect_wire_format (dest : string) (hs : headers) : string :=
  "CONNECT " +:+ dest +:+ " HTTP/1.1" +:+ crlf
  +:+ foldr (λ nv rest, nv.1 +:+ ": " +:+ to_string nv.2 +:+ crlf +:+ rest)
        crlf hs.

Definition has_credentials (agent : HttpsProxyAgent) : bool :=
  negb (String.eqb (proxy_username agent) "")
  || negb (String.eqb (proxy_password agent) "").

(** The header set of the design document for one CONNECT request. A
    set memoized for the proxy endpoint and the destination is sent as
    it is when the agent's headers are static. Otherwise the set holds,
    each name once: [Host], naming the destination;
    [Proxy-Authorization], the Basic credentials of the proxy URL when
    it has any; [Proxy-Connection], by the persistence setting unless
    one is configured; and the headers configured on the agent, and
    nothing else. *)
Definition sent_headers (decodeURIComponent base64 : string → string)
    (isIPv6 : string → bool) (agent : HttpsProxyAgent) (opts : connect_opts)
    (w : world) (hs : headers) : Prop :=
  let configured := fresh_headers (proxyHeaders agent) in
  match (if is_function (proxyHeaders agent) then None
         else JsMap.get (CacheBounds.header_key agent opts)
                (commonHeadersCache w)) with
  | Some cached => hs = cached
  | None =>
      (JsMap.wf configured → JsMap.wf hs) ∧
      JsMap.get "Host" hs = Some (JString (destination isIPv6 opts)) ∧
      JsMap.get "Proxy-Authorization" hs
      = (if has_credentials agent
         then Some (JString
                      ("Basic " +:+
                       base64 (decodeURIComponent (proxy_username agent)
                               +:+ ":" +:+
                               decodeURIComponent (proxy_password agent))))
         else JsMap.get "Proxy-Authorization" configured) ∧
      JsMap.get "Proxy-Connection" hs
      = (if truthy (default JUndefined
                      (JsMap.get "Proxy-Connection" configured))
         then JsMap.get "Proxy-Connection" configured
         else Some (JString (if keepAlive agent then "Keep-Alive"
                             else "close"))) ∧
      ∀ n, n ∉ ["Host"; "Proxy-Authorization"; "Proxy-Connection"] →
           JsMap.get n hs = JsMap.get n configured
  end.

End TunnelRuns.

Module DispatcherRuns.
Import Dispatcher.

(** The resolution cache holds proxies only: no stored value is a falsy
    ("no proxy") answer. *)
Definition holds_proxies_only (d : ProxyAgent) : Prop :=
  Forall (λ kv, truthy (JString kv.2) = true) (proxyResolutionCache d).

(** The default agent for a request. *)
Definition default_for (secureEndpoint : bool) (d : ProxyAgent) : agent_id :=
  if secureEndpoint then httpsAgent d else httpAgent d.

(** The calls of [destroy()] made between two states. *)
Definition destroyed_since (before after : ProxyAgent) : list agent_id :=
  drop (length (destroyed before)) (destroyed after).

End DispatcherRuns.

(** ** Concrete inputs used by the examples below *)

Module Examples.

(** An agent as [new Agent()] leaves it: Node's defaults for both limits
    are [Infinity]. *)
Definition default_agent : AgentBase.agent :=
  AgentBase.Agent AgentBase.Infinity AgentBase.Infinity ∅ 0 None None None
                  0%nat [].

(** An agent created with [{ maxSockets: 2 }]. *)
Definition bounded_agent : AgentBase.agent :=
  AgentBase.Agent (AgentBase.Finite 2) AgentBase.Infinity ∅ 0 None None None
                  0%nat [].

(** Node's [getName] for a request to [localhost:80]. *)
Definition localhost_name (o : AgentBase.connect_opts) : string :=
  "localhost:80:".

(** The options of a plain [http:] request, and the stack it is made
    from. *)
Definition http_request_opts : AgentBase.connect_opts :=
  AgentBase.ConnectOpts (JBool false) (JString "http:").

Definition app_stack : option string := Some "Error at main (app.js:1:1)".

(** What Node's [createSocket] works with for that request, on an agent
    created without options of its own. *)
Definition node_call : AgentBase.super_call :=
  AgentBase.SuperCall http_request_opts app_stack.

(** Calls of [isSecureEndpoint]: without options from inside Node's
    [https] module, with options that carry neither [secureEndpoint] nor
    [protocol] from plain code, and without options from plain code. *)
Definition call_from_https : Runs.call :=
  (None, Some "Error at request (node:https:100:10)").

Definition call_bare_options : Runs.call :=
  (Some (AgentBase.ConnectOpts JUndefined JUndefined),
   Some "Error at main (app.js:1:1)").

Definition call_from_app : Runs.call :=
  (None, Some "Error at main (app.js:1:1)").

(** A SOCKS5 agent with the default options, a request for
    [example.com:80], a resolver that knows that host, and a world with
    empty caches. *)
Definition socks5_url : Socks.URL :=
  Socks.Url "socks5:" "proxy.local" (Some 1080) "" "".

Definition socks5_agent : Socks.SocksProxyAgent :=
  Socks.SocksAgent true (Socks.Proxy "proxy.local" 1080 5 None (Some ""))
                   None true true false true "proxy.local:1080:5".

Definition example_request : Socks.connect_opts :=
  Socks.ConnectOpts "example.com" 80 false.

Definition example_resolver : Socks.resolver :=
  λ h, if decide (h = "example.com") then inr "93.184.216.34"
       else inl "ENOTFOUND".


(** A stand-in for [new URL(path, base).href] and one for
    [new URL(proxy).protocol] that reads the scheme up to the first
    colon. *)
Definition example_href (path base : string) : string := base +:+ path.

Fixpoint scheme_with_colon (s : string) : option string :=
  match s with
  | EmptyString => None
  | String c rest =>
      if Ascii.eqb c ":"%char then Some ":"
      else String c <$> scheme_with_colon rest
  end.

(** A dispatcher whose default agents are the objects 0 and 1, and a
    plain request for [http://example.com/]. *)
Definition fresh_dispatcher : Dispatcher.ProxyAgent :=
  Dispatcher.new_ProxyAgent 0%nat 1%nat 2%nat.

Definition plain_request : Dispatcher.request :=
  Dispatcher.Request false "example.com" "/".

(** The same dispatcher after one request routed through
    [http://proxy.local:8080]: the agent built for it is the object 2. *)
Definition dispatcher_with_one_agent : Dispatcher.ProxyAgent :=
  (Dispatcher.connect example_href scheme_with_colon plain_request false
     (Some "http://proxy.local:8080") fresh_dispatcher).2.

(** Stand-ins for [String(new URL(path, base))], [decodeURIComponent] and
    base64 encoding. *)
Definition example_absolute_url (path base : string) (port : option Z)
  : string := base +:+ path.

Definition example_decode (s : string) : string := s.

(** [decodeURIComponent] on strings whose only percent escape, if any,
    is the malformed [%zz]. *)
Definition example_decodeURIComponent (s : string) : option string :=
  if includes "%zz" s then None else Some s.

Definition example_base64 (s : string) : string := "base64(" +:+ s +:+ ")".

(** A keep-alive agent for [http://proxy.local:8080] without credentials
    or configured headers; one configured with a lower-case
    [proxy-connection: close]; and one for
    [http://user:pw@proxy.local:8080] configured with its own
    [Proxy-Authorization]. *)
Definition plain_http_agent : HttpProxy.HttpProxyAgent :=
  HttpProxy.new_agent example_decode example_base64 "" "" true None.

Definition lowercase_close_agent : HttpProxy.HttpProxyAgent :=
  HttpProxy.new_agent example_decode example_base64 "" "" true
    (Some (StaticHeaders [("proxy-connection", JString "close")])).

Definition bearer_agent : HttpProxy.HttpProxyAgent :=
  HttpProxy.new_agent example_decode example_base64 "user" "pw" true
    (Some (StaticHeaders [("Proxy-Authorization", JString "Bearer t")])).

(** A request for [/] on [example.com]; the same after the caller's
    [req.setHeader('Proxy-Connection', 'close')]. *)
Definition bare_http_request : HttpProxy.request :=
  HttpProxy.Request "/" [("host", JString "example.com")].

Definition close_http_request : HttpProxy.request :=
  HttpProxy.Request "/"
    (setHeader "Proxy-Connection" (JString "close")
       [("host", JString "example.com")]).

Definition port80 : HttpProxy.connect_opts := HttpProxy.ConnectOpts false 80.

(** An agent for [http://user:pw@proxy.local:8080], a request for
    [api.example.com:443], an empty world, and the answer
    [407 Proxy Authentication Required]. *)
Definition connect_agent : HttpsProxy.HttpsProxyAgent :=
  HttpsProxy.Agent "http:" "user" "pw" (StaticHeaders [])
                   "http://proxy.local:8080" true None.

Definition secure_request : HttpsProxy.connect_opts :=
  HttpsProxy.ConnectOpts "api.example.com" 443 true.

Definition no_ipv6 (h : string) : bool := false.

Definition quiet_world : HttpsProxy.world := HttpsProxy.World ∅ 0%nat [] [].

Definition answer_407 : HttpsProxy.proxy_response :=
  HttpsProxy.Response 407
    ("HTTP/1.1 407 Proxy Authentication Required" +:+ crlf +:+ crlf).

(** A world whose TLS session cache is full: a hundred sessions, [k1]
    the oldest. *)
Definition full_session_world : HttpsProxy.world :=
  HttpsProxy.World ∅ 0%nat (CacheBounds.numbered "session" 1 100) [].

(** Caches at capacity: a URL memo with a hundred entries, an agent
    pool with a hundred agents, a dispatcher whose resolution cache
    holds a hundred proxies and whose agent cache holds fifty agents,
    and a world whose header cache holds a hundred header sets. *)
Definition full_url_cache : JsMap.t string :=
  CacheBounds.numbered "http://example.com/" 1 100.

Definition full_agent_pool : JsMap.t Socks.SocksProxyAgent :=
  CacheBounds.numbered socks5_agent 1 100.

Definition full_dispatcher : Dispatcher.ProxyAgent :=
  Dispatcher.Dispatcher
    (LRU.Cache 50 (CacheBounds.numbered 7%nat 1 50))
    (CacheBounds.numbered "http://proxy.local:8080" 1 100)
    [] 0%nat 1%nat 8%nat [] [].

Definition full_header_world : HttpsProxy.world :=
  HttpsProxy.World ∅ 0%nat []
    (CacheBounds.numbered [("Host", JString "example.com:443")] 1 100).

End Examples.

(** ** Vocabulary and inputs of the further properties *)

Module PoolRuns.
Import AgentBase Runs.

(** No name of the pool is left with an empty array. *)
Definition no_empty_arrays (a : agent) : Prop :=
  ∀ name, sockets a !! name ≠ Some [].

(** The events a run added to the trace. *)
Definition events_since (before after : agent) : list event :=
  drop (length (trace before)) (trace after).

Definition is_decrement (e : event) : bool :=
  match e with
  | EvDecrement _ _ => true
  | _ => false
  end.

(** Two pending attempts settling one after the other, in either
    order. *)
Definition settle_both (httpGetName httpsGetName : connect_opts → string)
    (a_first : bool) (pA pB : pending) (sA sB : settlement)
    (scA scB : super_call) (a : agent) : agent :=
  if a_first
  then settle httpGetName httpsGetName pB sB scB
         (settle httpGetName httpsGetName pA sA scA a)
  else settle httpGetName httpsGetName pA sA scA
         (settle httpGetName httpsGetName pB sB scB a).

(** What a settlement appends to the array under [n] when Node pushes
    its stream under [name]. *)
Definition pushed_under (name : string) (s : settlement) (n : string)
  : list socket :=
  if decide (n = name) then stream_of s else [].

(** The streams handed to the request's callback, in order. *)
Definition callback_sockets (es : list event) : list socket :=
  omap (λ e, match e with EvCallbackSocket x => Some x | _ => None end) es.

(** A pool holding one real socket under [localhost:80:], on an agent
    limited to two sockets per name. *)
Definition busy_agent : agent :=
  Agent (Finite 2) Infinity {[ "localhost:80:" := [5%nat] ]} 1 None None None
        6%nat [].

End PoolRuns.

(** ** Vocabulary for the socket cache of socks-proxy-agent *)

Module SocksCacheRuns.
Import Socks.

(** The entries cached under a key; a key that is absent has none. *)
Definition entries_of (key : string) (w : world) : list SocketCacheEntry :=
  default [] (JsMap.get key (socketCache w)).

(** An entry that the one-minute timer removes: idle for longer than the
    idle timeout. *)
Definition idle_expired (now : Z) (e : SocketCacheEntry) : Prop :=
  inUse e = false ∧ now - lastUsed e > SOCKET_IDLE_TIMEOUT.

#[export] Instance idle_expired_dec (now : Z) (e : SocketCacheEntry) :
  Decision (idle_expired now e).
Proof. unfold idle_expired. apply _. Defined.

(** What is left of a list of entries after the timer ran. *)
Definition survivors (now : Z) (entries : list SocketCacheEntry)
  : list SocketCacheEntry :=
  filter (λ e, ¬ idle_expired now e) entries.

(** An entry that [getCachedSocket] may hand out. *)
Definition available (dead : gset socket) (e : SocketCacheEntry) : Prop :=
  inUse e = false ∧ entry_socket e ∉ dead.

(** Two proxy URLs for the same endpoint, differing in the credentials
    and in who resolves the destination. *)
Definition alice_url : URL := Url "socks5:" "proxy.local" (Some 1080) "alice" "secret".
Definition bob_url : URL := Url "socks5h:" "proxy.local" None "bob" "other".

(** An agent that opted in to socket caching, and a world whose cache
    holds one idle socket for [example.com:80] behind that proxy, and one
    that is in use. *)
Definition caching_agent : SocksProxyAgent :=
  SocksAgent false (Proxy "proxy.local" 1080 5 None (Some ""))
             None true true true true "proxy.local:1080:5".

Definition warm_world : world :=
  World [("example.com", DnsEntry "93.184.216.34" 1000)]
        [("proxy.local:1080:example.com:80",
          [SocketEntry 3%nat 1000 true; SocketEntry 4%nat 2000 false])]
        ∅ [].

(** A cache that is full for one key; the oldest of its sockets is in
    use. *)
Definition full_entries : list SocketCacheEntry :=
  SocketEntry 0%nat 0 true
    :: ((λ n, SocketEntry n 0 false) <$> seq 1 9).

Definition full_world : world :=
  World [] [("proxy.local:1080:example.com:80", full_entries)] ∅ [].

End SocksCacheRuns.

(** ** Vocabulary for the dispatcher's agents *)

Module DispatcherInvariants.
Import Dispatcher.

Definition cached_agents (d : ProxyAgent) : list agent_id :=
  JsMap.values (LRU.items (cache d)).

(** The agents that [connect] answers with: the cached ones and the two
    defaults. *)
Definition in_service (d : ProxyAgent) (a : agent_id) : Prop :=
  a ∈ cached_agents d ∨ a = httpAgent d ∨ a = httpsAgent d.

(** The state of a dispatcher in use: cache keys are unique, no agent is
    cached twice or is one of the defaults, every agent in service was
    created before the next one to come and was never destroyed. *)
Definition healthy (d : ProxyAgent) : Prop :=
  JsMap.wf (LRU.items (cache d)) ∧
  NoDup (cached_agents d) ∧
  (httpAgent d ∉ cached_agents d) ∧
  (httpsAgent d ∉ cached_agents d) ∧
  (∀ a, in_service d a → (a < next_agent d)%nat ∧ a ∉ destroyed d) ∧
  Forall (λ a, (a < next_agent d)%nat) (destroyed d).

(** The class that the table [proxies] gives for a scheme and a kind of
    request. *)
Definition ctor_for (proto : string) (secure_or_websocket : bool)
  : agent_ctor :=
  if secure_or_websocket then (proxies proto).2 else (proxies proto).1.

Definition constructor_key (proto : string) (secure_or_websocket : bool)
  : string :=
  proto +:+ ":" +:+ (if secure_or_websocket then "1" else "0").

(** The memo of constructors agrees with the table. *)
Definition constructors_match (d : ProxyAgent) : Prop :=
  ∀ proto idx ctor,
    isValidProtocol proto = true →
    JsMap.get (constructor_key proto idx) (agentConstructorCache d)
      = Some ctor →
    ctor = ctor_for proto idx.

End DispatcherInvariants.

(** ** Inputs for the forward proxy *)

Module HttpProxyRuns.
Import HttpProxy HttpProxyConnect.

(** A stand-in for [String(url)] that shows the port when one was set. *)
Definition example_url_with_port (path base : string) (port : option Z)
  : string :=
  base +:+ match port with
           | Some n => ":" +:+ pretty n
           | None => EmptyString
           end +:+ path.

(** Two requests to [example.com]: [/p8] on port 80, and [/p] on port
    880. *)
Definition request_p8 : request :=
  Request "/p8" [("host", JString "example.com")].

Definition request_p : request :=
  Request "/p" [("host", JString "example.com")].

Definition port880 : connect_opts := ConnectOpts false 880.

(** A stand-in for Node's header string: the request line and a blank
    line. *)
Definition example_render_header (r : request) : string :=
  "GET " +:+ path r +:+ " HTTP/1.1" +:+ crlf +:+ crlf.

(** A request whose header and body were already written to the output
    buffer in one chunk, before the agent was asked for a socket. *)
Definition buffered_request : client_request :=
  ClientRequest (Request "/" [("host", JString "example.com")])
    (Some ("POST / HTTP/1.1" +:+ crlf +:+ crlf))
    ["POST / HTTP/1.1" +:+ crlf +:+ crlf +:+ "payload"; "more"].

End HttpProxyRuns.

(** ** Inputs for the tunnelling proxy *)

Module TunnelCtorRuns.
Import HttpsProxy HttpsProxyCtor.

(** How a socket was made; [None] for an unknown socket. *)
Definition kind_of (s : socket) (w : world) : option sock_kind :=
  kind <$> socks w !! s.

(** Two users of one proxy. *)
Definition alice_proxy : proxy_url :=
  ProxyUrl "http:" "proxy.local" "proxy.local:8080" (Some 8080)
           "alice" "secret".

Definition bob_proxy : proxy_url :=
  ProxyUrl "http:" "proxy.local" "proxy.local:8080" (Some 8080)
           "bob" "other".

(** A TLS proxy at an IPv6 address, on the default port. *)
Definition v6_proxy : proxy_url :=
  ProxyUrl "https:" "[::1]" "[::1]" None "" "".

(** The options of a request to [example.com:443], and a test for IP
    addresses that knows [127.0.0.1]. *)
Definition request_options : object :=
  [("host", JString "example.com"); ("port", JString "443");
   ("path", JString "/"); ("rejectUnauthorized", JBool true)].

Definition example_isIP (h : string) : bool :=
  bool_decide (h = "127.0.0.1").

End TunnelCtorRuns.

(** ** Base64, as RFC 4648 has it *)

Module Base64Runs.
Import DataUriBase64.

(** The character for a 6-bit value. *)
Definition digit (v : Z) : nat :=
  default 0%nat (codes base64Chars !! Z.to_nat v).

Definition pad : nat := 61%nat.

(** The encoding of a sequence of bytes: three bytes give four
    characters, and a last group of one or two bytes is padded with
    [=]. *)
Fixpoint encode (bytes : list Z) : list nat :=
  match bytes with
  | [] => []
  | [b0] =>
      [digit (Z.shiftr b0 2); digit (Z.shiftl (Z.land b0 3) 4); pad; pad]
  | [b0; b1] =>
      [digit (Z.shiftr b0 2);
       digit (Z.lor (Z.shiftl (Z.land b0 3) 4) (Z.shiftr b1 4));
       digit (Z.shiftl (Z.land b1 15) 2); pad]
  | b0 :: b1 :: b2 :: rest =>
      [digit (Z.shiftr b0 2);
       digit (Z.lor (Z.shiftl (Z.land b0 3) 4) (Z.shiftr b1 4));
       digit (Z.lor (Z.shiftl (Z.land b1 15) 2) (Z.shiftr b2 6));
       digit (Z.land b2 63)]
      ++ encode rest
  end.

Definition is_byte (b : Z) : Prop := 0 ≤ b < 256.

(** The checks that are run over all 6-bit values and over all pairs
    of bytes. *)
Definition in_sextet (v : Z) : bool := (0 <=? v) && (v <? 64).

Definition digit_ok (v : Z) : bool :=
  bool_decide (lookup (Some (digit v)) = v) && is_data (Some (digit v)).

Definition first_byte_ok (b0 b1 : Z) : bool :=
  let i0 := Z.shiftr b0 2 in
  let i1 := Z.lor (Z.shiftl (Z.land b0 3) 4) (Z.shiftr b1 4) in
  in_sextet i0 && in_sextet i1
  && (to_uint8 (Z.lor (Z.shiftl i0 2) (Z.shiftr i1 4)) =? b0)
  && (Z.land i1 15 =? Z.shiftr b1 4).

Definition second_byte_ok (b1 b2 : Z) : bool :=
  let i2 := Z.lor (Z.shiftl (Z.land b1 15) 2) (Z.shiftr b2 6) in
  let i3 := Z.land b2 63 in
  in_sextet i2 && in_sextet i3
  && (to_uint8 (Z.lor (Z.shiftl (Z.shiftr b1 4) 4) (Z.shiftr i2 2)) =? b1)
  && (to_uint8 (Z.lor (Z.shiftl (Z.land i2 3) 6) i3) =? b2).

Definition last_bytes_ok (b0 b1 : Z) : bool :=
  let j1 := Z.shiftl (Z.land b0 3) 4 in
  let j2 := Z.shiftl (Z.land b1 15) 2 in
  in_sextet j1 && in_sextet j2
  && (to_uint8 (Z.lor (Z.shiftl (Z.shiftr b0 2) 2) (Z.shiftr j1 4)) =? b0)
  && (to_uint8 (Z.lor (Z.shiftl (Z.shiftr b1 4) 4) (Z.shiftr j2 2)) =? b1).

Definition octets : list Z := Z.of_nat <$> seq 0 256.

End Base64Runs.

(** ** Inputs for the PAC resolver *)

Module PacRuns.
Import PacResolver.

(** Two PAC scripts: one sends everything through a proxy, the other
    connects directly. *)
Definition proxy_script (url host : string) : string + string :=
  inr "PROXY proxy.local:8080".

Definition direct_script (url host : string) : string + string :=
  inr "DIRECT".

(** A memo at its limit: ten thousand answers, all of the same age. *)
Definition full_result_cache : result_cache :=
  CacheBounds.numbered (ResultEntry "DIRECT" 0) 1 (Z.to_nat MAX_CACHE_SIZE).

Definition example_url : parsed_url :=
  ParsedUrl "http://example.com/" "example.com".

End PacRuns.

(** ** Inputs for get-uri *)

Module GetUriRuns.
Import GetUri.

(** The scheme of a URL object, as the table of handlers names it. *)
Definition scheme (url : URL) : string :=
  if endsWith_colon (protocol url) then slice_off_last (protocol url)
  else protocol url.


(** A parser that knows one file URL. *)
Definition example_parse (s : string) : option URL :=
  if decide (s = "file:///etc/hosts")
  then Some (Url 7 "file:" "file:///etc/hosts") else None.

(** A cache of parsed URLs that already holds one of them. *)
Definition example_url_cache : JsMap.t URL :=
  [("http://example.com/", Url 3 "http:" "http://example.com/")].

(** The two errors thrown before a URL is parsed. *)
Definition missing_uri : string :=
  "Must pass in a URI to " +:+ dquote +:+ "getUri()" +:+ dquote.


End GetUriRuns.

(** ** Vocabulary for data URIs *)

Module DataUriRuns.
Import DataUriBase64 DataUri Base64Runs.

Fixpoint has_char (c : ascii) (s : string) : bool :=
  match s with
  | EmptyString => false
  | String c' rest => Ascii.eqb c' c || has_char c rest
  end.

(** The string with the given code units. *)
Definition text_of (cs : list nat) : string :=
  String.string_of_list_ascii (ascii_of_nat <$> cs).

(** A media type as it can stand in front of [;base64,]: no comma, no
    semicolon, no line feed. *)
Definition plain_media_type (s : string) : Prop :=
  has_char ","%char s = false ∧ has_char ";"%char s = false
  ∧ has_char LF s = false.

(** The data URI for some bytes of a media type. *)
Definition base64_uri (mediatype : string) (bytes : list Z) : string :=
  "data:" +:+ mediatype +:+ ";base64," +:+ text_of (encode bytes).

(** No digit and no padding is a line feed. *)
Definition digit_plain (v : Z) : bool :=
  negb (Ascii.eqb (ascii_of_nat (digit v)) LF).

(** An [unescape] for strings without [%]: the code units as they
    are. *)
Definition example_unescape (s : string) : list nat := codes s.

End DataUriRuns.

(** * Properties *)

(** ** Insertion-ordered maps *)

Section jsmap_facts.
Context {V : Type}.
Implicit Types (m : JsMap.t V) (k : string) (v : V).

Lemma jsmap_delete_first_tail m : JsMap.delete_first m = tail m.
Proof.
  destruct m as [|[k v] rest]; [done|].
  unfold JsMap.delete_first; simpl. by rewrite decide_True.
Qed.

Lemma jsmap_get_None_keys k m : JsMap.get k m = None ↔ k ∉ JsMap.keys m.
Proof.
  unfold JsMap.keys.
  induction m as [|[k' v'] rest IH]; csimpl.
  - split; [intros _; apply not_elem_of_nil | done].
  - rewrite not_elem_of_cons.
    destruct (decide (k = k')) as [->|Hne]; [split; [done | tauto]|].
    rewrite IH. tauto.
Qed.

Lemma jsmap_get_Some_elem k v m : JsMap.get k m = Some v → (k, v) ∈ m.
Proof.
  induction m as [|[k' v'] rest IH]; simpl; [done|].
  destruct (decide (k = k')) as [->|]; intros H.
  - injection H as ->. apply elem_of_cons; by left.
  - apply elem_of_cons; right; auto.
Qed.

Lemma jsmap_length_set k v m :
  length (JsMap.set k v m) =
  if JsMap.has k m then length m else S (length m).
Proof.
  unfold JsMap.has.
  induction m as [|[k' v'] rest IH]; simpl; [done|].
  destruct (decide (k = k')); simpl; [done|].
  rewrite IH. by destruct (JsMap.get k rest).
Qed.

Lemma jsmap_length_set_le k v m :
  (length (JsMap.set k v m) ≤ S (length m))%nat.
Proof. rewrite jsmap_length_set. destruct (JsMap.has k m); lia. Qed.

Lemma jsmap_length_delete_le k m :
  (length (JsMap.delete k m) ≤ length m)%nat.
Proof.
  induction m as [|[k' v'] rest IH]; simpl; [done|].
  destruct (decide (k = k')); simpl; lia.
Qed.

Lemma jsmap_length_delete k m :
  length (JsMap.delete k m) =
  if JsMap.has k m then pred (length m) else length m.
Proof.
  unfold JsMap.has.
  induction m as [|[k' v'] rest IH]; simpl; [done|].
  destruct (decide (k = k')); simpl; [done|].
  rewrite IH. destruct (JsMap.get k rest) eqn:E; [|done].
  destruct rest; [done | simpl; lia].
Qed.

Lemma jsmap_get_set k k' v m :
  JsMap.get k' (JsMap.set k v m) =
  if decide (k' = k) then Some v else JsMap.get k' m.
Proof.
  induction m as [|[k0 v0] rest IH]; simpl.
  - by destruct (decide (k' = k)).
  - destruct (decide (k = k0)) as [->|Hne]; simpl.
    + by destruct (decide (k' = k0)).
    + rewrite IH. destruct (decide (k' = k0)) as [->|]; [|done].
      by rewrite decide_False.
Qed.

Lemma jsmap_get_delete_ne k k' m :
  k' ≠ k → JsMap.get k' (JsMap.delete k m) = JsMap.get k' m.
Proof.
  intros Hne. induction m as [|[k0 v0] rest IH]; simpl; [done|].
  destruct (decide (k = k0)) as [->|]; simpl.
  - by rewrite decide_False.
  - by rewrite IH.
Qed.

Lemma jsmap_keys_set k v m :
  JsMap.keys (JsMap.set k v m) =
  if JsMap.has k m then JsMap.keys m else JsMap.keys m ++ [k].
Proof.
  unfold JsMap.has, JsMap.keys.
  induction m as [|[k0 v0] rest IH]; csimpl; [done|].
  destruct (decide (k = k0)) as [->|]; csimpl; [done|].
  rewrite IH. by destruct (JsMap.get k rest).
Qed.

Lemma jsmap_keys_delete_sub k m : JsMap.keys (JsMap.delete k m) ⊆ JsMap.keys m.
Proof.
  unfold JsMap.keys.
  induction m as [|[k0 v0] rest IH]; csimpl; [done|].
  destruct (decide (k = k0)); csimpl; intros x; rewrite ?elem_of_cons.
  - tauto.
  - intros [->|Hx]; [by left | right; by apply IH].
Qed.

Lemma jsmap_wf_set k v m : JsMap.wf m → JsMap.wf (JsMap.set k v m).
Proof.
  unfold JsMap.wf. rewrite jsmap_keys_set. unfold JsMap.has.
  destruct (JsMap.get k m) eqn:E; [done|].
  intros Hnd. apply NoDup_app. split_and!; [done | | apply NoDup_singleton].
  intros x Hx Hx'. apply list_elem_of_singleton in Hx' as ->.
  by apply jsmap_get_None_keys in E.
Qed.

Lemma jsmap_wf_delete k m : JsMap.wf m → JsMap.wf (JsMap.delete k m).
Proof.
  unfold JsMap.wf, JsMap.keys.
  induction m as [|[k0 v0] rest IH]; csimpl; [done|].
  rewrite NoDup_cons. intros [Hk0 Hnd].
  destruct (decide (k = k0)); csimpl; [done|].
  apply NoDup_cons. split; [|auto].
  intros Hin. apply Hk0. by apply (jsmap_keys_delete_sub k rest).
Qed.

Lemma jsmap_wf_tail m : JsMap.wf m → JsMap.wf (tail m).
Proof.
  destruct m as [|[k v] rest]; [done|].
  unfold JsMap.wf, JsMap.keys; csimpl. rewrite NoDup_cons. tauto.
Qed.
End jsmap_facts.

Lemma append_assoc_string (a b c : string) :
  (a +:+ b) +:+ c = a +:+ (b +:+ c).
Proof.
  induction a as [|x a IH]; [done|].
  change (String x a +:+ b) with (String x (a +:+ b)).
  change (String x (a +:+ b) +:+ c) with (String x ((a +:+ b) +:+ c)).
  change (String x a +:+ (b +:+ c)) with (String x (a +:+ (b +:+ c))).
  by rewrite IH.
Qed.

(** ** agent-base: pool accounting *)

Module AgentBaseFacts.
Import AgentBase Runs Examples.

(** C9. When [maxSockets] and [maxTotalSockets] are both [Infinity],
    [incrementSockets] returns [null] and leaves the agent as it was (no
    placeholder socket is created), and [decrementSockets] called with that
    [null] leaves the [sockets] map and [totalSocketCount] unchanged; the
    whole agent is unchanged, in fact. *)
Theorem unbounded_pool_skips_accounting (name : string) (a : agent) :
  maxSockets a = Infinity →
  maxTotalSockets a = Infinity →
  incrementSockets name a = (None, a) ∧
  sockets (decrementSockets name None a) = sockets a ∧
  totalSocketCount (decrementSockets name None a) = totalSocketCount a ∧
  decrementSockets name (incrementSockets name a).1
    (incrementSockets name a).2 = a.
Proof.
  intros Hs Ht.
  assert (Hinc : incrementSockets name a = (None, a)).
  { unfold incrementSockets. by rewrite Hs, Ht. }
  assert (Hdec : ∀ b, decrementSockets name None b = b).
  { intros b. unfold decrementSockets. by destruct (sockets b !! name). }
  rewrite Hinc; simpl. by rewrite !Hdec.
Qed.

Lemma unbounded_pool_skips_accounting_witness :
  incrementSockets "localhost:80:" default_agent = (None, default_agent) ∧
  sockets (decrementSockets "localhost:80:" None default_agent)
    = sockets default_agent ∧
  totalSocketCount (decrementSockets "localhost:80:" None default_agent)
    = totalSocketCount default_agent ∧
  decrementSockets "localhost:80:"
    (incrementSockets "localhost:80:" default_agent).1
    (incrementSockets "localhost:80:" default_agent).2 = default_agent.
Proof.
  apply (unbounded_pool_skips_accounting "localhost:80:" default_agent);
    reflexivity.
Defined.

(** *** One attempt, one increment, one decrement *)

(** [isSecureEndpoint] touches nothing but its memo. *)
Lemma isSecureEndpoint_frame (o : option connect_opts) (st : option string)
    (a : agent) :
  let a' := (isSecureEndpoint o st a).2 in
  maxSockets a' = maxSockets a ∧ maxTotalSockets a' = maxTotalSockets a ∧
  sockets a' = sockets a ∧ totalSocketCount a' = totalSocketCount a ∧
  next_socket a' = next_socket a ∧ trace a' = trace a.
Proof.
  unfold isSecureEndpoint.
  destruct (explicit_answer o); [done|].
  destruct (cachedEndpointKey a); [|done].
  destruct (cachedSecureEndpoint a); [|done].
  by case_decide.
Qed.

Lemma splice_first_snoc (s : socket) (arr : list socket) :
  s ∉ arr → splice_first s (arr ++ [s]) = Some arr.
Proof.
  induction arr as [|x arr IH]; simpl; intros Hs.
  - by rewrite decide_True.
  - apply not_elem_of_cons in Hs as [Hne Hs].
    rewrite decide_False by done. by rewrite IH.
Qed.

Lemma incrementSockets_bounded (name : string) (a : agent) :
  bounded a →
  incrementSockets name a =
  (Some (next_socket a),
   with_pool (<[name := pool_view a name ++ [next_socket a]]> (sockets a))
             (totalSocketCount a + 1) (alloc_socket a).2).
Proof.
  unfold bounded, incrementSockets. intros Hb.
  destruct (maxSockets a), (maxTotalSockets a); try done.
  exfalso; by apply Hb.
Qed.

(** Releasing a placeholder that sits last under its name. *)
Lemma decrementSockets_last (name : string) (s : socket)
    (arr : list socket) (a : agent) :
  sockets a !! name = Some (arr ++ [s]) →
  s ∉ arr →
  let a' := decrementSockets name (Some s) a in
  pool_view a' name = arr ∧
  (∀ n, n ≠ name → pool_view a' n = pool_view a n) ∧
  totalSocketCount a' = totalSocketCount a - 1 ∧
  trace a' = trace a.
Proof.
  intros Hlook Hs. unfold decrementSockets. rewrite Hlook.
  rewrite splice_first_snoc by done. unfold pool_view.
  destruct arr as [|x arr]; simpl.
  - rewrite lookup_delete_eq. split_and!; [done| |done|done].
    intros n Hn. by rewrite lookup_delete_ne.
  - rewrite lookup_insert_eq. split_and!; [done| |done|done].
    intros n Hn. by rewrite lookup_insert_ne.
Qed.

Lemma isSecureEndpoint_memo (o : option connect_opts) (st : option string)
    (a b : agent) :
  cachedEndpointKey a = cachedEndpointKey b →
  cachedSecureEndpoint a = cachedSecureEndpoint b →
  (isSecureEndpoint o st a).1 = (isSecureEndpoint o st b).1.
Proof.
  unfold isSecureEndpoint. intros -> ->.
  destruct (explicit_answer o); [done|].
  destruct (cachedEndpointKey b); [|done].
  destruct (cachedSecureEndpoint b); [|done].
  by case_decide.
Qed.

Lemma isSecureEndpoint_currentSocket (o : option connect_opts)
    (st : option string) (a : agent) :
  currentSocket (isSecureEndpoint o st a).2 = currentSocket a.
Proof.
  unfold isSecureEndpoint.
  destruct (explicit_answer o); [done|].
  destruct (cachedEndpointKey a); [|done].
  destruct (cachedSecureEndpoint a); [|done].
  by case_decide.
Qed.

Lemma decrementSockets_memo (name : string) (s : option socket)
    (a : agent) :
  cachedEndpointKey (decrementSockets name s a) = cachedEndpointKey a ∧
  cachedSecureEndpoint (decrementSockets name s a) = cachedSecureEndpoint a.
Proof.
  unfold decrementSockets. destruct (sockets a !! name); [|done].
  destruct s as [s|]; [|done]. by destruct (splice_first s l).
Qed.

Section attempts.
Variables (httpGetName httpsGetName : connect_opts → string).

(** The name Node asks for depends on the agent through the memo of
    [isSecureEndpoint] only. *)
Lemma super_name_memo (sc : super_call) (a b : agent) :
  cachedEndpointKey a = cachedEndpointKey b →
  cachedSecureEndpoint a = cachedSecureEndpoint b →
  super_name httpGetName httpsGetName sc a
  = super_name httpGetName httpsGetName sc b.
Proof.
  intros Hk Hb. unfold super_name, getName.
  pose proof (isSecureEndpoint_memo (Some (super_options sc))
                (super_stack sc) a b Hk Hb) as H.
  destruct (isSecureEndpoint (Some (super_options sc)) (super_stack sc) a),
           (isSecureEndpoint (Some (super_options sc)) (super_stack sc) b).
  simpl in *. by subst.
Qed.

Lemma super_name_cases (sc : super_call) (a : agent) :
  super_name httpGetName httpsGetName sc a = httpsGetName (super_options sc) ∨
  super_name httpGetName httpsGetName sc a = httpGetName (super_options sc).
Proof.
  unfold super_name, getName.
  destruct (isSecureEndpoint (Some (super_options sc)) (super_stack sc) a)
    as [[] ?]; simpl; auto.
Qed.

(** Node's [createSocket]: the stored stream, if there is one, is pushed
    under the name Node asked for and counted; the slot is empty
    afterwards. *)
Lemma super_createSocket_spec (sc : super_call) (a : agent) :
  let a' := super_createSocket httpGetName httpsGetName sc a in
  let stream := match currentSocket a with Some s => [s] | None => [] end in
  (∀ n, pool_view a' n =
        pool_view a n
        ++ (if decide (n = super_name httpGetName httpsGetName sc a)
            then stream else [])) ∧
  totalSocketCount a' = totalSocketCount a + Z.of_nat (length stream) ∧
  currentSocket a' = None ∧
  maxSockets a' = maxSockets a ∧ maxTotalSockets a' = maxTotalSockets a ∧
  next_socket a' = next_socket a ∧
  ∃ rest, trace a' = trace a ++ rest ∧
          Forall (λ e, is_accounting e = false) rest ∧
          rest = EvSuperCreateSocket ::
                 match currentSocket a with
                 | Some s => [EvCallbackSocket s]
                 | None => [EvThrown
                     "No socket was returned in the `connect()` function"]
                 end.
Proof.
  intros a' stream. unfold a', stream, super_createSocket.
  rewrite (super_name_memo sc a (log EvSuperCreateSocket a)) by done.
  unfold super_name, getName.
  pose proof (isSecureEndpoint_frame (Some (super_options sc))
                (super_stack sc) (log EvSuperCreateSocket a)) as F.
  pose proof (isSecureEndpoint_currentSocket (Some (super_options sc))
                (super_stack sc) (log EvSuperCreateSocket a)) as C.
  destruct (isSecureEndpoint (Some (super_options sc)) (super_stack sc)
              (log EvSuperCreateSocket a)) as [secure a1].
  simpl in F, C. destruct F as (M1 & M2 & S1 & T1 & N1 & L1).
  cbn [fst]. unfold createConnection. rewrite C.
  set (name := if secure then httpsGetName (super_options sc)
               else httpGetName (super_options sc)).
  unfold pool_view. destruct (currentSocket a) as [s|]; simpl.
  - rewrite S1, T1, L1, M1, M2, N1. split_and!; try done.
    + intros n. destruct (decide (n = name)) as [->|Hn].
      * by rewrite lookup_insert_eq.
      * rewrite lookup_insert_ne by done. by rewrite app_nil_r.
    + eexists. split; [by rewrite <- app_assoc|].
      split; [by repeat constructor|done].
  - rewrite S1, T1, L1, M1, M2, N1. split_and!; try done.
    + intros n. destruct (decide (n = name)); by rewrite app_nil_r.
    + lia.
    + eexists. split; [by rewrite <- app_assoc|].
      split; [by repeat constructor|done].
Qed.

(** The hand-over after the decrement: nothing happens to the pool
    unless [connect()] produced a stream, which is then pushed and
    counted. *)
Lemma hand_over_spec (v : conn_value) (sc : super_call) (a : agent) :
  let a' := hand_over httpGetName httpsGetName v sc a in
  (∀ n, pool_view a' n =
        pool_view a n
        ++ (if decide (n = super_name httpGetName httpsGetName sc a)
            then stream_of (Fulfilled v) else [])) ∧
  totalSocketCount a' =
    totalSocketCount a + Z.of_nat (length (stream_of (Fulfilled v))) ∧
  maxSockets a' = maxSockets a ∧ maxTotalSockets a' = maxTotalSockets a ∧
  next_socket a' = next_socket a ∧
  ∃ rest, trace a' = trace a ++ rest ∧
          Forall (λ e, is_accounting e = false) rest.
Proof.
  destruct v as [s|ag [err|]|]; simpl.
  - destruct (super_createSocket_spec sc (with_currentSocket (Some s) a))
      as (P & T & _ & M1 & M2 & N & rest & L & F & _).
    rewrite (super_name_memo sc (with_currentSocket (Some s) a) a) in P
      by done.
    split_and!; try done. by exists rest.
  - split_and!; try done.
    + intros n. by destruct (decide _); rewrite app_nil_r.
    + lia.
    + exists [EvAddRequest ag; EvCallback err].
      by rewrite <- app_assoc; repeat constructor.
  - split_and!; try done.
    + intros n. by destruct (decide _); rewrite app_nil_r.
    + lia.
    + exists [EvAddRequest ag]. by repeat constructor.
  - destruct (super_createSocket_spec sc (with_currentSocket None a))
      as (P & T & _ & M1 & M2 & N & rest & L & F & _).
    rewrite (super_name_memo sc (with_currentSocket None a) a) in P
      by done.
    split_and!; try done. by exists rest.
Qed.

Lemma reserve_bounded (options : connect_opts) (stack : option string)
    (a : agent) :
  bounded a →
  ∃ connectOpts name a0,
    reserve httpGetName httpsGetName options stack a
      = (connectOpts, name, Some (next_socket a), a0) ∧
    sockets a0 = <[name := pool_view a name ++ [next_socket a]]> (sockets a) ∧
    totalSocketCount a0 = totalSocketCount a + 1 ∧
    trace a0 = trace a ++ [EvIncrement name (Some (next_socket a))].
Proof.
  intros Hb. unfold reserve, getName.
  pose proof (isSecureEndpoint_frame (Some options) stack a) as F1.
  destruct (isSecureEndpoint (Some options) stack a) as [secure a1].
  simpl in F1. destruct F1 as (M1 & M2 & S1 & T1 & N1 & L1).
  set (connectOpts :=
         if decide (secureEndpoint options = JBool secure) then options
         else ConnectOpts (JBool secure) (protocol options)).
  pose proof (isSecureEndpoint_frame (Some connectOpts) stack a1) as F2.
  destruct (isSecureEndpoint (Some connectOpts) stack a1) as [secure' a2].
  simpl in F2. destruct F2 as (M1' & M2' & S2 & T2 & N2 & L2).
  set (name := if secure' then httpsGetName connectOpts
               else httpGetName connectOpts).
  assert (Hb2 : bounded a2).
  { unfold bounded in *. by rewrite M1', M2', M1, M2. }
  rewrite (incrementSockets_bounded name a2 Hb2).
  exists connectOpts, name. eexists. split.
  { rewrite <- N1, <- N2. reflexivity. }
  unfold pool_view; simpl.
  rewrite S2, S1, T2, T1, N2, N1, L2, L1. done.
Qed.

Lemma finish_spec (p : attempt_path) (sc : super_call) (a : agent) :
  let a' := finish httpGetName httpsGetName p sc a in
  (∀ n, pool_view a' n =
        pool_view a n
        ++ (if decide (n = super_name httpGetName httpsGetName sc a)
            then stream_of (settlement_of p) else [])) ∧
  totalSocketCount a' =
    totalSocketCount a + Z.of_nat (length (stream_of (settlement_of p))) ∧
  ∃ rest, trace a' = trace a ++ rest ∧
          Forall (λ e, is_accounting e = false) rest.
Proof.
  unfold finish. destruct (settlement_of p) as [v|err].
  - destruct (hand_over_spec v sc a) as (P & T & _ & _ & _ & R). done.
  - simpl. split_and!.
    + intros n. by destruct (decide _); rewrite app_nil_r.
    + lia.
    + exists [EvCallback err]. by repeat constructor.
Qed.

Lemma run_attempt_shape (options : connect_opts) (stack : option string)
    (p : attempt_path) (sc : super_call) (a : agent)
    connectOpts name fakeSocket a0 :
  reserve httpGetName httpsGetName options stack a
    = (connectOpts, name, fakeSocket, a0) →
  run_attempt httpGetName httpsGetName options stack p sc a =
  finish httpGetName httpsGetName p sc
    (log (EvDecrement name fakeSocket)
       (decrementSockets name fakeSocket (log EvConnect a0))).
Proof.
  intros Hr. unfold run_attempt, createSocket, finish, settle. rewrite Hr.
  destruct p as [[s|ag thr|]|v|err]; done.
Qed.

(** C2, as the code has it. On an agent with a finite [maxSockets] or
    [maxTotalSockets], every tunnel attempt that ends in a synchronous
    result, an asynchronous success or an asynchronous failure makes
    exactly one increment (a placeholder socket pushed and
    [totalSocketCount] raised by one) before [connect] is called, and
    exactly one decrement of that same placeholder when it settles;
    afterwards the placeholder is gone, and the pool and the count
    differ from what they were only by the stream the attempt produced,
    which Node's own [createSocket] has pushed and counted. *)
Theorem bounded_pool_one_increment_one_decrement
    (options : connect_opts) (stack : option string) (p : attempt_path)
    (sc : super_call) (a : agent) :
  bounded a →
  pool_wf a →
  one_increment_one_decrement httpGetName httpsGetName options stack p sc a.
Proof.
  intros Hb Hwf. unfold one_increment_one_decrement.
  destruct (reserve_bounded options stack a Hb)
    as (connectOpts & name & a0 & Hr & Hs & Ht & Hl).
  rewrite (run_attempt_shape options stack p sc a _ _ _ _ Hr). rewrite Hr.
  set (fake := next_socket a) in *.
  assert (Hfresh : fake ∉ pool_view a name).
  { intros Hin. apply Hwf in Hin. unfold fake in Hin. lia. }
  assert (Hlook : sockets (log EvConnect a0) !! name
                  = Some (pool_view a name ++ [fake])).
  { simpl. rewrite Hs. apply lookup_insert_eq. }
  pose proof (decrementSockets_last name fake _ _ Hlook Hfresh) as D.
  simpl in D. destruct D as (Dv & Do & Dt & Dl).
  destruct (decrementSockets_memo name (Some fake) (log EvConnect a0))
    as [Dk Db].
  set (released := log (EvDecrement name (Some fake))
                     (decrementSockets name (Some fake)
                        (log EvConnect a0))).
  destruct (finish_spec p sc released) as (Fs & Ft & rest & Fl & Frest).
  rewrite (super_name_memo sc released a0) in Fs by done.
  exists fake. split_and!; [done|done| |done| | |].
  - unfold pool_view at 1. by rewrite Hs, lookup_insert_eq.
  - exists rest. split; [|done].
    rewrite Fl. unfold released; simpl. rewrite Dl, Hl.
    by rewrite <- !app_assoc.
  - intros n. rewrite Fs. f_equal. unfold released, pool_view at 1; simpl.
    fold (pool_view (decrementSockets name (Some fake)
                       (log EvConnect a0)) n).
    destruct (decide (n = name)) as [->|Hn]; [done|].
    rewrite (Do n Hn). unfold pool_view; simpl.
    by rewrite Hs, lookup_insert_ne.
  - rewrite Ft. unfold released; simpl. rewrite Dt. lia.
Qed.

(** A settlement releases the placeholder and then hands over: the pool
    after it is the pool after [decrementSockets], with the stream, if
    there is one, pushed under the name Node asked for. *)
Lemma settle_spec (p : pending) (s : settlement) (sc : super_call)
    (a : agent) :
  let d := decrementSockets (p_name p) (p_fakeSocket p) a in
  let a' := settle httpGetName httpsGetName p s sc a in
  (∀ n, pool_view a' n =
        pool_view d n
        ++ (if decide (n = super_name httpGetName httpsGetName sc a)
            then stream_of s else [])) ∧
  totalSocketCount a' =
    totalSocketCount d + Z.of_nat (length (stream_of s)) ∧
  maxSockets a' = maxSockets a ∧ maxTotalSockets a' = maxTotalSockets a ∧
  next_socket a' = next_socket a.
Proof.
  intros d a'. unfold a', settle.
  destruct (decrementSockets_memo (p_name p) (p_fakeSocket p) a) as [Dk Db].
  assert (Hfr : maxSockets d = maxSockets a ∧
                maxTotalSockets d = maxTotalSockets a ∧
                next_socket d = next_socket a).
  { unfold d, decrementSockets. destruct (sockets a !! p_name p); [|done].
    destruct (p_fakeSocket p) as [x|]; [|done].
    by destruct (splice_first x l). }
  destruct Hfr as (F1 & F2 & F3).
  destruct s as [v|err].
  - destruct (hand_over_spec v sc
                (log (EvDecrement (p_name p) (p_fakeSocket p)) d))
      as (P & T & M1 & M2 & N & _).
    rewrite (super_name_memo sc _ a) in P by done.
    split_and!; [exact P|exact T| | |].
    + etrans; [exact M1|exact F1].
    + etrans; [exact M2|exact F2].
    + etrans; [exact N|exact F3].
  - simpl. split_and!; try done.
    + intros n. by destruct (decide _); rewrite app_nil_r.
    + fold d. lia.
Qed.
End attempts.

(** Other attempts on the same agent, started or settled in the
    meantime, leave a placeholder where it is. *)
Lemma splice_first_keeps_others (s s' : socket) (arr arr' : list socket) :
  s ≠ s' → s ∈ arr → splice_first s' arr = Some arr' → s ∈ arr'.
Proof.
  intros Hne. revert arr'. induction arr as [|x arr IH]; intros arr' Hin;
    [by apply elem_of_nil in Hin|].
  simpl. destruct (decide (x = s')) as [->|Hx].
  - intros [= <-]. apply elem_of_cons in Hin as [->|Hin]; done.
  - destruct (splice_first s' arr) as [r|] eqn:Hr; [|done].
    intros [= <-]. apply elem_of_cons in Hin as [->|Hin].
    + apply elem_of_cons. by left.
    + apply elem_of_cons. right. by apply IH.
Qed.

Lemma decrementSockets_keeps_others (name name' : string) (s : socket)
    (other : option socket) (a : agent) :
  other ≠ Some s →
  s ∈ pool_view a name →
  s ∈ pool_view (decrementSockets name' other a) name.
Proof.
  intros Hne Hin. unfold decrementSockets.
  destruct (sockets a !! name') as [arr|] eqn:Hlook; [|done].
  destruct other as [s'|]; [|done].
  destruct (splice_first s' arr) as [arr'|] eqn:Hsp; [|done].
  assert (Hs : s ≠ s') by congruence.
  destruct (decide (name = name')) as [->|Hn].
  - unfold pool_view in Hin. rewrite Hlook in Hin. simpl in Hin.
    pose proof (splice_first_keeps_others s s' arr arr' Hs Hin Hsp) as Hin'.
    unfold pool_view. destruct arr' as [|y arr']; simpl.
    + by apply elem_of_nil in Hin'.
    + by rewrite lookup_insert_eq.
  - unfold pool_view in *. destruct arr'; simpl.
    + by rewrite lookup_delete_ne.
    + by rewrite lookup_insert_ne.
Qed.

Lemma incrementSockets_keeps_others (name name' : string) (s : socket)
    (a : agent) :
  s ∈ pool_view a name →
  s ∈ pool_view (incrementSockets name' a).2 name.
Proof.
  intros Hin. unfold incrementSockets.
  destruct (maxSockets a), (maxTotalSockets a); simpl; try done.
  all: unfold pool_view in *; simpl;
    (destruct (decide (name = name')) as [->|Hn];
     [rewrite lookup_insert_eq; simpl; apply elem_of_app; by left
     |by rewrite lookup_insert_ne]).
Qed.

Lemma settle_keeps_other_placeholders
    (httpGetName httpsGetName : connect_opts → string) (name : string)
    (s : socket) (p : pending) (st : settlement) (sc : super_call)
    (a : agent) :
  p_fakeSocket p ≠ Some s →
  s ∈ pool_view a name →
  s ∈ pool_view (settle httpGetName httpsGetName p st sc a) name.
Proof.
  intros Hne Hin.
  pose proof (decrementSockets_keeps_others name (p_name p) s
                (p_fakeSocket p) a Hne Hin) as Hd.
  destruct (settle_spec httpGetName httpsGetName p st sc a) as (P & _).
  rewrite P. apply elem_of_app. by left.
Qed.

Lemma bounded_pool_one_increment_one_decrement_witness :
  one_increment_one_decrement localhost_name localhost_name
    http_request_opts app_stack (AsyncSuccess (VSocket 7%nat)) node_call
    bounded_agent.
Proof.
  apply (bounded_pool_one_increment_one_decrement localhost_name
           localhost_name http_request_opts app_stack
           (AsyncSuccess (VSocket 7%nat)) node_call bounded_agent).
  - unfold bounded; simpl. intros [H _]. discriminate H.
  - intros name s. unfold pool_view; simpl. rewrite lookup_empty; simpl.
    intros H. by apply elem_of_nil in H.
Defined.

(** C2, as stated, fails on an agent with Node's default limits: no
    placeholder socket is pushed and [totalSocketCount] is not raised. *)
Lemma unbounded_pool_makes_no_increment :
  ¬ one_increment_one_decrement localhost_name localhost_name
      http_request_opts app_stack (AsyncSuccess (VSocket 7%nat)) node_call
      default_agent.
Proof.
  unfold one_increment_one_decrement. simpl.
  intros (fake & Hfake & _). discriminate Hfake.
Qed.

(** When [connect()] throws instead of returning, [createSocket] is left
    by the exception with the placeholder still in the pool: the trace
    holds the increment and no decrement. *)
Lemma sync_throw_keeps_placeholder (err : string) :
  let r := createSocket localhost_name localhost_name http_request_opts
             app_stack (Throws err) node_call bounded_agent in
  r.1 = Threw err ∧
  pool_view r.2 "localhost:80:" = [0%nat] ∧
  totalSocketCount r.2 = totalSocketCount bounded_agent + 1 ∧
  trace r.2 = [EvIncrement "localhost:80:" (Some 0%nat); EvConnect].
Proof. by vm_compute. Qed.

(** The attempt of the witness leaves the tunnel's stream in the pool:
    Node's [createSocket] has taken it from [createConnection], pushed
    it under the name of the request and counted it. *)
Example attempt_leaves_stream_in_pool :
  let a1 := run_attempt localhost_name localhost_name http_request_opts
              app_stack (AsyncSuccess (VSocket 7%nat)) node_call
              bounded_agent in
  pool_view a1 "localhost:80:" = [7%nat] ∧ totalSocketCount a1 = 1 ∧
  currentSocket a1 = None.
Proof. by vm_compute. Qed.

(** *** The memo of [isSecureEndpoint] *)

Lemma explicit_call_keeps_state (c : call) (a : agent) (b : bool) :
  explicit_answer c.1 = Some b → isSecureEndpoint c.1 c.2 a = (b, a).
Proof. intros H. unfold isSecureEndpoint. by rewrite H. Qed.

Lemma fallback_call_fills_slot (c : call) (a : agent) :
  reaches_fallback c →
  let r := isSecureEndpoint c.1 c.2 a in
  cachedEndpointKey r.2 = Some (cache_key c.1) ∧
  cachedSecureEndpoint r.2 = Some r.1.
Proof.
  unfold reaches_fallback, isSecureEndpoint. intros ->.
  destruct (cachedEndpointKey a) as [k|] eqn:Hk;
    destruct (cachedSecureEndpoint a) as [b|] eqn:Hb; simpl; try done.
  destruct (decide (k = cache_key c.1)) as [->|]; simpl; done.
Qed.

Lemma fallback_call_hits_slot (c : call) (a : agent) (b : bool) :
  reaches_fallback c →
  cachedEndpointKey a = Some (cache_key c.1) →
  cachedSecureEndpoint a = Some b →
  isSecureEndpoint c.1 c.2 a = (b, a).
Proof.
  unfold reaches_fallback, isSecureEndpoint. intros -> -> ->.
  by rewrite decide_True.
Qed.

Lemma same_key_calls_keep_slot (k : string) (b : bool) (cs : list call)
    (a : agent) :
  Forall (λ c, reaches_fallback c → cache_key c.1 = k) cs →
  cachedEndpointKey a = Some k →
  cachedSecureEndpoint a = Some b →
  cachedEndpointKey (run_calls cs a) = Some k ∧
  cachedSecureEndpoint (run_calls cs a) = Some b.
Proof.
  revert a. induction cs as [|c cs IH]; intros a Hall Hk Hb; [done|].
  apply Forall_cons in Hall as [Hc Hall]. unfold run_calls; simpl.
  destruct (explicit_answer c.1) as [b'|] eqn:He.
  - rewrite (explicit_call_keeps_state c a b' He). by apply IH.
  - specialize (Hc He). subst k.
    rewrite (fallback_call_hits_slot c a b He Hk Hb). by apply IH.
Qed.

(** C10, as the code has it. The memo is a single slot. Once a call has
    reached the fallback with some cache key, every later call that
    reaches the fallback with that key returns the same boolean, whatever
    its call stack, as long as no call in between reached the fallback
    with a different key (such a call takes the slot over). *)
Theorem endpoint_memo_stable (a : agent) (first : call)
    (between : list call) (later : call) :
  reaches_fallback first →
  reaches_fallback later →
  cache_key later.1 = cache_key first.1 →
  Forall (λ c, reaches_fallback c → cache_key c.1 = cache_key first.1)
         between →
  agrees_after a first between later.
Proof.
  intros Hf Hl Hkey Hbetween. unfold agrees_after; simpl.
  destruct (fallback_call_fills_slot first a Hf) as [Hk Hb].
  destruct (same_key_calls_keep_slot _ _ between _ Hbetween Hk Hb)
    as [Hk' Hb'].
  rewrite <- Hkey in Hk'.
  by rewrite (fallback_call_hits_slot later _ _ Hl Hk' Hb').
Qed.

Lemma endpoint_memo_stable_witness :
  agrees_after default_agent call_from_https [call_from_https] call_from_app.
Proof.
  apply (endpoint_memo_stable default_agent call_from_https
           [call_from_https] call_from_app).
  - reflexivity.
  - reflexivity.
  - reflexivity.
  - repeat constructor.
Defined.

(** C10, as stated, fails: a call with another cache key in between takes
    the slot over, and the later call with the first key inspects the stack
    again and may answer differently. *)
Lemma endpoint_memo_overwritten :
  reaches_fallback call_from_https ∧
  reaches_fallback call_from_app ∧
  cache_key call_from_app.1 = cache_key call_from_https.1 ∧
  (isSecureEndpoint call_from_https.1 call_from_https.2 default_agent).1
    = true ∧
  ¬ agrees_after default_agent call_from_https [call_bare_options]
      call_from_app.
Proof. split_and!; try reflexivity. vm_compute. discriminate. Qed.

End AgentBaseFacts.

(** ** socks-proxy-agent: who resolves the destination *)

Module SocksFacts.
Import Socks SocksRuns Examples.


Lemma resolve_host_resolves (agent : SocksProxyAgent) (opts : connect_opts)
    (lookupFn : resolver) (now now_cb : Z) (w w' : world) (addr : string) :
  shouldLookup agent = true →
  resolve_host agent opts lookupFn now now_cb w = (inr addr, w') →
  resolved_by_client agent lookupFn now (host opts) addr w w'.
Proof.
  intros Hl. unfold resolve_host, resolved_by_client. rewrite Hl.
  destruct (enableDNSCache agent) eqn:Hc.
  - destruct (JsMap.get (host opts) (dnsCache w)) as [cached|] eqn:Hg.
    + case_decide as Hfresh.
      * intros [= <- <-]. left. split; [done|]. by exists cached.
      * destruct (lookupFn (host opts)) as [err|res] eqn:Hr; [done|].
        intros [= <- <-]. by right.
    + destruct (lookupFn (host opts)) as [err|res] eqn:Hr; [done|].
      intros [= <- <-]. by right.
  - intros [= Hr <-]. by right.
Qed.

(** The socket cache never calls the resolver. *)
Lemma getCachedSocket_lookups (k : string) (now : Z) (w : world) :
  lookups (getCachedSocket k now w).2 = lookups w ∧
  dnsCache (getCachedSocket k now w).2 = dnsCache w.
Proof.
  unfold getCachedSocket. destruct (JsMap.get k (socketCache w)); [|done].
  by destruct (take_available now (destroyed w) l) as [[s l']|].
Qed.

Lemma connect_handshake_host (agent : SocksProxyAgent) (conn : connect_opts)
    (lookupFn : resolver) (now now_cb : Z) (w w' : world)
    (socksOpts : SocksClientOptions) :
  connect agent conn lookupFn now now_cb w = (Handshake socksOpts, w') →
  ∃ w1, resolve_host agent conn lookupFn now now_cb w
          = (inr (so_destination_host socksOpts), w1) ∧
        lookups w' = lookups w1 ∧ dnsCache w' = dnsCache w1.
Proof.
  unfold connect.
  destruct (truthy (JString (host conn))); simpl; [|done].
  destruct (resolve_host agent conn lookupFn now now_cb w)
    as [[err|addr] w1]; [done|].
  destruct (enableSocketCache agent).
  - match goal with
    | |- context [getCachedSocket ?k now_cb w1] =>
        pose proof (getCachedSocket_lookups k now_cb w1) as [Hl Hd];
        destruct (getCachedSocket k now_cb w1) as [[s|] w2]
    end; simpl in *.
    + case_bool_decide; [done|]. intros [= <- <-]. by exists w1.
    + intros [= <- <-]. by exists w1.
  - intros [= <- <-]. by exists w1.
Qed.

Lemma connect_world (agent : SocksProxyAgent) (conn : connect_opts)
    (lookupFn : resolver) (now now_cb : Z) (w : world) :
  let w1 := (resolve_host agent conn lookupFn now now_cb w).2 in
  let w' := (connect agent conn lookupFn now now_cb w).2 in
  (lookups w' = lookups w ∧ dnsCache w' = dnsCache w) ∨
  (lookups w' = lookups w1 ∧ dnsCache w' = dnsCache w1).
Proof.
  unfold connect.
  destruct (truthy (JString (host conn))); simpl; [|by left].
  destruct (resolve_host agent conn lookupFn now now_cb w)
    as [[err|addr] w1]; simpl; [by right|].
  destruct (enableSocketCache agent); [|by right].
  match goal with
  | |- context [getCachedSocket ?k now_cb w1] =>
      pose proof (getCachedSocket_lookups k now_cb w1) as [Hl Hd];
      destruct (getCachedSocket k now_cb w1) as [[s|] w2]
  end; simpl in *; [case_bool_decide|]; by right.
Qed.


Example parse_socks5 :
  parseSocksURL example_decodeURIComponent
    (Url "socks5:" "proxy.local" (Some 9050) "" "")
  = inr (true, Proxy "proxy.local" 9050 5 None (Some "")).
Proof. reflexivity. Qed.

Example parse_socks4a :
  parseSocksURL example_decodeURIComponent
    (Url "socks4a:" "proxy.local" None "u" "")
  = inr (false, Proxy "proxy.local" 1080 4 (Some "u") (Some "")).
Proof. reflexivity. Qed.

Example parse_bare_socks :
  parseSocksURL example_decodeURIComponent
    (Url "socks:" "proxy.local" None "" "")
  = inr (false, Proxy "proxy.local" 1080 5 None (Some "")).
Proof. reflexivity. Qed.

Example parse_http_fails :
  parseSocksURL example_decodeURIComponent
    (Url "http:" "proxy.local" None "" "")
  = inl ("A " +:+ dquote +:+ "socks" +:+ dquote
         +:+ " protocol must be specified! Got: http:").
Proof. reflexivity. Qed.

Example parse_malformed_escape_fails :
  parseSocksURL example_decodeURIComponent
    (Url "socks5:" "proxy.local" (Some 1080) "%zz" "pw")
  = inl URIError.
Proof. reflexivity. Qed.




Section scheme.
Variable decodeURIComponent : string → option string.

Lemma parse_accepted_scheme (url : URL) (lookup : bool) (ty : Z) :
  scheme_switch (remove_first_colon (url_protocol url)) = Some (lookup, ty) →
  (¬ credentials_decode decodeURIComponent url ∧
   parseSocksURL decodeURIComponent url = inl URIError) ∨
  (credentials_decode decodeURIComponent url ∧
   ∃ u pw,
     parseSocksURL decodeURIComponent url
     = inr (lookup, Proxy (url_hostname url)
                      (port_or_default (url_port url)) ty u (Some pw)) ∧
     decodeURIComponent (url_password url) = Some pw ∧
     u = if decide (url_username url = EmptyString) then None
         else decodeURIComponent (url_username url)).
Proof.
  intros Hs. unfold parseSocksURL, credentials_decode. rewrite Hs.
  unfold truthy. destruct (url_username url) as [|c rest] eqn:Hu.
  - cbn [String.eqb negb].
    destruct (decodeURIComponent (url_password url)) as [pw|] eqn:Hp.
    + right. split; [by split|]. by exists None, pw.
    + left. split; [|done]. intros [_ [x Hx]]. done.
  - cbn [String.eqb negb].
    destruct (decodeURIComponent (String c rest)) as [u|] eqn:Hd.
    + destruct (decodeURIComponent (url_password url)) as [pw|] eqn:Hp.
      * right. split; [by split|]. exists (Some u), pw.
        by rewrite decide_False.
      * left. split; [|done]. intros [_ [x Hx]]. done.
    + left. split; [|done]. intros [H _].
      destruct H as [x Hx]; done.
Qed.

End scheme.


(** *** The DNS cache *)







End SocksFacts.

(** ** Size-bounded caches *)

Module CacheFacts.
Import CacheBounds.

Section evict_then_set.
Context {V : Type}.
Implicit Types (m : JsMap.t V) (k : string) (v : V).

(** The pattern shared by the bounded maps: at capacity delete the first
    key, then set. *)
Lemma evict_then_set_within (max : Z) k v m :
  1 ≤ max →
  within max m →
  within max (JsMap.set k v (if decide (max ≤ JsMap.size m)
                             then JsMap.delete_first m else m)).
Proof.
  unfold within, JsMap.size. intros Hmax Hm.
  pose proof (jsmap_length_set_le k v (tail m)) as Ht.
  pose proof (jsmap_length_set_le k v m) as Hs.
  case_decide.
  - rewrite jsmap_delete_first_tail.
    destruct m as [|kv rest]; simpl in *; lia.
  - lia.
Qed.

Lemma evict_then_set_at_capacity (max : Z) k v m :
  JsMap.size m = max →
  evicts_oldest_then_sets k v m
    (JsMap.set k v (if decide (max ≤ JsMap.size m)
                    then JsMap.delete_first m else m)).
Proof.
  intros Hm. unfold evicts_oldest_then_sets.
  rewrite decide_True by lia. by rewrite jsmap_delete_first_tail.
Qed.

Lemma refresh_within (max : Z) k v m :
  JsMap.has k m = true →
  within max m →
  within max (JsMap.set k v (JsMap.delete k m)).
Proof.
  unfold within, JsMap.size. intros Hhas Hm.
  pose proof (jsmap_length_set_le k v (JsMap.delete k m)) as Hs.
  rewrite jsmap_length_delete, Hhas in Hs.
  destruct m as [|kv rest]; [done|]. simpl in *. lia.
Qed.
End evict_then_set.

Lemma keys_nonempty_first {V : Type} (m : JsMap.t V) (k : string) :
  keys_nonempty m → JsMap.first_key m = Some k → truthy (JString k) = true.
Proof.
  destruct m as [|[k' v'] rest]; [done|].
  intros [Hk _]%Forall_cons [= <-]. done.
Qed.

Lemma keys_nonempty_set {V : Type} (m : JsMap.t V) (k : string) (v : V) :
  truthy (JString k) = true → keys_nonempty m →
  keys_nonempty (JsMap.set k v m).
Proof.
  intros Hk. unfold keys_nonempty.
  induction m as [|[k' v'] rest IH]; simpl.
  - intros _. by repeat constructor.
  - intros [Hk' Hrest]%Forall_cons.
    destruct (decide (k = k')); apply Forall_cons; auto.
Qed.

Lemma keys_nonempty_tail {V : Type} (m : JsMap.t V) :
  keys_nonempty m → keys_nonempty (tail m).
Proof.
  destruct m as [|kv rest]; [done|]. by intros [_ H]%Forall_cons.
Qed.

(** *** The resolution cache of the dispatcher: the guarded eviction *)

Lemma resolution_cache_step (url p : string) (d : Dispatcher.ProxyAgent) :
  truthy (JString p) = true →
  JsMap.has url (Dispatcher.proxyResolutionCache d) = false →
  keys_nonempty (Dispatcher.proxyResolutionCache d) →
  Dispatcher.proxyResolutionCache
    (Dispatcher.resolve_proxy url (Some p) d).2 =
  JsMap.set url p
    (if decide (Dispatcher.maxProxyCacheSize
                  ≤ JsMap.size (Dispatcher.proxyResolutionCache d))
     then JsMap.delete_first (Dispatcher.proxyResolutionCache d)
     else Dispatcher.proxyResolutionCache d).
Proof.
  intros Hp Hhas Hkeys. unfold Dispatcher.resolve_proxy.
  rewrite Hhas, Hp. simpl. case_decide; [|done].
  unfold JsMap.delete_first.
  destruct (JsMap.first_key _) as [k|] eqn:Hk; [|done].
  by rewrite (keys_nonempty_first _ k Hkeys Hk).
Qed.

Lemma resolution_cache_unchanged (url : string) (resolved : option string)
    (d : Dispatcher.ProxyAgent) :
  JsMap.has url (Dispatcher.proxyResolutionCache d) = true ∨
  Dispatcher.is_proxy resolved = false →
  Dispatcher.proxyResolutionCache
    (Dispatcher.resolve_proxy url resolved d).2
  = Dispatcher.proxyResolutionCache d.
Proof.
  unfold Dispatcher.resolve_proxy, Dispatcher.is_proxy.
  destruct (JsMap.has url _); [done|]. intros [H|H]; [done|].
  destruct resolved as [p|]; [|done]. by rewrite H.
Qed.

(** *** The agent cache of the dispatcher *)

Lemma lru_get_size {V : Type} `{EqDecision V} (k : string) (c : LRU.t V) :
  LRU.size (LRU.get k c).2 = LRU.size c ∧
  LRU.max (LRU.get k c).2 = LRU.max c.
Proof.
  unfold LRU.get, LRU.size, JsMap.size.
  destruct (JsMap.get k (LRU.items c)) as [v|] eqn:Hg; [|done]. simpl.
  split; [|done]. rewrite length_app, jsmap_length_delete.
  unfold JsMap.has. rewrite Hg. simpl.
  destruct (LRU.items c); [done|]. simpl. lia.
Qed.

Lemma lru_set_within {V : Type} `{EqDecision V} (k : string) (v : V)
    (c : LRU.t V) :
  1 ≤ LRU.max c →
  LRU.size c ≤ LRU.max c →
  LRU.size (LRU.set k v c).1 ≤ LRU.max c ∧
  LRU.max (LRU.set k v c).1 = LRU.max c.
Proof.
  unfold LRU.set, LRU.size, JsMap.size. intros Hmax Hc.
  destruct (JsMap.get k (LRU.items c)) as [old|] eqn:Hg; simpl.
  - split; [|done]. rewrite length_app, jsmap_length_delete.
    unfold JsMap.has. rewrite Hg. simpl.
    destruct (LRU.items c); [done|]. simpl in *. lia.
  - case_decide.
    + destruct (LRU.items c) as [|[k0 lru] rest]; simpl in *; [lia|].
      split; [|done]. rewrite length_app. simpl. lia.
    + simpl. split; [|done]. rewrite length_app. simpl. lia.
Qed.

Lemma lru_set_at_capacity {V : Type} `{EqDecision V} (k k0 : string)
    (v lru : V) (rest : JsMap.t V) (c : LRU.t V) :
  LRU.items c = (k0, lru) :: rest →
  LRU.size c = LRU.max c →
  JsMap.get k (LRU.items c) = None →
  LRU.set k v c = (LRU.Cache (LRU.max c) (rest ++ [(k, v)]), [lru]).
Proof.
  intros Hi Hfull Hg. unfold LRU.set. rewrite Hg.
  rewrite decide_True by lia. by rewrite Hi.
Qed.

Lemma agent_for_cache_within (protocol_of : string → option string)
    (secureEndpoint isWebSocket : bool) (proxy : string)
    (d : Dispatcher.ProxyAgent) :
  1 ≤ LRU.max (Dispatcher.cache d) →
  LRU.size (Dispatcher.cache d) ≤ LRU.max (Dispatcher.cache d) →
  let d' := (Dispatcher.agent_for protocol_of secureEndpoint isWebSocket
               proxy d).2 in
  LRU.size (Dispatcher.cache d') ≤ LRU.max (Dispatcher.cache d) ∧
  LRU.max (Dispatcher.cache d') = LRU.max (Dispatcher.cache d).
Proof.
  intros Hmax Hc. unfold Dispatcher.agent_for.
  match goal with
  | |- context [LRU.get ?k (Dispatcher.cache d)] =>
      pose proof (lru_get_size k (Dispatcher.cache d)) as [Hgs Hgm];
      destruct (LRU.get k (Dispatcher.cache d)) as [[agent|] c] eqn:Hget;
      simpl in Hgs, Hgm
  end.
  - simpl. lia.
  - destruct (protocol_of proxy) as [proto|]; simpl; [|lia].
    destruct (Dispatcher.isValidProtocol _); simpl; [|lia].
    destruct (JsMap.get _ (Dispatcher.agentConstructorCache _)); simpl.
    all: match goal with
         | |- context [LRU.set ?k ?v ?c1] =>
             pose proof (lru_set_within k v c1) as Hset;
             destruct (LRU.set k v c1) as [c0 disposed]
         end; simpl in *; rewrite <- Hgm; apply Hset; lia.
Qed.

(** *** The per-key socket lists of the SOCKS agent *)

Lemma cacheSocket_under (key : string) (s : Socks.socket) (now : Z)
    (w : Socks.world) (k : string) :
  sockets_under k (Socks.cacheSocket key s now w) =
  if decide (k = key) then
    (if decide (Socks.MAX_SOCKETS_PER_HOST
                  ≤ Z.of_nat (length (sockets_under key w)))
     then tail (sockets_under key w) else sockets_under key w)
      ++ [Socks.SocketEntry s now false]
  else sockets_under k w.
Proof.
  unfold sockets_under, Socks.cacheSocket.
  set (entries := default [] (JsMap.get key (Socks.socketCache w))).
  destruct (decide (Socks.MAX_SOCKETS_PER_HOST ≤ Z.of_nat (length entries)))
    as [Hfull|Hroom];
    [destruct entries as [|oldest rest];
       [|destruct (Socks.inUse oldest)]|];
    simpl; rewrite jsmap_get_set;
    destruct (decide (k = key)) as [->|Hne]; done.
Qed.

Lemma take_available_length (now : Z) (dead : gset Socks.socket)
    (entries entries' : list Socks.SocketCacheEntry) (s : Socks.socket) :
  Socks.take_available now dead entries = Some (s, entries') →
  length entries' = length entries.
Proof.
  revert entries'. induction entries as [|e rest IH]; intros entries'; [done|].
  simpl. destruct (negb (Socks.inUse e) && _).
  - by intros [= _ <-].
  - destruct (Socks.take_available now dead rest) as [[s0 rest']|] eqn:Hr;
      [|done].
    intros [= -> <-]. simpl. f_equal. by apply IH.
Qed.

Lemma release_entry_length (now : Z) (s : Socks.socket)
    (entries : list Socks.SocketCacheEntry) :
  length (Socks.release_entry now s entries) = length entries.
Proof.
  induction entries as [|e rest IH]; [done|]. simpl.
  destruct (decide (Socks.entry_socket e = s)); simpl; [done|].
  by rewrite IH.
Qed.

(** Handing out an idle socket and taking it back change no list
    length. *)
Lemma socket_reuse_keeps_lengths (key : string) (s : Socks.socket) (now : Z)
    (w : Socks.world) (k : string) :
  length (sockets_under k (Socks.getCachedSocket key now w).2)
    = length (sockets_under k w) ∧
  length (sockets_under k (Socks.releaseSocket key s now w))
    = length (sockets_under k w).
Proof.
  unfold sockets_under, Socks.getCachedSocket, Socks.releaseSocket.
  destruct (JsMap.get key (Socks.socketCache w)) as [entries|] eqn:Hg;
    [|done].
  split.
  - destruct (Socks.take_available now (Socks.destroyed w) entries)
      as [[s0 entries']|] eqn:Ht; [|done].
    simpl. rewrite jsmap_get_set.
    destruct (decide (k = key)) as [->|]; [|done].
    rewrite Hg. simpl. by apply take_available_length in Ht.
  - simpl. rewrite jsmap_get_set.
    destruct (decide (k = key)) as [->|]; [|done].
    rewrite Hg. simpl. apply release_entry_length.
Qed.

Lemma stores_within_evict_then_set {V : Type} (max : Z) (k : string)
    (v : V) (m : JsMap.t V) :
  1 ≤ max →
  within max m →
  stores_within max k v m
    (JsMap.set k v (if decide (max ≤ JsMap.size m)
                    then JsMap.delete_first m else m)).
Proof.
  intros Hmax Hm. split_and!.
  - by apply evict_then_set_within.
  - intros Hlt. by rewrite decide_False by lia.
  - by apply evict_then_set_at_capacity.
Qed.

Lemma jsmap_size_set_new {V : Type} (k : string) (v : V) (m : JsMap.t V) :
  JsMap.get k m = None → JsMap.size (JsMap.set k v m) = JsMap.size m + 1.
Proof.
  intros Hg. unfold JsMap.size. rewrite jsmap_length_set.
  unfold JsMap.has. rewrite Hg. lia.
Qed.

(** The header cache of the CONNECT tunnel: an entry is added for a key
    that is not there, and none is ever removed. *)
Lemma connect_headers_cache (decodeURIComponent base64 : string → string)
    (isIPv6 : string → bool) (agent : HttpsProxy.HttpsProxyAgent)
    (opts : HttpsProxy.connect_opts) (w : HttpsProxy.world) :
  let r := HttpsProxy.connect_headers decodeURIComponent base64 isIPv6
             agent opts w in
  if is_function (HttpsProxy.proxyHeaders agent)
  then HttpsProxy.commonHeadersCache r.2 = HttpsProxy.commonHeadersCache w
  else
    match JsMap.get (header_key agent opts) (HttpsProxy.commonHeadersCache w)
    with
    | Some cached =>
        r.1 = cached ∧
        HttpsProxy.commonHeadersCache r.2 = HttpsProxy.commonHeadersCache w
    | None =>
        HttpsProxy.commonHeadersCache r.2
        = JsMap.set (header_key agent opts) r.1
            (HttpsProxy.commonHeadersCache w) ∧
        JsMap.size (HttpsProxy.commonHeadersCache r.2)
        = JsMap.size (HttpsProxy.commonHeadersCache w) + 1
    end.
Proof.
  unfold HttpsProxy.connect_headers. fold (header_key agent opts).
  destruct (is_function (HttpsProxy.proxyHeaders agent)) eqn:Hf.
  - by destruct (JsMap.get _ _).
  - destruct (JsMap.get (header_key agent opts)
                (HttpsProxy.commonHeadersCache w)) as [cached|] eqn:Hg.
    + done.
    + cbn [fst snd HttpsProxy.commonHeadersCache
           HttpsProxy.with_commonHeadersCache].
      split; [done|]. by apply jsmap_size_set_new.
Qed.

(** The agent cache of the dispatcher on a miss. *)
Lemma lru_set_appends {V : Type} `{EqDecision V} (k : string) (v : V)
    (c : LRU.t V) :
  1 ≤ LRU.max c →
  LRU.size c ≤ LRU.max c →
  JsMap.get k (LRU.items c) = None →
  appends_within (LRU.max c) (k, v) (LRU.items c)
    (LRU.items (LRU.set k v c).1) ∧
  LRU.max (LRU.set k v c).1 = LRU.max c.
Proof.
  unfold LRU.set, LRU.size, JsMap.size, appends_within.
  intros Hmax Hc Hg. rewrite Hg.
  case_decide as Hfull.
  - destruct (LRU.items c) as [|[k0 lru] rest] eqn:Hi;
      cbn [fst LRU.items LRU.max length tail] in *; [lia|].
    split; [|done]. rewrite length_app. cbn [length].
    split_and!; [lia|lia|done].
  - cbn [fst LRU.items LRU.max]. split; [|done].
    rewrite length_app. cbn [length]. split_and!; [lia|done|lia].
Qed.

Lemma agent_for_cache_step (protocol_of : string → option string)
    (secureEndpoint isWebSocket : bool) (proxy : string)
    (d : Dispatcher.ProxyAgent) :
  1 ≤ LRU.max (Dispatcher.cache d) →
  LRU.size (Dispatcher.cache d) ≤ LRU.max (Dispatcher.cache d) →
  let r := Dispatcher.agent_for protocol_of secureEndpoint isWebSocket
             proxy d in
  let key := agent_key secureEndpoint isWebSocket proxy in
  let items := LRU.items (Dispatcher.cache d) in
  let items' := LRU.items (Dispatcher.cache r.2) in
  match JsMap.get key items with
  | Some agent =>
      r.1 = Dispatcher.Proxied agent ∧
      items' = JsMap.delete key items ++ [(key, agent)]
  | None =>
      match protocol_of proxy with
      | Some proto =>
          if Dispatcher.isValidProtocol (remove_first_colon proto) then
            r.1 = Dispatcher.Proxied (Dispatcher.next_agent d) ∧
            appends_within (LRU.max (Dispatcher.cache d))
              (key, Dispatcher.next_agent d) items items'
          else items' = items
      | None => items' = items
      end
  end.
Proof.
  intros Hmax Hc. unfold Dispatcher.agent_for.
  fold (agent_key secureEndpoint isWebSocket proxy).
  set (key := agent_key secureEndpoint isWebSocket proxy).
  unfold LRU.get.
  destruct (JsMap.get key (LRU.items (Dispatcher.cache d)))
    as [agent|] eqn:Hg; cbv zeta; [done|].
  destruct (protocol_of proxy) as [proto|]; [|done].
  destruct (Dispatcher.isValidProtocol (remove_first_colon proto));
    cbn [negb]; [|done].
  pose proof (lru_set_appends key (Dispatcher.next_agent d)
                (Dispatcher.cache d) Hmax Hc Hg) as [Ha _].
  destruct (JsMap.get _ (Dispatcher.agentConstructorCache _)) as [ctor|];
    unfold Dispatcher.construct;
    cbn [Dispatcher.cache Dispatcher.with_cache Dispatcher.next_agent
         Dispatcher.with_agentConstructorCache];
    destruct (LRU.set key (Dispatcher.next_agent d) (Dispatcher.cache d))
      as [c disposed];
    cbn [fst snd Dispatcher.cache Dispatcher.with_cache
         Dispatcher.destroy_all]; by split.
Qed.

(** C3, as the code has it. Every cache with a configured maximum stays
    within it, and a store at capacity first removes exactly one entry,
    the oldest in insertion (or recency) order, while a store with room
    left removes nothing: the TLS session cache of the CONNECT tunnel
    (100), the URL memo of the forward-HTTP tunnel (100; a hit is moved
    to the freshest position), the agent pool (100; a hit or a call
    with pooling switched off leaves it alone) and the per-key socket
    lists (10) of the SOCKS tunnel, the resolution cache (100; only a
    proxy for a URL not yet there is stored) and the agent cache (50;
    only an agent built for a supported proxy is stored) of the
    dispatcher. The header cache of the CONNECT tunnel has no maximum:
    every key that is not there adds an entry and nothing is ever
    removed. *)
Theorem bounded_caches_stay_within_bound :
  (* https-proxy-agent: sessionCache *)
  (∀ key session w,
     within HttpsProxy.CACHE_MAX_SIZE (HttpsProxy.sessionCache w) →
     stores_within HttpsProxy.CACHE_MAX_SIZE key session
       (HttpsProxy.sessionCache w)
       (HttpsProxy.sessionCache (HttpsProxy.store_session key session w))) ∧
  (* http-proxy-agent: urlCache *)
  (∀ absolute_url req opts urlCache,
     within HttpProxy.URL_CACHE_SIZE urlCache →
     let r := HttpProxy.cached_url absolute_url req opts urlCache in
     match JsMap.get (url_key req opts) urlCache with
     | Some url =>
         r = (url, JsMap.set (url_key req opts) url
                     (JsMap.delete (url_key req opts) urlCache)) ∧
         within HttpProxy.URL_CACHE_SIZE r.2
     | None =>
         stores_within HttpProxy.URL_CACHE_SIZE (url_key req opts) r.1
           urlCache r.2
     end) ∧
  (* socks-proxy-agent: agentPool *)
  (∀ decodeURIComponent url opts agentPool,
     within Socks.MAX_POOL_SIZE agentPool →
     let r := Socks.getAgent decodeURIComponent url opts agentPool in
     within Socks.MAX_POOL_SIZE r.2 ∧
     match Socks.parseSocksURL decodeURIComponent url with
     | inl err => r = (inl err, agentPool)
     | inr (_, proxy) =>
         if Socks.not_false (opts ≫= Socks.opt_enablePooling) then
           match JsMap.get (Socks.pool_key proxy) agentPool with
           | Some agent => r = (inr agent, agentPool)
           | None =>
               ∃ agent,
                 r.1 = inr agent ∧ Socks.proxy agent = proxy ∧
                 stores_within Socks.MAX_POOL_SIZE (Socks.pool_key proxy)
                   agent agentPool r.2
           end
         else r.2 = agentPool
     end) ∧
  (* socks-proxy-agent: socketCache, per key *)
  (∀ key s now w,
     (∀ k, Z.of_nat (length (sockets_under k w))
           ≤ Socks.MAX_SOCKETS_PER_HOST) →
     appends_within Socks.MAX_SOCKETS_PER_HOST
       (Socks.SocketEntry s now false) (sockets_under key w)
       (sockets_under key (Socks.cacheSocket key s now w)) ∧
     (∀ k, k ≠ key →
           sockets_under k (Socks.cacheSocket key s now w)
           = sockets_under k w) ∧
     (∀ k, length (sockets_under k (Socks.getCachedSocket key now w).2)
           = length (sockets_under k w)) ∧
     (∀ k, length (sockets_under k (Socks.releaseSocket key s now w))
           = length (sockets_under k w))) ∧
  (* proxy-agent: proxyResolutionCache *)
  (∀ url resolved d,
     truthy (JString url) = true →
     keys_nonempty (Dispatcher.proxyResolutionCache d) →
     within Dispatcher.maxProxyCacheSize (Dispatcher.proxyResolutionCache d) →
     let m := Dispatcher.proxyResolutionCache d in
     let m' := Dispatcher.proxyResolutionCache
                 (Dispatcher.resolve_proxy url resolved d).2 in
     within Dispatcher.maxProxyCacheSize m' ∧ keys_nonempty m' ∧
     if JsMap.has url m then m' = m
     else
       match resolved with
       | Some p =>
           if truthy (JString p)
           then stores_within Dispatcher.maxProxyCacheSize url p m m'
           else m' = m
       | None => m' = m
       end) ∧
  (* proxy-agent: cache, an LRU of at most 50 agents *)
  (∀ protocol_of secureEndpoint isWebSocket proxy d,
     LRU.max (Dispatcher.cache d) = 50 →
     LRU.size (Dispatcher.cache d) ≤ 50 →
     let r := Dispatcher.agent_for protocol_of secureEndpoint isWebSocket
                proxy d in
     let key := agent_key secureEndpoint isWebSocket proxy in
     let items := LRU.items (Dispatcher.cache d) in
     let items' := LRU.items (Dispatcher.cache r.2) in
     LRU.max (Dispatcher.cache r.2) = 50 ∧
     LRU.size (Dispatcher.cache r.2) ≤ 50 ∧
     match JsMap.get key items with
     | Some agent =>
         r.1 = Dispatcher.Proxied agent ∧
         items' = JsMap.delete key items ++ [(key, agent)]
     | None =>
         match protocol_of proxy with
         | Some proto =>
             if Dispatcher.isValidProtocol (remove_first_colon proto) then
               r.1 = Dispatcher.Proxied (Dispatcher.next_agent d) ∧
               appends_within 50 (key, Dispatcher.next_agent d) items items'
             else items' = items
         | None => items' = items
         end
     end) ∧
  (* https-proxy-agent: commonHeadersCache, without a maximum *)
  (∀ decodeURIComponent base64 isIPv6 agent opts w,
     let r := HttpsProxy.connect_headers decodeURIComponent base64 isIPv6
                agent opts w in
     if is_function (HttpsProxy.proxyHeaders agent)
     then HttpsProxy.commonHeadersCache r.2 = HttpsProxy.commonHeadersCache w
     else
       match JsMap.get (header_key agent opts)
               (HttpsProxy.commonHeadersCache w) with
       | Some cached =>
           r.1 = cached ∧
           HttpsProxy.commonHeadersCache r.2
           = HttpsProxy.commonHeadersCache w
       | None =>
           HttpsProxy.commonHeadersCache r.2
           = JsMap.set (header_key agent opts) r.1
               (HttpsProxy.commonHeadersCache w) ∧
           JsMap.size (HttpsProxy.commonHeadersCache r.2)
           = JsMap.size (HttpsProxy.commonHeadersCache w) + 1
       end).
Proof.
  split_and!.
  - intros key session w Hw. unfold HttpsProxy.store_session; simpl.
    by apply stores_within_evict_then_set.
  - intros absolute_url req opts urlCache Hw.
    unfold HttpProxy.cached_url. fold (url_key req opts).
    destruct (JsMap.get (url_key req opts) urlCache) as [url|] eqn:Hg;
      cbv zeta.
    + split; [done|]. cbn [snd]. apply refresh_within; [|done].
      unfold JsMap.has. by rewrite Hg.
    + cbn [fst snd]. by apply stores_within_evict_then_set.
  - intros decodeURIComponent url opts agentPool Hw.
    unfold Socks.getAgent, Socks.new_agent.
    destruct (Socks.parseSocksURL decodeURIComponent url)
      as [err|[lookup proxy]]; cbv zeta; [done|].
    destruct (Socks.not_false (opts ≫= Socks.opt_enablePooling));
      [|done].
    destruct (JsMap.get (Socks.pool_key proxy) agentPool) as [agent|];
      [done|].
    cbn [fst snd]. split; [by apply evict_then_set_within|].
    eexists. split_and!; [done|done|].
    by apply stores_within_evict_then_set.
  - intros key s now w Hw. split_and!.
    + unfold appends_within. rewrite cacheSocket_under.
      rewrite decide_True by done. specialize (Hw key).
      rewrite length_app. unfold Socks.MAX_SOCKETS_PER_HOST in *.
      cbn [length]. split_and!.
      * case_decide; [|lia].
        destruct (sockets_under key w); cbn [tail length] in *; lia.
      * intros Hlt. by rewrite decide_False by lia.
      * intros Hfull. by rewrite decide_True by lia.
    + intros k Hk. rewrite cacheSocket_under. by rewrite decide_False.
    + intros k. by destruct (socket_reuse_keeps_lengths key s now w k).
    + intros k. by destruct (socket_reuse_keeps_lengths key s now w k).
  - intros url resolved d Hurl Hkeys Hw. cbv zeta.
    destruct (JsMap.has url (Dispatcher.proxyResolutionCache d)) eqn:Hhas.
    + by rewrite resolution_cache_unchanged by (by left).
    + destruct resolved as [p|].
      * destruct (truthy (JString p)) eqn:Hp.
        -- rewrite resolution_cache_step by done. split_and!.
           ++ by apply evict_then_set_within.
           ++ apply keys_nonempty_set; [done|].
              case_decide; [|done]. rewrite jsmap_delete_first_tail.
              by apply keys_nonempty_tail.
           ++ by apply stores_within_evict_then_set.
        -- by rewrite resolution_cache_unchanged by (by right; simpl).
      * by rewrite resolution_cache_unchanged by (by right).
  - intros protocol_of secureEndpoint isWebSocket proxy d Hmax Hsize.
    destruct (agent_for_cache_within protocol_of secureEndpoint isWebSocket
                proxy d) as [H1 H2]; [lia|lia|].
    pose proof (agent_for_cache_step protocol_of secureEndpoint isWebSocket
                  proxy d ltac:(lia) ltac:(lia)) as H3.
    cbv zeta in *. rewrite Hmax in H3. rewrite H2, Hmax.
    split_and!; [done|lia|exact H3].
  - intros decodeURIComponent base64 isIPv6 agent opts w.
    apply connect_headers_cache.
Qed.

(** Each of these caches at capacity, and the header cache at a hundred
    entries. *)
Lemma bounded_caches_stay_within_bound_witness :
  (* the hundred-and-first TLS session *)
  stores_within HttpsProxy.CACHE_MAX_SIZE "target:example.com:443" "session"
    (HttpsProxy.sessionCache Examples.full_session_world)
    (HttpsProxy.sessionCache
       (HttpsProxy.store_session "target:example.com:443" "session"
          Examples.full_session_world)) ∧
  (* the hundred-and-first URL *)
  stores_within HttpProxy.URL_CACHE_SIZE "http://example.com/80"
    "http://example.com/"
    Examples.full_url_cache
    (HttpProxy.cached_url Examples.example_absolute_url
       Examples.bare_http_request Examples.port80
       Examples.full_url_cache).2 ∧
  (* the hundred-and-first pooled agent *)
  (∃ agent,
     (Socks.getAgent Examples.example_decodeURIComponent
        Examples.socks5_url None Examples.full_agent_pool).1 = inr agent ∧
     stores_within Socks.MAX_POOL_SIZE "proxy.local:1080:5" agent
       Examples.full_agent_pool
       (Socks.getAgent Examples.example_decodeURIComponent
          Examples.socks5_url None Examples.full_agent_pool).2) ∧
  (* the eleventh socket of a destination *)
  appends_within Socks.MAX_SOCKETS_PER_HOST (Socks.SocketEntry 99%nat 5000 false)
    (sockets_under "proxy.local:1080:example.com:80"
       SocksCacheRuns.full_world)
    (sockets_under "proxy.local:1080:example.com:80"
       (Socks.cacheSocket "proxy.local:1080:example.com:80" 99%nat 5000
          SocksCacheRuns.full_world)) ∧
  (* the hundred-and-first resolved proxy *)
  stores_within Dispatcher.maxProxyCacheSize "http://example.com/"
    "http://proxy.local:8080"
    (Dispatcher.proxyResolutionCache Examples.full_dispatcher)
    (Dispatcher.proxyResolutionCache
       (Dispatcher.resolve_proxy "http://example.com/"
          (Some "http://proxy.local:8080") Examples.full_dispatcher).2) ∧
  (* the fifty-first agent *)
  appends_within 50 ("http:+http://proxy.local:8080", 8%nat)
    (LRU.items (Dispatcher.cache Examples.full_dispatcher))
    (LRU.items
       (Dispatcher.cache
          (Dispatcher.agent_for Examples.scheme_with_colon false false
             "http://proxy.local:8080" Examples.full_dispatcher).2)) ∧
  (* the hundred-and-first header set *)
  JsMap.size
    (HttpsProxy.commonHeadersCache
       (HttpsProxy.connect_headers Examples.example_decode
          Examples.example_base64 Examples.no_ipv6 Examples.connect_agent
          Examples.secure_request Examples.full_header_world).2) = 101.
Proof.
  destruct bounded_caches_stay_within_bound
    as (Hsession & Hurl & Hpool & Hsock & Hres & Hlru & Hhdr).
  split_and!.
  - apply Hsession. by vm_compute.
  - specialize (Hurl Examples.example_absolute_url
                  Examples.bare_http_request Examples.port80
                  Examples.full_url_cache ltac:(by vm_compute)).
    exact Hurl.
  - specialize (Hpool Examples.example_decodeURIComponent
                  Examples.socks5_url None Examples.full_agent_pool
                  ltac:(by vm_compute)) as [_ Hpool].
    destruct Hpool as (agent & Ha & _ & Hs). by exists agent.
  - apply Hsock. intros k. unfold sockets_under, SocksCacheRuns.full_world.
    cbn [Socks.socketCache JsMap.get].
    destruct (decide (k = "proxy.local:1080:example.com:80")); by vm_compute.
  - specialize (Hres "http://example.com/" (Some "http://proxy.local:8080")
                  Examples.full_dispatcher eq_refl
                  ltac:(by apply (bool_decide_unpack _); vm_compute)
                  ltac:(by vm_compute)) as (_ & _ & Hres).
    exact Hres.
  - specialize (Hlru Examples.scheme_with_colon false false
                  "http://proxy.local:8080" Examples.full_dispatcher
                  eq_refl ltac:(by vm_compute)) as (_ & _ & Hlru).
    destruct Hlru as [_ Hlru]. exact Hlru.
  - specialize (Hhdr Examples.example_decode Examples.example_base64
                  Examples.no_ipv6 Examples.connect_agent
                  Examples.secure_request Examples.full_header_world).
    destruct Hhdr as [_ Hhdr]. rewrite Hhdr. reflexivity.
Defined.

(** C3, as stated, fails for the header cache of the CONNECT tunnel,
    which the module keeps next to its [CACHE_MAX_SIZE] of a hundred:
    with a hundred header sets cached, a CONNECT to a destination that
    is not among them leaves a hundred and one, the oldest still
    there. *)
Lemma header_cache_has_no_bound :
  let c := HttpsProxy.commonHeadersCache Examples.full_header_world in
  let c' :=
    HttpsProxy.commonHeadersCache
      (HttpsProxy.connect_headers Examples.example_decode
         Examples.example_base64 Examples.no_ipv6 Examples.connect_agent
         Examples.secure_request Examples.full_header_world).2 in
  JsMap.size c = HttpsProxy.CACHE_MAX_SIZE ∧
  JsMap.size c' = 101 ∧
  ¬ within HttpsProxy.CACHE_MAX_SIZE c' ∧
  JsMap.first_key c' = JsMap.first_key c ∧
  ∀ k, JsMap.has k c = true → JsMap.has k c' = true.
Proof.
  cbv zeta. split_and!.
  - reflexivity.
  - by vm_compute.
  - unfold within. by vm_compute.
  - by vm_compute.
  - intros k. unfold JsMap.has.
    pose proof (connect_headers_cache Examples.example_decode
                  Examples.example_base64 Examples.no_ipv6
                  Examples.connect_agent Examples.secure_request
                  Examples.full_header_world) as H.
    destruct H as [-> _]. rewrite jsmap_get_set.
    by destruct (decide _).
Qed.

(** The hundred-and-first session: [k1] is gone, the size is still a
    hundred, and the new session is the youngest. *)
Example session_cache_at_capacity :
  let c := HttpsProxy.sessionCache
             (HttpsProxy.store_session "target:example.com:443" "session"
                Examples.full_session_world) in
  JsMap.size c = 100 ∧
  JsMap.first_key c = Some "k2" ∧
  JsMap.has "k1" c = false ∧
  last (JsMap.keys c) = Some "target:example.com:443".
Proof. by vm_compute. Qed.

End CacheFacts.

(** ** proxy-agent: resolution cache, default agents, cached agents *)

Module DispatcherFacts.
Import Dispatcher DispatcherRuns Examples.

Section dispatcher.
Variable href : string → string → string.
Variable protocol_of : string → option string.

(** Fetching or building the agent for a proxy leaves the resolution
    cache and the two default agents alone. *)
Lemma agent_for_frame (secureEndpoint isWebSocket : bool) (proxy : string)
    (d : ProxyAgent) :
  let r := agent_for protocol_of secureEndpoint isWebSocket proxy d in
  proxyResolutionCache r.2 = proxyResolutionCache d ∧
  httpAgent r.2 = httpAgent d ∧ httpsAgent r.2 = httpsAgent d ∧
  ∀ a, r.1 ≠ Direct a.
Proof.
  unfold agent_for.
  destruct (LRU.get _ (cache d)) as [[agent|] c]; [done|].
  destruct (protocol_of proxy) as [proto|]; [|done].
  destruct (isValidProtocol (remove_first_colon proto)); simpl; [|done].
  destruct (JsMap.get _ (agentConstructorCache _)) as [ctor|]; simpl.
  all: match goal with
       | |- context [LRU.set ?k ?v ?c] =>
           destruct (LRU.set k v c) as [c0 disposed]
       end; simpl; split_and!; done.
Qed.

Lemma resolve_proxy_frame (url : string) (resolved : option string)
    (d : ProxyAgent) :
  let r := resolve_proxy url resolved d in
  httpAgent r.2 = httpAgent d ∧ httpsAgent r.2 = httpsAgent d ∧
  cache r.2 = cache d ∧ destroyed r.2 = destroyed d.
Proof.
  unfold resolve_proxy.
  destruct (JsMap.has url (proxyResolutionCache d)); [done|].
  destruct resolved as [p|]; [|done]. by destruct (truthy (JString p)).
Qed.

Lemma holds_proxies_only_delete (k : string) (m : JsMap.t string) :
  Forall (λ kv, truthy (JString kv.2) = true) m →
  Forall (λ kv, truthy (JString kv.2) = true) (JsMap.delete k m).
Proof.
  induction m as [|[k' v'] rest IH]; simpl; [done|].
  intros [Hv Hrest]%Forall_cons. destruct (decide (k = k')); [done|].
  apply Forall_cons; auto.
Qed.

Lemma holds_proxies_only_set (k v : string) (m : JsMap.t string) :
  truthy (JString v) = true →
  Forall (λ kv, truthy (JString kv.2) = true) m →
  Forall (λ kv, truthy (JString kv.2) = true) (JsMap.set k v m).
Proof.
  intros Hv. induction m as [|[k' v'] rest IH]; simpl.
  - intros _. by repeat constructor.
  - intros [Hv' Hrest]%Forall_cons.
    destruct (decide (k = k')); apply Forall_cons; auto.
Qed.

Lemma resolve_proxy_holds_proxies_only (url : string)
    (resolved : option string) (d : ProxyAgent) :
  holds_proxies_only d →
  holds_proxies_only (resolve_proxy url resolved d).2 ∧
  is_proxy (resolve_proxy url resolved d).1 =
    (JsMap.has url (proxyResolutionCache d) || is_proxy resolved).
Proof.
  unfold holds_proxies_only, resolve_proxy, JsMap.has, is_proxy.
  intros Hd.
  destruct (JsMap.get url (proxyResolutionCache d)) as [p|] eqn:Hg.
  - split; [done|]. apply jsmap_get_Some_elem in Hg.
    rewrite Forall_forall in Hd. exact (Hd _ Hg).
  - destruct resolved as [p|]; [|by split].
    destruct (truthy (JString p)) eqn:Hp; [|by split].
    split; [|done]. cbn [snd proxyResolutionCache
                                   with_proxyResolutionCache].
    apply holds_proxies_only_set; [done|].
    case_decide; [|done].
    destruct (JsMap.first_key (proxyResolutionCache d)) as [k|]; [|done].
    destruct (truthy (JString k)); [|done].
    by apply holds_proxies_only_delete.
Qed.

(** C7. A call of [connect] changes the resolution cache only when the
    resolver was asked and returned a proxy, and then the proxy is
    stored under the destination URL. A "no proxy" answer ([undefined],
    [null] or the empty string) is never stored: the cache keeps holding
    proxies only, the dispatcher is left as it was, and the request goes
    to the default agent picked by the secure flag, [httpsAgent] or
    [httpAgent]; these two never change, and no request is routed
    directly to anything else. *)
Theorem no_proxy_is_not_cached_and_goes_direct (req : request)
    (secureEndpoint : bool) (resolved : option string) (d : ProxyAgent) :
  holds_proxies_only d →
  let url := request_url href req secureEndpoint in
  let r := connect href protocol_of req secureEndpoint resolved d in
  holds_proxies_only r.2 ∧
  (is_proxy resolved = false →
   proxyResolutionCache r.2 = proxyResolutionCache d) ∧
  (JsMap.has url (proxyResolutionCache d) = true →
   proxyResolutionCache r.2 = proxyResolutionCache d) ∧
  (JsMap.has url (proxyResolutionCache d) = false →
   is_proxy resolved = false →
   r = (Direct (default_for secureEndpoint d), d)) ∧
  (JsMap.has url (proxyResolutionCache d) = false →
   ∀ p, resolved = Some p → is_proxy resolved = true →
        JsMap.get url (proxyResolutionCache r.2) = Some p) ∧
  (∀ a, r.1 = Direct a → a = default_for secureEndpoint d) ∧
  httpAgent r.2 = httpAgent d ∧ httpsAgent r.2 = httpsAgent d.
Proof.
  intros Hd url r. unfold connect in r. fold url in r.
  destruct (resolve_proxy_holds_proxies_only url resolved d Hd)
    as [Hinv Hproxy].
  destruct (resolve_proxy_frame url resolved d) as (Fh & Fs & _).
  assert (Hcache : is_proxy resolved = false ∨
                   JsMap.has url (proxyResolutionCache d) = true →
            proxyResolutionCache (resolve_proxy url resolved d).2
            = proxyResolutionCache d).
  { unfold resolve_proxy.
    destruct (JsMap.has url (proxyResolutionCache d)); [done|].
    intros [H|H]; [|done]. destruct resolved as [p|]; [|done].
    simpl in H. by rewrite H. }
  assert (Hstore : JsMap.has url (proxyResolutionCache d) = false →
            ∀ p, resolved = Some p → is_proxy resolved = true →
            JsMap.get url
              (proxyResolutionCache (resolve_proxy url resolved d).2)
            = Some p).
  { intros Hhas p -> Hp. unfold resolve_proxy. rewrite Hhas.
    simpl in Hp. rewrite Hp. simpl.
    by rewrite jsmap_get_set, decide_True. }
  assert (Hdirect : JsMap.has url (proxyResolutionCache d) = false →
            is_proxy resolved = false →
            resolve_proxy url resolved d = (resolved, d)).
  { intros Hhas Hp. unfold resolve_proxy. rewrite Hhas.
    destruct resolved as [p|]; [|done]. simpl in Hp. by rewrite Hp. }
  unfold holds_proxies_only in *. subst r.
  destruct (resolve_proxy url resolved d) as [proxy d1] eqn:Hrp.
  simpl in *.
  destruct proxy as [p|]; simpl in Hproxy;
    [destruct (truthy (JString p)) eqn:Hp|].
  - pose proof (agent_for_frame secureEndpoint (upgrade_is_websocket req)
                  p d1) as F.
    destruct (agent_for protocol_of secureEndpoint
                (upgrade_is_websocket req) p d1) as [res d2].
    simpl in F. destruct F as (Fc & Fh2 & Fs2 & Fnd). simpl.
    rewrite Fc, Fh2, Fs2.
    split_and!; try done; try tauto.
    + intros Hhas Hnp. rewrite Hhas, Hnp in Hproxy. done.
    + intros a ->. by destruct (Fnd a).
  - simpl. unfold default_for.
    split_and!; try done; try tauto.
    + intros Hhas Hnp. specialize (Hdirect Hhas Hnp). by simplify_eq.
    + intros a [= <-]. by rewrite Fh, Fs.
  - simpl. unfold default_for.
    split_and!; try done; try tauto.
    + intros Hhas Hnp. specialize (Hdirect Hhas Hnp). by simplify_eq.
    + intros a [= <-]. by rewrite Fh, Fs.
Qed.
End dispatcher.

Lemma no_proxy_is_not_cached_and_goes_direct_witness :
  let url := request_url example_href plain_request false in
  let r := connect example_href scheme_with_colon plain_request false
             (Some "") fresh_dispatcher in
  holds_proxies_only r.2 ∧
  (is_proxy (Some "") = false →
   proxyResolutionCache r.2 = proxyResolutionCache fresh_dispatcher) ∧
  (JsMap.has url (proxyResolutionCache fresh_dispatcher) = true →
   proxyResolutionCache r.2 = proxyResolutionCache fresh_dispatcher) ∧
  (JsMap.has url (proxyResolutionCache fresh_dispatcher) = false →
   is_proxy (Some "") = false →
   r = (Direct (default_for false fresh_dispatcher), fresh_dispatcher)) ∧
  (JsMap.has url (proxyResolutionCache fresh_dispatcher) = false →
   ∀ p, Some "" = Some p → is_proxy (Some "") = true →
        JsMap.get url (proxyResolutionCache r.2) = Some p) ∧
  (∀ a, r.1 = Direct a → a = default_for false fresh_dispatcher) ∧
  httpAgent r.2 = httpAgent fresh_dispatcher ∧
  httpsAgent r.2 = httpsAgent fresh_dispatcher.
Proof.
  apply (no_proxy_is_not_cached_and_goes_direct example_href
           scheme_with_colon plain_request false (Some "") fresh_dispatcher).
  unfold holds_proxies_only. simpl. constructor.
Defined.

(** *** Destroying the dispatcher, evicting an agent *)

(** [destroy()] calls [destroy()] on every cached agent in the [forEach]
    loop, and [cache.clear()] then disposes of every cached agent, which
    calls [destroy()] on each of them again; the two default agents
    follow. *)
Lemma destroy_calls (d : ProxyAgent) :
  destroyed (destroy d) =
  destroyed d ++ reverse (JsMap.values (LRU.items (cache d)))
    ++ JsMap.values (LRU.items (cache d)) ++ [httpAgent d; httpsAgent d].
Proof. unfold destroy; simpl. by rewrite <- !app_assoc. Qed.

Lemma destroy_calls_count (d : ProxyAgent) (a : agent_id) :
  count_occ Nat.eq_dec (destroyed_since d (destroy d)) a =
  (2 * count_occ Nat.eq_dec (JsMap.values (LRU.items (cache d))) a
   + count_occ Nat.eq_dec [httpAgent d; httpsAgent d] a)%nat.
Proof.
  unfold destroyed_since. rewrite destroy_calls, drop_app_length.
  unfold agent_id in *. rewrite !count_occ_app.
  assert (Hrev : ∀ l : list nat,
            count_occ Nat.eq_dec (reverse l) a = count_occ Nat.eq_dec l a).
  { induction l as [|x l IH]; [done|].
    rewrite reverse_cons, count_occ_app, IH. simpl.
    destruct (Nat.eq_dec x a); lia. }
  rewrite Hrev. lia.
Qed.

(** Building an agent for a new proxy when the agent cache is full evicts
    the least recently used agent, and that agent is destroyed. *)
Lemma eviction_destroys_evicted_agent (protocol_of : string → option string)
    (secureEndpoint isWebSocket : bool) (proxy proto k0 : string)
    (lru : agent_id) (rest : JsMap.t agent_id) (d : ProxyAgent) :
  let cacheKey :=
    request_protocol secureEndpoint isWebSocket +:+ "+" +:+ proxy in
  LRU.items (cache d) = (k0, lru) :: rest →
  LRU.size (cache d) = LRU.max (cache d) →
  JsMap.get cacheKey (LRU.items (cache d)) = None →
  protocol_of proxy = Some proto →
  isValidProtocol (remove_first_colon proto) = true →
  let r := agent_for protocol_of secureEndpoint isWebSocket proxy d in
  r.1 = Proxied (next_agent d) ∧
  LRU.items (cache r.2) = rest ++ [(cacheKey, next_agent d)] ∧
  destroyed_since d r.2 = [lru].
Proof.
  intros cacheKey Hitems Hfull Hget Hproto Hvalid r.
  assert (Hr : ∃ d', r = (Proxied (next_agent d), d') ∧
            LRU.items (cache d') = rest ++ [(cacheKey, next_agent d)] ∧
            destroyed d' = destroyed d ++ [lru]).
  { unfold r, agent_for. fold cacheKey. unfold LRU.get.
    rewrite Hget, Hproto, Hvalid.
    destruct (JsMap.get _ (agentConstructorCache _)) as [ctor|];
      cbn -[LRU.set];
      rewrite (CacheFacts.lru_set_at_capacity cacheKey k0 _ lru rest)
        by done;
      by eexists. }
  destruct Hr as (d' & -> & Hi & Hd). unfold destroyed_since. simpl.
  by rewrite Hd, drop_app_length.
Qed.

(** C4, the first half, on the code: a dispatcher that holds one cached
    agent (the object 2) destroys it twice when it is destroyed, once in
    the [forEach] loop and once more through the [dispose] hook that
    [cache.clear()] triggers; the claim asks for exactly once. *)
Theorem destroy_destroys_cached_agent_twice :
  JsMap.values (LRU.items (cache dispatcher_with_one_agent)) = [2%nat] ∧
  destroyed dispatcher_with_one_agent = [] ∧
  destroyed (destroy dispatcher_with_one_agent) = [2; 2; 0; 1]%nat ∧
  count_occ Nat.eq_dec (destroyed (destroy dispatcher_with_one_agent)) 2%nat
    = 2%nat.
Proof. by vm_compute. Qed.

End DispatcherFacts.

(** ** http-proxy-agent: the proxy headers on the request *)

Module HttpProxyFacts.
Import HttpProxy HeaderRuns Examples.

Lemma getHeader_setHeader (n n' : string) (v : jsval) (st : headers) :
  getHeader n (setHeader n' v st) =
  if decide (toLowerCase n = toLowerCase n') then v else getHeader n st.
Proof.
  unfold getHeader, setHeader. rewrite jsmap_get_set. by case_decide.
Qed.

Lemma set_all_snoc (hs : headers) (n : string) (v : jsval) (st : headers) :
  set_all (hs ++ [(n, v)]) st =
  if truthy v then setHeader n v (set_all hs st) else set_all hs st.
Proof. unfold set_all. by rewrite fold_left_app. Qed.

Lemma jsmap_get_app {V : Type} (k : string) (m1 m2 : JsMap.t V) :
  JsMap.get k (m1 ++ m2) =
  match JsMap.get k m1 with
  | Some v => Some v
  | None => JsMap.get k m2
  end.
Proof.
  induction m1 as [|[k' v'] rest IH]; simpl; [done|].
  by destruct (decide (k = k')).
Qed.

(** A header object without names equal up to case puts each of its
    truthy values on the request. *)
Lemma set_all_puts (hs : headers) (st : headers) (n : string) (v : jsval) :
  names_distinct_up_to_case hs →
  JsMap.get n hs = Some v →
  truthy v = true →
  getHeader n (set_all hs st) = v.
Proof.
  unfold names_distinct_up_to_case, JsMap.keys.
  induction hs as [|[n' v'] hs IH] using rev_ind; [done|].
  rewrite !fmap_app, NoDup_app. csimpl. intros (Hnd & Hlast & _) Hg Hv.
  rewrite set_all_snoc, jsmap_get_app in *.
  destruct (JsMap.get n hs) as [v0|] eqn:Hg0.
  - injection Hg as ->.
    assert (Hne : toLowerCase n ≠ toLowerCase n').
    { intros Heq. apply (Hlast (toLowerCase n)).
      - apply list_elem_of_fmap. exists n. split; [done|].
        apply list_elem_of_fmap. exists (n, v). split; [done|].
        by apply jsmap_get_Some_elem.
      - rewrite Heq. apply list_elem_of_singleton. done. }
    destruct (truthy v'); [|by apply IH].
    rewrite getHeader_setHeader, decide_False by done. by apply IH.
  - simpl in Hg. destruct (decide (n = n')) as [->|]; [|done].
    injection Hg as ->. rewrite Hv, getHeader_setHeader.
    by rewrite decide_True.
Qed.

(** Request headers whose name matches no truthy entry stay as they
    were. *)
Lemma set_all_leaves (hs : headers) (st : headers) (n : string) :
  (∀ n' v, (n', v) ∈ hs → truthy v = true →
           toLowerCase n' ≠ toLowerCase n) →
  getHeader n (set_all hs st) = getHeader n st.
Proof.
  induction hs as [|[n' v'] hs IH] using rev_ind; [done|].
  intros Hno. rewrite set_all_snoc.
  assert (IH' : getHeader n (set_all hs st) = getHeader n st).
  { apply IH. intros n0 v0 Hin. apply Hno. apply elem_of_app. by left. }
  destruct (truthy v') eqn:Hv; [|done].
  rewrite getHeader_setHeader, decide_False; [done|].
  intros Heq. apply (Hno n' v'); [|done|done].
  apply elem_of_app. right. by apply list_elem_of_singleton.
Qed.

(** The headers are set in the order of the object: under each name the
    request ends up with the last truthy value that the object holds
    for a name equal to it up to case, and keeps its own header when
    there is none. *)
Lemma set_all_last (hs : headers) (st : headers) (n : string) :
  getHeader n (set_all hs st)
  = default (getHeader n st) (last (truthy_values_for n hs)).
Proof.
  unfold truthy_values_for.
  induction hs as [|[n' v'] hs IH] using rev_ind; [done|].
  rewrite set_all_snoc, filter_app, fmap_app, filter_cons, filter_nil.
  cbn [fst snd].
  destruct (truthy v') eqn:Hv.
  - rewrite getHeader_setHeader.
    destruct (decide (toLowerCase n = toLowerCase n')) as [Heq|Hne].
    + rewrite decide_True by done. csimpl. by rewrite last_snoc.
    + rewrite decide_False by (intros [H _]; by apply Hne).
      csimpl. by rewrite app_nil_r.
  - rewrite decide_False by (by intros [_ H]).
    csimpl. by rewrite app_nil_r.
Qed.

Section merge.
Variable absolute_url : string → string → option Z → string.

(** C8, as the code has it. The default [Proxy-Connection] is added
    only when the headers configured on the agent hold no truthy value
    under that exact name, so a value configured under exactly
    [Proxy-Connection] is kept (the test is case-sensitive); a
    [Proxy-Authorization] derived from the credentials of the proxy URL
    replaces any configured one. The merged headers are then set on the
    request, in the order of the merged object: each truthy one becomes
    the request's header of that name, replacing whatever the request
    carried under a name equal up to case, so that under every name the
    request ends up with the last truthy merged value for a name equal
    to it up to case; request headers that match none of them are left
    as they were. *)
Theorem proxy_headers_on_request (agent : HttpProxyAgent) (req : request)
    (opts : connect_opts) (urlCache : JsMap.t string) :
  let configured := fresh_headers (proxyHeaders agent) in
  let merged := merged_headers agent in
  let req' := (setRequestProps absolute_url agent req opts urlCache).1 in
  (∀ v, JsMap.get "Proxy-Connection" configured = Some v →
        truthy v = true →
        JsMap.get "Proxy-Connection" merged = Some v) ∧
  (truthy (default JUndefined (JsMap.get "Proxy-Connection" configured))
     = false →
   JsMap.get "Proxy-Connection" merged
     = Some (JString (cachedProxyConnection agent))) ∧
  (∀ auth, cachedAuthHeader agent = Some auth →
           truthy (JString auth) = true →
           JsMap.get "Proxy-Authorization" merged = Some (JString auth)) ∧
  (∀ n, getHeader n (store req')
        = default (getHeader n (store req))
            (last (truthy_values_for n merged))) ∧
  (∀ n v, (n, v) ∈ merged → truthy v = true →
          ∃ v', truthy v' = true ∧ getHeader n (store req') = v' ∧
                (names_distinct_up_to_case merged → v' = v)) ∧
  (∀ n, (∀ n' v, (n', v) ∈ merged → truthy v = true →
                 toLowerCase n' ≠ toLowerCase n) →
        getHeader n (store req') = getHeader n (store req)).
Proof.
  intros configured merged req'.
  assert (Hstore : store req' = set_all merged (store req)).
  { unfold req', setRequestProps.
    by destruct (cached_url absolute_url req opts urlCache). }
  set (with_auth :=
         match cachedAuthHeader agent with
         | Some auth =>
             if truthy (JString auth)
             then JsMap.set "Proxy-Authorization" (JString auth) configured
             else configured
         | None => configured
         end).
  assert (Hpc : JsMap.get "Proxy-Connection" with_auth
                = JsMap.get "Proxy-Connection" configured).
  { unfold with_auth. destruct (cachedAuthHeader agent) as [auth|]; [|done].
    destruct (truthy (JString auth)); [|done].
    by rewrite jsmap_get_set. }
  assert (Hmerged : merged =
            if negb (truthy (default JUndefined
                               (JsMap.get "Proxy-Connection" with_auth)))
            then JsMap.set "Proxy-Connection"
                   (JString (cachedProxyConnection agent)) with_auth
            else with_auth) by done.
  split_and!.
  - intros v Hg Hv. rewrite Hmerged, Hpc, Hg. simpl. rewrite Hv. simpl.
    by rewrite Hpc.
  - intros Hf. rewrite Hmerged, Hpc, Hf. simpl.
    by rewrite jsmap_get_set.
  - intros auth Ha Hv. rewrite Hmerged.
    assert (Hwa : JsMap.get "Proxy-Authorization" with_auth
                  = Some (JString auth)).
    { unfold with_auth. rewrite Ha, Hv. by rewrite jsmap_get_set. }
    destruct (negb _); [|done]. by rewrite jsmap_get_set.
  - intros n. rewrite Hstore. apply set_all_last.
  - intros n v Hin Hv. rewrite Hstore, set_all_last.
    assert (Hmem : v ∈ truthy_values_for n merged).
    { unfold truthy_values_for. apply list_elem_of_fmap.
      exists (n, v). split; [done|]. by apply list_elem_of_filter. }
    destruct (last (truthy_values_for n merged)) as [v'|] eqn:Hlast.
    + exists v'. split_and!; [|done|].
      * apply last_Some_elem_of in Hlast. unfold truthy_values_for in Hlast.
        apply list_elem_of_fmap in Hlast as ([n0 v0] & -> & Hin0).
        by apply list_elem_of_filter in Hin0 as [[_ H] _].
      * intros Hnd. simpl.
        assert (Hg : JsMap.get n merged = Some v).
        { unfold names_distinct_up_to_case in Hnd.
          apply NoDup_fmap_1 in Hnd. clear -Hnd Hin.
          induction merged as [|[k0 v0] rest IHm];
            [by apply elem_of_nil in Hin|].
          unfold JsMap.keys in Hnd. csimpl in Hnd.
          apply NoDup_cons in Hnd as [Hk0 Hnd]. cbn [JsMap.get].
          apply elem_of_cons in Hin as [[= -> ->]|Hin].
          - by rewrite decide_True.
          - destruct (decide (n = k0)) as [->|Hne]; [|by apply IHm].
            exfalso. apply Hk0. apply list_elem_of_fmap.
            by exists (k0, v). }
        pose proof (set_all_puts merged (store req) n v Hnd Hg Hv) as Hp.
        rewrite set_all_last, Hlast in Hp. done.
    + apply last_None in Hlast. rewrite Hlast in Hmem.
      by apply elem_of_nil in Hmem.
  - intros n Hno. rewrite Hstore. by apply set_all_leaves.
Qed.
End merge.

(** C8, as stated, fails on each reading of "caller-set". A
    [Proxy-Connection] that the caller has put on the request is replaced
    by the default. A [proxy-connection] configured on the agent in lower
    case does not stop the default, which ends up on the request. A
    configured [Proxy-Authorization] is replaced by the one derived from
    the credentials of the proxy URL. *)
Lemma default_proxy_headers_overwrite :
  ¬ keeps_request_header example_absolute_url plain_http_agent
      close_http_request port80 [] "Proxy-Connection" ∧
  ¬ keeps_configured_header example_absolute_url lowercase_close_agent
      bare_http_request port80 [] "Proxy-Connection" ∧
  ¬ keeps_configured_header example_absolute_url bearer_agent
      bare_http_request port80 [] "Proxy-Authorization".
Proof.
  split_and!.
  - intros H. specialize (H eq_refl). vm_compute in H. discriminate H.
  - intros H.
    specialize (H "proxy-connection" (JString "close") eq_refl eq_refl
                  eq_refl).
    vm_compute in H. discriminate H.
  - intros H.
    specialize (H "Proxy-Authorization" (JString "Bearer t") eq_refl eq_refl
                  eq_refl).
    vm_compute in H. discriminate H.
Qed.

End HttpProxyFacts.

(** ** https-proxy-agent: nothing of the caller's reaches a proxy that
    declined *)

Module HttpsProxyFacts.
Import HttpsProxy CacheBounds TunnelRuns Examples.

Lemma written_to_open (k : sock_kind) (w : world) :
  written_to (open_socket k w).1 (open_socket k w).2 = [] ∧
  socks (open_socket k w).2 !! (open_socket k w).1 = Some (fresh_socket k) ∧
  (open_socket k w).1 = next_socket w ∧
  next_socket (open_socket k w).2 = S (next_socket w).
Proof.
  unfold written_to, open_socket; simpl. by rewrite lookup_insert_eq.
Qed.

Lemma open_socket_other (k : sock_kind) (w : world) (s : socket) :
  s ≠ next_socket w →
  socks (open_socket k w).2 !! s = socks w !! s.
Proof. intros Hs. unfold open_socket; simpl. by rewrite lookup_insert_ne. Qed.

(** A destroyed socket takes no more bytes, whoever writes and
    wherever. *)
Lemma destroyed_socket_stays_silent (s : socket) (st : sock_state)
    (ws : list (socket * string)) (w : world) :
  socks w !! s = Some st →
  is_destroyed st = true →
  socks (later_writes ws w) !! s = Some st.
Proof.
  revert w. induction ws as [|[target data] ws IH]; intros w Hs Hd; [done|].
  unfold later_writes; simpl. apply IH; [|done].
  unfold sock_write, update_socket; simpl. rewrite lookup_alter.
  case_decide as Heq; [|done]. subst target. rewrite Hs. simpl.
  by rewrite Hd.
Qed.

(** A socket that is not writable takes no bytes either, and a write
    changes nothing of what was pushed to its reader: all a write can do
    is destroy it. *)
Lemma read_only_socket_takes_nothing (s : socket) (st : sock_state)
    (ws : list (socket * string)) (w : world) :
  socks w !! s = Some st →
  writable st = false →
  ∃ st', socks (later_writes ws w) !! s = Some st' ∧
         kind st' = kind st ∧ writable st' = false ∧
         written st' = written st ∧ pushed st' = pushed st ∧
         data_listeners st' = data_listeners st ∧
         (Forall (λ sd, sd.1 ≠ s) ws → st' = st).
Proof.
  revert w st. induction ws as [|[target data] ws IH]; intros w st Hs Hd.
  { by exists st. }
  unfold later_writes; simpl.
  destruct (decide (target = s)) as [->|Hne].
  - destruct (is_destroyed st) eqn:Hdead.
    + destruct (IH (sock_write s data w) st) as (st' & H1 & H2); [|done|].
      { unfold sock_write, update_socket; simpl.
        rewrite lookup_alter, decide_True by done. rewrite Hs. simpl.
        by rewrite Hdead. }
      exists st'. split; [exact H1|].
      destruct H2 as (? & ? & ? & ? & ? & H2).
      split_and!; try done. intros [Hx _]%Forall_cons. done.
    + destruct (IH (sock_write s data w)
                  (SockState (kind st) (writable st) true (written st)
                     (pushed st) (data_listeners st)))
        as (st' & H1 & H2); [|done|].
      { unfold sock_write, update_socket; simpl.
        rewrite lookup_alter, decide_True by done. rewrite Hs. simpl.
        by rewrite Hdead, Hd. }
      exists st'. split; [exact H1|].
      destruct H2 as (? & ? & ? & ? & ? & H2).
      split_and!; try done. intros [Hx _]%Forall_cons. done.
  - destruct (IH (sock_write target data w) st) as (st' & H1 & H2); [|done|].
    { unfold sock_write, update_socket; simpl.
      by rewrite lookup_alter, decide_False. }
    exists st'. split; [exact H1|].
    destruct H2 as (? & ? & ? & ? & ? & H2).
    split_and!; try done. intros [_ Hx]%Forall_cons. by apply H2.
Qed.

(** The payload that [connect] builds in its loop is the request in the
    wire format of the design document. *)
Lemma connect_payload_wire_format (isIPv6 : string → bool)
    (opts : connect_opts) (hs : headers) :
  connect_payload isIPv6 opts hs +:+ crlf
  = connect_wire_format (destination isIPv6 opts) hs.
Proof.
  unfold connect_payload, connect_wire_format, destination, bracketed.
  assert (Hfold : ∀ line : string,
            fold_left
              (λ payload nv,
                 payload +:+ nv.1 +:+ ": " +:+ to_string nv.2 +:+ crlf)
              hs line +:+ crlf
            = line +:+ foldr (λ nv rest, nv.1 +:+ ": " +:+ to_string nv.2
                                         +:+ crlf +:+ rest) crlf hs).
  { induction hs as [|[n v] hs IH]; intros line; [done|].
    cbn [fold_left foldr fst snd]. rewrite IH.
    by rewrite !append_assoc_string. }
  rewrite Hfold. by rewrite !append_assoc_string.
Qed.

Section tunnel.
Variable decodeURIComponent : string → string.
Variable base64 : string → string.
Variable isIPv6 : string → bool.

Lemma connect_headers_frame (agent : HttpsProxyAgent)
    (opts : connect_opts) (w : world) :
  let r := connect_headers decodeURIComponent base64 isIPv6 agent opts w in
  socks r.2 = socks w ∧ next_socket r.2 = next_socket w.
Proof.
  unfold connect_headers.
  destruct (is_function (proxyHeaders agent));
    try match goal with
        | |- context [JsMap.get ?k (commonHeadersCache w)] =>
            destruct (JsMap.get k (commonHeadersCache w))
        end; done.
Qed.

Lemma connect_headers_same_cache (agent : HttpsProxyAgent)
    (opts : connect_opts) (w w' : world) :
  commonHeadersCache w' = commonHeadersCache w →
  (connect_headers decodeURIComponent base64 isIPv6 agent opts w').1 =
  (connect_headers decodeURIComponent base64 isIPv6 agent opts w).1.
Proof.
  intros Hc. unfold connect_headers. rewrite Hc.
  destruct (is_function (proxyHeaders agent));
    try match goal with
        | |- context [JsMap.get ?k (commonHeadersCache w)] =>
            destruct (JsMap.get k (commonHeadersCache w))
        end; done.
Qed.

(** The header set that [connect] sends is the one of the design
    document. *)
Lemma connect_headers_sent (agent : HttpsProxyAgent) (opts : connect_opts)
    (w : world) :
  sent_headers decodeURIComponent base64 isIPv6 agent opts w
    (connect_headers decodeURIComponent base64 isIPv6 agent opts w).1.
Proof.
  unfold sent_headers, connect_headers. fold (header_key agent opts).
  assert (Hfresh :
    let configured := fresh_headers (proxyHeaders agent) in
    let h1 :=
      if truthy (JString (proxy_username agent))
         || truthy (JString (proxy_password agent))
      then JsMap.set "Proxy-Authorization"
             (JString ("Basic " +:+
                base64 (decodeURIComponent (proxy_username agent) +:+ ":"
                        +:+ decodeURIComponent (proxy_password agent))))
             configured
      else configured in
    let h2 :=
      JsMap.set "Host"
        (JString (bracketed isIPv6 (host opts) +:+ ":"
                  +:+ pretty (port opts))) h1 in
    let hs :=
      if negb (truthy (default JUndefined (JsMap.get "Proxy-Connection" h2)))
      then JsMap.set "Proxy-Connection"
             (JString (if keepAlive agent then "Keep-Alive" else "close")) h2
      else h2 in
    (JsMap.wf configured → JsMap.wf hs) ∧
    JsMap.get "Host" hs = Some (JString (destination isIPv6 opts)) ∧
    JsMap.get "Proxy-Authorization" hs
    = (if has_credentials agent
       then Some (JString
                    ("Basic " +:+
                     base64 (decodeURIComponent (proxy_username agent)
                             +:+ ":" +:+
                             decodeURIComponent (proxy_password agent))))
       else JsMap.get "Proxy-Authorization" configured) ∧
    JsMap.get "Proxy-Connection" hs
    = (if truthy (default JUndefined
                    (JsMap.get "Proxy-Connection" configured))
       then JsMap.get "Proxy-Connection" configured
       else Some (JString (if keepAlive agent then "Keep-Alive"
                           else "close"))) ∧
    ∀ n, n ∉ ["Host"; "Proxy-Authorization"; "Proxy-Connection"] →
         JsMap.get n hs = JsMap.get n configured).
  { intros configured h1 h2 hs.
    assert (Hcred : truthy (JString (proxy_username agent))
                    || truthy (JString (proxy_password agent))
                    = has_credentials agent) by done.
    assert (Hdest : bracketed isIPv6 (host opts) +:+ ":"
                      +:+ pretty (port opts) = destination isIPv6 opts).
    { unfold bracketed, destination.
      destruct (isIPv6 (host opts)); [|done].
      by rewrite !append_assoc_string. }
    assert (G1 : ∀ n, n ≠ "Proxy-Authorization" →
              JsMap.get n h1 = JsMap.get n configured).
    { intros n Hn. unfold h1.
      destruct (truthy _ || truthy _); [|done].
      by rewrite jsmap_get_set, decide_False. }
    assert (G2 : ∀ n, n ≠ "Host" → JsMap.get n h2 = JsMap.get n h1).
    { intros n Hn. unfold h2. by rewrite jsmap_get_set, decide_False. }
    assert (Hpc : JsMap.get "Proxy-Connection" h2
                  = JsMap.get "Proxy-Connection" configured).
    { by rewrite G2, G1. }
    assert (G3 : ∀ n, n ≠ "Proxy-Connection" →
              JsMap.get n hs = JsMap.get n h2).
    { intros n Hn. unfold hs. destruct (negb _); [|done].
      by rewrite jsmap_get_set, decide_False. }
    split_and!.
    - intros Hwf.
      assert (W1 : JsMap.wf h1).
      { unfold h1. destruct (truthy _ || truthy _); [|done].
        by apply jsmap_wf_set. }
      assert (W2 : JsMap.wf h2) by by apply jsmap_wf_set.
      unfold hs. destruct (negb _); [|done]. by apply jsmap_wf_set.
    - rewrite G3 by done. unfold h2.
      by rewrite jsmap_get_set, decide_True, Hdest.
    - rewrite G3, G2 by done. unfold h1. rewrite Hcred.
      destruct (has_credentials agent); [|done].
      by rewrite jsmap_get_set, decide_True.
    - unfold hs. rewrite Hpc.
      destruct (truthy (default JUndefined
                          (JsMap.get "Proxy-Connection" configured)));
        cbn [negb]; [done|].
      by rewrite jsmap_get_set, decide_True.
    - intros n Hn. rewrite !not_elem_of_cons in Hn.
      destruct Hn as (H1 & H2 & H3 & _).
      by rewrite G3, G2, G1. }
  destruct (is_function (proxyHeaders agent)).
  - destruct (JsMap.get (header_key agent opts) (commonHeadersCache w));
      exact Hfresh.
  - destruct (JsMap.get (header_key agent opts) (commonHeadersCache w));
      [done|exact Hfresh].
Qed.

(** Up to the proxy's answer, the CONNECT request is all that was
    written to the proxy socket. *)
Lemma connect_send_writes_request (agent : HttpsProxyAgent)
    (opts : connect_opts) (w : world) :
  truthy (JString (host opts)) = true →
  ∃ k agent' w1,
    connect_send decodeURIComponent base64 isIPv6 agent opts w
      = (inr (next_socket w), agent', w1) ∧
    k ≠ Placeholder ∧
    socks w1 !! next_socket w =
      Some (SockState k true false
              [connect_wire_format (destination isIPv6 opts)
                 (connect_headers decodeURIComponent base64 isIPv6 agent
                    opts w).1] [] 0) ∧
    next_socket w1 = S (next_socket w) ∧
    (∀ s, s ≠ next_socket w → socks w1 !! s = socks w !! s).
Proof.
  intros Hhost. unfold connect_send. rewrite Hhost. cbn [negb].
  set (agent' := match JsMap.get (sessionCacheKey agent) (sessionCache w)
                 with
                 | Some cachedSession => with_session (Some cachedSession) agent
                 | None => agent
                 end).
  assert (Hsame : ∀ w', connect_headers decodeURIComponent base64 isIPv6
                          agent' opts w'
                        = connect_headers decodeURIComponent base64 isIPv6
                            agent opts w').
  { intros w'. unfold agent'. by destruct (JsMap.get _ (sessionCache w)). }
  set (k := if decide (proxy_protocol agent' = "https:")
            then Tls (connectOpts_session agent') None
            else Tcp).
  assert (Hopen : (if decide (proxy_protocol agent' = "https:")
                   then open_socket (Tls (connectOpts_session agent') None) w
                   else open_socket Tcp w) = open_socket k w)
    by (unfold k; by case_decide).
  rewrite Hopen. clear Hopen.
  assert (Hk : k ≠ Placeholder) by (unfold k; by case_decide).
  destruct (written_to_open k w) as (_ & Hlook & Hsock & Hnext).
  pose proof (open_socket_other k w) as Hother.
  destruct (open_socket k w) as [sock wa] eqn:Hopen. simpl in *.
  subst sock. rewrite Hsame.
  pose proof (connect_headers_frame agent opts wa) as [Hs Hn].
  pose proof (connect_headers_same_cache agent opts w wa) as Hh.
  destruct (connect_headers decodeURIComponent base64 isIPv6 agent opts wa)
    as [hs wb]. simpl in *.
  exists k, agent'. eexists. split; [reflexivity|]. split; [done|].
  unfold sock_write, update_socket; simpl.
  rewrite lookup_alter, decide_True by done. rewrite Hs, Hlook. simpl.
  rewrite connect_payload_wire_format.
  assert (Hwa : commonHeadersCache wa = commonHeadersCache w).
  { assert (wa = (open_socket k w).2) as -> by by rewrite Hopen. done. }
  rewrite (Hh Hwa). split_and!.
  - by destruct k.
  - lia.
  - intros s Hne. rewrite lookup_alter, decide_False by done.
    by apply Hother.
Qed.

(** C1. In every CONNECT attempt the proxy socket has carried nothing
    but one CONNECT request when the proxy's answer arrives: the request
    line for the destination, the header set of the design document
    (the destination as [Host], the proxy's own credentials, the
    persistence setting and the headers configured on the agent, or the
    set memoized for the endpoint and destination) and a blank line;
    no other socket has been written to. If the answer is not a 200, the
    proxy socket is destroyed before [connect] returns, and what the
    caller gets is another object, a placeholder that is not writable:
    whatever is written afterwards, to whichever socket, the proxy
    socket takes no further byte and the placeholder takes none. When
    the HTTP client has attached its listener and the request's
    ['socket'] event fires with the placeholder, nothing having been
    written to the placeholder before, the buffered bytes of the proxy's
    answer are pushed to its reader, followed by the end of the stream,
    and later writes take nothing of that away. If the answer is a 200,
    the proxy socket is kept and the caller gets it, or a TLS socket
    running over it. *)
Theorem declined_tunnel_leaks_nothing (agent : HttpsProxyAgent)
    (opts : connect_opts) (resp : proxy_response) (w : world)
    (before after : list (socket * string)) :
  truthy (JString (host opts)) = true →
  let proxy_socket := next_socket w in
  ∃ hs agent' w1,
    connect_send decodeURIComponent base64 isIPv6 agent opts w
      = (inr proxy_socket, agent', w1) ∧
    sent_headers decodeURIComponent base64 isIPv6 agent opts w hs ∧
    let request := connect_wire_format (destination isIPv6 opts) hs in
    written_to proxy_socket w1 = [request] ∧
    (∀ s, s ≠ proxy_socket → written_to s w1 = written_to s w) ∧
    ∃ stream handler w2,
      connect_finish opts proxy_socket resp w1 = (stream, handler, w2) ∧
      if decide (statusCode resp = 200) then
        handler = Resume ∧
        ¬ destroyed_in proxy_socket w2 ∧
        written_to proxy_socket w2 = [request] ∧
        (if secureEndpoint opts
         then ∃ session,
                kind <$> socks w2 !! stream
                = Some (Tls session (Some proxy_socket))
         else stream = proxy_socket)
      else
        handler = Replay (buffered resp) ∧
        destroyed_in proxy_socket w2 ∧
        stream ≠ proxy_socket ∧
        kind <$> socks w2 !! stream = Some Placeholder ∧
        read_only stream w2 ∧
        written_to proxy_socket (later_writes before w2) = [request] ∧
        written_to stream (later_writes before w2) = [] ∧
        (Forall (λ sd, sd.1 ≠ stream) before →
         ∃ w3,
           on_socket handler stream
             (attach_data_listener stream (later_writes before w2))
           = Some w3 ∧
           pushed_to stream w3 = [Some (buffered resp); None] ∧
           pushed_to stream (later_writes after w3)
           = [Some (buffered resp); None] ∧
           written_to stream (later_writes after w3) = [] ∧
           written_to proxy_socket (later_writes after w3) = [request]).
Proof.
  intros Hhost proxy_socket.
  destruct (connect_send_writes_request agent opts w Hhost)
    as (k & agent' & w1 & Hsend & Hk & Hlook & Hnext & Hother).
  fold proxy_socket in Hsend, Hlook, Hnext, Hother.
  set (hs := (connect_headers decodeURIComponent base64 isIPv6 agent
                opts w).1) in *.
  set (request := connect_wire_format (destination isIPv6 opts) hs) in *.
  exists hs, agent', w1. split; [done|].
  split; [apply connect_headers_sent|]. cbv zeta. fold request.
  split. { unfold written_to. by rewrite Hlook. }
  split. { intros s Hs. unfold written_to. by rewrite Hother. }
  unfold connect_finish. case_decide as Hstatus.
  - destruct (secureEndpoint opts).
    + destruct (open_socket _ w1) as [tlsSocket w2] eqn:Hopen.
      exists tlsSocket, Resume, w2. split; [done|].
      match type of Hopen with
      | open_socket ?k' w1 = _ =>
          destruct (written_to_open k' w1) as (_ & Hl2 & Hs2 & _);
          pose proof (open_socket_other k' w1 proxy_socket) as Ho
      end.
      rewrite Hopen in Hl2, Hs2, Ho. simpl in *.
      rewrite Hnext in Hs2, Ho. specialize (Ho ltac:(lia)).
      unfold destroyed_in, written_to. rewrite Ho, Hlook. simpl.
      split_and!; [done|done|done|]. eexists. by rewrite Hl2.
    + exists proxy_socket, Resume, w1. split; [done|].
      unfold destroyed_in, written_to. rewrite Hlook. simpl. done.
  - set (wd := sock_destroy proxy_socket w1).
    assert (Hd : socks wd !! proxy_socket =
              Some (SockState k true true [request] [] 0)).
    { unfold wd, sock_destroy, update_socket; simpl.
      rewrite lookup_alter, decide_True by done. by rewrite Hlook. }
    assert (Hnd : next_socket wd = S proxy_socket) by done.
    destruct (written_to_open Placeholder wd) as (_ & Hl2 & Hs2 & _).
    pose proof (open_socket_other Placeholder wd proxy_socket) as Ho.
    destruct (open_socket Placeholder wd) as [fakeSocket w2] eqn:Hopen.
    simpl in *. rewrite Hnd in Hs2, Ho. specialize (Ho ltac:(lia)).
    rewrite Hd in Ho.
    exists fakeSocket, (Replay (buffered resp)), w2. split; [done|].
    pose proof (destroyed_socket_stays_silent proxy_socket _ before w2 Ho
                  eq_refl) as Hsilent.
    destruct (read_only_socket_takes_nothing fakeSocket _ before w2 Hl2
                eq_refl) as (st' & Hro & _ & _ & Hw' & _ & _ & Hsame).
    unfold destroyed_in, read_only, written_to, pushed_to.
    rewrite Ho, Hl2, Hsilent, Hro. simpl. rewrite Hw'.
    split_and!; [done|done|lia|done|done|done|done|].
    intros Hbefore. rewrite (Hsame Hbefore) in Hro. clear st' Hw' Hsame.
    set (wl := attach_data_listener fakeSocket (later_writes before w2)).
    assert (Hfake : socks wl !! fakeSocket
              = Some (SockState Placeholder false false [] [] 1)).
    { unfold wl, attach_data_listener, update_socket; simpl.
      rewrite lookup_alter, decide_True by done. by rewrite Hro. }
    assert (Hproxy : socks wl !! proxy_socket
              = Some (SockState k true true [request] [] 0)).
    { unfold wl, attach_data_listener, update_socket; simpl.
      rewrite lookup_alter, decide_False by lia. done. }
    set (w3 := sock_push fakeSocket None
                 (sock_push fakeSocket (Some (buffered resp)) wl)).
    assert (Hfake3 : socks w3 !! fakeSocket
              = Some (SockState Placeholder false false []
                        [Some (buffered resp); None] 1)).
    { unfold w3, sock_push, update_socket; cbn [socks].
      rewrite !lookup_alter, !decide_True by done. by rewrite Hfake. }
    assert (Hproxy3 : socks w3 !! proxy_socket
              = Some (SockState k true true [request] [] 0)).
    { unfold w3, sock_push, update_socket; cbn [socks].
      rewrite !lookup_alter, !decide_False by lia. done. }
    exists w3. split.
    { unfold on_socket.
      match goal with
      | |- match ?x with _ => _ end = _ =>
          replace x with (socks wl !! fakeSocket) by reflexivity
      end.
      by rewrite Hfake. }
    pose proof (destroyed_socket_stays_silent proxy_socket _ after w3
                  Hproxy3 eq_refl) as Hsilent3.
    destruct (read_only_socket_takes_nothing fakeSocket _ after w3 Hfake3
                eq_refl) as (st3 & Hro3 & _ & _ & Hw3 & Hp3 & _).
    rewrite Hfake3, Hsilent3, Hro3. simpl. by rewrite Hw3, Hp3.
Qed.
End tunnel.

(** The request that opens a tunnel to [api.example.com:443] through
    [http://user:pw@proxy.local:8080]. *)
Example connect_request_bytes :
  written_to 0%nat
    (connect_send example_decode example_base64 no_ipv6 connect_agent
       secure_request quiet_world).2
  = ["CONNECT api.example.com:443 HTTP/1.1" +:+ crlf
     +:+ "Proxy-Authorization: Basic base64(user:pw)" +:+ crlf
     +:+ "Host: api.example.com:443" +:+ crlf
     +:+ "Proxy-Connection: Keep-Alive" +:+ crlf +:+ crlf].
Proof. by vm_compute. Qed.

(** A write that reaches the placeholder before the request's
    ['socket'] event destroys it, and the replay is lost: nothing is
    pushed to its reader. *)
Example early_write_loses_replay :
  let w1 := (connect_send example_decode example_base64 no_ipv6
               connect_agent secure_request quiet_world).2 in
  let r := connect_finish secure_request 0%nat answer_407 w1 in
  let w2 := later_writes [(r.1.1, "GET /secret HTTP/1.1")] r.2 in
  ∃ w3, on_socket r.1.2 r.1.1 (attach_data_listener r.1.1 w2) = Some w3 ∧
        destroyed_in r.1.1 w3 ∧
        pushed_to r.1.1 w3 = [] ∧
        written_to r.1.1 w3 = [] ∧
        written_to 0%nat w3
        = written_to 0%nat w1.
Proof. eexists. by vm_compute. Qed.

Lemma declined_tunnel_leaks_nothing_witness :
  let proxy_socket := next_socket quiet_world in
  let request :=
    "CONNECT api.example.com:443 HTTP/1.1" +:+ crlf
    +:+ "Proxy-Authorization: Basic base64(user:pw)" +:+ crlf
    +:+ "Host: api.example.com:443" +:+ crlf
    +:+ "Proxy-Connection: Keep-Alive" +:+ crlf +:+ crlf in
  let before := [(0%nat, "GET /secret HTTP/1.1")] in
  let after := [(0%nat, "GET /secret HTTP/1.1");
                (1%nat, "GET /secret HTTP/1.1")] in
  ∃ agent' w1 stream w2 w3,
    connect_send example_decode example_base64 no_ipv6 connect_agent
      secure_request quiet_world = (inr proxy_socket, agent', w1) ∧
    written_to proxy_socket w1 = [request] ∧
    connect_finish secure_request proxy_socket answer_407 w1
      = (stream, Replay (buffered answer_407), w2) ∧
    destroyed_in proxy_socket w2 ∧
    stream = 1%nat ∧
    read_only stream w2 ∧
    on_socket (Replay (buffered answer_407)) stream
      (attach_data_listener stream (later_writes before w2)) = Some w3 ∧
    pushed_to stream (later_writes after w3)
      = [Some (buffered answer_407); None] ∧
    written_to stream (later_writes after w3) = [] ∧
    written_to proxy_socket (later_writes after w3) = [request].
Proof.
  cbv zeta.
  destruct (declined_tunnel_leaks_nothing example_decode example_base64
              no_ipv6 connect_agent secure_request answer_407 quiet_world
              [(0%nat, "GET /secret HTTP/1.1")]
              [(0%nat, "GET /secret HTTP/1.1");
               (1%nat, "GET /secret HTTP/1.1")] eq_refl)
    as (hs & agent' & w1 & Hsend & Hhs & Hw & _ & stream & handler & w2
        & Hfin & Hrest).
  rewrite decide_False in Hrest by done.
  destruct Hrest as (-> & Hd & _ & _ & Hro & _ & _ & Hreplay).
  assert (Hstream : stream = 1%nat).
  { vm_compute in Hsend. injection Hsend as <- <-.
    vm_compute in Hfin. by injection Hfin as <- _. }
  destruct Hreplay as (w3 & Hon & _ & Hp & Hws & Hwp).
  { subst stream. by repeat constructor. }
  assert (Hreq : connect_wire_format (destination no_ipv6 secure_request) hs
                 = "CONNECT api.example.com:443 HTTP/1.1" +:+ crlf
                   +:+ "Proxy-Authorization: Basic base64(user:pw)" +:+ crlf
                   +:+ "Host: api.example.com:443" +:+ crlf
                   +:+ "Proxy-Connection: Keep-Alive" +:+ crlf +:+ crlf).
  { vm_compute in Hsend. injection Hsend as _ <-.
    vm_compute in Hw. vm_compute. by injection Hw as <-. }
  rewrite Hreq in Hw, Hwp.
  by exists agent', w1, stream, w2, w3.
Defined.

End HttpsProxyFacts.

(** * Further properties *)

(** ** agent-base: options, pool and stream hand-over *)

Module AgentBaseMoreFacts.
Import AgentBase Runs PoolRuns AgentBaseAccessors Examples AgentBaseFacts.

(** *** Removing a socket from the pool *)

Lemma splice_first_spec (s : socket) (arr : list socket) :
  match splice_first s arr with
  | Some arr' =>
      s ∈ arr ∧
      ∀ x, count_occ Nat.eq_dec arr' x =
           if decide (x = s) then pred (count_occ Nat.eq_dec arr x)
           else count_occ Nat.eq_dec arr x
  | None => s ∉ arr
  end.
Proof.
  induction arr as [|y arr IH]; simpl; [apply not_elem_of_nil|].
  destruct (decide (y = s)) as [->|Hne].
  - split; [apply elem_of_cons; by left|]. intros x.
    destruct (Nat.eq_dec s x) as [->|Hx].
    + by rewrite decide_True.
    + by rewrite decide_False.
  - destruct (splice_first s arr) as [arr'|]; csimpl.
    + destruct IH as [Hin Hc]. split; [apply elem_of_cons; by right|].
      intros x. rewrite Hc. destruct (Nat.eq_dec y x) as [Hx|Hx]; [|done].
      subst y. by destruct (decide (x = s)).
    + apply not_elem_of_cons. by split.
Qed.

Lemma splice_first_filter (s : socket) (arr : list socket) :
  (count_occ Nat.eq_dec arr s ≤ 1)%nat →
  match splice_first s arr with
  | Some arr' => arr' = filter (λ x, x ≠ s) arr ∧
                 count_occ Nat.eq_dec arr s = 1%nat
  | None => filter (λ x, x ≠ s) arr = arr ∧
            count_occ Nat.eq_dec arr s = 0%nat
  end.
Proof.
  induction arr as [|y arr IH]; simpl; [done|]. intros Hc.
  rewrite filter_cons. destruct (decide (y = s)) as [->|Hne].
  - destruct (Nat.eq_dec s s) as [_|]; [|done].
    rewrite decide_False by (intros H; by apply H).
    assert (H0 : count_occ Nat.eq_dec arr s = 0%nat) by lia.
    specialize (IH ltac:(lia)).
    destruct (splice_first s arr) as [arr'|]; [lia|].
    destruct IH as [-> _]. by rewrite H0.
  - destruct (Nat.eq_dec y s) as [|_]; [done|].
    rewrite decide_True by done. specialize (IH Hc).
    destruct (splice_first s arr) as [arr'|]; simpl.
    + destruct IH as [-> ->]. done.
    + destruct IH as [-> ->]. done.
Qed.

Lemma decrementSockets_frame (name : string) (s : option socket)
    (a : agent) :
  maxSockets (decrementSockets name s a) = maxSockets a ∧
  maxTotalSockets (decrementSockets name s a) = maxTotalSockets a ∧
  next_socket (decrementSockets name s a) = next_socket a ∧
  trace (decrementSockets name s a) = trace a ∧
  currentSocket (decrementSockets name s a) = currentSocket a.
Proof.
  unfold decrementSockets. destruct (sockets a !! name); [|done].
  destruct s as [s|]; [|done]. by destruct (splice_first s l).
Qed.

(** X2. [decrementSockets] removes one occurrence of the socket from the
    array under the name, lowers [totalSocketCount] by one, and leaves
    every other name alone; it changes nothing when the socket is not
    there. A pool without empty arrays stays so, through increments and
    decrements alike: the name of an emptied array is deleted. *)
Theorem decrementSockets_removes_one (name : string) (s : socket)
    (a : agent) :
  let a' := decrementSockets name (Some s) a in
  (s ∉ pool_view a name → a' = a) ∧
  (s ∈ pool_view a name →
   totalSocketCount a' = totalSocketCount a - 1 ∧
   (∀ x, count_occ Nat.eq_dec (pool_view a' name) x =
         if decide (x = s)
         then pred (count_occ Nat.eq_dec (pool_view a name) x)
         else count_occ Nat.eq_dec (pool_view a name) x) ∧
   (∀ n, n ≠ name → pool_view a' n = pool_view a n)) ∧
  (no_empty_arrays a →
   no_empty_arrays a' ∧ no_empty_arrays (incrementSockets name a).2).
Proof.
  intros a'. unfold a', decrementSockets, pool_view.
  pose proof (splice_first_spec s (default [] (sockets a !! name))) as Hsp.
  destruct (sockets a !! name) as [arr|] eqn:Hlook; simpl in Hsp.
  - destruct (splice_first s arr) as [arr'|] eqn:Hs.
    + destruct Hsp as [Hin Hc]. split_and!.
      * intros Hnot. by destruct Hnot.
      * intros _. destruct arr' as [|z arr']; simpl.
        -- rewrite lookup_delete_eq. split_and!; [done| |].
           ++ intros x. simpl. by rewrite <- Hc.
           ++ intros n Hn. by rewrite lookup_delete_ne.
        -- rewrite lookup_insert_eq. split_and!; [done| |].
           ++ intros x. simpl. by rewrite <- Hc.
           ++ intros n Hn. by rewrite lookup_insert_ne.
      * intros Hne. split.
        -- intros n. destruct arr' as [|z arr']; simpl.
           ++ destruct (decide (n = name)) as [->|Hn].
              ** by rewrite lookup_delete_eq.
              ** rewrite lookup_delete_ne by done. apply Hne.
           ++ destruct (decide (n = name)) as [->|Hn].
              ** by rewrite lookup_insert_eq.
              ** rewrite lookup_insert_ne by done. apply Hne.
        -- intros n. unfold incrementSockets.
           destruct (maxSockets a), (maxTotalSockets a); simpl;
             try apply Hne.
           all: destruct (decide (n = name)) as [->|Hn];
             [rewrite lookup_insert_eq, Hlook; simpl;
              intros [= H]; by destruct arr
             |rewrite lookup_insert_ne by done; apply Hne].
    + split_and!; [done|intros Hin; by destruct Hsp|].
      intros Hne. split; [done|].
      intros n. unfold incrementSockets.
      destruct (maxSockets a), (maxTotalSockets a); simpl; try apply Hne.
      all: destruct (decide (n = name)) as [->|Hn];
        [rewrite lookup_insert_eq, Hlook; simpl;
         intros [= H]; by destruct arr
        |rewrite lookup_insert_ne by done; apply Hne].
  - split_and!; [done|intros Hin; by apply elem_of_nil in Hin|].
    intros Hne. split; [done|].
    intros n. unfold incrementSockets.
    destruct (maxSockets a), (maxTotalSockets a); simpl; try apply Hne.
    all: destruct (decide (n = name)) as [->|Hn];
      [rewrite lookup_insert_eq, Hlook; simpl; by intros [= H]
      |rewrite lookup_insert_ne by done; apply Hne].
Qed.

(** A socket that occurs at most once in the pool, and only under the
    given name, is filtered out by [decrementSockets]. *)
Lemma decrementSockets_filter (name : string) (s : socket) (a : agent) :
  (count_occ Nat.eq_dec (pool_view a name) s ≤ 1)%nat →
  (∀ n, n ≠ name → s ∉ pool_view a n) →
  let a' := decrementSockets name (Some s) a in
  (∀ n, pool_view a' n = filter (λ x, x ≠ s) (pool_view a n)) ∧
  totalSocketCount a' =
    totalSocketCount a - Z.of_nat (count_occ Nat.eq_dec (pool_view a name) s).
Proof.
  intros Hc Hother a'.
  assert (Hrest : ∀ n, n ≠ name →
            filter (λ x, x ≠ s) (pool_view a n) = pool_view a n).
  { intros n Hn. specialize (Hother n Hn).
    induction (pool_view a n) as [|y l IH]; [done|].
    apply not_elem_of_cons in Hother as [Hy Hl].
    rewrite filter_cons, decide_True by done. by rewrite IH. }
  unfold a', decrementSockets, pool_view in *.
  pose proof (splice_first_filter s (default [] (sockets a !! name)) Hc)
    as Hsp.
  destruct (sockets a !! name) as [arr|] eqn:Hlook; simpl in *.
  - destruct (splice_first s arr) as [arr'|].
    + destruct Hsp as [-> Hone]. rewrite Hone. split; [|simpl; lia].
      intros n. destruct (decide (n = name)) as [->|Hn].
      * rewrite Hlook. simpl.
        destruct (filter (λ x, x ≠ s) arr) eqn:Hf; simpl.
        -- by rewrite lookup_delete_eq.
        -- by rewrite lookup_insert_eq.
      * rewrite (Hrest n Hn).
        destruct (filter (λ x, x ≠ s) arr); simpl.
        -- by rewrite lookup_delete_ne.
        -- by rewrite lookup_insert_ne.
    + destruct Hsp as [Hid Hzero]. rewrite Hzero. split; [|lia].
      intros n. destruct (decide (n = name)) as [->|Hn].
      * rewrite Hlook. simpl. by rewrite Hid.
      * by rewrite (Hrest n Hn).
  - split; [|lia]. intros n. destruct (decide (n = name)) as [->|Hn].
    + by rewrite Hlook.
    + by rewrite (Hrest n Hn).
Qed.

Lemma settle_filter (httpGetName httpsGetName : connect_opts → string)
    (p : pending) (s : socket) (st : settlement) (sc : super_call)
    (a : agent) :
  p_fakeSocket p = Some s →
  (count_occ Nat.eq_dec (pool_view a (p_name p)) s ≤ 1)%nat →
  (∀ n, n ≠ p_name p → s ∉ pool_view a n) →
  let a' := settle httpGetName httpsGetName p st sc a in
  (∀ n, pool_view a' n =
        filter (λ x, x ≠ s) (pool_view a n)
        ++ pushed_under (super_name httpGetName httpsGetName sc a) st n) ∧
  totalSocketCount a' =
    totalSocketCount a
    - Z.of_nat (count_occ Nat.eq_dec (pool_view a (p_name p)) s)
    + Z.of_nat (length (stream_of st)).
Proof.
  intros Hs Hc Ho a'.
  destruct (settle_spec httpGetName httpsGetName p st sc a)
    as (Hp & Ht & _).
  destruct (decrementSockets_filter (p_name p) s a Hc Ho) as [Hf Hn].
  rewrite Hs in Hp, Ht. split.
  - intros n. unfold a'. by rewrite Hp, Hf.
  - unfold a'. rewrite Ht, Hn. done.
Qed.

Lemma filter_fresh (s : nat) (l : list nat) :
  s ∉ l → filter (λ x, x ≠ s) l = l.
Proof.
  induction l as [|y l IH]; [done|]. intros [Hy Hl]%not_elem_of_cons.
  rewrite filter_cons, decide_True by done. by rewrite IH.
Qed.

Lemma count_fresh (s : socket) (l : list socket) :
  s ∉ l → count_occ Nat.eq_dec l s = 0%nat.
Proof.
  intros Hs. apply count_occ_not_In. by rewrite <- list_elem_of_In.
Qed.

Lemma count_filter_ne (s g : socket) (l : list socket) :
  g ≠ s →
  count_occ Nat.eq_dec (filter (λ x, x ≠ s) l) g = count_occ Nat.eq_dec l g.
Proof.
  intros Hg. induction l as [|y l IH]; [done|].
  rewrite filter_cons. destruct (decide (y ≠ s)) as [Hy|Hy]; simpl.
  - by rewrite IH.
  - destruct (Nat.eq_dec y g) as [->|_]; [|done].
    destruct Hy. done.
Qed.

(** Two placeholders [f] and [S f], each appended under its own name to
    a pool that holds neither. *)
Lemma two_placeholders (P Q : string → list socket) (nA nB : string)
    (f : socket) :
  (∀ n, (f ∉ P n) ∧ (S f ∉ P n)) →
  (∀ n, Q n = P n ++ (if decide (n = nA) then [f] else [])
                  ++ (if decide (n = nB) then [S f] else [])) →
  count_occ Nat.eq_dec (Q nA) f = 1%nat ∧
  count_occ Nat.eq_dec (Q nB) (S f) = 1%nat ∧
  (∀ n, n ≠ nA → f ∉ Q n) ∧
  (∀ n, n ≠ nB → S f ∉ Q n) ∧
  (∀ n, filter (λ x, x ≠ S f) (filter (λ x, x ≠ f) (Q n)) = P n) ∧
  (∀ n, filter (λ x, x ≠ f) (filter (λ x, x ≠ S f) (Q n)) = P n).
Proof.
  intros HP HQ. unfold socket in *.
  assert (Hne : f ≠ S f) by lia. assert (Hne' : S f ≠ f) by lia.
  split_and!.
  - rewrite HQ, !count_occ_app, (count_fresh f) by apply HP.
    rewrite decide_True by done.
    destruct (decide (nA = nB)); cbn [count_occ];
      repeat match goal with
             | |- context [Nat.eq_dec ?x ?y] => destruct (Nat.eq_dec x y)
             end; lia.
  - rewrite HQ, !count_occ_app, (count_fresh (S f)) by apply HP.
    rewrite (decide_True (P:=nB = nB)) by done.
    destruct (decide (nB = nA)); cbn [count_occ];
      repeat match goal with
             | |- context [Nat.eq_dec ?x ?y] => destruct (Nat.eq_dec x y)
             end; lia.
  - intros n Hn. rewrite HQ, decide_False by done.
    rewrite !not_elem_of_app. split_and!; [apply HP|apply not_elem_of_nil|].
    destruct (decide (n = nB)); [|apply not_elem_of_nil].
    rewrite list_elem_of_singleton. lia.
  - intros n Hn. rewrite HQ, (decide_False (P:=n = nB)) by done.
    rewrite !not_elem_of_app. split_and!; [apply HP| |apply not_elem_of_nil].
    destruct (decide (n = nA)); [|apply not_elem_of_nil].
    rewrite list_elem_of_singleton. lia.
  - intros n. rewrite HQ, !filter_app.
    rewrite (filter_fresh f (P n)), (filter_fresh (S f) (P n)) by apply HP.
    destruct (decide (n = nA)), (decide (n = nB));
      rewrite ?filter_cons, ?filter_nil; simpl;
      repeat (first [rewrite decide_True by done
                    |rewrite decide_False by (intros H; by apply H)];
              rewrite ?filter_cons, ?filter_nil; simpl);
      by rewrite ?app_nil_r.
  - intros n. rewrite HQ, !filter_app.
    rewrite (filter_fresh (S f) (P n)), (filter_fresh f (P n)) by apply HP.
    destruct (decide (n = nA)), (decide (n = nB));
      rewrite ?filter_cons, ?filter_nil; simpl;
      repeat (first [rewrite decide_True by done
                    |rewrite decide_False by (intros H; by apply H)];
              rewrite ?filter_cons, ?filter_nil; simpl);
      by rewrite ?app_nil_r.
Qed.

(** X6. The [defaultPort] and [protocol] accessors. A port that was
    assigned is what the getter returns, whatever the call stack, and the
    assignment leaves the protocol alone. A second read of [defaultPort]
    returns what the first one did and changes nothing, from whatever
    call stack it is made: with neither field assigned the first read
    decides, by its call stack, and the answer is memoised. *)
Theorem default_port_fixed_by_first_read (o : overrides)
    (stack1 stack2 : option string) (a : agent) :
  let '(port, a1) := get_defaultPort o stack1 a in
  get_defaultPort o stack2 a1 = (port, a1) ∧
  (defaultPort_field o = None → protocol_field o = None →
   cachedEndpointKey a = None →
   port = if stack_result stack1 then 443 else 80) ∧
  ∀ v, ∃ o', set_defaultPort v (Some o) = Some o' ∧
             get_defaultPort o' stack1 a = (v, a) ∧
             get_protocol o' stack1 a = get_protocol o stack1 a.
Proof.
  unfold get_defaultPort, get_protocol, set_defaultPort.
  destruct o as [[n|] [p|]]; simpl.
  - split_and!; [done|done|]. intros v. by eexists.
  - split_and!; [done|done|]. intros v. by eexists.
  - split_and!; [done|done|]. intros v. by eexists.
  - unfold isSecureEndpoint; simpl.
    destruct (cachedEndpointKey a) as [k|] eqn:Hk;
      [destruct (cachedSecureEndpoint a) as [b|] eqn:Hb;
       [destruct (decide (k = "no-options")) as [->|Hne]|]|]; simpl.
    + rewrite Hk, Hb. simpl. split_and!; [done|done|].
      intros v. by eexists.
    + split_and!; [done|done|]. intros v. by eexists.
    + split_and!; [done|done|]. intros v. by eexists.
    + split_and!; [done|by destruct (stack_result stack1)|].
      intros v. by eexists.
Qed.

Section more.
Variables (httpGetName httpsGetName : connect_opts → string).

(** [createSocket] with a promise pending, on an agent with a finite
    limit. *)
Lemma createSocket_pending (options : connect_opts) (stack : option string)
    (sc : super_call) (a : agent) :
  bounded a →
  ∃ name a1,
    createSocket httpGetName httpsGetName options stack ReturnsPromise sc a
      = (Awaiting (Pending name (Some (next_socket a))), a1) ∧
    (∀ n, pool_view a1 n =
          pool_view a n ++ (if decide (n = name) then [next_socket a]
                            else [])) ∧
    totalSocketCount a1 = totalSocketCount a + 1 ∧
    next_socket a1 = S (next_socket a) ∧
    bounded a1.
Proof.
  intros Hb. unfold createSocket, reserve, getName.
  pose proof (isSecureEndpoint_frame (Some options) stack a) as F1.
  destruct (isSecureEndpoint (Some options) stack a) as [secure a1].
  simpl in F1. destruct F1 as (M1 & M2 & S1 & T1 & N1 & L1).
  set (connectOpts :=
         if decide (secureEndpoint options = JBool secure) then options
         else ConnectOpts (JBool secure) (protocol options)).
  pose proof (isSecureEndpoint_frame (Some connectOpts) stack a1) as F2.
  destruct (isSecureEndpoint (Some connectOpts) stack a1) as [secure' a2].
  simpl in F2. destruct F2 as (M1' & M2' & S2 & T2 & N2 & L2).
  set (name := if secure' then httpsGetName connectOpts
               else httpGetName connectOpts).
  assert (Hb2 : bounded a2).
  { unfold bounded in *. by rewrite M1', M2', M1, M2. }
  rewrite (incrementSockets_bounded name a2 Hb2). cbn [fst snd].
  exists name. eexists. split.
  { rewrite <- N1, <- N2. reflexivity. }
  unfold pool_view, bounded; simpl.
  rewrite S2, S1, T2, T1, N2, N1, M1', M2', M1, M2.
  split_and!; [|done|done|done].
  intros n. destruct (decide (n = name)) as [->|Hn].
  - by rewrite lookup_insert_eq.
  - rewrite lookup_insert_ne by done. by rewrite app_nil_r.
Qed.

(** The trace of [createSocket] down to the increment, on any agent. *)
Lemma reserve_trace (options : connect_opts) (stack : option string)
    (a : agent) :
  let '(_, name, fakeSocket, a0) :=
    reserve httpGetName httpsGetName options stack a in
  trace a0 = trace a ++ [EvIncrement name fakeSocket].
Proof.
  unfold reserve, getName.
  pose proof (isSecureEndpoint_frame (Some options) stack a) as F1.
  destruct (isSecureEndpoint (Some options) stack a) as [secure a1].
  simpl in F1. destruct F1 as (_ & _ & _ & _ & _ & L1).
  set (connectOpts :=
         if decide (secureEndpoint options = JBool secure) then options
         else ConnectOpts (JBool secure) (protocol options)).
  pose proof (isSecureEndpoint_frame (Some connectOpts) stack a1) as F2.
  destruct (isSecureEndpoint (Some connectOpts) stack a1) as [secure' a2].
  simpl in F2. destruct F2 as (_ & _ & _ & _ & _ & L2).
  unfold incrementSockets.
  destruct (maxSockets a2), (maxTotalSockets a2); simpl;
    by rewrite L2, L1.
Qed.

(** X1. The options that [createSocket] passes on always carry a boolean
    [secureEndpoint]: the caller's own boolean when there is one, else
    whether a string [protocol] is ['https:'], else the answer of the
    fallback; the other fields are the caller's, and the caller's object
    itself is passed when it already carries that boolean. The pool name
    is Node's https name exactly when the boolean is true. *)
Theorem createSocket_options_carry_boolean (options : connect_opts)
    (stack : option string) (a : agent) :
  let '(connectOpts, name, _, _) :=
    reserve httpGetName httpsGetName options stack a in
  let secure :=
    match secureEndpoint options, protocol options with
    | JBool b, _ => b
    | _, JString p => String.eqb p "https:"
    | _, _ => (isSecureEndpoint (Some options) stack a).1
    end in
  secureEndpoint connectOpts = JBool secure ∧
  protocol connectOpts = protocol options ∧
  (secureEndpoint options = JBool secure → connectOpts = options) ∧
  name = (if secure then httpsGetName connectOpts
          else httpGetName connectOpts).
Proof.
  unfold reserve, getName.
  assert (Hsec : (isSecureEndpoint (Some options) stack a).1 =
            match secureEndpoint options, protocol options with
            | JBool b, _ => b
            | _, JString p => String.eqb p "https:"
            | _, _ => (isSecureEndpoint (Some options) stack a).1
            end).
  { destruct (secureEndpoint options) eqn:Hse;
      [destruct (protocol options) eqn:Hp; [done|done|]| |
       destruct (protocol options) eqn:Hp; [done|done|]];
      unfold isSecureEndpoint, explicit_answer; by rewrite Hse, ?Hp. }
  rewrite <- Hsec. clear Hsec.
  destruct (isSecureEndpoint (Some options) stack a) as [secure a1].
  cbn [fst].
  set (connectOpts :=
         if decide (secureEndpoint options = JBool secure) then options
         else ConnectOpts (JBool secure) (protocol options)).
  assert (Hse : secureEndpoint connectOpts = JBool secure).
  { unfold connectOpts. by case_decide. }
  assert (Hex : isSecureEndpoint (Some connectOpts) stack a1 = (secure, a1)).
  { unfold isSecureEndpoint, explicit_answer. by rewrite Hse. }
  rewrite Hex. destruct (incrementSockets _ a1) as [fake a2].
  split_and!; [done| |intros H|done].
  - unfold connectOpts. by case_decide.
  - unfold connectOpts. by rewrite decide_True.
Qed.

(** X4. When [connect()] throws instead of returning, [createSocket] is
    left by the exception after the increment and before any decrement: on
    an agent with a finite limit the placeholder stays in the pool and
    [totalSocketCount] stays one higher. *)
Theorem sync_throw_leaves_placeholder_behind (options : connect_opts)
    (stack : option string) (err : string) (sc : super_call) (a : agent) :
  bounded a →
  let r :=
    createSocket httpGetName httpsGetName options stack (Throws err) sc a
  in
  r.1 = Threw err ∧
  totalSocketCount r.2 = totalSocketCount a + 1 ∧
  (∃ name, pool_view r.2 name = pool_view a name ++ [next_socket a] ∧
           ∀ n, n ≠ name → pool_view r.2 n = pool_view a n) ∧
  Forall (λ e, is_decrement e = false) (events_since a r.2).
Proof.
  intros Hb. unfold createSocket.
  destruct (reserve_bounded httpGetName httpsGetName options stack a Hb)
    as (connectOpts & name & a0 & -> & Hs & Ht & Hl).
  cbn [fst snd]. split_and!; [done|done| |].
  - exists name. unfold pool_view; simpl. rewrite Hs. split.
    + by rewrite lookup_insert_eq.
    + intros n Hn. by rewrite lookup_insert_ne.
  - unfold events_since; simpl. rewrite Hl, <- app_assoc, drop_app_length.
    by repeat constructor.
Qed.

(** X3. Two attempts that overlap: both reserve a slot before either
    [connect()] settles. Whichever settles first, and whether each one
    succeeds or fails, both placeholders are gone afterwards: the pool
    is what it was before the two attempts, followed by the streams the
    attempts produced, in the order they settled, each pushed by Node's
    own [createSocket] under the name it asked for; [totalSocketCount]
    is what it was plus the number of those streams. A stream is a
    socket of its own, not one of the two placeholders. *)
Theorem overlapping_attempts_release_placeholders
    (optsA optsB : connect_opts) (stackA stackB : option string)
    (scA scB : super_call) (a : agent) :
  bounded a → pool_wf a →
  ∃ pA a1 pB a2,
    createSocket httpGetName httpsGetName optsA stackA ReturnsPromise scA a
      = (Awaiting pA, a1) ∧
    createSocket httpGetName httpsGetName optsB stackB ReturnsPromise scB a1
      = (Awaiting pB, a2) ∧
    totalSocketCount a2 = totalSocketCount a + 2 ∧
    ∀ (a_first : bool) (sA sB : settlement),
      Forall (λ x, Some x ≠ p_fakeSocket pA ∧ Some x ≠ p_fakeSocket pB)
             (stream_of sA ++ stream_of sB) →
      let a3 :=
        settle_both httpGetName httpsGetName a_first pA pB sA sB scA scB a2
      in
      totalSocketCount a3 =
        totalSocketCount a
        + Z.of_nat (length (stream_of sA ++ stream_of sB)) ∧
      ∃ nA nB,
        (nA = httpsGetName (super_options scA)
         ∨ nA = httpGetName (super_options scA)) ∧
        (nB = httpsGetName (super_options scB)
         ∨ nB = httpGetName (super_options scB)) ∧
        ∀ n, pool_view a3 n =
             pool_view a n
             ++ (if a_first
                 then pushed_under nA sA n ++ pushed_under nB sB n
                 else pushed_under nB sB n ++ pushed_under nA sA n).
Proof.
  intros Hb Hwf.
  destruct (createSocket_pending optsA stackA scA a Hb)
    as (nA & a1 & HA & PA & TA & NA & BA).
  destruct (createSocket_pending optsB stackB scB a1 BA)
    as (nB & a2 & HB & PB & TB & NB & BB).
  rewrite NA in HB, PB.
  exists (Pending nA (Some (next_socket a))), a1,
         (Pending nB (Some (S (next_socket a)))), a2.
  split_and!; [exact HA|exact HB|lia|].
  assert (HP : ∀ n, (next_socket a ∉ pool_view a n)
                    ∧ (S (next_socket a) ∉ pool_view a n)).
  { intros n; split; intros Hin; apply Hwf in Hin; lia. }
  assert (HQ : ∀ n, pool_view a2 n =
            pool_view a n
            ++ (if decide (n = nA) then [next_socket a] else [])
            ++ (if decide (n = nB) then [S (next_socket a)] else [])).
  { intros n. by rewrite PB, PA, <- app_assoc. }
  destruct (two_placeholders _ _ nA nB _ HP HQ)
    as (cA & cB & oA & oB & FAB & FBA).
  intros a_first sA sB Hreal a3. cbn [p_fakeSocket] in Hreal.
  apply Forall_app in Hreal as [HrA HrB].
  assert (HfA : ∀ f name n, Forall (λ x, Some x ≠ Some (next_socket a)
                                      ∧ Some x ≠ Some (S (next_socket a)))
                              (stream_of f) →
            filter (λ x, x ≠ next_socket a) (pushed_under name f n)
              = pushed_under name f n ∧
            filter (λ x, x ≠ S (next_socket a)) (pushed_under name f n)
              = pushed_under name f n ∧
            count_occ Nat.eq_dec (pushed_under name f n) (next_socket a)
              = 0%nat ∧
            count_occ Nat.eq_dec (pushed_under name f n) (S (next_socket a))
              = 0%nat ∧
            (next_socket a ∉ pushed_under name f n) ∧
            (S (next_socket a) ∉ pushed_under name f n)).
  { intros f name n Hf. unfold pushed_under.
    assert (H1 : next_socket a ∉ stream_of f).
    { intros Hin. rewrite Forall_forall in Hf.
      destruct (Hf _ Hin) as [H _]. by apply H. }
    assert (H2 : S (next_socket a) ∉ stream_of f).
    { intros Hin. rewrite Forall_forall in Hf.
      destruct (Hf _ Hin) as [_ H]. by apply H. }
    destruct (decide (n = name)).
    - split_and!; [by apply filter_fresh|by apply filter_fresh
                  |by apply count_fresh|by apply count_fresh|done|done].
    - split_and!; try done; apply not_elem_of_nil. }
  unfold a3, settle_both. destruct a_first.
  - destruct (settle_filter httpGetName httpsGetName
                (Pending nA (Some (next_socket a)))
                (next_socket a) sA scA a2 eq_refl) as [P1 T1];
      [simpl; lia|exact oA|].
    cbn [p_name] in T1. rewrite cA in T1.
    set (nA' := super_name httpGetName httpsGetName scA a2) in *.
    set (b := settle httpGetName httpsGetName
                (Pending nA (Some (next_socket a))) sA scA a2) in *.
    destruct (settle_filter httpGetName httpsGetName
                (Pending nB (Some (S (next_socket a))))
                (S (next_socket a)) sB scB b eq_refl) as [P2 T2].
    { cbn [p_name]. rewrite P1, count_occ_app, count_filter_ne by lia.
      unfold socket in *.
      destruct (HfA sA nA' nB HrA) as (_ & _ & _ & -> & _). lia. }
    { intros n Hn. cbn [p_name] in Hn. rewrite P1.
      intros [Hin|Hin]%elem_of_app.
      - apply list_elem_of_filter in Hin as [_ Hin]. by apply (oB n Hn).
      - by destruct (HfA sA nA' n HrA) as (_ & _ & _ & _ & _ & H). }
    cbn [p_name] in T2.
    rewrite P1, count_occ_app, count_filter_ne, cB in T2 by lia.
    unfold socket in *.
    destruct (HfA sA nA' nB HrA) as (_ & _ & _ & Hz & _).
    rewrite Hz in T2. split.
    { rewrite length_app. lia. }
    exists nA', (super_name httpGetName httpsGetName scB b).
    split_and!; [apply super_name_cases|apply super_name_cases|].
    intros n. rewrite P2, P1, filter_app, FAB.
    destruct (HfA sA nA' n HrA) as (_ & -> & _).
    by rewrite <- app_assoc.
  - destruct (settle_filter httpGetName httpsGetName
                (Pending nB (Some (S (next_socket a))))
                (S (next_socket a)) sB scB a2 eq_refl) as [P1 T1];
      [simpl; lia|exact oB|].
    cbn [p_name] in T1. rewrite cB in T1.
    set (nB' := super_name httpGetName httpsGetName scB a2) in *.
    set (b := settle httpGetName httpsGetName
                (Pending nB (Some (S (next_socket a)))) sB scB a2) in *.
    destruct (settle_filter httpGetName httpsGetName
                (Pending nA (Some (next_socket a)))
                (next_socket a) sA scA b eq_refl) as [P2 T2].
    { cbn [p_name]. rewrite P1, count_occ_app, count_filter_ne by lia.
      unfold socket in *.
      destruct (HfA sB nB' nA HrB) as (_ & _ & -> & _). lia. }
    { intros n Hn. cbn [p_name] in Hn. rewrite P1.
      intros [Hin|Hin]%elem_of_app.
      - apply list_elem_of_filter in Hin as [_ Hin]. by apply (oA n Hn).
      - by destruct (HfA sB nB' n HrB) as (_ & _ & _ & _ & H & _). }
    cbn [p_name] in T2.
    rewrite P1, count_occ_app, count_filter_ne, cA in T2 by lia.
    unfold socket in *.
    destruct (HfA sB nB' nA HrB) as (_ & _ & Hz & _).
    rewrite Hz in T2. split.
    { rewrite length_app. lia. }
    exists (super_name httpGetName httpsGetName scA b), nB'.
    split_and!; [apply super_name_cases|apply super_name_cases|].
    intros n. rewrite P2, P1, filter_app, FBA.
    destruct (HfA sB nB' n HrB) as (-> & _).
    by rewrite <- app_assoc.
Qed.

(** X5. The stream that [connect()] produced, at once or through its
    promise, reaches the request's callback exactly once, and no other
    stream does, whatever [currentSocket] held before the attempt:
    [createSocket] stores the stream and Node's own [createSocket],
    called through [super], takes it at once by [createConnection].
    Nothing is stored afterwards, so a further [createConnection] finds
    no stream. An attempt that produced no stream calls back with
    none. *)
Theorem stream_is_handed_over_once (options : connect_opts)
    (stack : option string) (p : attempt_path) (sc : super_call)
    (a : agent) :
  let a1 := run_attempt httpGetName httpsGetName options stack p sc a in
  callback_sockets (events_since a a1) = stream_of (settlement_of p) ∧
  (∀ s, stream_of (settlement_of p) = [s] → (createConnection a1).1 = None).
Proof.
  intros a1.
  pose proof (reserve_trace options stack a) as Hl.
  destruct (reserve httpGetName httpsGetName options stack a)
    as [[[connectOpts name] fake] a0] eqn:Hr.
  unfold a1. rewrite (run_attempt_shape _ _ options stack p sc a _ _ _ _ Hr).
  destruct (decrementSockets_frame name fake (log EvConnect a0))
    as (_ & _ & _ & Dl & _).
  set (released := log (EvDecrement name fake)
                     (decrementSockets name fake (log EvConnect a0))).
  assert (Hrel : trace released =
            trace a ++ [EvIncrement name fake; EvConnect;
                        EvDecrement name fake]).
  { unfold released; simpl. rewrite Dl; simpl. rewrite Hl.
    by rewrite <- !app_assoc. }
  unfold finish, events_since.
  destruct (settlement_of p) as [[s|ag [err|]|]|err];
    cbn [hand_over log trace stream_of].
  - destruct (super_createSocket_spec httpGetName httpsGetName sc
                (with_currentSocket (Some s) released))
      as (_ & _ & C & _ & _ & _ & rest & L & _ & ->).
    rewrite L. cbn [with_currentSocket trace currentSocket].
    rewrite Hrel, <- app_assoc, drop_app_length.
    split; [done|]. intros ? _. unfold createConnection. by rewrite C.
  - rewrite Hrel, <- !app_assoc, drop_app_length. by split.
  - rewrite Hrel, <- !app_assoc, drop_app_length. by split.
  - destruct (super_createSocket_spec httpGetName httpsGetName sc
                (with_currentSocket None released))
      as (_ & _ & C & _ & _ & _ & rest & L & _ & ->).
    rewrite L. cbn [with_currentSocket trace currentSocket].
    rewrite Hrel, <- app_assoc, drop_app_length.
    by split.
  - rewrite Hrel, <- !app_assoc, drop_app_length. by split.
Qed.
End more.

Lemma sync_throw_leaves_placeholder_behind_witness :
  let r := createSocket localhost_name localhost_name http_request_opts
             app_stack (Throws "ECONNREFUSED") node_call busy_agent in
  r.1 = Threw "ECONNREFUSED" ∧
  totalSocketCount r.2 = totalSocketCount busy_agent + 1 ∧
  (∃ name, pool_view r.2 name
           = pool_view busy_agent name ++ [next_socket busy_agent] ∧
           ∀ n, n ≠ name → pool_view r.2 n = pool_view busy_agent n) ∧
  Forall (λ e, is_decrement e = false) (events_since busy_agent r.2).
Proof.
  apply (sync_throw_leaves_placeholder_behind localhost_name localhost_name
           http_request_opts app_stack "ECONNREFUSED" node_call busy_agent).
  unfold bounded; simpl. intros [H _]. discriminate H.
Defined.

(** The two attempts on a pool that already holds the socket 5: the
    first produces the stream 9, the second fails; afterwards the pool
    holds 5 and 9 and the count is 2. *)
Lemma overlapping_attempts_release_placeholders_witness :
  ∃ pA a1 pB a2,
    createSocket localhost_name localhost_name http_request_opts app_stack
      ReturnsPromise node_call busy_agent = (Awaiting pA, a1) ∧
    createSocket localhost_name localhost_name http_request_opts None
      ReturnsPromise node_call a1 = (Awaiting pB, a2) ∧
    totalSocketCount a2 = totalSocketCount busy_agent + 2 ∧
    ∀ a_first : bool,
      let a3 :=
        settle_both localhost_name localhost_name a_first pA pB
          (Fulfilled (VSocket 9%nat)) (Rejected "ECONNRESET")
          node_call node_call a2 in
      totalSocketCount a3 = 2 ∧
      pool_view a3 "localhost:80:" = [5%nat; 9%nat].
Proof.
  destruct (overlapping_attempts_release_placeholders
              localhost_name localhost_name http_request_opts
              http_request_opts app_stack None node_call node_call
              busy_agent) as (pA & a1 & pB & a2 & HA & HB & HT & Hall).
  - unfold bounded; simpl. by intros [? _].
  - intros name s. unfold pool_view, busy_agent; simpl.
    destruct (decide (name = "localhost:80:")) as [->|Hn].
    + rewrite lookup_singleton_eq. simpl.
      intros ->%list_elem_of_singleton. lia.
    + rewrite lookup_singleton_ne by done. simpl.
      by intros ?%elem_of_nil.
  - exists pA, a1, pB, a2. split_and!; [exact HA|exact HB|exact HT|].
    intros a_first.
    assert (HpAB : p_fakeSocket pA = Some 6%nat
                   ∧ p_fakeSocket pB = Some 7%nat).
    { vm_compute in HA. injection HA as <- <-.
      vm_compute in HB. by injection HB as <- _. }
    destruct HpAB as [HpA HpB].
    destruct (Hall a_first (Fulfilled (VSocket 9%nat))
                (Rejected "ECONNRESET")) as (Ht & nA & nB & HnA & HnB & Hp).
    { rewrite HpA, HpB. by repeat constructor. }
    split; [exact Ht|]. rewrite Hp.
    assert (EA : nA = "localhost:80:") by (by destruct HnA).
    rewrite EA. unfold pushed_under. rewrite decide_True by done.
    destruct a_first; simpl; by destruct (decide _).
Defined.

End AgentBaseMoreFacts.

(** ** More of socks-proxy-agent *)

Section jsmap_more_facts.
Context {V : Type}.
Implicit Types (m : list (string * V)) (k : string) (v : V).

Lemma jsmap_get_delete_eq k m :
  JsMap.wf m → JsMap.get k (JsMap.delete k m) = None.
Proof.
  unfold JsMap.wf, JsMap.keys.
  induction m as [|[k0 v0] rest IH]; csimpl; [done|].
  rewrite NoDup_cons. intros [Hk0 Hnd].
  destruct (decide (k = k0)) as [->|Hne]; simpl.
  - by apply jsmap_get_None_keys.
  - rewrite decide_False by done. by apply IH.
Qed.

Lemma jsmap_elem_get k v m : JsMap.wf m → (k, v) ∈ m → JsMap.get k m = Some v.
Proof.
  unfold JsMap.wf, JsMap.keys.
  induction m as [|[k0 v0] rest IH]; csimpl; [by intros _ ?%elem_of_nil|].
  rewrite NoDup_cons. intros [Hk0 Hnd] [Heq|Hin]%elem_of_cons.
  - injection Heq as -> ->. by rewrite decide_True.
  - destruct (decide (k = k0)) as [->|Hne]; [|by apply IH].
    destruct Hk0. apply list_elem_of_fmap. by exists (k0, v).
Qed.

Lemma jsmap_set_same k v m : JsMap.get k m = Some v → JsMap.set k v m = m.
Proof.
  induction m as [|[k0 v0] rest IH]; simpl; [done|].
  destruct (decide (k = k0)) as [->|Hne].
  - by intros [= ->].
  - intros Hg. by rewrite IH.
Qed.

Lemma jsmap_get_filter_wf (P : string * V → Prop) `{∀ kv, Decision (P kv)}
    k m :
  JsMap.wf m →
  JsMap.get k (filter P m) =
  match JsMap.get k m with
  | Some v => if decide (P (k, v)) then Some v else None
  | None => None
  end.
Proof.
  unfold JsMap.wf, JsMap.keys.
  induction m as [|[k0 v0] rest IH]; csimpl; [done|].
  rewrite NoDup_cons. intros [Hk0 Hnd]. rewrite filter_cons.
  destruct (decide (k = k0)) as [->|Hne].
  - destruct (decide (P (k0, v0))); simpl.
    + by rewrite decide_True.
    + rewrite IH by done.
      by apply jsmap_get_None_keys in Hk0 as ->.
  - destruct (decide (P (k0, v0))); simpl.
    + rewrite decide_False by done. by apply IH.
    + by apply IH.
Qed.
End jsmap_more_facts.

Module SocksMoreFacts.
Import Socks SocksRuns SocksSweep SocksStatics SocksCacheRuns Examples.

Section parsing.
Variable decodeURIComponent : string → option string.

(** X7. [parseSocksURL] accepts exactly the URLs whose scheme is listed
    in [SocksProxyAgent.protocols] and whose credentials decode. For an
    accepted URL the proxy keeps the URL's hostname, its port is never 0
    (a port that is missing or 0 becomes 1080, any other port is kept),
    its type is 4 or 5, a password is always present (the decoded
    password of the URL, empty or not), and a user id is present exactly
    when the URL has a user name. A URL is refused with the [TypeError]
    when its scheme is not listed, and with a [URIError] when the scheme
    is listed and the user name or the password holds a malformed
    percent escape. *)
Theorem parse_accepts_exactly_the_protocols (url : URL) :
  match parseSocksURL decodeURIComponent url with
  | inr (lookup, p) =>
      remove_first_colon (url_protocol url) ∈ protocols ∧
      credentials_decode decodeURIComponent url ∧
      proxy_host p = url_hostname url ∧
      proxy_port p ≠ 0 ∧
      proxy_port p = match url_port url with
                     | Some 0 | None => 1080
                     | Some n => n
                     end ∧
      proxy_type p ∈ [4; 5] ∧
      is_Some (password p) ∧
      password p = decodeURIComponent (url_password url) ∧
      userId p = (if decide (url_username url = EmptyString) then None
                  else decodeURIComponent (url_username url)) ∧
      (is_Some (userId p) ↔ url_username url ≠ EmptyString)
  | inl err =>
      ((remove_first_colon (url_protocol url) ∉ protocols) ∧
       err = "A " +:+ dquote +:+ "socks" +:+ dquote
             +:+ " protocol must be specified! Got: " +:+ url_protocol url) ∨
      (remove_first_colon (url_protocol url) ∈ protocols ∧
       ¬ credentials_decode decodeURIComponent url ∧
       err = URIError)
  end.
Proof.
  set (scheme := remove_first_colon (url_protocol url)).
  assert (Hport : port_or_default (url_port url) ≠ 0 ∧
                  port_or_default (url_port url)
                  = match url_port url with
                    | Some 0 | None => 1080
                    | Some n => n
                    end).
  { unfold port_or_default. destruct (url_port url) as [n|]; [|done].
    destruct (decide (n = 0)) as [->|Hn]; [done|]. split; [done|].
    by destruct n. }
  destruct Hport as [Hp0 Hp].
  destruct (scheme_switch scheme) as [[lookup ty]|] eqn:Hs.
  - assert (Hin : scheme ∈ protocols ∧ ty ∈ [4; 5]).
    { unfold scheme_switch, protocols in *.
      repeat match type of Hs with
             | context [decide (scheme = ?x)] =>
                 destruct (decide (scheme = x)) as [->|?]
             end; simplify_eq; split; by repeat constructor. }
    destruct Hin as [Hin Hty].
    destruct (SocksFacts.parse_accepted_scheme decodeURIComponent url
                lookup ty Hs) as [[Hn ->]|[Hc (u & pw & -> & Hpw & Hu)]].
    + right. by split_and!.
    + cbn [proxy_host proxy_port proxy_type password userId].
      split_and!; [done|done|done|done|done|done|by eexists
                  |by rewrite Hpw|done|].
      subst u. destruct Hc as [Hc _].
      destruct (decide (url_username url = EmptyString)) as [He|Hne].
      * split; [by intros [x Hx]|done].
      * split; [done|]. intros _. by apply Hc.
  - unfold parseSocksURL. fold scheme. rewrite Hs. left. split; [|done].
    unfold scheme_switch, protocols in *.
    repeat match type of Hs with
           | context [decide (scheme = ?x)] =>
               destruct (decide (scheme = x)) as [->|?]
           end; try done.
    rewrite !not_elem_of_cons. split_and!; try done. apply not_elem_of_nil.
Qed.

(** X8. The agent pool is keyed by host, port and type of the proxy
    only. Two proxy URLs that agree on these get one agent from
    [getAgent] (pooling not switched off): the second call returns the
    agent of the first and leaves the pool as it is. When the pool had
    no agent for the endpoint, that agent is the one built from the
    first URL: it carries the first URL's credentials and resolution
    mode, and the options of the first call. *)
Theorem getAgent_shares_agent_of_endpoint (url1 url2 : URL)
    (opts1 opts2 : option SocksProxyAgentOptions)
    (agentPool : JsMap.t SocksProxyAgent)
    (lookup1 lookup2 : bool) (p1 p2 : SocksProxy) :
  parseSocksURL decodeURIComponent url1 = inr (lookup1, p1) →
  parseSocksURL decodeURIComponent url2 = inr (lookup2, p2) →
  proxy_host p1 = proxy_host p2 →
  proxy_port p1 = proxy_port p2 →
  proxy_type p1 = proxy_type p2 →
  not_false (opts1 ≫= opt_enablePooling) = true →
  not_false (opts2 ≫= opt_enablePooling) = true →
  ∃ agent pool',
    getAgent decodeURIComponent url1 opts1 agentPool = (inr agent, pool') ∧
    getAgent decodeURIComponent url2 opts2 pool' = (inr agent, pool') ∧
    (JsMap.get (pool_key p1) agentPool = None →
     proxy agent = p1 ∧ shouldLookup agent = lookup1 ∧
     timeout agent = opts1 ≫= opt_timeout ∧
     enableSocketCache agent = is_true (opts1 ≫= opt_enableSocketCache)).
Proof.
  intros H1 H2 Hh Hp Ht Ho1 Ho2.
  assert (Hkey : pool_key p2 = pool_key p1).
  { unfold pool_key. by rewrite Hh, Hp, Ht. }
  unfold getAgent, new_agent. rewrite H1, H2, Ho1, Ho2, Hkey.
  destruct (JsMap.get (pool_key p1) agentPool) as [agent|] eqn:Hg.
  - exists agent, agentPool. rewrite Hg. by split_and!.
  - eexists _, _. split; [reflexivity|].
    rewrite jsmap_get_set, decide_True by done. by split_and!.
Qed.
End parsing.

Lemma getAgent_shares_agent_of_endpoint_witness :
  ∃ agent pool',
    getAgent example_decodeURIComponent alice_url None []
      = (inr agent, pool') ∧
    getAgent example_decodeURIComponent bob_url
      (Some (AgentOptions (Some 5000) None None (Some true) None)) pool'
      = (inr agent, pool') ∧
    (JsMap.get "proxy.local:1080:5" ([] : JsMap.t SocksProxyAgent) = None →
     proxy agent = Proxy "proxy.local" 1080 5 (Some "alice") (Some "secret") ∧
     shouldLookup agent = true ∧
     timeout agent = None ∧
     enableSocketCache agent = false).
Proof.
  apply (getAgent_shares_agent_of_endpoint example_decodeURIComponent
           alice_url bob_url
           None (Some (AgentOptions (Some 5000) None None (Some true) None))
           [] true false
           (Proxy "proxy.local" 1080 5 (Some "alice") (Some "secret"))
           (Proxy "proxy.local" 1080 5 (Some "bob") (Some "other")));
    reflexivity.
Defined.

(** *** The socket cache *)

Lemma take_available_spec (now : Z) (dead : gset socket)
    (entries : list SocketCacheEntry) :
  match take_available now dead entries with
  | Some (s, entries') =>
      ∃ l1 e l2,
        entries = l1 ++ e :: l2 ∧
        Forall (λ x, ¬ available dead x) l1 ∧
        available dead e ∧ entry_socket e = s ∧
        entries' = l1 ++ SocketEntry s now true :: l2
  | None => Forall (λ x, ¬ available dead x) entries
  end.
Proof.
  induction entries as [|e rest IH]; simpl; [done|].
  destruct (negb (inUse e) && bool_decide (entry_socket e ∉ dead)) eqn:Ha.
  - apply andb_true_iff in Ha as [Hi Hd%bool_decide_eq_true].
    exists [], e, rest. split_and!; try done.
    split; [by destruct (inUse e)|done].
  - assert (Hna : ¬ available dead e).
    { intros [Hi Hd]. rewrite Hi in Ha. simpl in Ha.
      by apply bool_decide_eq_false in Ha. }
    destruct (take_available now dead rest) as [[s rest']|].
    + destruct IH as (l1 & e' & l2 & -> & Hall & Hav & Hs & ->).
      exists (e :: l1), e', l2. split_and!; try done.
      by apply Forall_cons.
    + by apply Forall_cons.
Qed.

Lemma release_entry_middle (now : Z) (s : socket)
    (l1 l2 : list SocketCacheEntry) (e : SocketCacheEntry) :
  s ∉ entry_socket <$> l1 → entry_socket e = s →
  release_entry now s (l1 ++ e :: l2) = l1 ++ SocketEntry s now false :: l2.
Proof.
  intros Hl1 He. induction l1 as [|x l1 IH]; csimpl in *.
  - by rewrite decide_True, He.
  - apply not_elem_of_cons in Hl1 as [Hx Hl1].
    rewrite decide_False by done. by rewrite IH.
Qed.

Lemma release_entry_absent (now : Z) (s : socket)
    (entries : list SocketCacheEntry) :
  s ∉ entry_socket <$> entries → release_entry now s entries = entries.
Proof.
  induction entries as [|x l IH]; csimpl; [done|].
  intros [Hx Hl]%not_elem_of_cons.
  rewrite decide_False by done. by rewrite IH.
Qed.

Lemma take_available_first (now : Z) (dead : gset socket)
    (l1 l2 : list SocketCacheEntry) (e : SocketCacheEntry) :
  Forall (λ x, ¬ available dead x) l1 → available dead e →
  take_available now dead (l1 ++ e :: l2)
    = Some (entry_socket e, l1 ++ SocketEntry (entry_socket e) now true :: l2).
Proof.
  intros Hall [Hi Hd]. induction l1 as [|x l1 IH]; simpl.
  - by rewrite Hi, bool_decide_eq_true_2.
  - apply Forall_cons in Hall as [Hx Hall].
    destruct (negb (inUse x) && bool_decide (entry_socket x ∉ dead)) eqn:Ha.
    + apply andb_true_iff in Ha as [Hxi Hxd%bool_decide_eq_true].
      destruct Hx. split; [by destruct (inUse x)|done].
    + by rewrite IH.
Qed.

(** X9. A socket that [getCachedSocket] hands out was cached under the
    key, idle and not destroyed; its entry is now marked as in use and
    stamped with the time of the call, nothing is destroyed and no other
    key changes. With the sockets under the key distinct, the same
    socket is not handed out again while it is in use, and it is handed
    out again once [releaseSocket] gave it back. *)
Theorem cached_socket_is_lent_once (key : string) (now : Z) (w w' : world)
    (s : socket) :
  getCachedSocket key now w = (Some s, w') →
  NoDup (entry_socket <$> entries_of key w) →
  (∃ e, e ∈ entries_of key w ∧ entry_socket e = s ∧ available (destroyed w) e) ∧
  SocketEntry s now true ∈ entries_of key w' ∧
  destroyed w' = destroyed w ∧
  (∀ k, k ≠ key →
        JsMap.get k (socketCache w') = JsMap.get k (socketCache w)) ∧
  (∀ now2, (getCachedSocket key now2 w').1 ≠ Some s) ∧
  (∀ now2 now3,
     (getCachedSocket key now3 (releaseSocket key s now2 w')).1 = Some s).
Proof.
  unfold getCachedSocket, releaseSocket, entries_of.
  destruct (JsMap.get key (socketCache w)) as [entries|] eqn:Hg; [|done].
  pose proof (take_available_spec now (destroyed w) entries) as Hspec.
  destruct (take_available now (destroyed w) entries) as [[s0 entries']|];
    [|done].
  destruct Hspec as (l1 & e & l2 & -> & Hall & Hav & Hs & ->).
  intros [= -> <-] Hnd. simpl in *. subst s.
  rewrite fmap_app, fmap_cons in Hnd.
  apply NoDup_app in Hnd as (Hnd1 & Hdisj & Hnd2).
  apply NoDup_cons in Hnd2 as [Hs2 Hnd2].
  assert (Hs1 : entry_socket e ∉ entry_socket <$> l1).
  { intros Hin. apply (Hdisj _ Hin). apply elem_of_cons. by left. }
  rewrite !jsmap_get_set, !decide_True by done. simpl.
  split_and!.
  - exists e. split_and!; [|done|done].
    apply elem_of_app. right. apply elem_of_cons. by left.
  - apply elem_of_app. right. apply elem_of_cons. by left.
  - done.
  - intros k Hk. rewrite jsmap_get_set. by rewrite decide_False.
  - intros now2.
    pose proof (take_available_spec now2 (destroyed w)
                  (l1 ++ SocketEntry (entry_socket e) now true :: l2)) as H2.
    destruct (take_available now2 (destroyed w)
                (l1 ++ SocketEntry (entry_socket e) now true :: l2))
      as [[s2 entries2]|]; [|by simpl].
    simpl. intros [= ->].
    destruct H2 as (m1 & e2 & m2 & Heq & _ & [Hi2 _] & Hs2' & _).
    assert (Hin : e2 ∈ l1 ++ SocketEntry (entry_socket e) now true :: l2).
    { rewrite Heq. apply elem_of_app. right. apply elem_of_cons. by left. }
    apply elem_of_app in Hin as [Hin|Hin].
    + apply Hs1. rewrite <- Hs2'. apply list_elem_of_fmap. by exists e2.
    + apply elem_of_cons in Hin as [->|Hin]; [done|].
      apply Hs2. rewrite <- Hs2'. apply list_elem_of_fmap. by exists e2.
  - intros now2 now3.
    rewrite !jsmap_get_set, !decide_True by done.
    rewrite release_entry_middle by done.
    rewrite (take_available_first now3 (destroyed w) l1 l2
               (SocketEntry (entry_socket e) now2 false)); [done|done|].
    split; [done|]. apply Hav.
Qed.

Lemma cached_socket_is_lent_once_witness :
  (∃ e, e ∈ entries_of "proxy.local:1080:example.com:80" warm_world
        ∧ entry_socket e = 4%nat ∧ available (destroyed warm_world) e) ∧
  SocketEntry 4%nat 2500 true
    ∈ entries_of "proxy.local:1080:example.com:80"
        (getCachedSocket "proxy.local:1080:example.com:80" 2500
           warm_world).2 ∧
  destroyed
    (getCachedSocket "proxy.local:1080:example.com:80" 2500 warm_world).2
    = destroyed warm_world ∧
  (∀ k, k ≠ "proxy.local:1080:example.com:80" →
        JsMap.get k (socketCache
          (getCachedSocket "proxy.local:1080:example.com:80" 2500
             warm_world).2)
        = JsMap.get k (socketCache warm_world)) ∧
  (∀ now2,
     (getCachedSocket "proxy.local:1080:example.com:80" now2
        (getCachedSocket "proxy.local:1080:example.com:80" 2500
           warm_world).2).1 ≠ Some 4%nat) ∧
  (∀ now2 now3,
     (getCachedSocket "proxy.local:1080:example.com:80" now3
        (releaseSocket "proxy.local:1080:example.com:80" 4%nat now2
           (getCachedSocket "proxy.local:1080:example.com:80" 2500
              warm_world).2)).1 = Some 4%nat).
Proof.
  apply (cached_socket_is_lent_once "proxy.local:1080:example.com:80" 2500
           warm_world _ 4%nat).
  - reflexivity.
  - unfold entries_of; simpl. apply (bool_decide_unpack _). reflexivity.
Defined.

(** X10. [cacheSocket] on a key that is full drops the oldest entry
    and appends the new socket. The socket of the dropped entry is
    destroyed only when it was idle: one that is in use stays open, and
    as it is no longer in the cache (its socket being in no other
    entry), releasing it afterwards changes nothing. *)
Theorem full_cache_drops_oldest (key : string) (s : socket) (now : Z)
    (w : world) (oldest : SocketCacheEntry) (rest : list SocketCacheEntry) :
  entries_of key w = oldest :: rest →
  MAX_SOCKETS_PER_HOST ≤ Z.of_nat (length (oldest :: rest)) →
  let w' := cacheSocket key s now w in
  entries_of key w' = rest ++ [SocketEntry s now false] ∧
  destroyed w' = (if inUse oldest then destroyed w
                  else {[ entry_socket oldest ]} ∪ destroyed w) ∧
  (entry_socket oldest ∉ entry_socket <$> rest →
   entry_socket oldest ≠ s →
   ∀ now', releaseSocket key (entry_socket oldest) now' w' = w').
Proof.
  intros He Hfull w'. unfold entries_of in *.
  assert (Hw' : w' = with_socketCache
                  (JsMap.set key (rest ++ [SocketEntry s now false])
                     (socketCache w))
                  (if inUse oldest then w
                   else destroy_socket (entry_socket oldest) w)).
  { unfold w', cacheSocket. rewrite He.
    rewrite decide_True by done. by destruct (inUse oldest). }
  clearbody w'. subst w'. split_and!.
  - destruct (inUse oldest); simpl; by rewrite jsmap_get_set, decide_True.
  - by destruct (inUse oldest).
  - intros Hrest Hs now'. unfold releaseSocket.
    assert (Hget : JsMap.get key
              (socketCache
                 (with_socketCache
                    (JsMap.set key (rest ++ [SocketEntry s now false])
                       (socketCache w))
                    (if inUse oldest then w
                     else destroy_socket (entry_socket oldest) w)))
              = Some (rest ++ [SocketEntry s now false])).
    { destruct (inUse oldest); simpl; by rewrite jsmap_get_set, decide_True. }
    rewrite Hget. rewrite release_entry_absent.
    + rewrite jsmap_set_same by done. by destruct (inUse oldest).
    + rewrite fmap_app. apply not_elem_of_app. split; [done|].
      csimpl. by rewrite list_elem_of_singleton.
Qed.

Lemma full_cache_drops_oldest_witness :
  let w' := cacheSocket "proxy.local:1080:example.com:80" 10%nat 5000
              full_world in
  entries_of "proxy.local:1080:example.com:80" w'
    = ((λ n, SocketEntry n 0 false) <$> seq 1 9)
        ++ [SocketEntry 10%nat 5000 false] ∧
  destroyed w' = (if inUse (SocketEntry 0%nat 0 true)
                  then destroyed full_world
                  else {[ entry_socket (SocketEntry 0%nat 0 true) ]}
                         ∪ destroyed full_world) ∧
  (entry_socket (SocketEntry 0%nat 0 true)
     ∉ entry_socket <$> ((λ n, SocketEntry n 0 false) <$> seq 1 9) →
   entry_socket (SocketEntry 0%nat 0 true) ≠ 10%nat →
   ∀ now', releaseSocket "proxy.local:1080:example.com:80"
             (entry_socket (SocketEntry 0%nat 0 true)) now' w' = w').
Proof.
  apply (full_cache_drops_oldest "proxy.local:1080:example.com:80" 10%nat
           5000 full_world (SocketEntry 0%nat 0 true)
           ((λ n, SocketEntry n 0 false) <$> seq 1 9)).
  - reflexivity.
  - vm_compute. discriminate.
Defined.

(** *** The timers *)

(** X11. [cleanDNSCache] removes exactly the entries older than the
    time to live, and [connect] cannot tell whether it ran: at any later
    instant the DNS stage gives the same host (or error) and makes the
    same resolver calls with or without the sweep, since what the sweep
    removes is stale for [connect] as well. *)
Theorem dns_sweep_is_invisible_to_connect (agent : SocksProxyAgent)
    (opts : connect_opts) (lookupFn : resolver) (t now now_cb : Z)
    (w : world) :
  JsMap.wf (dnsCache w) → t ≤ now →
  (∀ h, JsMap.get h (dnsCache (cleanDNSCache t w)) =
        match JsMap.get h (dnsCache w) with
        | Some e => if decide (t - timestamp e > DNS_CACHE_TTL) then None
                    else Some e
        | None => None
        end) ∧
  (resolve_host agent opts lookupFn now now_cb (cleanDNSCache t w)).1
    = (resolve_host agent opts lookupFn now now_cb w).1 ∧
  lookups (resolve_host agent opts lookupFn now now_cb (cleanDNSCache t w)).2
    = lookups (resolve_host agent opts lookupFn now now_cb w).2.
Proof.
  intros Hwf Ht.
  assert (Hget : ∀ h, JsMap.get h (dnsCache (cleanDNSCache t w)) =
            match JsMap.get h (dnsCache w) with
            | Some e => if decide (t - timestamp e > DNS_CACHE_TTL) then None
                        else Some e
            | None => None
            end).
  { intros h. unfold cleanDNSCache; simpl.
    etrans; [by apply jsmap_get_filter_wf|].
    destruct (JsMap.get h (dnsCache w)) as [e|]; [|done]. simpl.
    destruct (decide (t - timestamp e > DNS_CACHE_TTL)).
    - by rewrite decide_False by (intros H; by apply H).
    - by rewrite decide_True. }
  split; [exact Hget|].
  unfold resolve_host.
  destruct (shouldLookup agent); [|done].
  destruct (enableDNSCache agent); [|done].
  rewrite Hget.
  destruct (JsMap.get (host opts) (dnsCache w)) as [e|]; simpl.
  - destruct (decide (t - timestamp e > DNS_CACHE_TTL)) as [Hold|Hfresh].
    + rewrite decide_False by lia.
      by destruct (lookupFn (host opts)).
    + destruct (decide (now - timestamp e < DNS_CACHE_TTL)); [done|].
      by destruct (lookupFn (host opts)).
  - by destruct (lookupFn (host opts)).
Qed.

(** The boundary: an entry aged exactly the time to live outlives the
    sweep, and is a miss for [connect]. *)
Lemma dns_sweep_is_invisible_to_connect_witness :
  (∀ h, JsMap.get h (dnsCache (cleanDNSCache 301000 warm_world)) =
        match JsMap.get h (dnsCache warm_world) with
        | Some e => if decide (301000 - timestamp e > DNS_CACHE_TTL)
                    then None else Some e
        | None => None
        end) ∧
  (resolve_host socks5_agent example_request example_resolver 301000 301001
     (cleanDNSCache 301000 warm_world)).1
    = (resolve_host socks5_agent example_request example_resolver 301000
         301001 warm_world).1 ∧
  lookups (resolve_host socks5_agent example_request example_resolver 301000
             301001 (cleanDNSCache 301000 warm_world)).2
    = lookups (resolve_host socks5_agent example_request example_resolver
                 301000 301001 warm_world).2.
Proof.
  apply (dns_sweep_is_invisible_to_connect socks5_agent example_request
           example_resolver 301000 301000 301001 warm_world).
  - unfold JsMap.wf; simpl. apply (bool_decide_unpack _). reflexivity.
  - lia.
Defined.

Lemma sweep_entries_spec (now : Z) (entries : list SocketCacheEntry)
    (w : world) :
  (sweep_entries now entries w).1 = survivors now entries ∧
  dnsCache (sweep_entries now entries w).2 = dnsCache w ∧
  socketCache (sweep_entries now entries w).2 = socketCache w ∧
  lookups (sweep_entries now entries w).2 = lookups w ∧
  ∀ s, s ∈ destroyed (sweep_entries now entries w).2 ↔
       s ∈ destroyed w ∨
       ∃ e, e ∈ entries ∧ idle_expired now e ∧ entry_socket e = s.
Proof.
  revert w. induction entries as [|e rest IH]; intros w; simpl.
  - split_and!; try done. intros s. split; [by left|].
    intros [?|(e & Hin & _)]; [done|]. by apply elem_of_nil in Hin.
  - unfold survivors. rewrite filter_cons. fold (survivors now rest).
    destruct (negb (inUse e)
              && bool_decide (now - lastUsed e > SOCKET_IDLE_TIMEOUT)) eqn:Hx.
    + apply andb_true_iff in Hx as [Hi Hd%bool_decide_eq_true].
      assert (Hexp : idle_expired now e).
      { split; [by destruct (inUse e)|done]. }
      rewrite decide_False by (intros H; by apply H).
      destruct (IH (destroy_socket (entry_socket e) w))
        as (-> & -> & -> & -> & Hdes).
      split_and!; try done. intros s. rewrite Hdes. simpl.
      rewrite elem_of_union, elem_of_singleton. split.
      * intros [[->|?]|(e' & Hin & Hexp' & Hs)].
        -- right. exists e. split_and!; [|done|done].
           apply elem_of_cons. by left.
        -- by left.
        -- right. exists e'. split_and!; [|done|done].
           apply elem_of_cons. by right.
      * intros [?|(e' & [->|Hin]%elem_of_cons & Hexp' & Hs)].
        -- left. by right.
        -- left. by left.
        -- right. by exists e'.
    + assert (Hnexp : ¬ idle_expired now e).
      { intros [Hi Hd]. rewrite Hi in Hx. simpl in Hx.
        by apply bool_decide_eq_false in Hx. }
      rewrite decide_True by done.
      specialize (IH w). destruct (sweep_entries now rest w) as [kept w1].
      simpl in *. destruct IH as (-> & -> & -> & -> & Hdes).
      split_and!; try done. intros s. rewrite Hdes. split.
      * intros [?|(e' & Hin & Hexp' & Hs)]; [by left|].
        right. exists e'. split_and!; [|done|done].
        apply elem_of_cons. by right.
      * intros [?|(e' & [->|Hin]%elem_of_cons & Hexp' & Hs)];
          [by left|done|].
        right. by exists e'.
Qed.

Lemma sweep_fold (now : Z) (snap : list (string * list SocketCacheEntry))
    (w : world) :
  NoDup snap.*1 → JsMap.wf (socketCache w) →
  let w' :=
    fold_left
      (λ w kv,
         let '(filtered, w) := sweep_entries now kv.2 w in
         match filtered with
         | [] => with_socketCache (JsMap.delete kv.1 (socketCache w)) w
         | _ => with_socketCache (JsMap.set kv.1 filtered (socketCache w)) w
         end) snap w in
  (∀ key, JsMap.get key (socketCache w') =
          match JsMap.get key snap with
          | Some entries =>
              match survivors now entries with
              | [] => None
              | kept => Some kept
              end
          | None => JsMap.get key (socketCache w)
          end) ∧
  (∀ s, s ∈ destroyed w' ↔
        s ∈ destroyed w ∨
        ∃ key entries e, (key, entries) ∈ snap ∧ e ∈ entries ∧
                         idle_expired now e ∧ entry_socket e = s) ∧
  dnsCache w' = dnsCache w ∧ lookups w' = lookups w.
Proof.
  revert w. induction snap as [|[k0 es] snap IH]; intros w Hnd Hwf; simpl.
  - split_and!; try done. intros s. split; [by left|].
    intros [?|(k & entries & e & Hin & _)]; [done|].
    by apply elem_of_nil in Hin.
  - csimpl in Hnd. apply NoDup_cons in Hnd as [Hk0 Hnd].
    destruct (sweep_entries_spec now es w) as (Hkept & Hdns & Hsc & Hlk & Hdes).
    destruct (sweep_entries now es w) as [kept w1]. simpl in *. subst kept.
    set (w2 := match survivors now es with
               | [] => with_socketCache (JsMap.delete k0 (socketCache w1)) w1
               | _ :: _ =>
                   with_socketCache
                     (JsMap.set k0 (survivors now es) (socketCache w1)) w1
               end).
    assert (Hw2 : (∀ key, JsMap.get key (socketCache w2) =
                     if decide (key = k0)
                     then match survivors now es with
                          | [] => None
                          | kept => Some kept
                          end
                     else JsMap.get key (socketCache w)) ∧
                  JsMap.wf (socketCache w2) ∧
                  destroyed w2 = destroyed w1 ∧
                  dnsCache w2 = dnsCache w ∧ lookups w2 = lookups w).
    { unfold w2. destruct (survivors now es) as [|x kept] eqn:Hsv; simpl.
      - rewrite Hsc. split_and!; try done.
        + intros key. destruct (decide (key = k0)) as [->|Hne].
          * by apply jsmap_get_delete_eq.
          * by apply jsmap_get_delete_ne.
        + by apply jsmap_wf_delete.
      - rewrite Hsc. split_and!; try done.
        + intros key. by rewrite jsmap_get_set.
        + by apply jsmap_wf_set. }
    destruct Hw2 as (Hg2 & Hwf2 & Hd2 & Hdns2 & Hlk2).
    destruct (IH w2 Hnd Hwf2) as (Hg & Hd & Hdn & Hl).
    split_and!.
    + intros key. rewrite Hg, Hg2.
      destruct (decide (key = k0)) as [->|Hne]; [|done].
      by apply jsmap_get_None_keys in Hk0 as ->.
    + intros s. rewrite Hd, Hd2, Hdes. split.
      * intros [[?|(e & Hin & Hexp & Hs)]|(k & entries & e & Hin & Hr)].
        -- by left.
        -- right. exists k0, es, e. split_and!; try done.
           apply elem_of_cons. by left.
        -- right. exists k, entries, e. split; [|done].
           apply elem_of_cons. by right.
      * intros [?|(k & entries & e & [Heq|Hin]%elem_of_cons & Hr)].
        -- left. by left.
        -- injection Heq as -> ->. left. right. by exists e.
        -- right. by exists k, entries, e.
    + by rewrite Hdn.
    + by rewrite Hl.
Qed.

(** X12. [cleanSocketCache] keeps, under every key, the entries that
    are in use or were used within the idle timeout, in their order; a
    key with nothing left is deleted, so the sweep leaves no empty list
    behind. It destroys the sockets of the entries it removes and no
    others, and touches neither the DNS cache nor the resolver. *)
Theorem socket_sweep_removes_idle_expired (now : Z) (w : world) :
  JsMap.wf (socketCache w) →
  let w' := cleanSocketCache now w in
  (∀ key, JsMap.get key (socketCache w') =
          match JsMap.get key (socketCache w) with
          | Some entries =>
              match survivors now entries with
              | [] => None
              | kept => Some kept
              end
          | None => None
          end) ∧
  (∀ s, s ∈ destroyed w' ↔
        s ∈ destroyed w ∨
        ∃ key entries e,
          JsMap.get key (socketCache w) = Some entries ∧ e ∈ entries ∧
          idle_expired now e ∧ entry_socket e = s) ∧
  dnsCache w' = dnsCache w ∧ lookups w' = lookups w.
Proof.
  intros Hwf w'.
  destruct (sweep_fold now (socketCache w) w Hwf Hwf) as (Hg & Hd & Hdn & Hl).
  fold (cleanSocketCache now w) in Hg, Hd, Hdn, Hl. fold w' in Hg, Hd, Hdn, Hl.
  split_and!; [|clear Hg|done|done].
  - intros key. rewrite Hg.
    by destruct (JsMap.get key (socketCache w)).
  - intros s. rewrite Hd. split.
    + intros [?|(k & entries & e & Hin & Hr)]; [by left|].
      right. exists k, entries, e. split; [|done].
      by apply jsmap_elem_get.
    + intros [?|(k & entries & e & Hin & Hr)]; [by left|].
      right. exists k, entries, e. split; [|done].
      by apply jsmap_get_Some_elem.
Qed.

(** At time 40000 the idle socket of [warm_world], last used at 2000,
    has expired; the socket in use stays. *)
Lemma socket_sweep_removes_idle_expired_witness :
  let w' := cleanSocketCache 40000 warm_world in
  (∀ key, JsMap.get key (socketCache w') =
          match JsMap.get key (socketCache warm_world) with
          | Some entries =>
              match survivors 40000 entries with
              | [] => None
              | kept => Some kept
              end
          | None => None
          end) ∧
  (∀ s, s ∈ destroyed w' ↔
        s ∈ destroyed warm_world ∨
        ∃ key entries e,
          JsMap.get key (socketCache warm_world) = Some entries ∧
          e ∈ entries ∧ idle_expired 40000 e ∧ entry_socket e = s) ∧
  dnsCache w' = dnsCache warm_world ∧ lookups w' = lookups warm_world.
Proof.
  apply (socket_sweep_removes_idle_expired 40000 warm_world).
  unfold JsMap.wf; simpl. apply (bool_decide_unpack _). reflexivity.
Defined.

Lemma resolve_host_sockets (agent : SocksProxyAgent) (opts : connect_opts)
    (lookupFn : resolver) (now now_cb : Z) (w : world) :
  socketCache (resolve_host agent opts lookupFn now now_cb w).2
    = socketCache w ∧
  destroyed (resolve_host agent opts lookupFn now now_cb w).2 = destroyed w.
Proof.
  unfold resolve_host.
  destruct (shouldLookup agent); [|done].
  destruct (enableDNSCache agent); [|done].
  destruct (JsMap.get (host opts) (dnsCache w)) as [e|].
  - destruct (decide (now - timestamp e < DNS_CACHE_TTL)); [done|].
    by destruct (lookupFn (host opts)).
  - by destruct (lookupFn (host opts)).
Qed.

(** X13. Socket reuse is opt-in and safe: when [connect] serves a
    cached socket instead of starting a SOCKS handshake, the agent was
    built with [enableSocketCache: true], the socket was cached for this
    proxy and the destination that the DNS stage produced, idle and not
    destroyed, and is marked as in use afterwards; TLS is wrapped around
    it exactly for a secure endpoint. *)
Theorem connect_reuses_only_idle_live_sockets (agent : SocksProxyAgent)
    (opts : connect_opts) (lookupFn : resolver) (now now_cb : Z)
    (w w' : world) (s : socket) (tls : bool) :
  connect agent opts lookupFn now now_cb w = (Reuse s tls, w') →
  enableSocketCache agent = true ∧
  tls = secureEndpoint opts ∧
  ∃ h e,
    (resolve_host agent opts lookupFn now now_cb w).1 = inr h ∧
    let key := proxy_host (proxy agent) +:+ ":"
                 +:+ pretty (proxy_port (proxy agent)) +:+ ":" +:+ h +:+ ":"
                 +:+ pretty (port opts) in
    e ∈ entries_of key w ∧ entry_socket e = s ∧
    available (destroyed w) e ∧
    SocketEntry s now_cb true ∈ entries_of key w' ∧
    destroyed w' = destroyed w.
Proof.
  unfold connect.
  destruct (negb (truthy (JString (host opts)))); [done|].
  pose proof (resolve_host_sockets agent opts lookupFn now now_cb w)
    as [Hsc Hde].
  destruct (resolve_host agent opts lookupFn now now_cb w) as [[err|h] w1];
    [done|].
  simpl in Hsc, Hde.
  destruct (enableSocketCache agent); [|done].
  set (key := proxy_host (proxy agent) +:+ ":"
                +:+ pretty (proxy_port (proxy agent)) +:+ ":" +:+ h +:+ ":"
                +:+ pretty (port opts)).
  unfold getCachedSocket.
  destruct (JsMap.get key (socketCache w1)) as [entries|] eqn:Hg; [|done].
  pose proof (take_available_spec now_cb (destroyed w1) entries) as Hspec.
  destruct (take_available now_cb (destroyed w1) entries)
    as [[s0 entries']|]; [|done].
  destruct Hspec as (l1 & e & l2 & -> & Hall & Hav & Hs & ->).
  simpl. destruct (bool_decide (s0 ∉ destroyed w1)); [|done].
  intros [= -> <- <-]. split_and!; [done|done|].
  exists h, e. split; [done|]. fold key. unfold entries_of.
  cbn [socketCache with_socketCache destroyed].
  rewrite <- Hsc, Hg, jsmap_get_set, decide_True by done.
  cbn [default from_option id]. rewrite <- Hde. split_and!; try done.
  - apply elem_of_app. right. apply elem_of_cons. by left.
  - apply elem_of_app. right. apply elem_of_cons. by left.
Qed.

Lemma connect_reuses_only_idle_live_sockets_witness :
  enableSocketCache caching_agent = true ∧
  false = secureEndpoint example_request ∧
  ∃ h e,
    (resolve_host caching_agent example_request example_resolver 2400 2500
       warm_world).1 = inr h ∧
    let key := proxy_host (proxy caching_agent) +:+ ":"
                 +:+ pretty (proxy_port (proxy caching_agent)) +:+ ":"
                 +:+ h +:+ ":" +:+ pretty (port example_request) in
    e ∈ entries_of key warm_world ∧ entry_socket e = 4%nat ∧
    available (destroyed warm_world) e ∧
    SocketEntry 4%nat 2500 true
      ∈ entries_of key
          (connect caching_agent example_request example_resolver 2400 2500
             warm_world).2 ∧
    destroyed (connect caching_agent example_request example_resolver 2400
                 2500 warm_world).2 = destroyed warm_world.
Proof.
  apply (connect_reuses_only_idle_live_sockets caching_agent example_request
           example_resolver 2400 2500 warm_world _ 4%nat false).
  reflexivity.
Defined.

End SocksMoreFacts.

(** ** More of proxy-agent *)

Module DispatcherMoreFacts.
Import Dispatcher DispatcherRuns DispatcherInvariants Examples.

Lemma jsmap_delete_perm {V : Type} (k : string) (v : V)
    (m : list (string * V)) :
  JsMap.get k m = Some v → m ≡ₚ (k, v) :: JsMap.delete k m.
Proof.
  induction m as [|[k0 v0] rest IH]; simpl; [done|].
  destruct (decide (k = k0)) as [->|Hne].
  - by intros [= ->].
  - intros Hg. rewrite (IH Hg) at 1. apply Permutation_swap.
Qed.

Lemma jsmap_refresh_perm {V : Type} (k : string) (v : V)
    (m : list (string * V)) :
  JsMap.get k m = Some v → JsMap.delete k m ++ [(k, v)] ≡ₚ m.
Proof.
  intros Hg. rewrite (jsmap_delete_perm k v m Hg) at 2.
  by rewrite Permutation_app_comm.
Qed.

Lemma jsmap_delete_snoc {V : Type} (k : string) (v : V)
    (xs : list (string * V)) :
  JsMap.get k xs = None → JsMap.delete k (xs ++ [(k, v)]) = xs.
Proof.
  induction xs as [|[k0 v0] rest IH]; simpl.
  - intros _. by rewrite decide_True.
  - destruct (decide (k = k0)) as [->|Hne]; [done|].
    intros Hg. by rewrite IH.
Qed.

Lemma jsmap_get_snoc {V : Type} (k : string) (v : V)
    (xs : list (string * V)) :
  JsMap.get k xs = None → JsMap.get k (xs ++ [(k, v)]) = Some v.
Proof.
  intros Hg. rewrite HttpProxyFacts.jsmap_get_app, Hg. simpl.
  by rewrite decide_True.
Qed.

Lemma jsmap_get_suffix {V : Type} (k : string) (pre xs : list (string * V)) :
  JsMap.get k (pre ++ xs) = None → JsMap.get k xs = None.
Proof.
  rewrite HttpProxyFacts.jsmap_get_app.
  by destruct (JsMap.get k pre).
Qed.

(** [set] of a key that the cache does not hold: what is evicted is a
    prefix of the items, of length 0 or 1. *)
Lemma lru_set_miss {V : Type} `{EqDecision V} (k : string) (v : V)
    (c : LRU.t V) :
  JsMap.get k (LRU.items c) = None →
  ∃ pre xs,
    LRU.items c = pre ++ xs ∧
    LRU.set k v c = (LRU.Cache (LRU.max c) (xs ++ [(k, v)]),
                     JsMap.values pre).
Proof.
  intros Hg. unfold LRU.set. rewrite Hg.
  destruct (decide (LRU.max c ≤ LRU.size c)).
  - destruct (LRU.items c) as [|[k0 lru] rest] eqn:Hi.
    + by exists [], [].
    + by exists [(k0, lru)], rest.
  - exists [], (LRU.items c). by split.
Qed.

(** The keys of the constructor memo tell schemes and kinds apart. *)
Lemma constructor_key_inj (p p' : string) (i i' : bool) :
  isValidProtocol p = true → isValidProtocol p' = true →
  constructor_key p i = constructor_key p' i' → p = p' ∧ i = i'.
Proof.
  unfold isValidProtocol, VALID_PROTOCOLS.
  intros Hp%bool_decide_eq_true Hp'%bool_decide_eq_true.
  repeat (apply elem_of_cons in Hp as [->|Hp]);
    [..|by apply elem_of_nil in Hp];
    repeat (apply elem_of_cons in Hp' as [->|Hp']);
    try (by apply elem_of_nil in Hp');
    destruct i, i'; intros H;
    first [by split | discriminate H].
Qed.

Section dispatcher.
Variable href : string → string → string.
Variable protocol_of : string → option string.

(** The outcomes of [agent_for], spelled out. *)
Lemma agent_for_cases (secureEndpoint isWebSocket : bool) (proxy : string)
    (d : ProxyAgent) :
  let key := request_protocol secureEndpoint isWebSocket +:+ "+" +:+ proxy in
  match JsMap.get key (LRU.items (cache d)) with
  | Some a =>
      agent_for protocol_of secureEndpoint isWebSocket proxy d
      = (Proxied a,
         with_cache
           (LRU.Cache (LRU.max (cache d))
              (JsMap.delete key (LRU.items (cache d)) ++ [(key, a)])) d)
  | None =>
      match protocol_of proxy with
      | Some proto =>
          if isValidProtocol (remove_first_colon proto) then
            ∃ pre xs,
              LRU.items (cache d) = pre ++ xs ∧
              let idx := secureEndpoint || isWebSocket in
              let ck := constructor_key (remove_first_colon proto) idx in
              let memo := JsMap.get ck (agentConstructorCache d) in
              let ctor :=
                default (ctor_for (remove_first_colon proto) idx) memo in
              agent_for protocol_of secureEndpoint isWebSocket proxy d
              = (Proxied (next_agent d),
                 Dispatcher
                   (LRU.Cache (LRU.max (cache d))
                      (xs ++ [(key, next_agent d)]))
                   (proxyResolutionCache d)
                   (match memo with
                    | Some _ => agentConstructorCache d
                    | None => JsMap.set ck ctor (agentConstructorCache d)
                    end)
                   (httpAgent d) (httpsAgent d) (S (next_agent d))
                   (constructed d ++ [(next_agent d, ctor, proxy)])
                   (destroyed d ++ JsMap.values pre))
          else
            ∃ msg, agent_for protocol_of secureEndpoint isWebSocket proxy d
                   = (Failed msg, d)
      | None =>
          ∃ msg, agent_for protocol_of secureEndpoint isWebSocket proxy d
                 = (Failed msg, d)
      end
  end.
Proof.
  intros key. unfold agent_for. fold key. unfold LRU.get.
  destruct (JsMap.get key (LRU.items (cache d))) as [a|] eqn:Hg; [done|].
  assert (Hd : with_cache (cache d) d = d) by by destruct d.
  rewrite Hd.
  destruct (protocol_of proxy) as [proto|]; [|by eexists].
  destruct (isValidProtocol (remove_first_colon proto)); simpl;
    [|by eexists].
  unfold constructor_key, ctor_for.
  destruct (JsMap.get _ (agentConstructorCache d)) as [ctor|]; simpl.
  - destruct (lru_set_miss key (next_agent d) (cache d) Hg)
      as (pre & xs & Hi & Hset).
    rewrite Hset. by exists pre, xs.
  - destruct (lru_set_miss key (next_agent d) (cache d) Hg)
      as (pre & xs & Hi & Hset).
    rewrite Hset. by exists pre, xs.
Qed.

(** A proxy that [resolve_proxy] answers with is in the resolution
    cache afterwards. *)
Lemma resolve_proxy_caches (url : string) (resolved : option string)
    (p : string) (d d0 : ProxyAgent) :
  resolve_proxy url resolved d = (Some p, d0) →
  truthy (JString p) = true →
  JsMap.get url (proxyResolutionCache d0) = Some p.
Proof.
  unfold resolve_proxy.
  destruct (JsMap.has url (proxyResolutionCache d));
    [by intros [= Hg <-]|].
  destruct resolved as [q|]; [|done].
  destruct (truthy (JString q)) eqn:Hq.
  - intros [= -> <-] _. simpl. by rewrite jsmap_get_set, decide_True.
  - intros [= -> <-] Hp. by rewrite Hp in Hq.
Qed.

Lemma resolve_proxy_cached (url : string) (resolved : option string)
    (p : string) (d : ProxyAgent) :
  JsMap.get url (proxyResolutionCache d) = Some p →
  resolve_proxy url resolved d = (Some p, d).
Proof.
  intros Hg. unfold resolve_proxy, JsMap.has. by rewrite Hg.
Qed.

(** X14. Once [connect] has answered a request with a proxy agent, the
    same request gets the same agent again, whatever the resolver would
    say now: it is not consulted, no agent is built or destroyed, and
    the dispatcher is left exactly as it was. *)
Theorem repeated_request_gets_same_agent (req : request)
    (secureEndpoint : bool) (resolved : option string) (d d1 : ProxyAgent)
    (a : agent_id) :
  JsMap.wf (LRU.items (cache d)) →
  connect href protocol_of req secureEndpoint resolved d = (Proxied a, d1) →
  ∀ resolved',
    connect href protocol_of req secureEndpoint resolved' d1
      = (Proxied a, d1).
Proof.
  intros Hwf. unfold connect.
  pose proof (DispatcherFacts.resolve_proxy_frame
                (request_url href req secureEndpoint) resolved d) as Hframe.
  destruct (resolve_proxy (request_url href req secureEndpoint) resolved d)
    as [[p|] d0] eqn:Hr; [|done].
  destruct (truthy (JString p)) eqn:Hp; [|done].
  pose proof (resolve_proxy_caches _ _ _ _ _ Hr Hp) as Hcaches.
  simpl in Hframe. destruct Hframe as (_ & _ & Hc & _).
  rewrite <- Hc in Hwf. clear Hc.
  set (key := request_protocol secureEndpoint (upgrade_is_websocket req)
                +:+ "+" +:+ p).
  intros Hfirst.
  assert (Hd1 : ∃ xs, LRU.items (cache d1) = xs ++ [(key, a)] ∧
                      JsMap.get key xs = None ∧
                      JsMap.get (request_url href req secureEndpoint)
                        (proxyResolutionCache d1) = Some p).
  { pose proof (agent_for_cases secureEndpoint
                  (upgrade_is_websocket req) p d0) as Hcases.
    fold key in Hcases. cbv zeta in Hcases.
    destruct (JsMap.get key (LRU.items (cache d0))) as [a0|] eqn:Hg.
    - rewrite Hcases in Hfirst. injection Hfirst as -> <-.
      exists (JsMap.delete key (LRU.items (cache d0))).
      split_and!; [done| |done]. by apply jsmap_get_delete_eq.
    - destruct (protocol_of p) as [proto|].
      + destruct (isValidProtocol (remove_first_colon proto)).
        * destruct Hcases as (pre & xs & Hi & Hb).
          rewrite Hb in Hfirst. injection Hfirst as <- <-.
          exists xs. split_and!; [done| |done].
          apply (jsmap_get_suffix key pre). by rewrite <- Hi.
        * destruct Hcases as [msg Hb]. by rewrite Hb in Hfirst.
      + destruct Hcases as [msg Hb]. by rewrite Hb in Hfirst. }
  destruct Hd1 as (xs & Hitems & Hxs & Hres).
  intros resolved'. rewrite (resolve_proxy_cached _ resolved' p d1 Hres).
  rewrite Hp.
  pose proof (agent_for_cases secureEndpoint
                (upgrade_is_websocket req) p d1) as Hcases.
  fold key in Hcases. cbv zeta in Hcases.
  rewrite Hitems, (jsmap_get_snoc key a xs Hxs) in Hcases.
  rewrite Hcases, jsmap_delete_snoc by done.
  f_equal. destruct d1 as [[mx its] ? ? ? ? ? ? ?]. simpl in *.
  by rewrite Hitems.
Qed.

Lemma healthy_fresh (h hs n : agent_id) :
  (h < n)%nat → (hs < n)%nat → healthy (new_ProxyAgent h hs n).
Proof.
  intros Hh Hhs. unfold healthy, in_service, cached_agents; simpl.
  split_and!; try by constructor.
  - apply not_elem_of_nil.
  - apply not_elem_of_nil.
  - intros a [Hin|[->| ->]]; [by apply elem_of_nil in Hin| |];
      (split; [done|apply not_elem_of_nil]).
Qed.

Lemma healthy_resolve_proxy (url : string) (resolved : option string)
    (d : ProxyAgent) :
  healthy d → healthy (resolve_proxy url resolved d).2.
Proof.
  unfold resolve_proxy.
  destruct (JsMap.has url (proxyResolutionCache d)); [done|].
  destruct resolved as [p|]; [|done]. by destruct (truthy (JString p)).
Qed.

(** A cache hit reorders the cache and nothing else. *)
Lemma healthy_refresh (key : string) (a : agent_id) (d : ProxyAgent) :
  JsMap.get key (LRU.items (cache d)) = Some a →
  healthy d →
  healthy (with_cache
             (LRU.Cache (LRU.max (cache d))
                (JsMap.delete key (LRU.items (cache d)) ++ [(key, a)])) d) ∧
  in_service (with_cache
             (LRU.Cache (LRU.max (cache d))
                (JsMap.delete key (LRU.items (cache d)) ++ [(key, a)])) d) a.
Proof.
  intros Hg (Hwf & Hnd & Hh & Hhs & Hserv & Hdes).
  pose proof (jsmap_refresh_perm key a _ Hg) as Hperm.
  unfold healthy, in_service, cached_agents, JsMap.wf, JsMap.keys,
    JsMap.values in *; simpl.
  assert (Hv : (JsMap.delete key (LRU.items (cache d)) ++ [(key, a)]).*2
               ≡ₚ (LRU.items (cache d)).*2) by by rewrite Hperm.
  assert (Hk : (JsMap.delete key (LRU.items (cache d)) ++ [(key, a)]).*1
               ≡ₚ (LRU.items (cache d)).*1) by by rewrite Hperm.
  split; [split_and!|].
  - by rewrite Hk.
  - by rewrite Hv.
  - by rewrite Hv.
  - by rewrite Hv.
  - intros x. rewrite Hv. apply Hserv.
  - done.
  - left. rewrite fmap_app. apply elem_of_app. right.
    csimpl. by apply list_elem_of_singleton.
Qed.

(** Building an agent: the new agent joins the cache, what the cache
    evicts is destroyed. *)
Lemma healthy_build (key : string) (pre xs : JsMap.t agent_id)
    (prc : JsMap.t string) (acc : JsMap.t agent_ctor)
    (built : list (agent_id * agent_ctor * string)) (d : ProxyAgent) :
  LRU.items (cache d) = pre ++ xs →
  JsMap.get key (LRU.items (cache d)) = None →
  healthy d →
  let d' := Dispatcher
              (LRU.Cache (LRU.max (cache d)) (xs ++ [(key, next_agent d)]))
              prc acc (httpAgent d) (httpsAgent d) (S (next_agent d)) built
              (destroyed d ++ JsMap.values pre) in
  healthy d' ∧ in_service d' (next_agent d).
Proof.
  intros Hi Hg (Hwf & Hnd & Hh & Hhs & Hserv & Hdes) d'.
  unfold healthy, in_service, cached_agents, JsMap.wf, JsMap.keys,
    JsMap.values in *; simpl.
  rewrite Hi in *. rewrite !fmap_app in *. csimpl.
  apply NoDup_app in Hwf as (Hwf1 & Hwf12 & Hwf2).
  apply NoDup_app in Hnd as (Hnd1 & Hnd12 & Hnd2).
  apply jsmap_get_None_keys in Hg. unfold JsMap.keys in Hg.
  rewrite fmap_app in Hg. apply not_elem_of_app in Hg as [Hg1 Hg2].
  apply not_elem_of_app in Hh as [Hh1 Hh2].
  apply not_elem_of_app in Hhs as [Hhs1 Hhs2].
  assert (Hlt : ∀ x, x ∈ pre.*2 ++ xs.*2 → (x < next_agent d)%nat).
  { intros x Hx. apply Hserv. by left. }
  assert (Hfresh : next_agent d ∉ destroyed d).
  { intros Hin. rewrite Forall_forall in Hdes. apply Hdes in Hin. lia. }
  split; [split_and!|].
  - apply NoDup_app. split_and!; [done| |apply NoDup_singleton].
    intros k Hk ->%list_elem_of_singleton. done.
  - apply NoDup_app. split_and!; [done| |apply NoDup_singleton].
    intros x Hx ->%list_elem_of_singleton.
    assert (next_agent d < next_agent d)%nat; [|lia].
    apply Hlt. apply elem_of_app. by right.
  - apply not_elem_of_app. split; [done|].
    rewrite list_elem_of_singleton.
    assert (httpAgent d < next_agent d)%nat; [|lia].
    apply Hserv. right. by left.
  - apply not_elem_of_app. split; [done|].
    rewrite list_elem_of_singleton.
    assert (httpsAgent d < next_agent d)%nat; [|lia].
    apply Hserv. right. by right.
  - intros x Hx.
    assert (Hcases : (x ∈ xs.*2 ∨ x = httpAgent d ∨ x = httpsAgent d)
                     ∨ x = next_agent d).
    { destruct Hx as [[?| ->%list_elem_of_singleton]%elem_of_app|[?|?]];
        auto. }
    destruct Hcases as [Hold| ->].
    + assert (Hold' : (x ∈ pre.*2 ++ xs.*2) ∨ x = httpAgent d
                      ∨ x = httpsAgent d).
      { destruct Hold as [?|[?|?]]; auto. left. apply elem_of_app. auto. }
      destruct (Hserv x Hold') as [Hx1 Hx2]. split; [lia|].
      apply not_elem_of_app. split; [done|].
      intros Hpre. destruct Hold as [Hxs|[->| ->]].
      * by apply (Hnd12 x).
      * done.
      * done.
    + split; [lia|]. apply not_elem_of_app. split; [done|].
      intros Hpre. assert (next_agent d < next_agent d)%nat; [|lia].
      apply Hlt. apply elem_of_app. by left.
  - apply Forall_app. split.
    + eapply Forall_impl; [exact Hdes|]. simpl. lia.
    + apply Forall_forall. intros x Hx.
      assert (x < next_agent d)%nat; [|lia].
      apply Hlt. apply elem_of_app. by left.
  - left. apply elem_of_app. right. by apply list_elem_of_singleton.
Qed.

(** [destroy()] destroys the two default agents and leaves them in
    place. *)
Lemma destroy_keeps_defaults (d : ProxyAgent) :
  httpAgent (destroy d) = httpAgent d ∧
  httpsAgent (destroy d) = httpsAgent d ∧
  proxyResolutionCache (destroy d) = [] ∧
  httpAgent d ∈ destroyed (destroy d) ∧
  httpsAgent d ∈ destroyed (destroy d).
Proof.
  unfold destroy, destroy_all, LRU.clear. cbn.
  split_and!; [done|done|done| |].
  - rewrite !elem_of_app. left. right. by apply list_elem_of_singleton.
  - rewrite !elem_of_app. right. by apply list_elem_of_singleton.
Qed.

(** X15. Until the dispatcher is destroyed, [connect] never answers with
    an agent that was destroyed. The health of the dispatcher (unique
    cache keys, no agent cached twice, cached agents and defaults never
    destroyed) holds when it is new (lemma [healthy_fresh]) and is kept
    by every call of [connect], cache hits and evictions included, and
    the agent of the answer, proxy agent or default, is in service and
    not destroyed.
    [destroy()] ends this: it destroys the two default agents and keeps
    them in place, so the dispatcher is healthy no more, and a later
    request for which no proxy is resolved is answered with a default
    agent that was destroyed. *)
Theorem connect_answers_with_live_agent_until_destroy (req : request)
    (secureEndpoint : bool) (resolved : option string) (d : ProxyAgent) :
  healthy d →
  let r := connect href protocol_of req secureEndpoint resolved d in
  healthy r.2 ∧
  (∀ a, r.1 = Proxied a ∨ r.1 = Direct a →
        in_service r.2 a ∧ a ∉ destroyed r.2) ∧
  let rd := connect href protocol_of req secureEndpoint None (destroy d) in
  ¬ healthy (destroy d) ∧
  rd.1 = Direct (default_for secureEndpoint d) ∧
  default_for secureEndpoint d ∈ destroyed rd.2.
Proof.
  intros Hd r.
  assert (Hafter :
    let rd := connect href protocol_of req secureEndpoint None (destroy d) in
    ¬ healthy (destroy d) ∧
    rd.1 = Direct (default_for secureEndpoint d) ∧
    default_for secureEndpoint d ∈ destroyed rd.2).
  { destruct (destroy_keeps_defaults d) as (Hh & Hs & Hc & Dh & Ds).
    cbv zeta. split.
    - intros (_ & _ & _ & _ & Hserv & _).
      destruct (Hserv (httpAgent (destroy d))) as [_ Hnot].
      { right. by left. }
      apply Hnot. by rewrite Hh.
    - unfold connect, resolve_proxy. rewrite Hc. cbn [JsMap.has JsMap.get].
      cbn [fst snd]. rewrite Hh, Hs. unfold default_for.
      split; [done|]. by destruct secureEndpoint. }
  cut (healthy r.2 ∧
       ∀ a, r.1 = Proxied a ∨ r.1 = Direct a →
            in_service r.2 a ∧ a ∉ destroyed r.2).
  { intros [H1 H2]. by split_and!. }
  clear Hafter.
  assert (Hgoal : healthy r.2 ∧
                  ∀ a, r.1 = Proxied a ∨ r.1 = Direct a → in_service r.2 a).
  { unfold r, connect.
    pose proof (healthy_resolve_proxy (request_url href req secureEndpoint)
                  resolved d Hd) as H0.
    destruct (resolve_proxy (request_url href req secureEndpoint) resolved d)
      as [proxy d0]. simpl in H0.
    assert (Hdirect :
              let r0 := (Direct (if secureEndpoint then httpsAgent d0
                                 else httpAgent d0), d0) in
              healthy r0.2 ∧
              ∀ a, r0.1 = Proxied a ∨ r0.1 = Direct a → in_service r0.2 a).
    { simpl. split; [done|]. intros a [?|[= <-]]; [done|].
      unfold in_service. destruct secureEndpoint; auto. }
    destruct proxy as [p|]; [|exact Hdirect].
    destruct (truthy (JString p)); [|exact Hdirect]. clear Hdirect.
    pose proof (agent_for_cases secureEndpoint
                  (upgrade_is_websocket req) p d0) as Hcases.
    cbv zeta in Hcases.
    destruct (JsMap.get _ (LRU.items (cache d0))) as [a0|] eqn:Hg.
    - rewrite Hcases. simpl.
      destruct (healthy_refresh _ a0 d0 Hg H0) as [Hh Hs].
      split; [done|]. by intros a [[= <-]|?].
    - destruct (protocol_of p) as [proto|].
      + destruct (isValidProtocol (remove_first_colon proto)).
        * destruct Hcases as (pre & xs & Hi & ->). simpl.
          match goal with
          | |- healthy (Dispatcher _ ?prc ?acc _ _ _ ?built _) ∧ _ =>
              destruct (healthy_build _ pre xs prc acc built d0 Hi Hg H0)
                as [Hh Hs]
          end.
          split; [done|]. by intros a [[= <-]|?].
        * destruct Hcases as [msg ->]. simpl. split; [done|].
          by intros a [?|?].
      + destruct Hcases as [msg ->]. simpl. split; [done|].
        by intros a [?|?]. }
  destruct Hgoal as [Hh Hs]. split; [done|].
  intros a Ha. split; [by apply Hs|].
  destruct Hh as (_ & _ & _ & _ & Hserv & _). by apply Hserv, Hs.
Qed.

(** X16. A proxy whose URL does not parse or whose scheme is not among
    the supported ones makes [connect] fail before any agent is built;
    the agent cache is unchanged. The proxy string has been stored in
    the resolution cache all the same, so the same request keeps
    failing in the same way without the resolver being asked again. *)
Theorem unsupported_proxy_fails_and_sticks (req : request)
    (secureEndpoint : bool) (p : string) (d : ProxyAgent) :
  let url := request_url href req secureEndpoint in
  let key := request_protocol secureEndpoint (upgrade_is_websocket req)
               +:+ "+" +:+ p in
  JsMap.has url (proxyResolutionCache d) = false →
  truthy (JString p) = true →
  JsMap.get key (LRU.items (cache d)) = None →
  match protocol_of p with
  | Some proto => isValidProtocol (remove_first_colon proto) = false
  | None => True
  end →
  ∃ msg d1,
    connect href protocol_of req secureEndpoint (Some p) d = (Failed msg, d1) ∧
    cache d1 = cache d ∧
    constructed d1 = constructed d ∧
    destroyed d1 = destroyed d ∧
    JsMap.get url (proxyResolutionCache d1) = Some p ∧
    ∀ resolved',
      connect href protocol_of req secureEndpoint resolved' d1
        = (Failed msg, d1).
Proof.
  intros url key Hhas Hp Hkey Hbad.
  assert (Hres : ∃ d0, resolve_proxy url (Some p) d = (Some p, d0) ∧
                       cache d0 = cache d ∧ constructed d0 = constructed d ∧
                       destroyed d0 = destroyed d ∧
                       JsMap.get url (proxyResolutionCache d0) = Some p).
  { unfold resolve_proxy. rewrite Hhas, Hp. eexists. split; [done|].
    simpl. split_and!; try done. by rewrite jsmap_get_set, decide_True. }
  destruct Hres as (d0 & Hr & Hc & Hco & Hde & Hg).
  assert (Hfail : ∃ msg, agent_for protocol_of secureEndpoint
                           (upgrade_is_websocket req) p d0 = (Failed msg, d0)).
  { pose proof (agent_for_cases secureEndpoint
                  (upgrade_is_websocket req) p d0) as Hcases.
    fold key in Hcases. cbv zeta in Hcases. rewrite Hc, Hkey in Hcases.
    destruct (protocol_of p) as [proto|]; [|done].
    by rewrite Hbad in Hcases. }
  destruct Hfail as [msg Hfail].
  exists msg, d0. unfold connect. fold url. rewrite Hr, Hp, Hfail.
  split_and!; try done.
  intros resolved'.
  by rewrite (resolve_proxy_cached url resolved' p d0 Hg), Hp, Hfail.
Qed.

Lemma resolve_proxy_constructors (url : string) (resolved : option string)
    (d : ProxyAgent) :
  agentConstructorCache (resolve_proxy url resolved d).2
    = agentConstructorCache d ∧
  constructed (resolve_proxy url resolved d).2 = constructed d.
Proof.
  unfold resolve_proxy.
  destruct (JsMap.has url (proxyResolutionCache d)); [done|].
  destruct resolved as [p|]; [|done]. by destruct (truthy (JString p)).
Qed.

(** X17. Every agent that [connect] builds has the class that the
    table [proxies] gives for the scheme of the proxy and the kind of
    request (the second column for a secure or WebSocket request, the
    first otherwise), whether the constructor came from the memo
    [agentConstructorCache] or from the table; the memo keeps agreeing
    with the table, its keys being distinct for distinct schemes and
    kinds. *)
Theorem built_agent_has_class_of_table (req : request)
    (secureEndpoint : bool) (resolved : option string) (d : ProxyAgent) :
  constructors_match d →
  let r := connect href protocol_of req secureEndpoint resolved d in
  constructors_match r.2 ∧
  (constructed r.2 = constructed d ∨
   ∃ a p proto,
     r.1 = Proxied a ∧ protocol_of p = Some proto ∧
     isValidProtocol (remove_first_colon proto) = true ∧
     constructed r.2 =
       constructed d
       ++ [(a, ctor_for (remove_first_colon proto)
                 (secureEndpoint || upgrade_is_websocket req), p)]).
Proof.
  intros Hm r. unfold r, connect.
  pose proof (resolve_proxy_constructors
                (request_url href req secureEndpoint) resolved d) as [Ha Hc].
  destruct (resolve_proxy (request_url href req secureEndpoint) resolved d)
    as [proxy d0]. simpl in Ha, Hc.
  assert (Hm0 : constructors_match d0).
  { unfold constructors_match. by rewrite Ha. }
  rewrite <- Hc. clear Ha Hc Hm.
  destruct proxy as [p|]; [|by split; [|left]].
  destruct (truthy (JString p)); [|by split; [|left]].
  pose proof (agent_for_cases secureEndpoint (upgrade_is_websocket req) p d0)
    as Hcases.
  cbv zeta in Hcases.
  destruct (JsMap.get _ (LRU.items (cache d0))) as [a0|].
  { rewrite Hcases. by split; [|left]. }
  destruct (protocol_of p) as [proto|] eqn:Hproto;
    [|destruct Hcases as [msg ->]; by split; [|left]].
  destruct (isValidProtocol (remove_first_colon proto)) eqn:Hvalid;
    [|destruct Hcases as [msg ->]; by split; [|left]].
  destruct Hcases as (pre & xs & Hi & ->). simpl.
  destruct (JsMap.get
              (constructor_key (remove_first_colon proto)
                 (secureEndpoint || upgrade_is_websocket req))
              (agentConstructorCache d0)) as [ctor|] eqn:Hmemo; simpl.
  - split; [exact Hm0|]. right. exists (next_agent d0), p, proto.
    split_and!; try done.
    by rewrite (Hm0 _ _ _ Hvalid Hmemo).
  - split.
    + intros proto' idx' ctor' Hvalid'. simpl.
      rewrite jsmap_get_set.
      destruct (decide (constructor_key proto' idx'
                        = constructor_key (remove_first_colon proto)
                            (secureEndpoint || upgrade_is_websocket req)))
        as [Heq|Hne]; [|by apply Hm0].
      intros [= <-].
      destruct (constructor_key_inj _ _ _ _ Hvalid' Hvalid Heq) as [-> ->].
      done.
    + right. by exists (next_agent d0), p, proto.
Qed.

End dispatcher.

Lemma built_agent_has_class_of_table_witness :
  let r := connect example_href scheme_with_colon
             (Request true "example.com" "/") false
             (Some "http://proxy.local:8080") fresh_dispatcher in
  constructors_match r.2 ∧
  (constructed r.2 = constructed fresh_dispatcher ∨
   ∃ a p proto,
     r.1 = Proxied a ∧ scheme_with_colon p = Some proto ∧
     isValidProtocol (remove_first_colon proto) = true ∧
     constructed r.2 =
       constructed fresh_dispatcher
       ++ [(a, ctor_for (remove_first_colon proto)
                 (false || upgrade_is_websocket
                             (Request true "example.com" "/")), p)]).
Proof.
  apply (built_agent_has_class_of_table example_href scheme_with_colon
           (Request true "example.com" "/") false
           (Some "http://proxy.local:8080") fresh_dispatcher).
  intros proto idx ctor _. discriminate.
Defined.

(** The resolver has changed its mind; the cached answer stands. *)
Lemma repeated_request_gets_same_agent_witness :
  connect example_href scheme_with_colon plain_request false
    (Some "socks5://other.local:1080") dispatcher_with_one_agent
  = (Proxied 2%nat, dispatcher_with_one_agent).
Proof.
  apply (repeated_request_gets_same_agent example_href scheme_with_colon
           plain_request false (Some "http://proxy.local:8080")
           fresh_dispatcher dispatcher_with_one_agent 2%nat).
  - constructor.
  - reflexivity.
Defined.

Lemma connect_answers_with_live_agent_until_destroy_witness :
  let r := connect example_href scheme_with_colon plain_request false
             (Some "http://proxy.local:8080") fresh_dispatcher in
  healthy r.2 ∧
  (∀ a, r.1 = Proxied a ∨ r.1 = Direct a →
        in_service r.2 a ∧ a ∉ destroyed r.2) ∧
  let rd := connect example_href scheme_with_colon plain_request false None
              (destroy fresh_dispatcher) in
  ¬ healthy (destroy fresh_dispatcher) ∧
  rd.1 = Direct (default_for false fresh_dispatcher) ∧
  default_for false fresh_dispatcher ∈ destroyed rd.2.
Proof.
  apply (connect_answers_with_live_agent_until_destroy example_href
           scheme_with_colon plain_request false
           (Some "http://proxy.local:8080") fresh_dispatcher).
  apply healthy_fresh; lia.
Defined.

Lemma unsupported_proxy_fails_and_sticks_witness :
  ∃ msg d1,
    connect example_href scheme_with_colon plain_request false
      (Some "ftp://proxy.local") fresh_dispatcher = (Failed msg, d1) ∧
    cache d1 = cache fresh_dispatcher ∧
    constructed d1 = constructed fresh_dispatcher ∧
    destroyed d1 = destroyed fresh_dispatcher ∧
    JsMap.get (request_url example_href plain_request false)
      (proxyResolutionCache d1) = Some "ftp://proxy.local" ∧
    ∀ resolved',
      connect example_href scheme_with_colon plain_request false resolved' d1
        = (Failed msg, d1).
Proof.
  apply (unsupported_proxy_fails_and_sticks example_href scheme_with_colon
           plain_request false "ftp://proxy.local" fresh_dispatcher);
    reflexivity.
Defined.

End DispatcherMoreFacts.

(** ** More of http-proxy-agent *)

Module HttpProxyMoreFacts.
Import HttpProxy HttpProxyConnect HttpProxyRuns Examples.

(** *** Strings *)

Lemma append_nil_l (s : string) : EmptyString +:+ s = s.
Proof. reflexivity. Qed.

Lemma append_cons (c : ascii) (a b : string) :
  String c a +:+ b = String c (a +:+ b).
Proof. reflexivity. Qed.

Lemma prefix_app_iff (needle hay : string) :
  String.prefix needle hay = true ↔ ∃ post, hay = needle +:+ post.
Proof.
  revert hay. induction needle as [|a needle IH]; intros hay.
  - destruct hay; simpl; (split; [intros _; by eexists|done]).
  - destruct hay as [|b hay]; simpl.
    + split; [done|]. intros [post Heq]. by rewrite append_cons in Heq.
    + destruct (ascii_dec a b) as [->|Hne].
      * rewrite IH. split.
        -- intros [post ->]. by exists post.
        -- intros [post Heq]. rewrite append_cons in Heq.
           injection Heq as ->. by exists post.
      * split; [done|]. intros [post Heq]. rewrite append_cons in Heq.
        by injection Heq as ? ?.
Qed.

Lemma drop_chars_app (a b : string) :
  drop_chars (String.length a) (a +:+ b) = b.
Proof.
  induction a as [|c a IH]; [by destruct b|].
  by rewrite append_cons.
Qed.

Lemma drop_chars_add (n m : nat) (s : string) :
  drop_chars (n + m) s = drop_chars m (drop_chars n s).
Proof.
  revert s. induction n as [|n IH]; intros s; simpl; [done|].
  destruct s as [|c s]; [by destruct m|]. apply IH.
Qed.

Lemma index_from_eq (needle hay : string) (i : Z) :
  index_from needle hay i =
  if String.prefix needle hay then i
  else match hay with
       | EmptyString => -1
       | String _ rest => index_from needle rest (i + 1)
       end.
Proof. by destruct hay. Qed.

(** [indexOf] finds the first occurrence, or answers -1 when there is
    none. *)
Lemma index_from_spec (needle hay : string) (i : Z) :
  (∃ pre post,
     hay = pre +:+ needle +:+ post ∧
     index_from needle hay i = i + Z.of_nat (String.length pre) ∧
     ∀ pre' post', hay = pre' +:+ needle +:+ post' →
                   (String.length pre ≤ String.length pre')%nat) ∨
  (index_from needle hay i = -1 ∧
   ∀ pre post, hay ≠ pre +:+ needle +:+ post).
Proof.
  assert (Hfound : ∀ hay i, String.prefix needle hay = true →
            ∃ pre post,
              hay = pre +:+ needle +:+ post ∧
              i = i + Z.of_nat (String.length pre) ∧
              ∀ pre' post', hay = pre' +:+ needle +:+ post' →
                            (String.length pre ≤ String.length pre')%nat).
  { intros h j [post ->]%prefix_app_iff.
    exists EmptyString, post. split_and!; [done|simpl; lia|].
    intros; simpl; lia. }
  revert i. induction hay as [|c hay IH]; intros i; rewrite index_from_eq.
  - destruct (String.prefix needle EmptyString) eqn:Hp.
    + left. by apply Hfound.
    + right. split; [done|]. intros pre post Heq.
      destruct pre as [|c' pre]; [|by rewrite append_cons in Heq].
      rewrite append_nil_l in Heq.
      assert (String.prefix needle EmptyString = true); [|congruence].
      apply prefix_app_iff. by exists post.
  - destruct (String.prefix needle (String c hay)) eqn:Hp.
    + left. by apply Hfound.
    + assert (Hne : ∀ pre post, String c hay = pre +:+ needle +:+ post →
                ∃ pre', pre = String c pre' ∧ hay = pre' +:+ needle +:+ post).
      { intros pre post Heq. destruct pre as [|c' pre].
        - rewrite append_nil_l in Heq.
          assert (String.prefix needle (String c hay) = true); [|congruence].
          apply prefix_app_iff. by exists post.
        - rewrite append_cons in Heq. injection Heq as -> ->. by eexists. }
      destruct (IH (i + 1)) as [(pre & post & -> & Hi & Hmin)|[Hi Hnone]].
      * left. exists (String c pre), post.
        split_and!; [done|rewrite Hi; simpl; lia|].
        intros pre' post' Heq.
        destruct (Hne pre' post' Heq) as (pre'' & -> & Heq').
        simpl. specialize (Hmin pre'' post' Heq'). lia.
      * right. split; [done|]. intros pre post Heq.
        destruct (Hne pre post Heq) as (pre' & -> & Heq').
        by apply (Hnone pre' post).
Qed.

Section forward.
Variable absolute_url : string → string → option Z → string.
Variable render_header : request → string.

Lemma cached_url_stores (rq : request) (opts : connect_opts)
    (urlCache : JsMap.t string) :
  let protocol := if secureEndpoint opts then "https:" else "http:" in
  let hostname :=
    if truthy (getHeader "host" (store rq))
    then to_string (getHeader "host" (store rq)) else "localhost" in
  let key := (protocol +:+ "//" +:+ hostname) +:+ path rq
               +:+ pretty (port opts) in
  JsMap.get key (cached_url absolute_url rq opts urlCache).2
    = Some (cached_url absolute_url rq opts urlCache).1.
Proof.
  intros protocol hostname key. unfold cached_url.
  fold protocol. fold hostname. fold key.
  destruct (JsMap.get key urlCache) as [url|]; cbn [fst snd];
    by rewrite jsmap_get_set, decide_True.
Qed.

(** X18. The key of the URL cache is the base, the path and the port
    written one after the other, with nothing between the path and the
    port. Two requests to the same host whose path followed by the port
    reads the same share one entry: the second request is given the
    absolute URL that was computed for the first. *)
Theorem url_cache_confuses_path_and_port (agent : HttpProxyAgent)
    (reqA reqB : request) (optsA optsB : connect_opts)
    (urlCache : JsMap.t string) :
  secureEndpoint optsA = secureEndpoint optsB →
  getHeader "host" (store reqA) = getHeader "host" (store reqB) →
  path reqA +:+ pretty (port optsA) = path reqB +:+ pretty (port optsB) →
  let ra := setRequestProps absolute_url agent reqA optsA urlCache in
  let rb := setRequestProps absolute_url agent reqB optsB ra.2 in
  path rb.1 = path ra.1.
Proof.
  intros Hs Hh Hk ra rb. unfold rb, ra, setRequestProps.
  pose proof (cached_url_stores reqA optsA urlCache) as Hst.
  cbv zeta in Hst.
  destruct (cached_url absolute_url reqA optsA urlCache) as [urlA c1].
  simpl in *.
  unfold cached_url at 1. rewrite <- Hs, <- Hh.
  rewrite <- Hk, Hst. done.
Qed.

(** X19. [connect] regenerates the header string and patches the first
    chunk of the output buffer: what follows the first blank line of the
    chunk is kept and put behind the new header, and the other chunks
    are left alone. When the chunk holds no blank line, its first three
    characters are cut off instead. A request whose path is already an
    absolute URL is not rewritten, and the URL cache is not touched for
    it. *)
Theorem connect_patches_first_chunk (agent : HttpProxyAgent)
    (r : client_request) (opts : connect_opts) (urlCache : JsMap.t string)
    (first : string) (rest : list string) :
  outputData r = first :: rest →
  let r' := (connect_prepare absolute_url render_header agent r opts
               urlCache) in
  _header r'.1 = Some (render_header (req r'.1)) ∧
  ((∃ old body,
      first = old +:+ (crlf +:+ crlf) +:+ body ∧
      (∀ old' body', first = old' +:+ (crlf +:+ crlf) +:+ body' →
                     (String.length old ≤ String.length old')%nat) ∧
      outputData r'.1 = (render_header (req r'.1) +:+ body) :: rest) ∨
   ((∀ old body, first ≠ old +:+ (crlf +:+ crlf) +:+ body) ∧
    outputData r'.1
      = (render_header (req r'.1) +:+ drop_chars 3 first) :: rest)) ∧
  (includes "://" (path (req r)) = true →
   req r'.1 = req r ∧ r'.2 = urlCache).
Proof.
  intros Hout r'. unfold r', connect_prepare. rewrite Hout.
  destruct (if negb (includes "://" (path (req r)))
            then setRequestProps absolute_url agent (req r) opts urlCache
            else (req r, urlCache)) as [rq c] eqn:Hrq.
  simpl. split_and!; [done| |].
  - unfold indexOf.
    destruct (index_from_spec (crlf +:+ crlf) first 0)
      as [(old & body & -> & Hi & Hmin)|[Hi Hnone]].
    + left. exists old, body. split_and!; [done|done|].
      rewrite Hi. unfold substring.
      replace (Z.to_nat (0 + Z.of_nat (String.length old) + 4))
        with (String.length old + 4)%nat by lia.
      rewrite drop_chars_add, drop_chars_app.
      by f_equal.
    + right. split; [done|]. by rewrite Hi.
  - intros Hin. rewrite Hin in Hrq. simpl in Hrq. by injection Hrq as <- <-.
Qed.

End forward.

(** [/p] on port 880 is sent as [/p8] on port 80 once that one has been
    requested; on its own it is [http://example.com:880/p]. *)
Lemma url_cache_confuses_path_and_port_witness :
  path (setRequestProps example_url_with_port plain_http_agent request_p
          port880
          (setRequestProps example_url_with_port plain_http_agent request_p8
             port80 []).2).1
  = path (setRequestProps example_url_with_port plain_http_agent request_p8
            port80 []).1 ∧
  path (setRequestProps example_url_with_port plain_http_agent request_p8
          port80 []).1 = "http://example.com/p8" ∧
  path (setRequestProps example_url_with_port plain_http_agent request_p
          port880 []).1 = "http://example.com:880/p".
Proof.
  split_and!; [|reflexivity|reflexivity].
  apply (url_cache_confuses_path_and_port example_url_with_port
           plain_http_agent request_p8 request_p port80 port880 []);
    reflexivity.
Defined.

Lemma connect_patches_first_chunk_witness :
  let r' := connect_prepare example_url_with_port example_render_header
              plain_http_agent buffered_request port80 [] in
  _header r'.1 = Some (example_render_header (req r'.1)) ∧
  ((∃ old body,
      "POST / HTTP/1.1" +:+ crlf +:+ crlf +:+ "payload"
        = old +:+ (crlf +:+ crlf) +:+ body ∧
      (∀ old' body',
         "POST / HTTP/1.1" +:+ crlf +:+ crlf +:+ "payload"
           = old' +:+ (crlf +:+ crlf) +:+ body' →
         (String.length old ≤ String.length old')%nat) ∧
      outputData r'.1
        = (example_render_header (req r'.1) +:+ body) :: ["more"]) ∨
   ((∀ old body, "POST / HTTP/1.1" +:+ crlf +:+ crlf +:+ "payload"
                 ≠ old +:+ (crlf +:+ crlf) +:+ body) ∧
    outputData r'.1
      = (example_render_header (req r'.1)
           +:+ drop_chars 3
                 ("POST / HTTP/1.1" +:+ crlf +:+ crlf +:+ "payload"))
          :: ["more"])) ∧
  (includes "://" (path (req buffered_request)) = true →
   req r'.1 = req buffered_request ∧ r'.2 = []).
Proof.
  apply (connect_patches_first_chunk example_url_with_port
           example_render_header plain_http_agent buffered_request port80 []
           ("POST / HTTP/1.1" +:+ crlf +:+ crlf +:+ "payload") ["more"]).
  reflexivity.
Defined.

End HttpProxyMoreFacts.

(** ** More of https-proxy-agent *)

Module HttpsProxyMoreFacts.
Import HttpsProxy HttpsProxyCtor TunnelRuns TunnelCtorRuns Examples.

Lemma strip_trailing_bracket_snoc (s : string) :
  strip_trailing_bracket (s +:+ "]") = s.
Proof.
  induction s as [|c s IH]; [done|].
  change (String c s +:+ "]") with (String c (s +:+ "]")).
  destruct s as [|c' s]; [done|].
  change (strip_trailing_bracket (String c (String c' s +:+ "]")))
    with (String c (strip_trailing_bracket (String c' s +:+ "]"))).
  by rewrite IH.
Qed.

(** X22. The constructor connects to the host of the proxy URL without
    the brackets that a URL puts around an IPv6 address, on the port of
    the URL or, when the URL has none, on 443 for an [https:] proxy and
    on 80 otherwise; the key for cached TLS sessions and CONNECT headers
    is made of the protocol, that host and that port, and of nothing
    else. *)
Theorem constructor_unbrackets_host (proxy : proxy_url)
    (opts : option agent_options) :
  let agent := (new_agent proxy opts).1 in
  let target := (new_agent proxy opts).2 in
  sessionCacheKey agent
    = protocol proxy +:+ "//" +:+ target.1 +:+ ":" +:+ pretty target.2 ∧
  (∀ v6, hostname proxy = "[" +:+ v6 +:+ "]" → target.1 = v6) ∧
  (∀ n, port proxy = Some n → target.2 = n) ∧
  (port proxy = None →
   target.2 = if decide (protocol proxy = "https:") then 443 else 80).
Proof.
  unfold new_agent; simpl. split_and!; [done| | |].
  - intros v6 Hh. unfold connect_host. rewrite Hh.
    replace (truthy (JString ("[" +:+ v6 +:+ "]"))) with true by done.
    apply (strip_trailing_bracket_snoc v6).
  - intros n Hn. unfold connect_port. by rewrite Hn.
  - intros Hn. unfold connect_port. by rewrite Hn.
Qed.

Section tunnel.
Variable decodeURIComponent : string → string.
Variable base64 : string → string.
Variable isIPv6 : string → bool.

(** X20. The cache of CONNECT headers is keyed by the proxy endpoint and
    the destination, not by the agent. Two agents for the same proxy
    endpoint, both with static headers, share an entry: the second agent
    sends the header set computed for the first, whatever its own
    credentials and configured headers are. When the first agent filled
    the entry and its proxy URL has credentials, that header set carries
    the first agent's [Proxy-Authorization]. *)
Theorem header_cache_is_shared_between_agents (proxyA proxyB : proxy_url)
    (optsA optsB : option agent_options) (dest : connect_opts)
    (w : world) :
  protocol proxyA = protocol proxyB →
  connect_host proxyA = connect_host proxyB →
  connect_port proxyA = connect_port proxyB →
  let A := (new_agent proxyA optsA).1 in
  let B := (new_agent proxyB optsB).1 in
  is_function (proxyHeaders A) = false →
  is_function (proxyHeaders B) = false →
  let ra := connect_headers decodeURIComponent base64 isIPv6 A dest w in
  connect_headers decodeURIComponent base64 isIPv6 B dest ra.2 = ra ∧
  (JsMap.get (sessionCacheKey A +:+ ":" +:+ host dest +:+ ":"
                +:+ pretty (HttpsProxy.port dest))
     (commonHeadersCache w) = None →
   truthy (JString (username proxyA)) || truthy (JString (password proxyA))
     = true →
   JsMap.get "Proxy-Authorization" ra.1
     = Some (JString ("Basic " +:+
               base64 (decodeURIComponent (username proxyA) +:+ ":"
                       +:+ decodeURIComponent (password proxyA))))).
Proof.
  intros Hp Hh Hpt A B HfA HfB ra.
  assert (Hkey : sessionCacheKey B = sessionCacheKey A).
  { unfold A, B, new_agent; simpl. by rewrite Hp, Hh, Hpt. }
  set (key := sessionCacheKey A +:+ ":" +:+ host dest +:+ ":"
                +:+ pretty (HttpsProxy.port dest)).
  assert (Hra : JsMap.get key (commonHeadersCache ra.2) = Some ra.1).
  { unfold ra, connect_headers. fold key. rewrite HfA.
    destruct (JsMap.get key (commonHeadersCache w)) as [cached|] eqn:Hg;
      cbn [fst snd]; [done|].
    cbn [commonHeadersCache with_commonHeadersCache].
    by rewrite jsmap_get_set, decide_True. }
  split.
  - unfold connect_headers at 1. rewrite Hkey. fold key.
    rewrite HfB, Hra. by destruct ra.
  - intros Hnone Hcred. unfold ra, connect_headers. fold key.
    rewrite HfA, Hnone. cbn [fst].
    replace (proxy_username A) with (username proxyA) by done.
    replace (proxy_password A) with (password proxyA) by done.
    rewrite Hcred.
    match goal with
    | |- JsMap.get _ (if ?c then _ else _) = _ => destruct c
    end; rewrite !jsmap_get_set; by repeat (rewrite decide_False by done).
Qed.

(** X23. TLS sessions go round: a session stored under the key of an
    agent for an [https:] proxy is offered by the next [connect] of that
    agent when it opens its socket to the proxy, and a session stored
    for a destination is offered by the TLS upgrade of the next tunnel
    to that destination, which runs over the proxy socket. An agent for
    a plain [http:] proxy opens a TCP socket and offers none. The agent
    keeps the session it took from the cache: its later calls of
    [connect] offer it even when the cache holds none for its key any
    more. *)
Theorem stored_session_is_offered (agent : HttpsProxyAgent)
    (dest : connect_opts) (session : string) (resp : proxy_response)
    (sock : socket) (w : world) :
  truthy (JString (host dest)) = true →
  (let w1 := store_session (sessionCacheKey agent) session w in
   let r := connect_send decodeURIComponent base64 isIPv6 agent dest w1 in
   r.1.1 = inr (next_socket w) ∧
   kind_of (next_socket w) r.2
     = Some (if decide (proxy_protocol agent = "https:")
             then Tls (Some session) None else Tcp) ∧
   ∀ w', JsMap.get (sessionCacheKey agent) (sessionCache w') = None →
         let r' := connect_send decodeURIComponent base64 isIPv6 r.1.2
                     dest w' in
         r'.1.1 = inr (next_socket w') ∧
         kind_of (next_socket w') r'.2
           = Some (if decide (proxy_protocol agent = "https:")
                   then Tls (Some session) None else Tcp)) ∧
  (statusCode resp = 200 → secureEndpoint dest = true →
   let w1 := store_session ("target:" +:+ host dest +:+ ":"
                              +:+ pretty (HttpsProxy.port dest)) session w in
   let r := connect_finish dest sock resp w1 in
   r.1.2 = Resume ∧
   kind_of r.1.1 r.2 = Some (Tls (Some session) (Some sock))).
Proof.
  intros Hhost.
  assert (Hsend : ∀ (ag : HttpsProxyAgent) (w0 : world),
            let ag' := match JsMap.get (sessionCacheKey ag) (sessionCache w0)
                       with
                       | Some cached => with_session (Some cached) ag
                       | None => ag
                       end in
            let r := connect_send decodeURIComponent base64 isIPv6 ag dest
                       w0 in
            r.1.1 = inr (next_socket w0) ∧ r.1.2 = ag' ∧
            kind_of (next_socket w0) r.2
            = Some (if decide (proxy_protocol ag = "https:")
                    then Tls (connectOpts_session ag') None else Tcp)).
  { intros ag w0 ag' r.
    destruct (HttpsProxyFacts.connect_send_writes_request
                decodeURIComponent base64 isIPv6 ag dest w0 Hhost)
      as (k & ag2 & w2 & Hs & _ & Hlook & _).
    assert (Hag : ag2 = ag' ∧
              k = if decide (proxy_protocol ag = "https:")
                  then Tls (connectOpts_session ag') None else Tcp).
    { revert Hs Hlook. unfold connect_send. rewrite Hhost. cbn [negb].
      fold ag'.
      assert (Hp : proxy_protocol ag' = proxy_protocol ag).
      { unfold ag'. by destruct (JsMap.get _ (sessionCache w0)). }
      rewrite Hp.
      destruct (decide (proxy_protocol ag = "https:")).
      - unfold open_socket at 1.
        match goal with
        | |- context [connect_headers ?a ?b ?c ?d ?e ?f] =>
            pose proof (HttpsProxyFacts.connect_headers_frame a b c d e f)
              as [Hf _];
            destruct (connect_headers a b c d e f) as [hs w3]
        end.
        cbn [fst snd socks] in Hf. intros [= <- <-].
        unfold sock_write, update_socket. cbn [socks].
        rewrite lookup_alter, decide_True by done.
        rewrite Hf, lookup_insert_eq. cbn. intros [= <-]. done.
      - unfold open_socket at 1.
        match goal with
        | |- context [connect_headers ?a ?b ?c ?d ?e ?f] =>
            pose proof (HttpsProxyFacts.connect_headers_frame a b c d e f)
              as [Hf _];
            destruct (connect_headers a b c d e f) as [hs w3]
        end.
        cbn [fst snd socks] in Hf. intros [= <- <-].
        unfold sock_write, update_socket. cbn [socks].
        rewrite lookup_alter, decide_True by done.
        rewrite Hf, lookup_insert_eq. cbn. intros [= <-]. done. }
    destruct Hag as [-> ->]. unfold r. rewrite Hs. cbn [fst snd].
    split_and!; [done|done|]. unfold kind_of. by rewrite Hlook. }
  split.
  - intros w1 r.
    assert (Hget : JsMap.get (sessionCacheKey agent) (sessionCache w1)
                   = Some session).
    { unfold w1, store_session; simpl. by rewrite jsmap_get_set, decide_True. }
    assert (Hnext : next_socket w1 = next_socket w) by done.
    destruct (Hsend agent w1) as (H1 & H2 & H3).
    fold r in H1, H2, H3. rewrite Hget in H2, H3. rewrite Hnext in H1, H3.
    split_and!; [exact H1|exact H3|].
    intros w' Hnone r'. unfold r'. rewrite H2.
    destruct (Hsend (with_session (Some session) agent) w') as (G1 & _ & G3).
    cbn [sessionCacheKey with_session] in G3. rewrite Hnone in G3.
    split; [exact G1|exact G3].
  - intros H200 Hsec w1 r. unfold r, connect_finish.
    rewrite decide_True by done. rewrite Hsec.
    assert (Hget : JsMap.get ("target:" +:+ host dest +:+ ":"
                                +:+ pretty (HttpsProxy.port dest))
                     (sessionCache w1) = Some session).
    { unfold w1, store_session; simpl. by rewrite jsmap_get_set, decide_True. }
    rewrite Hget. unfold kind_of, open_socket; simpl.
    by rewrite lookup_insert_eq.
Qed.
End tunnel.

Section tls_options.
Variable isIP : string → bool.

Lemma prop_omit (k : string) (keys : list string) (obj : object) :
  JsMap.wf obj →
  prop k (omit obj keys) = if decide (k ∈ keys) then JUndefined else prop k obj.
Proof.
  intros Hwf. unfold prop, omit.
  etrans; [apply f_equal; by apply jsmap_get_filter_wf|].
  destruct (JsMap.get k obj) as [v|]; simpl.
  - destruct (decide (k ∈ keys)).
    + by rewrite decide_False by (intros H; by apply H).
    + by rewrite decide_True.
  - by destruct (decide (k ∈ keys)).
Qed.

Lemma prop_set (k k' : string) (v : jsval) (obj : object) :
  prop k' (JsMap.set k v obj) = if decide (k' = k) then v else prop k' obj.
Proof.
  unfold prop. rewrite jsmap_get_set. by destruct (decide (k' = k)).
Qed.

(** X21. The options of a TLS upgrade. [host], [path] and [port] of the
    request options are never passed on; every other option except
    [servername] is passed on as it is. A [servername] that the caller
    gave is kept; without one, the server name is the host of the
    request when that is a name, and is left out when the host is an IP
    address. *)
Theorem upgrade_options_carry_server_name (opts : object) :
  JsMap.wf opts →
  let o := upgrade_options isIP opts in
  prop "host" o = JUndefined ∧
  prop "path" o = JUndefined ∧
  prop "port" o = JUndefined ∧
  (∀ k, k ∉ ["host"; "path"; "port"; "servername"] →
        prop k o = prop k opts) ∧
  (prop "servername" opts ≠ JUndefined →
   prop "servername" o = prop "servername" opts) ∧
  (prop "servername" opts = JUndefined →
   ∀ h, prop "host" opts = JString h →
        prop "servername" o
        = if negb (String.eqb h EmptyString) && negb (isIP h)
          then JString h else JUndefined).
Proof.
  intros Hwf o.
  assert (Hwf' : JsMap.wf (setServernameFromNonIpHost isIP opts)).
  { unfold setServernameFromNonIpHost.
    destruct (_ && _ && _); [by apply jsmap_wf_set|done]. }
  assert (Ho : ∀ k, prop k o =
            if decide (k ∈ ["host"; "path"; "port"]) then JUndefined
            else prop k (setServernameFromNonIpHost isIP opts)).
  { intros k. unfold o, upgrade_options. by apply prop_omit. }
  split_and!.
  - rewrite Ho. by rewrite decide_True by (by repeat constructor).
  - rewrite Ho. by rewrite decide_True by (by repeat constructor).
  - rewrite Ho. by rewrite decide_True by (by repeat constructor).
  - intros k Hk. rewrite Ho.
    rewrite !not_elem_of_cons in Hk. destruct Hk as (? & ? & ? & ? & _).
    rewrite decide_False
      by (rewrite !elem_of_cons, elem_of_nil; by intros [?|[?|[?|?]]]).
    unfold setServernameFromNonIpHost.
    destruct (_ && _ && _); [|done]. rewrite prop_set.
    by rewrite decide_False.
  - intros Hsn. rewrite Ho.
    rewrite decide_False
      by (rewrite !elem_of_cons, elem_of_nil; by intros [?|[?|[?|?]]]).
    unfold setServernameFromNonIpHost.
    by rewrite bool_decide_eq_false_2.
  - intros Hsn h Hh. rewrite Ho.
    rewrite decide_False
      by (rewrite !elem_of_cons, elem_of_nil; by intros [?|[?|[?|?]]]).
    unfold setServernameFromNonIpHost.
    rewrite bool_decide_eq_true_2 by done. rewrite Hh. simpl.
    unfold truthy.
    destruct (negb (String.eqb h EmptyString) && negb (isIP h)).
    + by rewrite prop_set, decide_True.
    + done.
Qed.
End tls_options.

Lemma header_cache_is_shared_between_agents_witness :
  let A := (new_agent alice_proxy None).1 in
  let B := (new_agent bob_proxy None).1 in
  let ra := connect_headers example_decode example_base64 no_ipv6 A
              secure_request quiet_world in
  connect_headers example_decode example_base64 no_ipv6 B secure_request ra.2
    = ra ∧
  (JsMap.get (sessionCacheKey A +:+ ":" +:+ host secure_request +:+ ":"
                +:+ pretty (HttpsProxy.port secure_request))
     (commonHeadersCache quiet_world) = None →
   truthy (JString (username alice_proxy))
     || truthy (JString (password alice_proxy)) = true →
   JsMap.get "Proxy-Authorization" ra.1
     = Some (JString ("Basic " +:+
               example_base64 (example_decode (username alice_proxy) +:+ ":"
                       +:+ example_decode (password alice_proxy))))).
Proof.
  apply (header_cache_is_shared_between_agents example_decode example_base64
           no_ipv6 alice_proxy bob_proxy None None secure_request
           quiet_world); reflexivity.
Defined.

Lemma stored_session_is_offered_witness :
  (let w1 := store_session (sessionCacheKey (new_agent v6_proxy None).1)
               "session-1" quiet_world in
   let r := connect_send example_decode example_base64 no_ipv6
              (new_agent v6_proxy None).1 secure_request w1 in
   r.1.1 = inr (next_socket quiet_world) ∧
   kind_of (next_socket quiet_world) r.2
     = Some (if decide (proxy_protocol (new_agent v6_proxy None).1
                        = "https:")
             then Tls (Some "session-1") None else Tcp) ∧
   ∀ w', JsMap.get (sessionCacheKey (new_agent v6_proxy None).1)
           (sessionCache w') = None →
         let r' := connect_send example_decode example_base64 no_ipv6 r.1.2
                     secure_request w' in
         r'.1.1 = inr (next_socket w') ∧
         kind_of (next_socket w') r'.2
           = Some (if decide (proxy_protocol (new_agent v6_proxy None).1
                              = "https:")
                   then Tls (Some "session-1") None else Tcp)) ∧
  (statusCode (Response 200 "") = 200 → secureEndpoint secure_request = true →
   let w1 := store_session ("target:" +:+ host secure_request +:+ ":"
                              +:+ pretty (HttpsProxy.port secure_request))
               "session-1" quiet_world in
   let r := connect_finish secure_request 0%nat (Response 200 "") w1 in
   r.1.2 = Resume ∧
   kind_of r.1.1 r.2 = Some (Tls (Some "session-1") (Some 0%nat))).
Proof.
  apply (stored_session_is_offered example_decode example_base64 no_ipv6
           (new_agent v6_proxy None).1 secure_request "session-1"
           (Response 200 "") 0%nat quiet_world).
  reflexivity.
Defined.

Lemma upgrade_options_carry_server_name_witness :
  let o := upgrade_options example_isIP request_options in
  prop "host" o = JUndefined ∧
  prop "path" o = JUndefined ∧
  prop "port" o = JUndefined ∧
  (∀ k, k ∉ ["host"; "path"; "port"; "servername"] →
        prop k o = prop k request_options) ∧
  (prop "servername" request_options ≠ JUndefined →
   prop "servername" o = prop "servername" request_options) ∧
  (prop "servername" request_options = JUndefined →
   ∀ h, prop "host" request_options = JString h →
        prop "servername" o
        = if negb (String.eqb h EmptyString) && negb (example_isIP h)
          then JString h else JUndefined).
Proof.
  apply (upgrade_options_carry_server_name example_isIP request_options).
  unfold JsMap.wf; simpl. apply (bool_decide_unpack _). reflexivity.
Defined.

End HttpsProxyMoreFacts.

(** ** data-uri-to-buffer *)

Module DataUriFacts.
Import DataUriCache.

Section lru.
Context {V : Type}.
Implicit Types (m : list (string * V)) (c : LRUCache V).

Lemma jsmap_delete_absent (k : string) m :
  JsMap.get k m = None → JsMap.delete k m = m.
Proof.
  induction m as [|[k0 v0] rest IH]; simpl; [done|].
  destruct (decide (k = k0)); [done|]. intros Hg. by rewrite IH.
Qed.

Lemma jsmap_set_absent (k : string) (v : V) m :
  JsMap.get k m = None → JsMap.set k v m = m ++ [(k, v)].
Proof.
  induction m as [|[k0 v0] rest IH]; simpl; [done|].
  destruct (decide (k = k0)); [done|]. intros Hg. by rewrite IH.
Qed.

Lemma jsmap_delete_app_ne (k k' : string) (v : V) m :
  k ≠ k' → JsMap.delete k (m ++ [(k', v)]) = JsMap.delete k m ++ [(k', v)].
Proof.
  intros Hne. induction m as [|[k0 v0] rest IH]; simpl.
  - by rewrite decide_False.
  - destruct (decide (k = k0)); [done|]. by rewrite IH.
Qed.

Lemma jsmap_wf_snoc (k : string) (v : V) m :
  JsMap.wf m → JsMap.get k m = None → JsMap.wf (m ++ [(k, v)]).
Proof.
  unfold JsMap.wf, JsMap.keys. intros Hwf Hg%jsmap_get_None_keys.
  rewrite fmap_app. apply NoDup_app. split_and!; [done| |apply NoDup_singleton].
  intros x Hx ->%list_elem_of_singleton. done.
Qed.

(** [get] and [set] on a map with unique keys, in normal form. *)
Lemma get_hit (k : string) (v : V) c :
  JsMap.wf (cache c) → JsMap.get k (cache c) = Some v →
  get k c = (Some v, Cache (maxSize c) (JsMap.delete k (cache c) ++ [(k, v)])).
Proof.
  intros Hwf Hg. unfold get, JsMap.has. rewrite Hg.
  by rewrite jsmap_set_absent by by apply jsmap_get_delete_eq.
Qed.

Lemma set_normal (k : string) (v : V) c :
  JsMap.wf (cache c) →
  set k v c =
  Cache (maxSize c)
    (if decide (JsMap.size (JsMap.delete k (cache c) ++ [(k, v)]) > maxSize c)
     then tail (JsMap.delete k (cache c) ++ [(k, v)])
     else JsMap.delete k (cache c) ++ [(k, v)]).
Proof.
  intros Hwf. unfold set, JsMap.has.
  assert (Hm : (if match JsMap.get k (cache c) with
                   | Some _ => true
                   | None => false
                   end
                then JsMap.delete k (cache c) else cache c)
               = JsMap.delete k (cache c)).
  { destruct (JsMap.get k (cache c)) eqn:Hg; [done|].
    by rewrite jsmap_delete_absent. }
  rewrite Hm, jsmap_set_absent by by apply jsmap_get_delete_eq.
  by rewrite jsmap_delete_first_tail.
Qed.

(** X24. The cache of parsed data URIs. On a cache with unique keys
    that is within its bound (at least 1), [set] keeps the keys unique
    and the cache within the bound, and the value stored is what [get]
    returns next. [get] changes neither the keys nor the size. An entry
    that was just read survives the next [set] of another key (bound at
    least 2): what [set] evicts is the entry least recently read or
    written. *)
Theorem data_uri_cache_keeps_recent (key : string) (value : V) c :
  JsMap.wf (cache c) → JsMap.size (cache c) ≤ maxSize c → 1 ≤ maxSize c →
  JsMap.wf (cache (set key value c)) ∧
  JsMap.size (cache (set key value c)) ≤ maxSize c ∧
  maxSize (set key value c) = maxSize c ∧
  (get key (set key value c)).1 = Some value ∧
  (∀ k, JsMap.wf (cache (get k c).2) ∧
        JsMap.size (cache (get k c).2) = JsMap.size (cache c) ∧
        (get k c).1 = JsMap.get k (cache c)) ∧
  (∀ k v, JsMap.get k (cache c) = Some v → k ≠ key → 2 ≤ maxSize c →
          (get k (set key value (get k c).2)).1 = Some v).
Proof.
  intros Hwf Hsize Hmax.
  assert (Hset : ∀ c0 : LRUCache V,
            JsMap.wf (cache c0) → JsMap.size (cache c0) ≤ maxSize c0 →
            1 ≤ maxSize c0 →
            JsMap.wf (cache (set key value c0)) ∧
            JsMap.size (cache (set key value c0)) ≤ maxSize c0 ∧
            ∃ xs, cache (set key value c0) = xs ++ [(key, value)] ∧
                  JsMap.get key xs = None ∧
                  (xs = JsMap.delete key (cache c0) ∨
                   xs = tail (JsMap.delete key (cache c0)))).
  { intros c0 Hwf0 Hsize0 Hmax0. rewrite set_normal by done. simpl.
    pose proof (jsmap_wf_delete key _ Hwf0) as Hwfd.
    pose proof (jsmap_get_delete_eq key _ Hwf0) as Hgd.
    pose proof (jsmap_length_delete_le key (cache c0)) as Hlen.
    unfold JsMap.size in *. rewrite length_app in *. simpl in *.
    destruct (decide (_ > maxSize c0)) as [Hover|Hfit].
    - destruct (JsMap.delete key (cache c0)) as [|[k0 v0] rest] eqn:Hd;
        [simpl in *; lia|].
      simpl in *. split_and!.
      + apply jsmap_wf_snoc; [by apply (jsmap_wf_tail ((k0, v0) :: rest))|].
        by destruct (decide (key = k0)).
      + rewrite length_app. simpl. lia.
      + exists rest. split_and!; [done| |by right].
        by destruct (decide (key = k0)).
    - split_and!.
      + by apply jsmap_wf_snoc.
      + rewrite length_app. simpl. lia.
      + exists (JsMap.delete key (cache c0)). split_and!; [done|done|by left]. }
  assert (Hget : ∀ k, JsMap.wf (cache (get k c).2) ∧
                      JsMap.size (cache (get k c).2) = JsMap.size (cache c) ∧
                      (get k c).1 = JsMap.get k (cache c)).
  { intros k. destruct (JsMap.get k (cache c)) as [v|] eqn:Hg.
    - rewrite (get_hit k v c Hwf Hg). simpl. split_and!; [| |done].
      + apply jsmap_wf_snoc; [by apply jsmap_wf_delete|].
        by apply jsmap_get_delete_eq.
      + unfold JsMap.size. rewrite length_app, jsmap_length_delete.
        unfold JsMap.has. rewrite Hg. simpl.
        destruct (cache c); [done|]. simpl. lia.
    - unfold get, JsMap.has. by rewrite Hg. }
  destruct (Hset c Hwf Hsize Hmax) as (Hwf1 & Hsize1 & xs & Hxs & Hnone & _).
  split_and!; [done|done|by rewrite set_normal| |done|].
  - rewrite (get_hit key value) ; [done|done|].
    rewrite Hxs. by apply DispatcherMoreFacts.jsmap_get_snoc.
  - intros k v Hg Hne Hmax2. clear Hwf1 Hsize1 Hxs Hnone.
    destruct (Hget k) as (Hwfg & Hsizeg & _).
    rewrite (get_hit k v c Hwf Hg) in Hwfg, Hsizeg |- *.
    cbn [fst snd cache] in Hwfg, Hsizeg |- *.
    set (c' := Cache (maxSize c) (JsMap.delete k (cache c) ++ [(k, v)])).
    assert (Hk : JsMap.get k (cache (set key value c')) = Some v).
    { rewrite set_normal by done. simpl.
      rewrite jsmap_delete_app_ne by done.
      set (ys := JsMap.delete key (JsMap.delete k (cache c))).
      assert (Hys : JsMap.get k ys = None).
      { unfold ys. rewrite jsmap_get_delete_ne by done.
        by apply jsmap_get_delete_eq. }
      rewrite <- app_assoc. simpl.
      destruct (decide (JsMap.size (ys ++ [(k, v); (key, value)])
                        > maxSize c)) as [Hover|Hfit].
      - destruct ys as [|[k0 v0] rest].
        + unfold JsMap.size in Hover. simpl in Hover. lia.
        + simpl. simpl in Hys.
          destruct (decide (k = k0)); [done|].
          rewrite HttpProxyFacts.jsmap_get_app, Hys. simpl.
          by rewrite decide_True.
      - rewrite HttpProxyFacts.jsmap_get_app, Hys. simpl.
        by rewrite decide_True. }
    destruct (Hset c') as (Hwf2 & _); [done|simpl; lia|done|].
    by rewrite (get_hit k v _ Hwf2 Hk).
Qed.
End lru.

(** *** Base64 *)

Section base64.
Import DataUriBase64 Base64Runs.

Lemma forall_below (n : nat) (P : Z → bool) :
  forallb P (Z.of_nat <$> seq 0 n) = true →
  ∀ v, 0 ≤ v < Z.of_nat n → P v = true.
Proof.
  intros Hall v Hv. rewrite forallb_forall in Hall. apply Hall.
  apply list_elem_of_In, list_elem_of_fmap. exists (Z.to_nat v).
  split; [lia|]. apply list_elem_of_In, in_seq. lia.
Qed.

Lemma forall_octet_pairs (P : Z → Z → bool) :
  forallb (λ a, forallb (P a) octets) octets = true →
  ∀ a b, is_byte a → is_byte b → P a b = true.
Proof.
  intros Hall a b Ha Hb.
  pose proof (forall_below 256 _ Hall a Ha) as Hrow. simpl in Hrow.
  by apply (forall_below 256 (P a)).
Qed.

(** The 64 digits: each is found again by the table, and none is the
    padding character. *)
Lemma digit_found (v : Z) :
  0 ≤ v < 64 →
  lookup (Some (digit v)) = v ∧ is_data (Some (digit v)) = true.
Proof.
  intros Hv.
  assert (Hall : forallb digit_ok (Z.of_nat <$> seq 0 64) = true)
    by by vm_compute.
  pose proof (forall_below 64 digit_ok Hall v Hv) as H.
  unfold digit_ok in H.
  apply andb_true_iff in H as [H1%bool_decide_eq_true H2].
  by split.
Qed.

Lemma in_sextet_spec (v : Z) : in_sextet v = true → 0 ≤ v < 64.
Proof. unfold in_sextet. lia. Qed.

(** The bit arithmetic of the three bytes of a group, checked on every
    pair of bytes. *)
Lemma first_byte (b0 b1 : Z) :
  is_byte b0 → is_byte b1 →
  let i0 := Z.shiftr b0 2 in
  let i1 := Z.lor (Z.shiftl (Z.land b0 3) 4) (Z.shiftr b1 4) in
  0 ≤ i0 < 64 ∧ 0 ≤ i1 < 64 ∧
  to_uint8 (Z.lor (Z.shiftl i0 2) (Z.shiftr i1 4)) = b0 ∧
  Z.land i1 15 = Z.shiftr b1 4.
Proof.
  intros H0 H1.
  assert (Hall : forallb (λ a, forallb (first_byte_ok a) octets) octets
                 = true) by by vm_compute.
  pose proof (forall_octet_pairs first_byte_ok Hall b0 b1 H0 H1) as H.
  unfold first_byte_ok in H. cbv zeta in H.
  apply andb_true_iff in H as [H Hd].
  apply andb_true_iff in H as [H Hc].
  apply andb_true_iff in H as [Ha%in_sextet_spec Hb%in_sextet_spec].
  cbv zeta. split_and!; lia.
Qed.

Lemma second_byte (b1 b2 : Z) :
  is_byte b1 → is_byte b2 →
  let i2 := Z.lor (Z.shiftl (Z.land b1 15) 2) (Z.shiftr b2 6) in
  let i3 := Z.land b2 63 in
  0 ≤ i2 < 64 ∧ 0 ≤ i3 < 64 ∧
  to_uint8 (Z.lor (Z.shiftl (Z.shiftr b1 4) 4) (Z.shiftr i2 2)) = b1 ∧
  to_uint8 (Z.lor (Z.shiftl (Z.land i2 3) 6) i3) = b2.
Proof.
  intros H1 H2.
  assert (Hall : forallb (λ a, forallb (second_byte_ok a) octets) octets
                 = true) by by vm_compute.
  pose proof (forall_octet_pairs second_byte_ok Hall b1 b2 H1 H2) as H.
  unfold second_byte_ok in H. cbv zeta in H.
  apply andb_true_iff in H as [H Hd].
  apply andb_true_iff in H as [H Hc].
  apply andb_true_iff in H as [Ha%in_sextet_spec Hb%in_sextet_spec].
  cbv zeta. split_and!; lia.
Qed.

(** The last group, of one byte or of two. *)
Lemma last_bytes (b0 b1 : Z) :
  is_byte b0 → is_byte b1 →
  let j1 := Z.shiftl (Z.land b0 3) 4 in
  let j2 := Z.shiftl (Z.land b1 15) 2 in
  0 ≤ j1 < 64 ∧ 0 ≤ j2 < 64 ∧
  to_uint8 (Z.lor (Z.shiftl (Z.shiftr b0 2) 2) (Z.shiftr j1 4)) = b0 ∧
  to_uint8 (Z.lor (Z.shiftl (Z.shiftr b1 4) 4) (Z.shiftr j2 2)) = b1.
Proof.
  intros H0 H1.
  assert (Hall : forallb (λ a, forallb (last_bytes_ok a) octets) octets
                 = true) by by vm_compute.
  pose proof (forall_octet_pairs last_bytes_ok Hall b0 b1 H0 H1) as H.
  unfold last_bytes_ok in H. cbv zeta in H.
  apply andb_true_iff in H as [H Hd].
  apply andb_true_iff in H as [H Hc].
  apply andb_true_iff in H as [Ha%in_sextet_spec Hb%in_sextet_spec].
  cbv zeta. split_and!; lia.
Qed.

Lemma list_ind3 {A : Type} (P : list A → Prop) :
  P [] → (∀ a, P [a]) → (∀ a b, P [a; b]) →
  (∀ a b c l, P l → P (a :: b :: c :: l)) →
  ∀ l, P l.
Proof.
  intros H0 H1 H2 H3 l.
  assert (H : ∀ n l, (length l ≤ n)%nat → P l).
  { clear l. induction n as [|n IH]; intros l Hl.
    - destruct l; [done|simpl in Hl; lia].
    - destruct l as [|a [|b [|c l]]]; [done|done|done|].
      apply H3, IH. simpl in Hl. lia. }
  by apply (H (length l)).
Qed.

Lemma decode_loop_group (c0 c1 c2 c3 : nat) (rest : list nat) :
  decode_loop (c0 :: c1 :: c2 :: c3 :: rest)
  = decode_group (Some c0) (Some c1) (Some c2) (Some c3) ++ decode_loop rest.
Proof. reflexivity. Qed.

Lemma decode_group_digits (i0 i1 i2 i3 : Z) :
  0 ≤ i0 < 64 → 0 ≤ i1 < 64 → 0 ≤ i2 < 64 → 0 ≤ i3 < 64 →
  decode_group (Some (digit i0)) (Some (digit i1)) (Some (digit i2))
    (Some (digit i3))
  = [to_uint8 (Z.lor (Z.shiftl i0 2) (Z.shiftr i1 4));
     to_uint8 (Z.lor (Z.shiftl (Z.land i1 15) 4) (Z.shiftr i2 2));
     to_uint8 (Z.lor (Z.shiftl (Z.land i2 3) 6) i3)].
Proof.
  intros H0 H1 H2 H3. unfold decode_group.
  destruct (digit_found i0 H0) as [-> _].
  destruct (digit_found i1 H1) as [-> _].
  destruct (digit_found i2 H2) as [-> ->].
  destruct (digit_found i3 H3) as [-> ->].
  done.
Qed.

Lemma decode_loop_encode (bytes : list Z) :
  Forall is_byte bytes → decode_loop (encode bytes) = bytes.
Proof.
  induction bytes as [|b0|b0 b1|b0 b1 b2 rest IH] using list_ind3.
  - done.
  - intros [H0 _]%Forall_cons.
    destruct (last_bytes b0 b0 H0 H0) as (Hj1 & _ & Hb0 & _).
    destruct (first_byte b0 b0 H0 H0) as (Hi0 & _).
    change (encode [b0])
      with [digit (Z.shiftr b0 2); digit (Z.shiftl (Z.land b0 3) 4);
            pad; pad].
    rewrite decode_loop_group. unfold decode_group.
    destruct (digit_found _ Hi0) as [-> _].
    destruct (digit_found _ Hj1) as [-> _].
    change (is_data (Some pad)) with false. cbn [app decode_loop].
    by rewrite Hb0.
  - intros [H0 [H1 _]%Forall_cons]%Forall_cons.
    destruct (first_byte b0 b1 H0 H1) as (Hi0 & Hi1 & Hb0 & Hl1).
    destruct (last_bytes b1 b1 H1 H1) as (_ & Hj2 & _ & Hb1).
    change (encode [b0; b1])
      with [digit (Z.shiftr b0 2);
            digit (Z.lor (Z.shiftl (Z.land b0 3) 4) (Z.shiftr b1 4));
            digit (Z.shiftl (Z.land b1 15) 2); pad].
    rewrite decode_loop_group. unfold decode_group.
    destruct (digit_found _ Hi0) as [-> _].
    destruct (digit_found _ Hi1) as [-> _].
    destruct (digit_found _ Hj2) as [-> ->].
    change (is_data (Some pad)) with false. cbn [app decode_loop].
    by rewrite Hb0, Hl1, Hb1.
  - intros [H0 [H1 [H2 Hrest]%Forall_cons]%Forall_cons]%Forall_cons.
    destruct (first_byte b0 b1 H0 H1) as (Hi0 & Hi1 & Hb0 & Hl1).
    destruct (second_byte b1 b2 H1 H2) as (Hi2 & Hi3 & Hb1 & Hb2).
    change (encode (b0 :: b1 :: b2 :: rest))
      with (digit (Z.shiftr b0 2)
            :: digit (Z.lor (Z.shiftl (Z.land b0 3) 4) (Z.shiftr b1 4))
            :: digit (Z.lor (Z.shiftl (Z.land b1 15) 2) (Z.shiftr b2 6))
            :: digit (Z.land b2 63) :: encode rest).
    rewrite decode_loop_group, decode_group_digits by done.
    rewrite Hb0, Hl1, Hb1, Hb2, (IH Hrest). done.
Qed.

Lemma padding_app (l1 l2 : list nat) :
  (2 ≤ length l2)%nat → padding (l1 ++ l2) = padding l2.
Proof.
  intros Hl. unfold padding, charCodeAt. rewrite length_app.
  rewrite !lookup_app_r by lia.
  replace (length l1 + length l2 - 1 - length l1)%nat
    with (length l2 - 1)%nat by lia.
  replace (length l1 + length l2 - 2 - length l1)%nat
    with (length l2 - 2)%nat by lia.
  rewrite (bool_decide_eq_true_2 (0 < length l1 + length l2)%nat) by lia.
  rewrite (bool_decide_eq_true_2 (1 < length l1 + length l2)%nat) by lia.
  rewrite (bool_decide_eq_true_2 (0 < length l2)%nat) by lia.
  by rewrite (bool_decide_eq_true_2 (1 < length l2)%nat) by lia.
Qed.

Lemma padding_quad (c0 c1 c2 c3 : nat) :
  padding [c0; c1; c2; c3]
  = (if bool_decide (c3 = pad) then 1 else 0)
    + (if bool_decide (c2 = pad) then 1 else 0).
Proof.
  unfold padding, charCodeAt, pad. simpl.
  destruct (decide (c3 = 61%nat)) as [->|?], (decide (c2 = 61%nat)) as [->|?];
    repeat first [rewrite bool_decide_eq_true_2 by congruence
                 |rewrite bool_decide_eq_false_2 by congruence]; done.
Qed.

Lemma digit_not_pad (v : Z) : 0 ≤ v < 64 → digit v ≠ pad.
Proof.
  intros Hv Heq. destruct (digit_found v Hv) as [_ Hd].
  rewrite Heq in Hd. done.
Qed.

Lemma encode_length_ge (bytes : list Z) :
  bytes ≠ [] → (4 ≤ length (encode bytes))%nat.
Proof.
  destruct bytes as [|b0 [|b1 [|b2 rest]]]; [done|simpl; lia..].
Qed.

Lemma output_of_encode (bytes : list Z) :
  Forall is_byte bytes →
  Z.of_nat (length (encode bytes)) * 3 - 4 * padding (encode bytes)
  = 4 * Z.of_nat (length bytes).
Proof.
  induction bytes as [|b0|b0 b1|b0 b1 b2 rest IH] using list_ind3.
  - done.
  - intros [H0 _]%Forall_cons.
    destruct (last_bytes b0 b0 H0 H0) as (Hj1 & _).
    change (encode [b0])
      with [digit (Z.shiftr b0 2); digit (Z.shiftl (Z.land b0 3) 4);
            pad; pad].
    rewrite padding_quad, !bool_decide_eq_true_2 by done. simpl. lia.
  - intros [H0 [H1 _]%Forall_cons]%Forall_cons.
    destruct (last_bytes b1 b1 H1 H1) as (_ & Hj2 & _).
    change (encode [b0; b1])
      with [digit (Z.shiftr b0 2);
            digit (Z.lor (Z.shiftl (Z.land b0 3) 4) (Z.shiftr b1 4));
            digit (Z.shiftl (Z.land b1 15) 2); pad].
    rewrite padding_quad, bool_decide_eq_true_2 by done.
    rewrite bool_decide_eq_false_2 by by apply digit_not_pad.
    simpl. lia.
  - intros [H0 [H1 [H2 Hrest]%Forall_cons]%Forall_cons]%Forall_cons.
    destruct (second_byte b1 b2 H1 H2) as (Hi2 & Hi3 & _).
    change (encode (b0 :: b1 :: b2 :: rest))
      with ([digit (Z.shiftr b0 2);
             digit (Z.lor (Z.shiftl (Z.land b0 3) 4) (Z.shiftr b1 4));
             digit (Z.lor (Z.shiftl (Z.land b1 15) 2) (Z.shiftr b2 6));
             digit (Z.land b2 63)] ++ encode rest).
    destruct (decide (rest = [])) as [->|Hne].
    + change (encode []) with (@nil nat). rewrite app_nil_r.
      rewrite padding_quad.
      rewrite !bool_decide_eq_false_2 by by apply digit_not_pad.
      simpl. lia.
    + pose proof (encode_length_ge rest Hne) as Hlen.
      rewrite padding_app by lia. rewrite length_app.
      specialize (IH Hrest). simpl length. lia.
Qed.

(** X25. [base64ToArrayBuffer] decodes what base64 encodes: for every
    sequence of bytes, the buffer made from its RFC 4648 encoding, with
    padding, holds exactly these bytes, no more and no fewer. *)
Theorem base64_decodes_what_was_encoded (bytes : list Z) :
  Forall is_byte bytes →
  base64ToArrayBuffer (encode bytes) = bytes.
Proof.
  intros Hb. unfold base64ToArrayBuffer, outputLen.
  rewrite decode_loop_encode, output_of_encode by done.
  rewrite Z.mul_comm, Z.quot_mul by done.
  rewrite Nat2Z.id. apply resize_all.
Qed.

(** The bytes of [hi] and of [hey], from their encodings [aGk=] and
    [aGV5]. *)
Lemma base64_decodes_what_was_encoded_witness :
  base64ToArrayBuffer (encode [104; 105]) = [104; 105] ∧
  encode [104; 105] = codes "aGk=" ∧
  base64ToArrayBuffer (codes "aGV5") = [104; 101; 121].
Proof.
  split_and!; [|reflexivity|reflexivity].
  apply (base64_decodes_what_was_encoded [104; 105]).
  repeat constructor; done.
Defined.
End base64.

Lemma data_uri_cache_keeps_recent_witness :
  let c := DataUriCache.Cache 2 [("data:,a", "a"); ("data:,b", "b")] in
  JsMap.wf (cache (set "data:,c" "c" c)) ∧
  JsMap.size (cache (set "data:,c" "c" c)) ≤ maxSize c ∧
  maxSize (set "data:,c" "c" c) = maxSize c ∧
  (get "data:,c" (set "data:,c" "c" c)).1 = Some "c" ∧
  (∀ k, JsMap.wf (cache (get k c).2) ∧
        JsMap.size (cache (get k c).2) = JsMap.size (cache c) ∧
        (get k c).1 = JsMap.get k (cache c)) ∧
  (∀ k v, JsMap.get k (cache c) = Some v → k ≠ "data:,c" → 2 ≤ maxSize c →
          (get k (set "data:,c" "c" (get k c).2)).1 = Some v).
Proof.
  apply (data_uri_cache_keeps_recent "data:,c" "c"
           (DataUriCache.Cache 2 [("data:,a", "a"); ("data:,b", "b")])).
  - unfold JsMap.wf; simpl. apply (bool_decide_unpack _). reflexivity.
  - by vm_compute.
  - by vm_compute.
Defined.

End DataUriFacts.

(** ** pac-resolver *)

Module PacFacts.
Import PacResolver PacRuns.

Lemma insert_by_timestamp_perm (x : string * ProxyResultCacheEntry)
    (l : list (string * ProxyResultCacheEntry)) :
  insert_by_timestamp x l ≡ₚ x :: l.
Proof.
  induction l as [|y l IH]; simpl; [done|].
  destruct (decide (timestamp x.2 ≤ timestamp y.2)); [done|].
  rewrite IH. apply Permutation_swap.
Qed.

Lemma sort_by_timestamp_perm (l : list (string * ProxyResultCacheEntry)) :
  sort_by_timestamp l ≡ₚ l.
Proof.
  induction l as [|x l IH]; simpl; [done|].
  by rewrite insert_by_timestamp_perm, IH.
Qed.

Lemma delete_all_size (keys : list string) (c : result_cache) :
  JsMap.size (fold_left (λ m key, JsMap.delete key m) keys c) ≤ JsMap.size c.
Proof.
  revert c. induction keys as [|k keys IH]; intros c; simpl; [done|].
  etrans; [apply IH|]. unfold JsMap.size.
  pose proof (jsmap_length_delete_le k c). lia.
Qed.

Lemma delete_all_wf (keys : list string) (c : result_cache) :
  JsMap.wf c → JsMap.wf (fold_left (λ m key, JsMap.delete key m) keys c).
Proof.
  revert c. induction keys as [|k keys IH]; intros c Hwf; simpl; [done|].
  by apply IH, jsmap_wf_delete.
Qed.

(** The cleanup always finds something to delete. *)
Lemma entriesToDelete_head (now : Z) (c : result_cache) :
  c ≠ [] →
  ∃ k rest, entriesToDelete now c = k :: rest ∧ k ∈ JsMap.keys c.
Proof.
  intros Hne. unfold entriesToDelete.
  assert (Hm : ∃ n, maxToDelete = S n) by by exists 1999%nat.
  destruct Hm as [n ->].
  set (expired := filter (λ kv, RESULT_CACHE_TTL ≤ now - timestamp kv.2) c).
  destruct expired as [|[k e] exp'] eqn:Hexp.
  - cbn [JsMap.keys fmap list_fmap take length].
    rewrite decide_True by lia. cbn [app Nat.sub].
    destruct (sort_by_timestamp c) as [|[k e] sorted] eqn:Hs.
    + pose proof (sort_by_timestamp_perm c) as Hp. rewrite Hs in Hp.
      apply Permutation_nil_l in Hp. by destruct Hne.
    + exists k. eexists. split; [reflexivity|].
      unfold JsMap.keys. rewrite <- (sort_by_timestamp_perm c), Hs.
      apply list_elem_of_fmap. exists (k, e). split; [done|].
      apply elem_of_cons. by left.
  - assert (Hin : (k, e) ∈ c).
    { assert (H : (k, e) ∈ expired)
        by (rewrite Hexp; apply elem_of_cons; by left).
      unfold expired in H. by apply list_elem_of_filter in H as [_ H]. }
    assert (Hk : k ∈ JsMap.keys c).
    { unfold JsMap.keys. apply list_elem_of_fmap. by exists (k, e). }
    cbn [JsMap.keys fmap list_fmap take fst].
    destruct (decide (_ < _)%nat); by eexists _, _.
Qed.

(** X27. The memo of results stays within its limit: storing a result
    in a memo with unique keys that holds at most [MAX_CACHE_SIZE]
    entries leaves one with unique keys that holds at most as many,
    the cleanup removing at least one entry whenever the limit is
    passed. *)
Theorem result_cache_stays_bounded (resultCacheKey res : string) (now : Z)
    (c : result_cache) :
  JsMap.wf c → JsMap.size c ≤ MAX_CACHE_SIZE →
  JsMap.wf (store_result resultCacheKey now res c) ∧
  JsMap.size (store_result resultCacheKey now res c) ≤ MAX_CACHE_SIZE.
Proof.
  intros Hwf Hsize. unfold store_result.
  set (c1 := JsMap.set resultCacheKey (ResultEntry res now) c).
  assert (Hwf1 : JsMap.wf c1) by by apply jsmap_wf_set.
  assert (Hsize1 : JsMap.size c1 ≤ JsMap.size c + 1).
  { unfold JsMap.size, c1.
    pose proof (jsmap_length_set_le resultCacheKey (ResultEntry res now) c).
    lia. }
  destruct (decide (JsMap.size c1 > MAX_CACHE_SIZE)) as [Hover|Hfit];
    [|split; [done|lia]].
  split; [by apply delete_all_wf|].
  destruct (entriesToDelete_head now c1) as (k & rest & -> & Hk).
  { intros Heq. rewrite Heq in Hover. by vm_compute in Hover. }
  simpl. etrans; [apply delete_all_size|].
  unfold JsMap.size. rewrite jsmap_length_delete.
  destruct (JsMap.has k c1) eqn:Hhas.
  - unfold JsMap.size in *. destruct c1; simpl in *; lia.
  - unfold JsMap.has in Hhas.
    destruct (JsMap.get k c1) eqn:Hg; [done|].
    by apply jsmap_get_None_keys in Hg.
Qed.

(** Numbered maps have unique keys. *)
Lemma numbered_keys {V : Type} (v : V) (n from : nat) (k : string) :
  k ∈ JsMap.keys (CacheBounds.numbered v from n) →
  ∃ i, (from ≤ i < from + n)%nat ∧ k = "k" +:+ pretty (Z.of_nat i).
Proof.
  revert from. induction n as [|n IH]; intros from; unfold JsMap.keys;
    csimpl; [by intros ?%elem_of_nil|].
  intros [->|Hin]%elem_of_cons.
  - exists from. split; [lia|done].
  - destruct (IH (S from) Hin) as (i & Hi & ->). exists i. split; [lia|done].
Qed.

Lemma numbered_wf {V : Type} (v : V) (n from : nat) :
  JsMap.wf (CacheBounds.numbered v from n).
Proof.
  revert from. induction n as [|n IH]; intros from; unfold JsMap.wf,
    JsMap.keys; csimpl; [constructor|].
  apply NoDup_cons. split; [|apply IH].
  intros Hin. destruct (numbered_keys v n (S from) _ Hin) as (i & Hi & Heq).
  assert (Hp : pretty (Z.of_nat from) = pretty (Z.of_nat i)).
  { by injection Heq. }
  apply (inj pretty) in Hp. lia.
Qed.

Lemma numbered_size {V : Type} (v : V) (n from : nat) :
  JsMap.size (CacheBounds.numbered v from n) = Z.of_nat n.
Proof.
  unfold JsMap.size. f_equal. revert from.
  induction n as [|n IH]; intros from; [done|]. simpl. by rewrite IH.
Qed.

(** The memo at its limit: one more answer makes the cleanup run. *)
Lemma result_cache_stays_bounded_witness :
  JsMap.size full_result_cache = MAX_CACHE_SIZE ∧
  JsMap.wf (store_result "http://example.com/:example.com" 1000 "DIRECT"
              full_result_cache) ∧
  JsMap.size (store_result "http://example.com/:example.com" 1000 "DIRECT"
                full_result_cache) ≤ MAX_CACHE_SIZE.
Proof.
  assert (Hsize : JsMap.size full_result_cache = MAX_CACHE_SIZE).
  { unfold full_result_cache. by rewrite numbered_size. }
  split; [exact Hsize|].
  apply (result_cache_stays_bounded "http://example.com/:example.com"
           "DIRECT" 1000 full_result_cache).
  - apply numbered_wf.
  - rewrite Hsize. done.
Defined.

(** What the cleanup leaves of it: the two thousand oldest answers are
    gone, the new one is there. *)
Example result_cache_cleanup_at_limit :
  let c := store_result "http://example.com/:example.com" 1000 "DIRECT"
             full_result_cache in
  JsMap.size c = 8001 ∧
  JsMap.has "http://example.com/:example.com" c = true ∧
  JsMap.has "k1" c = false ∧ JsMap.has "k2000" c = false ∧
  JsMap.has "k2001" c = true.
Proof. by vm_compute. Qed.

(** X26. The memo of results is one for the whole module and its key
    is made of the URL and the host only. When a resolver has answered
    for a URL and stored its answer (the memo changed), any resolver
    asked for the same URL within the time to live gives that answer,
    whatever PAC script it was compiled from: its own script is not
    run, and the memo is left as it is. *)
Theorem result_cache_is_shared_between_resolvers
    (resolverA resolverB : string → string → string + string)
    (parsed : option parsed_url) (_host : option string) (t0 t1 : Z)
    (c c1 : result_cache) (res : string) :
  FindProxyForURL resolverA parsed _host t0 c = (Answer res, c1) →
  c1 ≠ c →
  JsMap.size c < MAX_CACHE_SIZE →
  t1 - t0 < RESULT_CACHE_TTL →
  FindProxyForURL resolverB parsed _host t1 c1 = (Answer res, c1).
Proof.
  unfold FindProxyForURL. destruct parsed as [urlObj|]; [|done].
  set (host := match _host with
               | Some h => if truthy (JString h) then h else hostname urlObj
               | None => hostname urlObj
               end).
  destruct (negb (truthy (JString host))); [done|].
  set (key := href urlObj +:+ ":" +:+ host).
  intros Hfirst Hchanged Hsize Ht.
  assert (Hstore : ∀ r, store_result key t0 r c
                        = JsMap.set key (ResultEntry r t0) c).
  { intros r. unfold store_result. rewrite decide_False; [done|].
    pose proof (jsmap_length_set_le key (ResultEntry r t0) c).
    unfold JsMap.size in *. lia. }
  assert (Hc1 : c1 = JsMap.set key (ResultEntry res t0) c).
  { destruct (JsMap.get key c) as [e|].
    - destruct (decide (t0 - timestamp e < RESULT_CACHE_TTL)).
      + injection Hfirst as _ Heq. by destruct Hchanged.
      + destruct (resolverA (href urlObj) host) as [err|r]; [done|].
        injection Hfirst as -> <-. apply Hstore.
    - destruct (resolverA (href urlObj) host) as [err|r]; [done|].
      injection Hfirst as -> <-. apply Hstore. }
  rewrite Hc1, jsmap_get_set, decide_True by done. simpl.
  by rewrite decide_True.
Qed.

(** The second resolver would connect directly; it answers with the
    proxy of the first. *)
Lemma result_cache_is_shared_between_resolvers_witness :
  FindProxyForURL direct_script (Some example_url) None 2000
    (FindProxyForURL proxy_script (Some example_url) None 1000 []).2
  = (Answer "PROXY proxy.local:8080",
     (FindProxyForURL proxy_script (Some example_url) None 1000 []).2).
Proof.
  apply (result_cache_is_shared_between_resolvers proxy_script direct_script
           (Some example_url) None 1000 2000 []).
  - reflexivity.
  - discriminate.
  - by vm_compute.
  - by vm_compute.
Defined.

End PacFacts.

(** ** get-uri *)

Module GetUriFacts.
Import GetUri GetUriRuns CacheBounds.


Section getUri.
Variable parse : string → option URL.

End getUri.


(** The runs behind it: the new URL is stored next to the old one and
    handed to [file]; a string that [new URL] refuses, and the empty
    string, throw and leave the cache as it was. *)
Example getUri_runs :
  getUri example_parse (UriString "file:///etc/hosts") example_url_cache
  = (Call file (Url 7 "file:" "file:///etc/hosts"),
     example_url_cache
       ++ [("file:///etc/hosts", Url 7 "file:" "file:///etc/hosts")]) ∧
  getUri example_parse (UriString "not a url") example_url_cache
  = (Threw "Invalid URL", example_url_cache) ∧
  getUri example_parse (UriString "") example_url_cache
  = (Threw missing_uri, example_url_cache).
Proof. by vm_compute. Qed.

End GetUriFacts.

(** ** data-uri-to-buffer: the parser *)

Module DataUriParserFacts.
Import DataUriBase64 DataUri Base64Runs DataUriRuns DataUriFacts.

Lemma has_char_app (c : ascii) (a b : string) :
  has_char c (a +:+ b) = has_char c a || has_char c b.
Proof.
  induction a as [|x a IH]; [done|].
  rewrite HttpProxyMoreFacts.append_cons. simpl. rewrite IH.
  by rewrite orb_assoc.
Qed.

Lemma strip_newlines_id (s : string) :
  has_char LF s = false → strip_newlines s = s.
Proof.
  induction s as [|c s IH]; [done|]. simpl.
  intros [Hc Hs]%orb_false_iff. rewrite Hc.
  destruct s as [|c' s']; [done|].
  simpl in Hs. apply orb_false_iff in Hs as [Hc' Hs'].
  rewrite Hc', andb_false_r. f_equal. apply IH. simpl. by rewrite Hc', Hs'.
Qed.

Lemma index_of_first (needle : ascii) (pre post : string) (i : Z) :
  has_char needle pre = false →
  index_from (String needle EmptyString)
    (pre +:+ String needle EmptyString +:+ post) i
  = i + Z.of_nat (String.length pre).
Proof.
  revert i. induction pre as [|c pre IH]; intros i Hpre.
  - rewrite HttpProxyMoreFacts.append_nil_l,
      HttpProxyMoreFacts.append_cons, HttpProxyMoreFacts.index_from_eq.
    simpl. destruct (ascii_dec needle needle); [|done].
    destruct post; simpl; lia.
  - simpl in Hpre. apply orb_false_iff in Hpre as [Hc Hpre].
    rewrite HttpProxyMoreFacts.append_cons, HttpProxyMoreFacts.index_from_eq.
    simpl String.prefix.
    destruct (ascii_dec needle c) as [->|Hne].
    { by rewrite Ascii.eqb_refl in Hc. }
    rewrite IH by done. simpl String.length. lia.
Qed.

Lemma take_chars_app (a b : string) :
  take_chars (String.length a) (a +:+ b) = a.
Proof.
  induction a as [|c a IH]; [by destruct b|].
  rewrite HttpProxyMoreFacts.append_cons. simpl. by rewrite IH.
Qed.

Lemma length_append (a b : string) :
  String.length (a +:+ b) = (String.length a + String.length b)%nat.
Proof.
  induction a as [|c a IH]; [done|].
  rewrite HttpProxyMoreFacts.append_cons. simpl. by rewrite IH.
Qed.

Lemma split_media_type (mediatype : string) :
  has_char ";"%char mediatype = false →
  split_semicolon (mediatype +:+ ";base64") = [mediatype; "base64"].
Proof.
  induction mediatype as [|c s IH]; [done|].
  simpl has_char. intros [Hc Hs]%orb_false_iff.
  rewrite HttpProxyMoreFacts.append_cons. simpl split_semicolon.
  rewrite Hc. by rewrite IH.
Qed.

(** The encoding holds no line feed. *)
Lemma encode_plain (bytes : list Z) :
  Forall is_byte bytes → has_char LF (text_of (encode bytes)) = false.
Proof.
  assert (Hd : ∀ v, 0 ≤ v < 64 →
            Ascii.eqb (ascii_of_nat (digit v)) LF = false).
  { intros v Hv.
    assert (Hall : forallb digit_plain (Z.of_nat <$> seq 0 64) = true)
      by by vm_compute.
    pose proof (forall_below 64 digit_plain Hall v Hv) as H.
    unfold digit_plain in H. by apply negb_true_iff in H. }
  induction bytes as [|b0|b0 b1|b0 b1 b2 rest IH] using list_ind3.
  - done.
  - intros [H0 _]%Forall_cons.
    destruct (last_bytes b0 b0 H0 H0) as (Hj1 & _).
    destruct (first_byte b0 b0 H0 H0) as (Hi0 & _).
    unfold text_of. simpl. by rewrite !Hd by done.
  - intros [H0 [H1 _]%Forall_cons]%Forall_cons.
    destruct (first_byte b0 b1 H0 H1) as (Hi0 & Hi1 & _).
    destruct (last_bytes b1 b1 H1 H1) as (_ & Hj2 & _).
    unfold text_of. simpl. by rewrite !Hd by done.
  - intros [H0 [H1 [H2 Hrest]%Forall_cons]%Forall_cons]%Forall_cons.
    destruct (first_byte b0 b1 H0 H1) as (Hi0 & Hi1 & _).
    destruct (second_byte b1 b2 H1 H2) as (Hi2 & Hi3 & _).
    specialize (IH Hrest). unfold text_of in *.
    change (encode (b0 :: b1 :: b2 :: rest))
      with (digit (Z.shiftr b0 2)
            :: digit (Z.lor (Z.shiftl (Z.land b0 3) 4) (Z.shiftr b1 4))
            :: digit (Z.lor (Z.shiftl (Z.land b1 15) 2) (Z.shiftr b2 6))
            :: digit (Z.land b2 63) :: encode rest).
    rewrite !fmap_cons. simpl String.string_of_list_ascii. simpl has_char.
    by rewrite !Hd, IH by done.
Qed.

Section parser.
Variable unescape : string → list nat.

(** X29. A data URI made of a media type, [;base64,] and the base64
    encoding of some bytes is parsed back into this media type and
    these bytes, provided [unescape] leaves the encoding as it is (it
    holds no [%]). An empty media type is read as [text/plain] with the
    character set [US-ASCII]; otherwise no character set is reported and
    the full type is the media type. *)
Theorem data_uri_gives_back_the_bytes (mediatype : string)
    (bytes : list Z) (dataUriCache : DataUriCache.LRUCache ParsedDataURI) :
  Forall is_byte bytes →
  plain_media_type mediatype →
  unescape (text_of (encode bytes)) = encode bytes →
  JsMap.get (base64_uri mediatype bytes) (DataUriCache.cache dataUriCache)
    = None →
  (dataUriToBuffer unescape (base64_uri mediatype bytes) dataUriCache).1
  = inr (if decide (mediatype = EmptyString)
         then Parsed "text/plain" "text/plain;charset=US-ASCII" "US-ASCII"
                     bytes
         else Parsed mediatype mediatype EmptyString bytes).
Proof.
  intros Hbytes (Hcomma & Hsemi & Hlf) Hunescape Hmiss.
  set (payload := text_of (encode bytes)).
  set (pre := "data:" +:+ mediatype +:+ ";base64").
  assert (Huri : base64_uri mediatype bytes = pre +:+ "," +:+ payload).
  { unfold base64_uri, pre. fold payload.
    rewrite !append_assoc_string.
    by change (";base64," +:+ payload) with (";base64" +:+ "," +:+ payload). }
  assert (Hprefix : String.prefix "data:" (base64_uri mediatype bytes) = true).
  { apply HttpProxyMoreFacts.prefix_app_iff. by eexists. }
  assert (Hstrip : strip_newlines (base64_uri mediatype bytes)
                   = base64_uri mediatype bytes).
  { apply strip_newlines_id. unfold base64_uri.
    rewrite !has_char_app, Hlf. fold payload.
    unfold payload. by rewrite encode_plain. }
  assert (Hlen : String.length pre = (12 + String.length mediatype)%nat).
  { unfold pre. rewrite !length_append. simpl. lia. }
  assert (Hidx : indexOf "," (base64_uri mediatype bytes)
                 = Z.of_nat (String.length pre)).
  { unfold indexOf. rewrite Huri, index_of_first; [lia|].
    unfold pre. rewrite !has_char_app, Hcomma. done. }
  assert (Hmeta : substring_between 5 (Z.of_nat (String.length pre))
                    (base64_uri mediatype bytes)
                  = mediatype +:+ ";base64").
  { unfold substring_between.
    replace (Z.to_nat 5) with (String.length "data:") by done.
    unfold base64_uri at 1. fold payload.
    rewrite HttpProxyMoreFacts.drop_chars_app.
    replace (Z.to_nat (Z.of_nat (String.length pre) - 5))
      with (String.length (mediatype +:+ ";base64"))
      by (rewrite Hlen, length_append; simpl; lia).
    change (";base64," +:+ payload) with (";base64" +:+ "," +:+ payload).
    rewrite <- (append_assoc_string mediatype ";base64" ("," +:+ payload)).
    apply take_chars_app. }
  assert (Hdata : substring (Z.of_nat (String.length pre) + 1)
                    (base64_uri mediatype bytes) = payload).
  { unfold substring. rewrite Huri.
    replace (Z.to_nat (Z.of_nat (String.length pre) + 1))
      with (String.length (pre +:+ ","))
      by (rewrite length_append; simpl; lia).
    rewrite <- (append_assoc_string pre "," payload).
    apply HttpProxyMoreFacts.drop_chars_app. }
  assert (Hdecode : base64ToArrayBuffer (encode bytes) = bytes).
  { unfold base64ToArrayBuffer, outputLen.
    rewrite decode_loop_encode, output_of_encode by done.
    rewrite Z.mul_comm, Z.quot_mul by done.
    rewrite Nat2Z.id. apply resize_all. }
  unfold dataUriToBuffer, DataUriCache.get, JsMap.has.
  rewrite Hmiss, Hprefix. cbn [negb]. rewrite Hstrip, Hidx.
  rewrite bool_decide_eq_false_2 by lia.
  rewrite bool_decide_eq_false_2 by lia. cbn [orb].
  rewrite Hmeta, split_media_type by done.
  cbn [head tail default from_option id fold_left].
  unfold meta_step at 1. rewrite decide_True by done.
  rewrite Hdata. fold payload in Hunescape. rewrite Hunescape, Hdecode.
  destruct mediatype as [|c s].
  - by rewrite decide_True.
  - by rewrite decide_False.
Qed.
End parser.

(** The URI [data:text/plain;base64,aGk=] holds the two bytes of
    [hi]. *)
Lemma data_uri_gives_back_the_bytes_witness :
  (dataUriToBuffer example_unescape (base64_uri "text/plain" [104; 105])
     (DataUriCache.Cache 100 [])).1
  = inr (if decide ("text/plain" = EmptyString)
         then Parsed "text/plain" "text/plain;charset=US-ASCII" "US-ASCII"
                     [104; 105]
         else Parsed "text/plain" "text/plain" EmptyString [104; 105]) ∧
  base64_uri "text/plain" [104; 105] = "data:text/plain;base64,aGk=".
Proof.
  split; [|reflexivity].
  apply (data_uri_gives_back_the_bytes example_unescape "text/plain"
           [104; 105] (DataUriCache.Cache 100 [])).
  - repeat constructor; done.
  - by split_and!.
  - reflexivity.
  - reflexivity.
Defined.

End DataUriParserFacts.
